(** * Mapfile structural analysis: formatter, END detector, syntax detector,
      extent synchroniser and WFS classifier.

    Shallow embedding of

    - [formatMapfile]            (src/unnamed/part_003, the formatter),
    - [tokenizeLine], [analyze]  (src/unnamed/part_004, the END detector),
    - [syntaxisErrorDetector]    (src/unnamed/part_004, the syntax detector),
    - [ExtentSyncService]        (src/client/src/app/core/extent-sync.service.ts),
    - [ProjectionService]        (src/unnamed/part_000) and the save handlers
                                 of the application component (same file),
    - [MapViewportService]       (src/client/src/app/core/map-viewport.service.ts),
    - [getWfsSupportMap]         (the WFS support checker, at the end of
      src/client/src/app/components/save-as-dialog/save-as-dialog.component.ts).

    Strings are sequences of 8-bit characters ([list ascii]); a JavaScript
    string whose code units are below 256 is represented exactly.  Case
    conversion is the ASCII one: every comparison the code makes after
    [toUpperCase]/[toLowerCase] is against an ASCII constant, or on a token
    that the lexer restricted to [[A-Za-z0-9_]].

    The file has two parts: the definitions, module by module, and then the
    lemmas and theorems about them. *)

From Stdlib Require Import String Ascii Bool Arith ZArith QArith Lia List Sorted.
From Stdlib Require Import Numbers.DecimalString QArith.Qround QArith.Qabs.
Import ListNotations.

Local Open Scope nat_scope.
Local Open Scope list_scope.

(* ================================================================== *)
(** ** Strings as the code sees them                                   *)
(* ================================================================== *)

Definition str := list ascii.

(** Literal of the source, as a character list. *)
Definition L (s : string) : str := list_ascii_of_string s.

Definition TAB : ascii := "009"%char.
Definition LF : ascii := "010"%char.
Definition CR : ascii := "013"%char.
Definition SP : ascii := " "%char.
Definition HASH : ascii := "#"%char.
Definition DQ : ascii := "034"%char.
Definition SQ : ascii := "'"%char.
Definition BSL : ascii := "\"%char.

(** [\s] of a JavaScript regular expression and the characters removed by
    [String.prototype.trim], among the code units below 256. *)
Definition is_space (c : ascii) : bool :=
  let n := nat_of_ascii c in
  (n =? 9) || (n =? 10) || (n =? 11) || (n =? 12) || (n =? 13)
  || (n =? 32) || (n =? 160).

(** Line terminators, which [.] does not match. *)
Definition is_line_terminator (c : ascii) : bool :=
  Ascii.eqb c LF || Ascii.eqb c CR.

Definition is_upper (c : ascii) : bool :=
  let n := nat_of_ascii c in (65 <=? n) && (n <=? 90).
Definition is_lower (c : ascii) : bool :=
  let n := nat_of_ascii c in (97 <=? n) && (n <=? 122).
Definition is_digit (c : ascii) : bool :=
  let n := nat_of_ascii c in (48 <=? n) && (n <=? 57).
Definition is_alpha (c : ascii) : bool := is_upper c || is_lower c.

(** [[A-Za-z_]] and [[A-Za-z0-9_]] (also [\w], and [[A-Z0-9_]] under [/i]). *)
Definition is_word_start (c : ascii) : bool := is_alpha c || Ascii.eqb c "_"%char.
Definition is_word_char (c : ascii) : bool :=
  is_alpha c || is_digit c || Ascii.eqb c "_"%char.

Definition upper (c : ascii) : ascii :=
  if is_lower c then ascii_of_nat (nat_of_ascii c - 32) else c.
Definition lower (c : ascii) : ascii :=
  if is_upper c then ascii_of_nat (nat_of_ascii c + 32) else c.

Definition toUpperCase (s : str) : str := map upper s.
Definition toLowerCase (s : str) : str := map lower s.

Fixpoint str_eqb (a b : str) : bool :=
  match a, b with
  | [], [] => true
  | x :: a', y :: b' => Ascii.eqb x y && str_eqb a' b'
  | _, _ => false
  end.

Definition is_empty (s : str) : bool :=
  match s with [] => true | _ => false end.

Definition is_nil {A} (l : list A) : bool :=
  match l with [] => true | _ => false end.

(** [s.startsWith(p)] *)
Fixpoint startsWith (p s : str) : bool :=
  match p, s with
  | [], _ => true
  | x :: p', y :: s' => Ascii.eqb x y && startsWith p' s'
  | _ :: _, [] => false
  end.

(** [s.includes(p)] *)
Fixpoint includes (p s : str) : bool :=
  startsWith p s || match s with [] => false | _ :: s' => includes p s' end.

Fixpoint trimStart (s : str) : str :=
  match s with
  | c :: r => if is_space c then trimStart r else s
  | [] => []
  end.
Definition trimEnd (s : str) : str := rev (trimStart (rev s)).
Definition trim (s : str) : str := trimEnd (trimStart s).

(** [ls.join(sep)] *)
Fixpoint join (sep : str) (ls : list str) : str :=
  match ls with
  | [] => []
  | [l] => l
  | l :: r => l ++ sep ++ join sep r
  end.

(** [s.split('\n')] *)
Fixpoint split_nl (s : str) : list str :=
  match s with
  | [] => [[]]
  | c :: r =>
      if Ascii.eqb c LF then [] :: split_nl r
      else match split_nl r with
           | l :: ls => (c :: l) :: ls
           | [] => [[c]]
           end
  end.

(** Removes one final carriage return. *)
Fixpoint chomp_cr (l : str) : str :=
  match l with
  | [] => []
  | c :: r =>
      match r with
      | [] => if Ascii.eqb c CR then [] else [c]
      | _ => c :: chomp_cr r
      end
  end.

Fixpoint map_but_last {A} (f : A -> A) (l : list A) : list A :=
  match l with
  | [] => []
  | x :: r => match r with [] => [x] | _ => f x :: map_but_last f r end
  end.

(** [s.split(/\r?\n/)]: the text is cut at every line feed, and a carriage
    return just before the line feed belongs to the separator. *)
Definition split_crlf (s : str) : list str := map_but_last chomp_cr (split_nl s).

(** Under [/i]: the text [t] starts with keyword [k], whatever the case; the
    remainder is returned. *)
Fixpoint strip_prefix_ci (k t : str) : option str :=
  match k, t with
  | [], _ => Some t
  | a :: k', c :: t' =>
      if Ascii.eqb (upper a) (upper c) then strip_prefix_ci k' t' else None
  | _ :: _, [] => None
  end.

(** Longest prefix of characters satisfying [p], and the rest. *)
Fixpoint span (p : ascii -> bool) (s : str) : str * str :=
  match s with
  | c :: r => if p c then let '(a, b) := span p r in (c :: a, b) else ([], s)
  | [] => ([], [])
  end.

(** [\b] after a keyword that ends in a word character: the next character,
    if any, is not a word character. *)
Definition at_word_boundary (rest : str) : bool :=
  match rest with [] => true | c :: _ => negb (is_word_char c) end.

(** A string without surrounding white space. *)
Definition clean (t : str) : Prop :=
  (forall c r, t = c :: r -> is_space c = false) /\
  (forall r c, t = r ++ [c] -> is_space c = false).

(* ================================================================== *)
(** ** Formatter ([formatMapfile])                                     *)
(* ================================================================== *)

Module Formatter.

Definition OPENERS : list str := map L
  [ "MAP"; "LAYER"; "CLASS"; "STYLE"; "LABEL"; "PROJECTION"; "METADATA";
    "OUTPUTFORMAT"; "WEB"; "FEATURE"; "LEGEND"; "SCALEBAR"; "QUERYMAP";
    "CLUSTER"; "GRID"; "LEADER"; "SYMBOL"; "VALIDATION"; "JOIN"; "JOINS";
    "GEOTRANSFORM"; "COMPOSITE"; "PATTERN" ]%string.

(** [const IND = ' '.repeat(Number(indentSize) > 0 ? Number(indentSize) : 4)] *)
Definition IND (indentSize : Z) : str :=
  repeat SP (Z.to_nat (if (0 <? indentSize)%Z then indentSize else 4%Z)).

(** [IND.repeat(n)] *)
Definition repeat_str (s : str) (n : nat) : str := concat (repeat s n).

(** [text.replace(/\t/g, '  ')] *)
Definition replace_tabs (s : str) : str :=
  flat_map (fun c => if Ascii.eqb c TAB then [SP; SP] else [c]) s.

(** What may follow the keyword in [openerLine]: optional white space, then
    either the end of the line or a [#] comment free of line terminators. *)
Definition opener_tail (rest : str) : bool :=
  match trimStart rest with
  | [] => true
  | c :: r => Ascii.eqb c HASH && forallb (fun x => negb (is_line_terminator x)) r
  end.

(** [trimmed.match(openerLine)]: the captured keyword [m[1]], as written. *)
Definition match_openerLine (t : str) : option str :=
  match find (fun k => match strip_prefix_ci k t with
                       | Some rest => opener_tail rest
                       | None => false
                       end) OPENERS with
  | Some k => Some (firstn (length k) t)
  | None => None
  end.

(** [trimmed.match(endLine)], where [endLine] is END, then optionally white
    space, an optional [#] with white space, and a block name in
    [[A-Z0-9_]+], then white space up to the end of the line, case
    insensitive: [None] when the line does not match, [Some None] for a bare
    END, [Some (Some name)] with the captured block name. *)
Definition match_endLine (t : str) : option (option str) :=
  match strip_prefix_ci (L "END") t with
  | None => None
  | Some rest =>
      match trimStart rest with
      | [] => Some None
      | c :: r as r1 =>
          let r2 := if Ascii.eqb c HASH then trimStart r else r1 in
          let '(name, r3) := span is_word_char r2 in
          if negb (is_empty name) && is_empty (trimStart r3)
          then Some (Some name) else None
      end
  end.

(** The realignment loop: the stack is kept top first (the head of the list
    is the last element of the JavaScript array); everything above the
    innermost frame called [name] is dropped, the frame itself is kept. *)
Fixpoint realign (name : str) (stack : list str) : option (list str) :=
  match stack with
  | [] => None
  | k :: below =>
      if str_eqb (toUpperCase k) name then Some stack else realign name below
  end.

(** One iteration of [for (const raw of lines)]: the new stack and the line
    pushed on [out], from the trimmed line. *)
Definition step_trimmed (ind : str) (stack : list str) (trimmed : str)
  : list str * str :=
  if is_empty trimmed then (stack, [])
  else if startsWith [HASH] trimmed
  then (stack, repeat_str ind (length stack) ++ trimmed)
  else
    match match_endLine trimmed with
    | Some mEnd1 =>
        let stack1 :=
          match mEnd1 with
          | Some n =>
              match realign (toUpperCase n) stack with
              | Some s => s
              | None => stack
              end
          | None => stack
          end in
        let stack2 := tl stack1 in
        (stack2, repeat_str ind (length stack2) ++ trimmed)
    | None =>
        let o := repeat_str ind (length stack) ++ trimmed in
        match match_openerLine trimmed with
        | Some m1 =>
            let rest := trim (skipn (length m1) trimmed) in
            if is_empty rest || startsWith [HASH] rest
            then (toUpperCase m1 :: stack, o)
            else (stack, o)
        | None => (stack, o)
        end
    end.

Definition step (ind : str) (stack : list str) (raw : str) : list str * str :=
  step_trimmed ind stack (trim raw).

Fixpoint loop (ind : str) (stack : list str) (lines : list str) : list str :=
  match lines with
  | [] => []
  | raw :: rest =>
      let '(stack', o) := step ind stack raw in
      o :: loop ind stack' rest
  end.

Definition formatMapfile (src : str) (indentSize : Z) : str :=
  let text := replace_tabs src in
  let lines := split_crlf text in
  join [LF] (loop (IND indentSize) [] lines).


End Formatter.

(* ================================================================== *)
(** ** Shared tokenizer ([tokenizeLine])                               *)
(* ================================================================== *)

(** The same function is written out in [endDetector.js] and in
    [syntaxisErrorDetector.js]; both copies are this one. *)
Module Lexer.

Inductive token : Type :=
| TString (value : str) (col : nat) (quote : ascii) (closed : bool)
| TWord (text : str) (col : nat).

Definition is_word (t : token) : bool :=
  match t with TWord _ _ => true | TString _ _ _ _ => false end.

Definition tok_col (t : token) : nat :=
  match t with TWord _ c => c | TString _ c _ _ => c end.

(** [{ inBlockComment, inQuote, quoteChar }]; [quoteChar] is [''] ([None])
    or the quote character. *)
Record LexerState : Type := mkState {
  inBlockComment : bool;
  inQuote : bool;
  quoteChar : option ascii
}.

Definition fresh : LexerState := mkState false false None.

(** [{ tokens, state, unclosedQuotes }] *)
Record scanned : Type := mkScanned {
  tokens : list token;
  state : LexerState;
  unclosedQuotes : list (nat * ascii)
}.

Definition done (st : LexerState) : scanned := mkScanned [] st [].

Definition push_token (t : token) (r : scanned) : scanned :=
  mkScanned (t :: tokens r) (state r) (unclosedQuotes r).

Definition push_unclosed (u : nat * ascii) (r : scanned) : scanned :=
  mkScanned (tokens r) (state r) (u :: unclosedQuotes r).

(** [line.indexOf('*/', i)]: the text after the first [*/], if there is one. *)
Fixpoint after_comment_end (s : str) : option str :=
  match s with
  | c1 :: r1 =>
      match r1 with
      | c2 :: r2 =>
          if Ascii.eqb c1 "*"%char && Ascii.eqb c2 "/"%char then Some r2
          else after_comment_end r1
      | [] => None
      end
  | [] => None
  end.

(** The [for] loop that looks for the end of a quote carried over from an
    earlier line: the text after the closing quote, if it is on this line. *)
Fixpoint after_carried_quote (quote : option ascii) (s : str) (escaped : bool)
  : option str :=
  match s with
  | [] => None
  | c :: r =>
      if escaped then after_carried_quote quote r false
      else if Ascii.eqb c BSL then after_carried_quote quote r true
      else if match quote with Some q => Ascii.eqb c q | None => false end
      then Some r
      else after_carried_quote quote r false
  end.

(** The [for] loop that reads a quoted string after its opening quote: the
    value, whether the closing quote was found, and the text after it. *)
Fixpoint read_quoted (quote : ascii) (s : str) (val : str) (escaped : bool)
  : str * bool * str :=
  match s with
  | [] => (val, false, [])
  | c :: r =>
      if escaped then read_quoted quote r (val ++ [c]) false
      else if Ascii.eqb c BSL then read_quoted quote r val true
      else if Ascii.eqb c quote then (val, true, r)
      else read_quoted quote r (val ++ [c]) false
  end.

Definition next_is (c : ascii) (tail : str) : bool :=
  match tail with x :: _ => Ascii.eqb x c | [] => false end.

(** The [while (i < line.length)] loop; [rest] is [line.slice(i)].  Every
    iteration consumes at least one character, so [fuel = line.length]
    iterations are enough ([scan_fuel] below). *)
Fixpoint scan (fuel : nat) (allowMultilineQuotes : bool)
         (rest : str) (i : nat) (st : LexerState) : scanned :=
  match fuel with
  | 0 => done st
  | S fuel' =>
      match rest with
      | [] => done st
      | ch :: tail =>
          if inBlockComment st then
            match after_comment_end rest with
            | None => done st
            | Some rest' =>
                scan fuel' allowMultilineQuotes rest'
                     (i + (length rest - length rest'))
                     (mkState false (inQuote st) (quoteChar st))
            end
          else if inQuote st then
            match after_carried_quote (quoteChar st) rest false with
            | None => done st
            | Some rest' =>
                scan fuel' allowMultilineQuotes rest'
                     (i + (length rest - length rest'))
                     (mkState (inBlockComment st) false None)
            end
          else if Ascii.eqb ch HASH then done st
          else if Ascii.eqb ch "/"%char && next_is "/"%char tail then done st
          else if Ascii.eqb ch "/"%char && next_is "*"%char tail then
            scan fuel' allowMultilineQuotes (tl tail) (i + 2)
                 (mkState true (inQuote st) (quoteChar st))
          else if is_space ch then
            scan fuel' allowMultilineQuotes tail (i + 1) st
          else if Ascii.eqb ch DQ || Ascii.eqb ch SQ then
            let q := read_quoted ch tail [] false in
            let val := fst (fst q) in
            let closed := snd (fst q) in
            let rest' := snd q in
            let startCol := i + 1 in
            push_token (TString val startCol ch closed)
              (if closed
               then scan fuel' allowMultilineQuotes rest'
                         (i + (length rest - length rest')) st
               else push_unclosed (startCol, ch)
                      (if allowMultilineQuotes
                       then done (mkState (inBlockComment st) true (Some ch))
                       else done st))
          else if is_word_start ch then
            let w := span is_word_char tail in
            push_token (TWord (ch :: fst w) (i + 1))
              (scan fuel' allowMultilineQuotes (snd w)
                    (i + 1 + length (fst w)) st)
          else scan fuel' allowMultilineQuotes tail (i + 1) st
      end
  end.

Definition tokenizeLine (line : str) (st : LexerState)
           (allowMultilineQuotes : bool) : scanned :=
  scan (length line) allowMultilineQuotes line 0 st.

End Lexer.

(* ================================================================== *)
(** ** Balance detector ([analyze] of [endDetector.js])                *)
(* ================================================================== *)

Module EndDetector.
Import Lexer.

Definition DEFAULT_BLOCK_OPENERS : list str := map L
  [ "MAP"; "LAYER"; "CLASS"; "STYLE"; "LABEL"; "LEADER"; "WEB"; "METADATA";
    "PROJECTION"; "OUTPUTFORMAT"; "SYMBOL"; "QUERYMAP"; "REFERENCE";
    "SCALEBAR"; "LEGEND"; "VALIDATION"; "JOIN"; "CLUSTER"; "COMPOSITE";
    "FEATURE"; "GRID"; "IDENTIFY"; "PATTERN"; "POINTS" ]%string.

Record options : Type := mkOptions {
  extraOpeners : list str;
  enableHeuristicOpeners : bool;
  allowMultilineQuotes : bool;
  allowInlineEndWithoutOpener : bool
}.

(** [options = {}] *)
Definition default_options : options := mkOptions [] true false false.

(** A frame of [stack]: [{ type, line, col }]. *)
Record frame : Type := mkFrame { type : str; line : nat; col : nat }.

(** An entry of [extraEnds]: [{ line, col, excerpt }]. *)
Record extraEnd : Type := mkExtra { e_line : nat; e_col : nat; excerpt : str }.

(** One string pushed on [messageParts]; the Greek wording of each template
    is not reproduced, its interpolated values are. *)
Inductive part : Type :=
| PTitle
| PNoProblem
| PFound (extra missing : nat)
| PExtraHeading
| PExtra (e : extraEnd)
| PMissingHeading
| PMissing (b : frame)
| PNesting (outer_to_inner : list frame).

Record result : Type := mkResult {
  ok : bool;
  extraEnds : list extraEnd;
  missingEnds : list frame;
  message : list part
}.

(** [text.replace(/\r\n?/g, '\n')] *)
Fixpoint normalize_newlines (s : str) : str :=
  match s with
  | [] => []
  | c :: r =>
      if Ascii.eqb c CR then
        LF :: match r with
              | c2 :: r2 => if Ascii.eqb c2 LF then normalize_newlines r2
                            else normalize_newlines r
              | [] => []
              end
      else c :: normalize_newlines r
  end.

(** The pattern of [isAllCapsIdentifier], [[A-Z_][A-Z0-9_]*] anchored at both
    ends. *)
Definition isAllCapsIdentifier (s : str) : bool :=
  match s with
  | c :: r =>
      (is_upper c || Ascii.eqb c "_"%char)
      && forallb (fun x => is_upper x || is_digit x || Ascii.eqb x "_"%char) r
  | [] => false
  end.

Definition openers_of (o : options) : list str :=
  DEFAULT_BLOCK_OPENERS ++ map toUpperCase (extraOpeners o).

Definition has (set : list str) (k : str) : bool := existsb (str_eqb k) set.

Definition word_text (t : token) : str :=
  match t with TWord x _ => x | TString v _ _ _ => v end.

(** The scan variables that live across lines: the array [stack] (first
    element = outermost frame, last = innermost), [extraEnds] and the lexer
    [state]. *)
Record scan_state : Type := mkScan {
  stack : list frame;
  extras : list extraEnd;
  lex : LexerState
}.

(** The [for (tIdx ...)] loop over the word tokens of one line. *)
Fixpoint handle_ends (o : options) (openedThisLine : bool) (lineNo : nat)
         (ln : str) (tIdx : nat) (toks : list token)
         (stk : list frame) (ex : list extraEnd)
  : list frame * list extraEnd :=
  match toks with
  | [] => (stk, ex)
  | tok :: rest =>
      let kw := toUpperCase (word_text tok) in
      if negb (str_eqb kw (L "END")) then
        handle_ends o openedThisLine lineNo ln (S tIdx) rest stk ex
      else
        let shouldHonor :=
          (tIdx =? 0) || allowInlineEndWithoutOpener o || openedThisLine in
        if negb shouldHonor then
          handle_ends o openedThisLine lineNo ln (S tIdx) rest stk ex
        else
          match stk with
          | [] =>
              handle_ends o openedThisLine lineNo ln (S tIdx) rest stk
                (ex ++ [mkExtra lineNo (tok_col tok) (firstn 200 (trim ln))])
          | _ :: _ =>
              handle_ends o openedThisLine lineNo ln (S tIdx) rest
                (removelast stk) ex
          end
  end.

(** The body of [for (let idx ...)] for the line [ln] numbered [lineNo]. *)
Definition line_step (o : options) (lineNo : nat) (ln : str) (s : scan_state)
  : scan_state :=
  let out := tokenizeLine ln (lex s) (allowMultilineQuotes o) in
  let wordTokens := filter is_word (tokens out) in
  match wordTokens with
  | [] => mkScan (stack s) (extras s) (state out)
  | w0 :: _ =>
      let first := toUpperCase (word_text w0) in
      let isKnownOpener := has (openers_of o) first in
      let isHeuristicOpener :=
        enableHeuristicOpeners o
        && (length wordTokens =? 1)
        && isAllCapsIdentifier first
        && (3 <=? length first)
        && negb (str_eqb first (L "END")) in
      let openedThisLine := isKnownOpener || isHeuristicOpener in
      let stk :=
        if openedThisLine
        then stack s ++ [mkFrame first lineNo (tok_col w0)]
        else stack s in
      let r := handle_ends o openedThisLine lineNo ln 0 wordTokens stk (extras s) in
      mkScan (fst r) (snd r) (state out)
  end.

Fixpoint scan_lines (o : options) (lineNo : nat) (lines : list str)
         (s : scan_state) : scan_state :=
  match lines with
  | [] => s
  | ln :: rest => scan_lines o (S lineNo) rest (line_step o lineNo ln s)
  end.

Definition build_message (okv : bool) (ex : list extraEnd) (ms : list frame)
  : list part :=
  if okv then [PTitle; PNoProblem]
  else
    [PTitle; PFound (length ex) (length ms)]
    ++ (if is_nil ex then [] else PExtraHeading :: map PExtra ex)
    ++ (if is_nil ms then []
        else PMissingHeading :: map PMissing (rev ms) ++ [PNesting ms]).

Definition analyze (mapfileText : str) (o : options) : result :=
  let lines := split_nl (normalize_newlines mapfileText) in
  let s := scan_lines o 1 lines (mkScan [] [] fresh) in
  let missing := stack s in
  let okv := is_nil (extras s) && is_nil missing in
  mkResult okv (extras s) missing (build_message okv (extras s) missing).

(** [endDetector] returns the message only. *)
Definition endDetector (mapfileText : str) (o : options) : list part :=
  message (analyze mapfileText o).

End EndDetector.

(* ================================================================== *)
(** ** Syntax and context checker ([syntaxisErrorDetector])            *)
(* ================================================================== *)

Module SyntaxDetector.
Import Lexer.

Definition BLOCKS : list str := map L
  [ "MAP"; "LAYER"; "CLASS"; "STYLE"; "WEB"; "METADATA"; "PROJECTION";
    "LABEL"; "OUTPUTFORMAT"; "SYMBOL"; "LEGEND"; "SCALEBAR"; "QUERYMAP";
    "REFERENCE"; "CLUSTER"; "GRID"; "COMPOSITE" ]%string.

Definition table (rows : list (string * list string)) : list (str * list str) :=
  map (fun r => (L (fst r), map L (snd r))) rows.

Definition ALLOWED_PARENTS : list (str * list str) := table
  [ ("MAP", ["ROOT"]);
    ("LAYER", ["MAP"]);
    ("CLASS", ["LAYER"]);
    ("STYLE", ["CLASS"; "LABEL"]);
    ("LABEL", ["CLASS"]);
    ("WEB", ["MAP"]);
    ("METADATA", ["MAP"; "LAYER"; "CLASS"; "WEB"; "OUTPUTFORMAT"]);
    ("PROJECTION", ["MAP"; "LAYER"]);
    ("OUTPUTFORMAT", ["MAP"]);
    ("SYMBOL", ["MAP"]);
    ("LEGEND", ["MAP"]);
    ("SCALEBAR", ["MAP"]);
    ("QUERYMAP", ["MAP"]);
    ("REFERENCE", ["MAP"]);
    ("CLUSTER", ["LAYER"]);
    ("GRID", ["LAYER"]);
    ("COMPOSITE", ["LAYER"]) ]%string.

(** The value of a key of [ALLOWED_FIRST_TOKENS]: a set, or [null]. *)
Definition ALLOWED_FIRST_TOKENS : list (str * option (list str)) :=
  map (fun r => (L (fst r), option_map (map L) (snd r)))
  [ ("ROOT", Some ["MAP"]);
    ("MAP", Some
       [ "NAME"; "STATUS"; "EXTENT"; "UNITS"; "SIZE"; "IMAGETYPE"; "IMAGECOLOR";
         "SHAPEPATH"; "FONTSET"; "SYMBOLSET"; "CONFIG"; "DEBUG";
         "OUTPUTFORMAT"; "SYMBOL"; "WEB"; "LAYER";
         "LEGEND"; "SCALEBAR"; "QUERYMAP"; "REFERENCE";
         "PROJECTION"; "METADATA";
         "MAXSIZE"; "RESOLUTION"; "DEFRESOLUTION"; "ANGLE"; "TRANSPARENT";
         "END"; "INCLUDE" ]);
    ("LAYER", Some
       [ "NAME"; "TYPE"; "STATUS"; "DATA"; "CONNECTION"; "CONNECTIONTYPE";
         "FILTER"; "FILTERITEM"; "FILTERTYPE";
         "CLASSITEM"; "LABELITEM"; "GROUP";
         "MINSCALEDENOM"; "MAXSCALEDENOM";
         "MINDISTANCE"; "MAXDISTANCE";
         "OPACITY"; "TRANSPARENCY";
         "PROCESSING"; "VALIDATION"; "TEMPLATE"; "HEADER"; "FOOTER";
         "TOLERANCE"; "TOLERANCEUNITS";
         "PROJECTION"; "METADATA";
         "CLASS"; "CLUSTER"; "GRID"; "COMPOSITE";
         "END"; "INCLUDE" ]);
    ("CLASS", Some
       [ "NAME"; "TITLE"; "GROUP"; "EXPRESSION"; "TEXT";
         "MINSCALEDENOM"; "MAXSCALEDENOM";
         "STYLE"; "LABEL";
         "TEMPLATE"; "KEYIMAGE";
         "METADATA";
         "OPACITY";
         "END"; "INCLUDE" ]);
    ("STYLE", Some
       [ "COLOR"; "OUTLINECOLOR"; "WIDTH"; "MINWIDTH"; "MAXWIDTH";
         "SIZE"; "MINSIZE"; "MAXSIZE";
         "SYMBOL"; "PATTERN"; "GAP"; "ANGLE";
         "OPACITY";
         "END" ]);
    ("LABEL", Some
       [ "TEXT"; "TYPE"; "FONT"; "SIZE"; "MINSIZE"; "MAXSIZE";
         "COLOR"; "OUTLINECOLOR"; "SHADOWCOLOR"; "SHADOWSIZE";
         "POSITION"; "OFFSET"; "ANGLE"; "WRAP"; "BUFFER";
         "MINSCALEDENOM"; "MAXSCALEDENOM";
         "STYLE";
         "END" ]);
    ("WEB", Some
       [ "IMAGEPATH"; "IMAGEURL"; "TEMPLATE"; "HEADER"; "FOOTER"; "ERROR";
         "METADATA"; "END" ]);
    ("OUTPUTFORMAT", Some
       [ "NAME"; "DRIVER"; "MIMETYPE"; "IMAGEMODE"; "EXTENSION";
         "FORMATOPTION"; "TRANSPARENT"; "END"; "METADATA" ]);
    ("METADATA", None);
    ("PROJECTION", None);
    ("SYMBOL", Some ["NAME"; "TYPE"; "IMAGE"; "POINTS"; "FILLED"; "END"]);
    ("LEGEND", Some ["STATUS"; "KEYSIZE"; "LABEL"; "TEMPLATE"; "END"]);
    ("SCALEBAR", Some ["STATUS"; "SIZE"; "INTERVALS"; "UNITS"; "COLOR"; "END"]);
    ("QUERYMAP", Some ["STATUS"; "SIZE"; "COLOR"; "STYLE"; "END"]);
    ("REFERENCE", Some ["STATUS"; "IMAGE"; "EXTENT"; "SIZE"; "COLOR"; "END"]);
    ("CLUSTER", Some ["MAXDISTANCE"; "REGION"; "BUFFER"; "END"]);
    ("GRID", Some ["MINARCS"; "MAXARCS"; "MININTERVAL"; "MAXINTERVAL"; "END"]);
    ("COMPOSITE", Some ["OPACITY"; "COMPOP"; "END"]) ]%string.

Definition has (set : list str) (k : str) : bool := existsb (str_eqb k) set.

(** [obj[key]]: the value of the first row with that key. *)
Fixpoint get {V} (obj : list (str * V)) (key : str) : option V :=
  match obj with
  | [] => None
  | (k, v) :: r => if str_eqb k key then Some v else get r key
  end.

(** [ALLOWED_FIRST_TOKENS[ctx]], a missing key and [null] both being falsy. *)
Definition first_tokens (ctx : str) : option (list str) :=
  match get ALLOWED_FIRST_TOKENS ctx with
  | Some (Some set) => Some set
  | _ => None
  end.

Definition first_tokens_or_empty (ctx : string) : list str :=
  match first_tokens (L ctx) with Some s => s | None => [] end.

Definition GLOBAL_KNOWN : list str :=
  filter (fun k => negb (str_eqb k (L "ROOT"))) (map fst ALLOWED_FIRST_TOKENS)
  ++ first_tokens_or_empty "ROOT"
  ++ first_tokens_or_empty "MAP"
  ++ first_tokens_or_empty "LAYER"
  ++ first_tokens_or_empty "CLASS"
  ++ first_tokens_or_empty "STYLE"
  ++ first_tokens_or_empty "LABEL"
  ++ first_tokens_or_empty "WEB"
  ++ first_tokens_or_empty "OUTPUTFORMAT"
  ++ [L "END"].

(** A frame of [stack]: [{ type, line, col }]. *)
Record frame : Type := mkFrame { type : str; line : nat; col : nat }.

Definition ROOT : frame := mkFrame (L "ROOT") 0 0.

(** [stack[stack.length - 1]?.type || 'ROOT'] *)
Definition currentContext (stack : list frame) : str :=
  match rev stack with
  | f :: _ => if is_empty (type f) then L "ROOT" else type f
  | [] => L "ROOT"
  end.

Definition isAllowedParent (child parent : str) : bool :=
  match get ALLOWED_PARENTS child with
  | None => true
  | Some allowed => has allowed parent
  end.

Definition contextsWhereKeywordIsAllowed (kw : str) : list str :=
  filter (fun c => negb (str_eqb c (L "ROOT")))
    (flat_map (fun row => match snd row with
                          | Some set => if has set kw then [fst row] else []
                          | None => []
                          end) ALLOWED_FIRST_TOKENS).

(** The pattern [[A-Z_][A-Z0-9_]*] anchored at both ends. *)
Definition looksUpperKeyword (s : str) : bool :=
  match s with
  | c :: r =>
      (is_upper c || Ascii.eqb c "_"%char)
      && forallb (fun x => is_upper x || is_digit x || Ascii.eqb x "_"%char) r
  | [] => false
  end.

Inductive IssueKind : Type :=
| NESTING | END_MISMATCH | MISSING_END | MISSING_QUOTE
| UNKNOWN_KEYWORD | CONTEXT | METADATA_FORMAT.

Inductive Severity : Type := HARD | SOFT.

Definition kind_eqb (a b : IssueKind) : bool :=
  match a, b with
  | NESTING, NESTING | END_MISMATCH, END_MISMATCH | MISSING_END, MISSING_END
  | MISSING_QUOTE, MISSING_QUOTE | UNKNOWN_KEYWORD, UNKNOWN_KEYWORD
  | CONTEXT, CONTEXT | METADATA_FORMAT, METADATA_FORMAT => true
  | _, _ => false
  end.

Definition is_soft (s : Severity) : bool :=
  match s with SOFT => true | HARD => false end.
Definition is_hard (s : Severity) : bool :=
  match s with HARD => true | SOFT => false end.

(** The [message] of an issue, by the values interpolated in its template;
    the Greek wording, and the typo suggestions appended to the
    UNKNOWN_KEYWORD text, are not reproduced. *)
Inductive Message : Type :=
| MOpenQuote (quote : ascii)
| MEndWithoutBlock
| MWrongNesting (kw parent : str) (expected : list str)
| MSuspectContext (kw parent : str)
| MMetadataFormat
| MWrongContext (kw ctx : str) (known : bool) (allowedIn : list str)
| MUnknownKeyword (kw : str)
| MMissingEnd (openBlocks : list frame).

Record Issue : Type := mkIssue {
  lineNo : nat;
  icol : nat;
  kind : IssueKind;
  severity : Severity;
  message : Message;
  excerpt : str
}.

Record options : Type := mkOptions {
  includeNotes : bool;
  (** [None]: absent or not a finite number; [Some z]: a finite number,
      given by its floor. *)
  softSuppressionLines : option Z;
  allowMultilineQuotes : bool
}.

Definition default_options : options := mkOptions true None false.

(** [Number.isFinite(x) ? Math.max(0, Math.floor(x)) : 25] *)
Definition suppression_window (o : options) : nat :=
  match softSuppressionLines o with
  | Some z => Z.to_nat (Z.max 0 z)
  | None => 25
  end.

(** The variables [addIssue] closes over. *)
Record sink : Type := mkSink {
  issues : list Issue;
  suppressSoftUntilLine : nat;
  suppressedSoftCount : nat
}.

Definition addIssue (window : nat) (issue : Issue) (k : sink) : sink :=
  if is_soft (severity issue) && (lineNo issue <=? suppressSoftUntilLine k)
  then mkSink (issues k) (suppressSoftUntilLine k) (S (suppressedSoftCount k))
  else
    mkSink (issues k ++ [issue])
           (if is_hard (severity issue)
            then Nat.max (suppressSoftUntilLine k) (lineNo issue + window)
            else suppressSoftUntilLine k)
           (suppressedSoftCount k).

(** The scan variables that live across lines. *)
Record scan_state : Type := mkScan {
  stack : list frame;
  out : sink;
  lex : LexerState
}.

Definition token_is_string (t : token) : bool := negb (is_word t).

Definition token_text (t : token) : str :=
  match t with TWord x _ => x | TString v _ _ _ => v end.

(** What the body of the scan loop does for a line whose first token is the
    word [firstTok], once the unclosed quotes are reported: the new stack,
    and the issues it passes to [addIssue], in the order of the calls.  (No
    branch of the loop reads what [addIssue] did, so the calls of a line can
    be collected first and made afterwards.) *)
Definition word_line (n : nat) (rawLine : str)
           (toks : list token) (firstTok : token)
           (stk : list frame) : list frame * list Issue :=
  let ctx := currentContext stk in
  let kw := toUpperCase (token_text firstTok) in
  let ex := trim rawLine in
  let c := tok_col firstTok in
  if str_eqb kw (L "END") then
    if length stk <=? 1
    then (stk, [mkIssue n c END_MISMATCH HARD MEndWithoutBlock ex])
    else (removelast stk, [])
  else if has BLOCKS kw then
    let parent := ctx in
    let nesting :=
      if negb (isAllowedParent kw parent)
      then [mkIssue n c NESTING HARD
              (MWrongNesting kw parent
                 (match get ALLOWED_PARENTS kw with Some l => l | None => [] end))
              ex]
      else [] in
    let context :=
      match first_tokens parent with
      | Some allowedSet =>
          if negb (has allowedSet kw)
          then [mkIssue n c CONTEXT SOFT (MSuspectContext kw parent) ex]
          else []
      | None => []
      end in
    (stk ++ [mkFrame kw n c], nesting ++ context)
  else if str_eqb ctx (L "METADATA") then
    match toks with
    | kTok :: vTok :: _ =>
        let kOk := token_is_string kTok
                   || (is_word kTok
                       && negb (looksUpperKeyword (toUpperCase (token_text kTok)))) in
        let vOk := token_is_string vTok || is_word vTok in
        if negb kOk || negb vOk
        then (stk, [mkIssue n (tok_col kTok) METADATA_FORMAT SOFT MMetadataFormat ex])
        else (stk, [])
    | _ => (stk, [])
    end
  else if str_eqb ctx (L "PROJECTION") then (stk, [])
  else
    let context :=
      match first_tokens ctx with
      | Some allowedHere =>
          if looksUpperKeyword kw && negb (has allowedHere kw)
          then
            let isKnown := has GLOBAL_KNOWN kw in
            let allowedIn :=
              if isKnown then contextsWhereKeywordIsAllowed kw else [] in
            [mkIssue n c CONTEXT SOFT
               (MWrongContext kw ctx isKnown (firstn 4 allowedIn)) ex]
          else []
      | None => []
      end in
    let unknown :=
      if looksUpperKeyword kw && negb (has GLOBAL_KNOWN kw)
      then [mkIssue n c UNKNOWN_KEYWORD SOFT (MUnknownKeyword kw) ex]
      else [] in
    (stk, context ++ unknown).

(** The stack and lexer state after the line [rawLine] numbered [n], and the
    issues the line passes to [addIssue], in order. *)
Definition line_calls (o : options) (n : nat) (rawLine : str)
           (stk : list frame) (lx : LexerState)
  : list frame * LexerState * list Issue :=
  let t := tokenizeLine rawLine lx (allowMultilineQuotes o) in
  match tokens t with
  | [] => (stk, state t, [])
  | firstTok :: _ =>
      let quotes :=
        map (fun uq => mkIssue n (fst uq) MISSING_QUOTE HARD
                         (MOpenQuote (snd uq)) (trim rawLine))
            (unclosedQuotes t) in
      if is_word firstTok then
        let r := word_line n rawLine (tokens t) firstTok stk in
        (fst r, state t, quotes ++ snd r)
      else (stk, state t, quotes)
  end.

Definition add_all (window : nat) (calls : list Issue) (k : sink) : sink :=
  fold_left (fun k i => addIssue window i k) calls k.

(** The body of [for (let idx ...)] for the line [rawLine] numbered [n]. *)
Definition line_step (o : options) (n : nat) (rawLine : str) (s : scan_state)
  : scan_state :=
  let r := line_calls o n rawLine (stack s) (lex s) in
  mkScan (fst (fst r)) (add_all (suppression_window o) (snd r) (out s))
         (snd (fst r)).

Fixpoint scan_lines (o : options) (n : nat) (lines : list str)
         (s : scan_state) : scan_state :=
  match lines with
  | [] => s
  | ln :: rest => scan_lines o (S n) rest (line_step o n ln s)
  end.

(** [s.replace(/\r\n/g, '\n')] and [s.replace(/\r/g, '\n')] *)
Fixpoint replace_crlf (s : str) : str :=
  match s with
  | [] => []
  | c :: r =>
      match r with
      | c2 :: r2 =>
          if Ascii.eqb c CR && Ascii.eqb c2 LF then LF :: replace_crlf r2
          else c :: replace_crlf r
      | [] => [c]
      end
  end.

Definition replace_cr (s : str) : str :=
  map (fun c => if Ascii.eqb c CR then LF else c) s.

Definition lines_of (mapfileText : str) : list str :=
  split_nl (replace_cr (replace_crlf mapfileText)).

Definition initial : scan_state := mkScan [ROOT] (mkSink [] 0 0) fresh.

(** The issue added at EOF when blocks are left open. *)
Definition eof_calls (nlines : nat) (stk : list frame) : list Issue :=
  if 1 <? length stk
  then [mkIssue nlines 0 MISSING_END HARD (MMissingEnd (tl stk)) []]
  else [].

(** The state at EOF, after the MISSING_END issue (if any) was added. *)
Definition scan_text (mapfileText : str) (o : options) : scan_state :=
  let lines := lines_of mapfileText in
  let s := scan_lines o 1 lines initial in
  mkScan (stack s)
         (add_all (suppression_window o) (eof_calls (length lines) (stack s)) (out s))
         (lex s).

(** Every issue passed to [addIssue] during a run, in the order of the
    calls. *)
Fixpoint calls_of_lines (o : options) (n : nat) (lines : list str)
         (stk : list frame) (lx : LexerState) : list Issue :=
  match lines with
  | [] => eof_calls (n - 1) stk
  | ln :: rest =>
      let r := line_calls o n ln stk lx in
      snd r ++ calls_of_lines o (S n) rest (fst (fst r)) (snd (fst r))
  end.

Definition addIssue_calls (mapfileText : str) (o : options) : list Issue :=
  calls_of_lines o 1 (lines_of mapfileText) [ROOT] fresh.

(** One element of the array [out] that the report is joined from. *)
Inductive ReportLine : Type :=
| RNoProblems
| RNoteHeuristic
| RFound (n : nat)
| RBlank
| RHardHeading (n : nat)
| RSoftHeading (n : nat)
| RKindHeading (k : IssueKind) (n : nat)
| RIssue (i : Issue)
| RExcerpt (e : str)
| RSuppressed (n : nat)
| RNoteDetector.

Definition order : list IssueKind :=
  [NESTING; END_MISMATCH; MISSING_END; MISSING_QUOTE; UNKNOWN_KEYWORD;
   CONTEXT; METADATA_FORMAT].

Definition issue_lines (it : Issue) : list ReportLine :=
  RIssue it :: (if is_empty (excerpt it) then [] else [RExcerpt (excerpt it)]).

(** [groupByKind] followed by the loop over its entries. *)
Definition grouped_lines (arr : list Issue) : list ReportLine :=
  flat_map
    (fun kd =>
       let g := filter (fun it => kind_eqb (kind it) kd) arr in
       if is_nil g then []
       else RBlank :: RKindHeading kd (length g) :: flat_map issue_lines g)
    order.

Definition build_report (o : options) (k : sink) : list ReportLine :=
  if is_nil (issues k) then
    RNoProblems :: (if includeNotes o then [RNoteHeuristic] else [])
  else
    let hard := filter (fun i => is_hard (severity i)) (issues k) in
    let soft := filter (fun i => is_soft (severity i)) (issues k) in
    [RFound (length (issues k))]
    ++ (if is_nil hard then []
        else RBlank :: RHardHeading (length hard) :: grouped_lines hard)
    ++ (if is_nil soft then []
        else RBlank :: RSoftHeading (length soft) :: grouped_lines soft)
    ++ (if 0 <? suppressedSoftCount k
        then [RBlank; RSuppressed (suppressedSoftCount k)] else [])
    ++ (if includeNotes o then [RBlank; RNoteDetector] else []).

Definition syntaxisErrorDetector (mapfileText : str) (o : options)
  : list ReportLine :=
  build_report o (out (scan_text mapfileText o)).

(** Nothing is suppressed before something was recorded, as long as issues
    carry line numbers from 1 on. *)
Definition sink_ok (k : sink) : Prop :=
  (suppressSoftUntilLine k = 0 /\ suppressedSoftCount k = 0) \/ issues k <> [].

End SyntaxDetector.

(* ================================================================== *)
(** ** Numbers                                                         *)
(* ================================================================== *)

(** A JavaScript number: a rational (every finite double is one), an
    infinity, or NaN.  Negative zero is not distinguished from zero. *)
Module Num.

Inductive num : Type := Fin (q : Q) | PosInf | NegInf | NaN.

(** [Number.isFinite] *)
Definition isFinite (v : num) : bool :=
  match v with Fin _ => true | _ => false end.

Definition is_nan (v : num) : bool :=
  match v with NaN => true | _ => false end.

(** [a <= b] *)
Definition leb (a b : num) : bool :=
  match a, b with
  | NaN, _ | _, NaN => false
  | NegInf, _ => true
  | _, PosInf => true
  | Fin x, Fin y => Qle_bool x y
  | _, _ => false
  end.

(** [Math.min(a, b)] and [Math.max(a, b)] *)
Definition min2 (a b : num) : num :=
  if is_nan a || is_nan b then NaN else if leb a b then a else b.
Definition max2 (a b : num) : num :=
  if is_nan a || is_nan b then NaN else if leb a b then b else a.

(** [Math.min(...xs)] and [Math.max(...xs)] *)
Definition Math_min (xs : list num) : num := fold_left min2 xs PosInf.
Definition Math_max (xs : list num) : num := fold_left max2 xs NegInf.

(** [v.toFixed(d)] for a finite [v]: with [n] the integer for which
    [n / 10^d - |v|] is closest to zero (the larger one if there are two),
    the text is the sign, then [n] written with [d] decimals.  (For
    [|v| >= 10^21] JavaScript prints [String(v)] instead; the model keeps the
    decimal expansion there.) *)
Definition fixed_digits (v : Q) (d : nat) : Z :=
  Qfloor (Qabs v * inject_Z (10 ^ Z.of_nat d) + (1 # 2)).

Definition is_neg (v : Q) : bool := negb (Qle_bool 0 v).

(** The number the text of [v.toFixed(d)] denotes, times [10^d]. *)
Definition fixed_value (v : Q) (d : nat) : Z :=
  if is_neg v then (- fixed_digits v d)%Z else fixed_digits v d.

Definition decimal (n : Z) : str :=
  L (NilZero.string_of_uint (N.to_uint (Z.to_N n))).

Definition toFixed (v : Q) (d : nat) : str :=
  let m := decimal (fixed_digits v d) in
  let m' := repeat "0"%char (d + 1 - length m) ++ m in
  let k := length m' - d in
  (if is_neg v then ["-"%char] else [])
  ++ (if d =? 0 then m else firstn k m' ++ ["."%char] ++ skipn k m').

End Num.

(* ================================================================== *)
(** ** Viewport and projection services                                *)
(* ================================================================== *)

Module Viewport.
Import Num.

(** [[minx, miny, maxx, maxy]] *)
Definition Extent : Type := (num * num * num * num)%type.

Definition ex0 (e : Extent) : num := fst (fst (fst e)).
Definition ex1 (e : Extent) : num := snd (fst (fst e)).
Definition ex2 (e : Extent) : num := snd (fst e).
Definition ex3 (e : Extent) : num := snd e.


End Viewport.

Module Projection.
Import Num Viewport.

Definition point : Type := (num * num)%type.

(** The proj4 function, once the library is there: [None] when the call
    throws. *)
Definition proj4 : Type := str -> str -> point -> option point.

(** The two fields of the service, [this.proj4] ([None] for [null]) and
    [this.tried].  The service is a singleton: its fields live across the
    calls, so every method takes the service and returns it. *)
Record service : Type := mkService { the_proj4 : option proj4; tried : bool }.

(** The service as it is created. *)
Definition new_service : service := mkService None false.

(** [ensureProj4]; [imported] is what [import('proj4')], or failing that the
    global fallback, yields ([None] when there is no library).  The result
    of a first call arrives after the [await] of the import. *)
Definition ensureProj4 (imported : option proj4) (s : service)
  : option proj4 * service :=
  match the_proj4 s with
  | Some p => (Some p, s)
  | None =>
      if tried s then (None, s)
      else (imported, mkService imported true)
  end.

(** [p(from, to, xy)] behind [if (!p) return xy] and the [try]. *)
Definition transform (p : option proj4) (from to : str) (xy : point) : point :=
  match p with
  | Some f => match f from to xy with
              | Some out => out
              | None => xy
              end
  | None => xy
  end.

Definition projectPoint (imported : option proj4) (s : service)
           (fromCrs toCrs : str) (xy : point) : point * service :=
  let from := toUpperCase fromCrs in
  let to := toUpperCase toCrs in
  if is_empty from || is_empty to || str_eqb from to then (xy, s)
  else
    let '(p, s') := ensureProj4 imported s in
    (transform p from to xy, s').

(** The service as a call finds it that starts while a first [ensureProj4]
    waits for the import: [tried] is already set and [proj4] is still
    [null]. *)
Definition awaiting_import (s : service) : service :=
  match the_proj4 s with
  | Some _ => s
  | None => mkService None true
  end.

(** [projectExtent].  [corners.map(c => this.projectPoint(from, to, c))]
    starts the four calls one after the other, each running up to its first
    [await] before the next one starts, and [Promise.all] collects the four
    results in the order of the corners.  The call for the first corner is
    the one that may start the import; the three others start while it is
    awaited, so on a new service they find no library and return their
    corner as it is. *)
Definition projectExtent (imported : option proj4) (s : service)
           (extent : Extent) (fromCrs toCrs : str) : Extent * service :=
  let from := toUpperCase fromCrs in
  let to := toUpperCase toCrs in
  if is_empty from || is_empty to || str_eqb from to then (extent, s)
  else
    let minx := ex0 extent in
    let miny := ex1 extent in
    let maxx := ex2 extent in
    let maxy := ex3 extent in
    let first := projectPoint imported s from to (minx, miny) in
    let later :=
      map (fun c => fst (projectPoint imported (awaiting_import s) from to c))
          [(minx, maxy); (maxx, miny); (maxx, maxy)] in
    let pts := fst first :: later in
    let xs := map fst pts in
    let ys := map snd pts in
    ((Math_min xs, Math_min ys, Math_max xs, Math_max ys), snd first).

(** A service that has been through [ensureProj4] before: the library is
    loaded, or the attempt to load it is over. *)
Definition settled (s : service) : bool :=
  match the_proj4 s with
  | Some _ => true
  | None => tried s
  end.

End Projection.

(* ================================================================== *)
(** ** Extent synchroniser ([ExtentSyncService])                       *)
(* ================================================================== *)

(** Console logging is not modelled (so neither is [extractLayerName], which
    only feeds it). *)
Module ExtentSync.
Import Num Viewport Projection.

(** The options as [sync] reads them: [opts.x !== false]. *)
Record SyncOptions : Type := mkOpts {
  addMissing : bool;
  updateMap : bool;
  updateLayers : bool
}.

Definition BLOCK_STARTERS : list str := map L
  [ "MAP"; "LAYER"; "CLASS"; "STYLE"; "LABEL"; "WEB"; "LEGEND"; "SCALEBAR";
    "QUERYMAP"; "REFERENCE"; "GRID"; "PROJECTION"; "METADATA"; "OUTPUTFORMAT";
    "SYMBOL"; "FEATURE"; "CLUSTER"; "JOIN"; "VALIDATION"; "COMPOSITE"; "UNION";
    "POINTS" ]%string.

(** [/^\s*#/.test(line)] *)
Definition isComment (line : str) : bool := startsWith [HASH] (trimStart line).

(** A test of the line against optional white space, the keyword and a word
    boundary, case insensitive. *)
Definition starts_with_keyword (keyword : string) (line : str) : bool :=
  match strip_prefix_ci (L keyword) (trimStart line) with
  | Some rest => at_word_boundary rest
  | None => false
  end.

(** [src.match(BLOCK_STARTERS_RE)]: what follows [m[0]]. *)
Definition after_block_starter (src : str) : option str :=
  let t := trimStart src in
  match find (fun k => match strip_prefix_ci k t with
                       | Some rest => at_word_boundary rest
                       | None => false
                       end) BLOCK_STARTERS with
  | Some k => Some (skipn (length k) t)
  | None => None
  end.

Definition isBlockStart (line : str) : bool :=
  if isComment line then false
  else match after_block_starter line with
       | None => false
       | Some after =>
           let rest := trim after in
           is_empty rest || startsWith [HASH] rest
       end.

(** The lines [lines[a]], ..., [lines[b-1]] with their indices. *)
Fixpoint indexed (i : nat) (l : list str) : list (nat * str) :=
  match l with
  | [] => []
  | x :: r => (i, x) :: indexed (S i) r
  end.

Definition items (lines : list str) (a b : nat) : list (nat * str) :=
  firstn (b - a) (indexed a (skipn a lines)).

Definition findFirstBlockStart (lines : list str) (keyword : string) : option nat :=
  option_map fst
    (find (fun it => negb (isComment (snd it)) && starts_with_keyword keyword (snd it))
          (indexed 0 lines)).

(** [findLastEndAfter]: [startLine] when there is none. *)
Definition findLastEndAfter (lines : list str) (startLine : nat) : nat :=
  match find (fun it => negb (isComment (snd it)) && starts_with_keyword "END" (snd it))
             (rev (items lines (startLine + 1) (length lines))) with
  | Some it => fst it
  | None => startLine
  end.

Fixpoint findBlockEnd_loop (its : list (nat * str)) (depth : Z) : option nat :=
  match its with
  | [] => None
  | (i, line) :: r =>
      if isComment line then findBlockEnd_loop r depth
      else if starts_with_keyword "END" line then
        if (depth - 1 =? 0)%Z then Some i else findBlockEnd_loop r (depth - 1)
      else if isBlockStart line then findBlockEnd_loop r (depth + 1)
      else findBlockEnd_loop r depth
  end.

(** [findBlockEnd]: [startLine] when the end of the file comes first. *)
Definition findBlockEnd (lines : list str) (startLine : nat) : nat :=
  match findBlockEnd_loop (items lines (startLine + 1) (length lines)) 1 with
  | Some i => i
  | None => startLine
  end.

(** The loop shared by [guessInnerIndent], [replaceOrInsertExtent] and
    [findInsertAfterLine]: the first line at depth 1 that passes [test],
    comments (and blank lines when [skip_blank]) being stepped over, END
    lines decreasing and block starts increasing the depth. *)
Fixpoint first_at_depth1 (skip_blank : bool) (test : str -> bool)
         (its : list (nat * str)) (depth : Z) : option (nat * str) :=
  match its with
  | [] => None
  | (i, line) :: r =>
      if isComment line || (skip_blank && is_empty (trim line))
      then first_at_depth1 skip_blank test r depth
      else if starts_with_keyword "END" line
      then first_at_depth1 skip_blank test r (depth - 1)
      else if isBlockStart line
      then first_at_depth1 skip_blank test r (depth + 1)
      else if (depth =? 1)%Z && test line then Some (i, line)
      else first_at_depth1 skip_blank test r depth
  end.

(** Leftmost match of [re] in [s]. *)
Fixpoint search {A} (re : str -> option A) (s : str) : option A :=
  match re s with
  | Some x => Some x
  | None => match s with [] => None | _ :: r => search re r end
  end.

(** White space, then [c], then white space. *)
Definition skip_sep (c : ascii) (s : str) : option str :=
  match trimStart s with
  | x :: r => if Ascii.eqb x c then Some (trimStart r) else None
  | [] => None
  end.

(** [(\d+)] *)
Definition digits (s : str) : option str :=
  let d := fst (span is_digit s) in
  if is_empty d then None else Some d.

(** [EPSG\s*:\s*(\d+)] under [/i], at the start of [s]. *)
Definition re_epsg (s : str) : option str :=
  match strip_prefix_ci (L "EPSG") s with
  | Some r => match skip_sep ":"%char r with
              | Some r' => digits r'
              | None => None
              end
  | None => None
  end.

(** [init\s*=\s*epsg\s*:\s*(\d+)] under [/i], at the start of [s]. *)
Definition re_init_epsg (s : str) : option str :=
  match strip_prefix_ci (L "init") s with
  | Some r => match skip_sep "="%char r with
              | Some r' => re_epsg r'
              | None => None
              end
  | None => None
  end.

(** [\bsrid\s*=\s*(\d+)] under [/i]: leftmost match, [prev_word] telling
    whether the character before [s] is a word character. *)
Fixpoint search_srid (prev_word : bool) (s : str) : option str :=
  let here :=
    if prev_word then None
    else match strip_prefix_ci (L "srid") s with
         | Some r => match skip_sep "="%char r with
                     | Some r' => digits r'
                     | None => None
                     end
         | None => None
         end in
  match here with
  | Some d => Some d
  | None => match s with
            | [] => None
            | c :: r => search_srid (is_word_char c) r
            end
  end.

(** A double-quoted [key], white space, and a double-quoted non-empty
    value, under [/i], at the start of [s]: the value. *)
Definition re_meta (key : string) (s : str) : option str :=
  match strip_prefix_ci ([DQ] ++ L key ++ [DQ]) s with
  | Some r =>
      match trimStart r with
      | q :: r' =>
          if Ascii.eqb q DQ then
            let v := span (fun x => negb (Ascii.eqb x DQ)) r' in
            if negb (is_empty (fst v)) && startsWith [DQ] (snd v)
            then Some (fst v) else None
          else None
      | [] => None
      end
  | None => None
  end.

Definition slice_join (lines : list str) (a b : nat) : str :=
  join [LF] (map snd (items lines a (b + 1))).

Definition extractEpsgFromProjection (lines : list str) (start end_ : nat)
  : option str :=
  match find (fun it => negb (isComment (snd it))
                        && starts_with_keyword "PROJECTION" (snd it))
             (items lines (start + 1) (end_ + 1)) with
  | None => None
  | Some (projStart, _) =>
      let projEnd := findBlockEnd lines projStart in
      let txt := slice_join lines projStart projEnd in
      match search re_epsg txt with
      | Some epsg => Some (L "EPSG:" ++ epsg)
      | None =>
          match search re_init_epsg txt with
          | Some epsg => Some (L "EPSG:" ++ epsg)
          | None => None
          end
      end
  end.

Definition number_of_digits (d : str) : N :=
  fold_left (fun n c => (10 * n + N.of_nat (nat_of_ascii c - 48))%N) d 0%N.

(** [extractSrid]; [Number(m[1])] is taken exactly (as JavaScript does up to
    2^53). *)
Definition extractSrid (lines : list str) (start end_ : nat) : option N :=
  option_map number_of_digits (search_srid false (slice_join lines start end_)).

Definition extractEpsgFromMetadata (lines : list str) (start end_ : nat)
           (key : string) : option str :=
  match search (re_meta key) (slice_join lines start end_) with
  | None => None
  | Some m1 =>
      match search re_epsg (toUpperCase m1) with
      | Some epsg => Some (L "EPSG:" ++ epsg)
      | None => None
      end
  end.

Definition extractCrsFromBlock (lines : list str) (start end_ : nat) : option str :=
  match extractEpsgFromProjection lines start end_ with
  | Some proj => Some proj
  | None =>
      match extractSrid lines start end_ with
      | Some (Npos p) => Some (L "EPSG:" ++ decimal (Zpos p))
      | _ =>
          match extractEpsgFromMetadata lines start end_ "wfs_srs" with
          | Some m => Some m
          | None => extractEpsgFromMetadata lines start end_ "wms_srs"
          end
      end
  end.

Definition is_layer_line (line : str) : bool :=
  negb (isComment line) && starts_with_keyword "LAYER" line.

Fixpoint extractFirstLayerCrs_loop (lines : list str) (its : list (nat * str))
  : option str :=
  match its with
  | [] => None
  | (i, line) :: r =>
      if is_layer_line line then
        let layerEnd := findBlockEnd lines i in
        if layerEnd <=? i then extractFirstLayerCrs_loop lines r
        else extractCrsFromBlock lines i layerEnd
      else extractFirstLayerCrs_loop lines r
  end.

Definition extractFirstLayerCrs (lines : list str) (mapStart mapEnd : nat)
  : option str :=
  extractFirstLayerCrs_loop lines (items lines (mapStart + 1) mapEnd).

(** [digits] of [formatNum] *)
Definition formatNum_digits (crs : str) : nat :=
  let code := toUpperCase crs in
  let isDegrees := str_eqb code (L "EPSG:4326") || str_eqb code (L "EPSG:4258")
                   || str_eqb code (L "CRS:84") in
  if isDegrees then 6 else 3.

Definition formatNum (v : num) (crs : str) : str :=
  let digits := formatNum_digits crs in
  match v with
  | Fin q => toFixed q digits
  | _ => L "0"
  end.

(** The number that the text [formatNum v crs] denotes, times [10^digits]. *)
Definition formatNum_value (v : num) (crs : str) : Z :=
  match v with
  | Fin q => fixed_value q (formatNum_digits crs)
  | _ => 0%Z
  end.

Definition leading_space (line : str) : str := fst (span is_space line).

Definition guessInnerIndent (lines : list str) (start end_ : nat) : str :=
  match first_at_depth1 true (fun _ => true) (items lines (start + 1) end_) 1 with
  | Some (_, line) =>
      if is_empty (leading_space line) then L "  " else leading_space line
  | None => L "  "
  end.

Definition formatExtentValue (e : Extent) (crs : str) : str :=
  formatNum (ex0 e) crs ++ L " " ++ formatNum (ex1 e) crs ++ L " "
  ++ formatNum (ex2 e) crs ++ L " " ++ formatNum (ex3 e) crs.

(** [extentLine] of [replaceOrInsertExtent] *)
Definition extentLine (indent : str) (newExtent : Extent) (crs : str) : str :=
  indent ++ L "EXTENT " ++ formatExtentValue newExtent crs.

Inductive strategy : Type := StratMap | StratLayer.

Definition findInsertAfterLine (lines : list str) (start end_ : nat)
           (strat : strategy) : nat :=
  (* the PROJECTION test comes before the block-start test in the source *)
  let fix proj_loop (its : list (nat * str)) (depth : Z) : option nat :=
    match its with
    | [] => None
    | (i, line) :: r =>
        if isComment line then proj_loop r depth
        else if starts_with_keyword "END" line then proj_loop r (depth - 1)%Z
        else if (depth =? 1)%Z && starts_with_keyword "PROJECTION" line
        then Some (findBlockEnd lines i)
        else if isBlockStart line then proj_loop r (depth + 1)%Z
        else proj_loop r depth
    end in
  match proj_loop (items lines (start + 1) end_) 1%Z with
  | Some projEnd => projEnd
  | None =>
      let kw := match strat with StratMap => "SIZE" | StratLayer => "NAME" end%string in
      match first_at_depth1 false (starts_with_keyword kw)
                            (items lines (start + 1) end_) 1 with
      | Some (i, _) => i
      | None => start
      end
  end.

(** [lines[i] = x] *)
Fixpoint set_line (lines : list str) (i : nat) (x : str) : list str :=
  match lines, i with
  | [], _ => []
  | _ :: r, 0 => x :: r
  | l :: r, S i' => l :: set_line r i' x
  end.

(** [lines.splice(i, 0, x)] *)
Definition insert_line (lines : list str) (i : nat) (x : str) : list str :=
  firstn i lines ++ [x] ++ skipn i lines.

Definition replaceOrInsertExtent (lines : list str) (start end_ : nat)
           (newExtent : Extent) (crs : str)
           (cfg_addMissing : bool) (cfg_insertStrategy : strategy) : list str :=
  let indent := guessInnerIndent lines start end_ in
  let extentLine := extentLine indent newExtent crs in
  match first_at_depth1 false (starts_with_keyword "EXTENT")
                        (items lines (start + 1) end_) 1 with
  | Some (i, _) => set_line lines i extentLine
  | None =>
      if negb cfg_addMissing then lines
      else
        let insertAfter := findInsertAfterLine lines start end_ cfg_insertStrategy in
        let safeAfter := Nat.min (Nat.max insertAfter start) (end_ - 1) in
        insert_line lines (safeAfter + 1) extentLine
  end.

(** [parseMetadataEntryLine]: [{ indent, key, keyQuotedBy, valueQuotedBy,
    commentRaw }]. *)
Record entry : Type := mkEntry {
  e_indent : str;
  e_key : str;
  keyQuotedBy : option ascii;
  valueQuotedBy : option ascii;
  commentRaw : str
}.

Definition is_quote (c : ascii) : bool := Ascii.eqb c DQ || Ascii.eqb c SQ.

(** Leftmost match of: white space, [#], characters other than line
    terminators, end of the text. *)
Fixpoint comment_tail (s : str) : option str :=
  let here :=
    match trimStart s with
    | c :: r => Ascii.eqb c HASH && forallb (fun x => negb (is_line_terminator x)) r
    | [] => false
    end in
  if here then Some s
  else match s with [] => None | _ :: r => comment_tail r end.

Definition parseMetadataEntryLine (line : str) : option entry :=
  let indent := leading_space line in
  let rest0 := skipn (length indent) line in
  let restTrim := trimStart rest0 in
  match restTrim with
  | [] => None
  | c0 :: tail0 =>
      if Ascii.eqb c0 HASH then None
      else
        let key_rest : option (str * option ascii * str) :=
          if is_quote c0 then
            let q := span (fun x => negb (Ascii.eqb x c0)) tail0 in
            match snd q with
            | _ :: after => Some (fst q, Some c0, trimStart after)
            | [] => None
            end
          else
            let w := span is_word_char restTrim in
            if is_empty (fst w) then None
            else Some (fst w, None, trimStart (snd w)) in
        match key_rest with
        | None => None
        | Some (key, kq, rest) =>
            match rest with
            | [] => None
            | v0 :: tail1 =>
                if is_quote v0 then
                  let q := span (fun x => negb (Ascii.eqb x v0)) tail1 in
                  match snd q with
                  | _ :: after =>
                      Some (mkEntry indent key kq (Some v0)
                              (match comment_tail after with
                               | Some c => c | None => [] end))
                  | [] => None
                  end
                else
                  Some (mkEntry indent key kq None
                          (match comment_tail rest with
                           | Some c => c | None => [] end))
            end
        end
  end.

Definition renderMetadataEntryLine (parsed : entry) (value : str) : str :=
  let wrap q s := match q with Some c => [c] ++ s ++ [c] | None => s end in
  e_indent parsed ++ wrap (keyQuotedBy parsed) (e_key parsed) ++ L " "
  ++ wrap (valueQuotedBy parsed) value ++ commentRaw parsed.

(** The inner [for (j ...)] loop over the lines of one METADATA block. *)
Definition rewrite_entries (lines : list str) (metaStart metaEnd : nat)
           (nextValue : str) : list str :=
  fold_left
    (fun ls j =>
       let src := nth j ls [] in
       if isComment src || is_empty (trim src) then ls
       else match parseMetadataEntryLine src with
            | None => ls
            | Some parsed =>
                let k := toLowerCase (e_key parsed) in
                if str_eqb k (L "wms_extent") || str_eqb k (L "wfs_extent")
                then set_line ls j (renderMetadataEntryLine parsed nextValue)
                else ls
            end)
    (seq (metaStart + 1) (metaEnd - (metaStart + 1))) lines.

(** The outer loop of [replaceMetadataExtentKeysInBlock]; the index only
    grows, so [fuel = end] iterations are enough. *)
Fixpoint metadata_loop (fuel : nat) (i end_ : nat) (nextValue : str)
         (lines : list str) : list str :=
  match fuel with
  | 0 => lines
  | S fuel' =>
      if end_ <=? i then lines
      else
        let line := nth i lines [] in
        if isComment line || negb (starts_with_keyword "METADATA" line)
        then metadata_loop fuel' (i + 1) end_ nextValue lines
        else
          let metaStart := i in
          let metaEnd := findBlockEnd lines metaStart in
          if metaEnd <=? metaStart
          then metadata_loop fuel' (i + 1) end_ nextValue lines
          else metadata_loop fuel' (metaEnd + 1) end_ nextValue
                 (rewrite_entries lines metaStart metaEnd nextValue)
  end.

Definition replaceMetadataExtentKeysInBlock (lines : list str) (start end_ : nat)
           (newExtent : Extent) (crs : str) : list str :=
  metadata_loop end_ (start + 1) end_ (formatExtentValue newExtent crs) lines.

(** The loop over the LAYER blocks of [sync]; the index only grows, so
    [fuel = mapEnd] iterations are enough.  The calls of [projectExtent] are
    awaited one after the other, the service going from one to the next. *)
Fixpoint layers_loop (imported : option proj4) (fuel : nat) (i mapEnd : nat)
         (mapCrs : str) (viewportExtent4326 : Extent) (opt_addMissing : bool)
         (lines : list str) (s : service) : list str * service :=
  match fuel with
  | 0 => (lines, s)
  | S fuel' =>
      if mapEnd <=? i then (lines, s)
      else
        let line := nth i lines [] in
        if negb (is_layer_line line)
        then layers_loop imported fuel' (i + 1) mapEnd mapCrs viewportExtent4326
                         opt_addMissing lines s
        else
          let layerStart := i in
          let layerEnd := findBlockEnd lines layerStart in
          if layerEnd <=? layerStart
          then layers_loop imported fuel' (i + 1) mapEnd mapCrs viewportExtent4326
                           opt_addMissing lines s
          else
            let layerCrs :=
              match extractCrsFromBlock lines layerStart layerEnd with
              | Some c => c
              | None => mapCrs
              end in
            let '(layerExtent, s1) :=
              projectExtent imported s viewportExtent4326 (L "CRS:84") layerCrs in
            let lines1 :=
              replaceOrInsertExtent lines layerStart layerEnd layerExtent
                                    layerCrs opt_addMissing StratLayer in
            let lines2 :=
              replaceMetadataExtentKeysInBlock lines1 layerStart layerEnd
                                               layerExtent layerCrs in
            layers_loop imported fuel' (layerEnd + 1) mapEnd mapCrs
                        viewportExtent4326 opt_addMissing lines2 s1
  end.

(** How a call of [sync] ends: the promise resolves with a text, or rejects
    with an [Error]. *)
Inductive outcome : Type :=
| Resolved (text : str)
| Rejected (error_message : str).

(** Where the MAP block is, as [sync] works it out. *)
Inductive span_result : Type :=
| NoMapBlock
| NoMapEnd (mapStart : nat)
| MapSpan (mapStart mapEnd : nat) (by_fallback : bool).

Definition locate_map (lines : list str) : span_result :=
  match findFirstBlockStart lines "MAP" with
  | None => NoMapBlock
  | Some mapStart =>
      let mapEnd := findBlockEnd lines mapStart in
      if mapEnd <=? mapStart then
        let fallback := findLastEndAfter lines mapStart in
        if mapStart <? fallback then MapSpan mapStart fallback true
        else NoMapEnd mapStart
      else MapSpan mapStart mapEnd false
  end.

(** [s.replace(/\r\n/g, '\n')] *)
Fixpoint replace_crlf (s : str) : str :=
  match s with
  | [] => []
  | c :: r =>
      match r with
      | c2 :: r2 =>
          if Ascii.eqb c CR && Ascii.eqb c2 LF then LF :: replace_crlf r2
          else c :: replace_crlf r
      | [] => [c]
      end
  end.

Definition lines_of (mapfileText : str) : list str :=
  split_nl (replace_crlf mapfileText).

(** A line that the scans take for an END. *)
Definition is_end_line (line : str) : bool :=
  negb (isComment line) && starts_with_keyword "END" line.

(** The four numbers of an extent are finite. *)
Definition finite_extent (e : Extent) : bool :=
  isFinite (ex0 e) && isFinite (ex1 e) && isFinite (ex2 e) && isFinite (ex3 e).

(** The CRS of the MAP block as [sync] works it out. *)
Definition map_crs (lines : list str) (mapStart mapEnd : nat) : str :=
  let mapCrsFromMap := extractCrsFromBlock lines mapStart mapEnd in
  let mapCrsFromLayers :=
    match mapCrsFromMap with
    | Some _ => None
    | None => extractFirstLayerCrs lines mapStart mapEnd
    end in
  match mapCrsFromMap, mapCrsFromLayers with
  | Some c, _ => c
  | None, Some c => c
  | None, None => L "CRS:84"
  end.

(** [sync]: how the promise ends, and the projection service afterwards. *)
Definition sync (imported : option proj4) (s : service) (mapfileText : str)
           (viewportExtent4326 : Extent) (opts : SyncOptions)
  : outcome * service :=
  if is_empty (trim mapfileText) then (Resolved mapfileText, s)
  else
    let nl := if includes [CR; LF] mapfileText then [CR; LF] else [LF] in
    let lines := lines_of mapfileText in
    match locate_map lines with
    | NoMapBlock => (Resolved mapfileText, s)
    | NoMapEnd _ => (Rejected (L "MAP block END not found"), s)
    | MapSpan mapStart mapEnd _ =>
        let mapCrs := map_crs lines mapStart mapEnd in
        let '(lines1, s1) :=
          if updateMap opts then
            let '(mapExtent, s') :=
              projectExtent imported s viewportExtent4326 (L "CRS:84") mapCrs in
            (replaceMetadataExtentKeysInBlock
               (replaceOrInsertExtent lines mapStart mapEnd mapExtent mapCrs
                                      (addMissing opts) StratMap)
               mapStart mapEnd mapExtent mapCrs, s')
          else (lines, s) in
        let '(lines2, s2) :=
          if updateLayers opts then
            layers_loop imported mapEnd (mapStart + 1) mapEnd mapCrs
                        viewportExtent4326 (addMissing opts) lines1 s1
          else (lines1, s1) in
        (Resolved (join nl lines2), s2)
    end.

(** [syncToCurrentViewport]: [snap] is the extent of the viewport snapshot,
    if there is one; the defaults it merges into [opts] are the values a
    missing option has anyway. *)
Definition syncToCurrentViewport (imported : option proj4) (s : service)
           (mapfileText : str) (snap : option Extent) (opts : SyncOptions)
  : outcome * service :=
  match snap with
  | None => (Resolved mapfileText, s)
  | Some extent4326 => sync imported s mapfileText extent4326 opts
  end.

(** The text the save handlers of the application component go on with:
    [let synced = content; try { synced = await
    syncToCurrentViewport(content, { addMissing: true }) } catch { ... }]. *)
Definition content_after_sync (imported : option proj4) (s : service)
           (content : str) (snap : option Extent) : str * service :=
  match syncToCurrentViewport imported s content snap (mkOpts true true true) with
  | (Resolved synced, s') => (synced, s')
  | (Rejected _, s') => (content, s')
  end.

End ExtentSync.

(* ================================================================== *)
(** ** WFS capability classifier ([getWfsSupportMap])                  *)
(* ================================================================== *)

Module Wfs.

(** A JavaScript object used as a dictionary with string keys, as the list
    of its entries in insertion order.  (Keys that look like array indices
    are enumerated first by JavaScript, and an assignment to [__proto__]
    creates no entry; neither affects the look-ups made here, all of which
    are for fixed lower-case metadata names.) *)
Definition obj (V : Type) : Type := list (str * V).

Fixpoint obj_get {V} (o : obj V) (key : str) : option V :=
  match o with
  | [] => None
  | (k, v) :: r => if str_eqb k key then Some v else obj_get r key
  end.

(** [o[key] = v]: an existing key keeps its place. *)
Fixpoint obj_set {V} (o : obj V) (key : str) (v : V) : obj V :=
  match o with
  | [] => [(key, v)]
  | (k, v') :: r =>
      if str_eqb k key then (k, v) :: r else (k, v') :: obj_set r key v
  end.

Definition keys {V} (o : obj V) : list str := map fst o.

Fixpoint stripComments_from (inQuote : bool) (line : str) : str :=
  match line with
  | [] => []
  | ch :: r =>
      let inQuote' := if Ascii.eqb ch DQ then negb inQuote else inQuote in
      if negb inQuote' && Ascii.eqb ch HASH then []
      else ch :: stripComments_from inQuote' r
  end.

Definition stripComments (line : str) : str := stripComments_from false line.

(** The first group of [line.match] for optional white space and then a word
    [[A-Za-z_][A-Za-z0-9_]*] ending at a word boundary, in upper case: the
    longest word is always followed by a word boundary. *)
Definition firstTokenUpper (line : str) : option str :=
  match trimStart line with
  | c :: r =>
      if is_word_start c
      then Some (toUpperCase (c :: fst (span is_word_char r)))
      else None
  | [] => None
  end.

(** The value read by [parseDirectiveValue]: the key, white space, then the
    shortest non-empty run of characters other than line terminators that
    is followed by white space only; the value is trimmed and loses one
    pair of enclosing double quotes. *)
Definition unquote (v : str) : str :=
  if startsWith [DQ] v && startsWith [DQ] (rev v) && (2 <=? length v)
  then removelast (tl v) else v.

Definition parseDirectiveValue (line keyUpper : str) : option str :=
  match strip_prefix_ci keyUpper (trimStart line) with
  | None => None
  | Some rest =>
      match rest with
      | c :: after =>
          if is_space c then
            match trimStart rest with
            | [] =>
                if existsb (fun x => negb (is_line_terminator x)) after
                then Some [] else None
            | body =>
                let m1 := trimEnd body in
                if forallb (fun x => negb (is_line_terminator x)) m1
                then Some (unquote (trim m1)) else None
            end
          else None
      | [] => None
      end
  end.

(** The first group of every match of [line.matchAll] for the pattern
    "double quote, any characters but double quotes, double quote": the
    contents of the successive quoted pieces of the line ([cur] holds the
    piece being read; a quote that is never closed matches nothing). *)
Fixpoint quoted_scan (cur : option str) (line : str) : list str :=
  match line with
  | [] => []
  | c :: r =>
      match cur with
      | None =>
          if Ascii.eqb c DQ then quoted_scan (Some []) r else quoted_scan None r
      | Some acc =>
          if Ascii.eqb c DQ then acc :: quoted_scan None r
          else quoted_scan (Some (acc ++ [c])) r
      end
  end.

Definition quoted (line : str) : list str := quoted_scan None line.

(** [s.replace] removing the double quotes at the start and at the end. *)
Fixpoint drop_quotes (s : str) : str :=
  match s with
  | c :: r => if Ascii.eqb c DQ then drop_quotes r else s
  | [] => []
  end.
Definition strip_quotes (s : str) : str := rev (drop_quotes (rev (drop_quotes s))).

(** [parseMetadataKV] *)
Definition parseMetadataKV (line : str) : option (str * str) :=
  match quoted line with
  | k :: v :: _ => Some (k, v)
  | _ =>
      let t := trim line in
      let p := span (fun x => negb (is_space x)) t in
      let parts0 := fst p in
      (* [parts.length >= 2]: white space occurs inside the trimmed line *)
      if negb (is_empty (snd p)) then
        let key := strip_quotes parts0 in
        let rest := trim (skipn (length parts0) t) in
        let value := strip_quotes rest in
        if negb (is_empty key) && negb (is_empty value)
        then Some (key, value) else None
      else None
  end.

(** [normalizeMeta] *)
Definition normalizeMeta (meta : obj str) : obj str :=
  fold_left (fun out kv => obj_set out (toLowerCase (fst kv)) (snd kv)) meta [].

Definition valueIncludesGetFeature (v : str) : bool :=
  let s := toLowerCase v in
  includes (L "getfeature") s || includes (L "*") s || includes (L "all") s.

Definition valueLooksDisabled (v : str) : bool :=
  let s := toLowerCase (trim v) in
  is_empty s || str_eqb s (L "none") || str_eqb s (L "0")
  || str_eqb s (L "false") || str_eqb s (L "off").

Definition hasAny (metaLower : obj str) (keys : list str) : bool :=
  existsb (fun k => match obj_get metaLower k with
                    | Some v => negb (is_empty (trim v))
                    | None => false
                    end) keys.

(** [currentLayer]: [{ name, type, metadata }]. *)
Record layer : Type := mkLayer {
  name : option str;
  type : option str;
  metadata : obj str
}.

(** [{ supported, reasons }] *)
Record verdict : Type := mkVerdict { supported : bool; reasons : list str }.

Definition or_empty (v : option str) : str :=
  match v with Some s => s | None => [] end.

Definition computeWfsSupportForLayer (ly : layer)
           (layerMetaLower webMetaLower : obj str) : verdict :=
  let typeUpper := toUpperCase (or_empty (type ly)) in
  if str_eqb typeUpper (L "RASTER") then
    mkVerdict false [L "TYPE=RASTER (WFS is vector-only)"]
  else
    let enable : option (str * str * str) :=
      match obj_get layerMetaLower (L "wfs_enable_request") with
      | Some v => Some (L "wfs_enable_request", v, L "layer")
      | None =>
      match obj_get layerMetaLower (L "ows_enable_request") with
      | Some v => Some (L "ows_enable_request", v, L "layer")
      | None =>
      match obj_get webMetaLower (L "wfs_enable_request") with
      | Some v => Some (L "wfs_enable_request", v, L "web")
      | None =>
      match obj_get webMetaLower (L "ows_enable_request") with
      | Some v => Some (L "ows_enable_request", v, L "web")
      | None => None
      end end end end in
    match enable with
    | None =>
        mkVerdict false
          [L "missing enable metadata (wfs_enable_request / ows_enable_request)"]
    | Some (enableKey, enableVal, enableScope) =>
        let reasons :=
          [enableKey ++ L "=" ++ enableVal ++ L " (scope=" ++ enableScope ++ L ")"] in
        if valueLooksDisabled enableVal || negb (valueIncludesGetFeature enableVal)
        then mkVerdict false
               (reasons ++ [L "enable metadata does not allow GetFeature"])
        else
          let hasTitle := hasAny layerMetaLower [L "wfs_title"; L "ows_title"] in
          let hasSrs := hasAny layerMetaLower [L "wfs_srs"; L "ows_srs"] in
          if negb hasTitle || negb hasSrs then
            mkVerdict false
              (reasons
               ++ (if negb hasTitle then [L "missing wfs_title/ows_title"] else [])
               ++ (if negb hasSrs then [L "missing wfs_srs/ows_srs"] else []))
          else
            mkVerdict true (reasons ++ [L "has basic WFS metadata (title + srs)"])
    end.

Definition BLOCK_START : list str := map L
  [ "MAP"; "LAYER"; "WEB"; "METADATA"; "PROJECTION"; "CLASS"; "STYLE";
    "LABEL"; "FEATURE"; "JOIN"; "CLUSTER"; "OUTPUTFORMAT"; "LEGEND";
    "REFERENCE"; "QUERYMAP"; "SCALEBAR"; "SYMBOL" ]%string.

Definition has (set : list str) (k : str) : bool := existsb (str_eqb k) set.

(** The variables of [getWfsSupportMap]; [stack] is kept as the JavaScript
    array (last element = innermost block). *)
Record walk : Type := mkWalk {
  supportMap : obj verdict;
  webMetadata : obj str;
  stack : list str;
  currentLayer : option layer
}.

Definition top_is (stack : list str) (k : string) : bool :=
  match rev stack with
  | t :: _ => str_eqb t (L k)
  | [] => false
  end.

(** The body of [for (const rawLine of lines)]. *)
Definition line_step (w : walk) (rawLine : str) : walk :=
  let noComments := stripComments rawLine in
  let line := trim noComments in
  if is_empty line then w
  else
    let tok := firstTokenUpper line in
    if match tok with Some t => str_eqb t (L "END") | None => false end then
      let popped_is_layer := top_is (stack w) "LAYER" in
      let stack' := removelast (stack w) in
      match currentLayer w with
      | Some cur =>
          if popped_is_layer then
            let sm :=
              match name cur with
              | Some nm =>
                  if negb (is_empty nm) then
                    obj_set (supportMap w) nm
                      (computeWfsSupportForLayer cur
                         (normalizeMeta (metadata cur))
                         (normalizeMeta (webMetadata w)))
                  else supportMap w
              | None => supportMap w
              end in
            mkWalk sm (webMetadata w) stack' None
          else mkWalk (supportMap w) (webMetadata w) stack' (currentLayer w)
      | None => mkWalk (supportMap w) (webMetadata w) stack' None
      end
    else if match tok with Some t => has BLOCK_START t | None => false end then
      let t := or_empty tok in
      mkWalk (supportMap w) (webMetadata w) (stack w ++ [t])
             (if str_eqb t (L "LAYER") then Some (mkLayer None None [])
              else currentLayer w)
    else
      let inMetadata := top_is (stack w) "METADATA" in
      let inWeb := has (stack w) (L "WEB") in
      let inLayer := has (stack w) (L "LAYER") in
      if inMetadata && inWeb && negb inLayer then
        match parseMetadataKV line with
        | Some (k, v) =>
            if negb (is_empty k)
            then mkWalk (supportMap w) (obj_set (webMetadata w) k v)
                        (stack w) (currentLayer w)
            else w
        | None => w
        end
      else
        match currentLayer w with
        | None => w
        | Some cur =>
            if top_is (stack w) "LAYER" then
              let cur1 :=
                match parseDirectiveValue line (L "NAME") with
                | Some nm => mkLayer (Some nm) (type cur) (metadata cur)
                | None => cur
                end in
              let cur2 :=
                match parseDirectiveValue line (L "TYPE") with
                | Some ty => mkLayer (name cur1) (Some ty) (metadata cur1)
                | None => cur1
                end in
              mkWalk (supportMap w) (webMetadata w) (stack w) (Some cur2)
            else if inMetadata && inLayer then
              match parseMetadataKV line with
              | Some (k, v) =>
                  if negb (is_empty k)
                  then mkWalk (supportMap w) (webMetadata w) (stack w)
                         (Some (mkLayer (name cur) (type cur)
                                        (obj_set (metadata cur) k v)))
                  else w
              | None => w
              end
            else w
        end.

Definition initial : walk := mkWalk [] [] [] None.

Definition walk_lines (w : walk) (lines : list str) : walk :=
  fold_left line_step lines w.

Definition getWfsSupportMap (mapfileText : str) : obj verdict :=
  supportMap (walk_lines initial (split_crlf mapfileText)).

End Wfs.

(* ================================================================== *)
(** ** The WFS rules, as the specification words them                  *)
(* ================================================================== *)

Module WfsRules.
Import Wfs.

(** The first candidate that is present. *)
Fixpoint first_present (cands : list (option str)) : option str :=
  match cands with
  | [] => None
  | Some v :: _ => Some v
  | None :: r => first_present r
  end.

(** A value that looks disabled: empty, none, 0, false or off (case and
    surrounding blanks apart). *)
Definition disabled_looking (v : str) : bool :=
  existsb (str_eqb (toLowerCase (trim v)))
          [[]; L "none"; L "0"; L "false"; L "off"].

(** A value whose text includes getfeature, a star, or all (case apart). *)
Definition allows_getfeature (v : str) : bool :=
  existsb (fun w => includes w (toLowerCase v)) [L "getfeature"; L "*"; L "all"].

(** One of the keys has a value that is not blank. *)
Definition supplies (meta : str -> option str) (keys : list str) : bool :=
  existsb (fun k => match meta k with
                    | Some v => negb (is_empty (trim v))
                    | None => false
                    end) keys.

(** The rules in order, each one short-circuiting the next: RASTER; the
    enable flag in priority order; its value; title and SRS of the layer. *)
Definition rules (type : option str) (layerMeta webMeta : str -> option str) : bool :=
  if str_eqb (toUpperCase (or_empty type)) (L "RASTER") then false
  else
    match first_present [layerMeta (L "wfs_enable_request");
                         layerMeta (L "ows_enable_request");
                         webMeta (L "wfs_enable_request");
                         webMeta (L "ows_enable_request")] with
    | None => false
    | Some flag =>
        if disabled_looking flag then false
        else if negb (allows_getfeature flag) then false
        else if negb (supplies layerMeta [L "wfs_title"; L "ows_title"]) then false
        else if negb (supplies layerMeta [L "wfs_srs"; L "ows_srs"]) then false
        else true
    end.

(** The layer has no usable name (yet). *)
Definition nameless (cur : option layer) : Prop :=
  match cur with
  | None => True
  | Some c => name c = None \/ name c = Some []
  end.

(** The line, as the walk reads it. *)
Definition content (rawLine : str) : str := trim (stripComments rawLine).

Definition is_end (rawLine : str) : bool :=
  match firstTokenUpper (content rawLine) with
  | Some t => str_eqb t (L "END")
  | None => false
  end.

(** The name a line gives to the current layer, if it is a NAME directive. *)
Definition name_of (rawLine : str) : option str :=
  parseDirectiveValue (content rawLine) (L "NAME").

(** A closed layer without a NAME and an unterminated layer with one. *)
Definition wfs_sample : str :=
  L "MAP" ++ [LF] ++ L "  LAYER" ++ [LF] ++ L "    TYPE POINT" ++ [LF] ++ L "  END"
  ++ [LF] ++ L "  LAYER" ++ [LF] ++ L "    NAME roads" ++ [LF] ++ L "    TYPE LINE".

End WfsRules.

(* ================================================================== *)
(** ** Synthetic texts for the balance detector                        *)
(* ================================================================== *)

Module Synthetic.
Import Lexer EndDetector.

(** A line holding one keyword behind [i] spaces. *)
Definition kw_line (i : nat) (k : str) : str := repeat SP i ++ k.

Definition END : str := L "END".

(** The lexer is outside comments and strings. *)
Definition outside (st : LexerState) : bool :=
  negb (inBlockComment st) && negb (inQuote st)
  && match quoteChar st with None => true | Some _ => false end.

(** A line on which the detector does nothing: it holds no line terminator;
    read from outside comments and strings it leaves the lexer there; and it
    holds no word, or words of which the first is neither END nor an opener,
    known or heuristic, with no END among the others when inline ENDs are
    honoured without an opener.  Blank lines, comments and directives such
    as [TYPE POLYGON] are of this kind; [NAME "a"], one word in capitals, is
    not, unless the heuristic is switched off. *)
Definition neutral (o : options) (ln : str) : bool :=
  let out := tokenizeLine ln fresh (allowMultilineQuotes o) in
  let wordTokens := filter is_word (tokens out) in
  forallb (fun c => negb (is_line_terminator c)) ln
  && outside (state out)
  && match wordTokens with
     | [] => true
     | w0 :: others =>
         let first := toUpperCase (word_text w0) in
         negb (str_eqb first END)
         && negb (has (openers_of o) first)
         && negb (enableHeuristicOpeners o
                  && (length wordTokens =? 1)
                  && isAllCapsIdentifier first
                  && (3 <=? length first))
         && (negb (allowInlineEndWithoutOpener o)
             || forallb (fun t => negb (str_eqb (toUpperCase (word_text t)) END))
                        others)
     end.

(** Lines in which every standalone opener is closed by a standalone END,
    with neutral lines anywhere. *)
Inductive balanced (o : options) : list str -> Prop :=
| bal_nil : balanced o []
| bal_neutral l rest :
    neutral o l = true -> balanced o rest -> balanced o (l :: rest)
| bal_block i j k body rest :
    In k DEFAULT_BLOCK_OPENERS -> balanced o body -> balanced o rest ->
    balanced o (kw_line i k :: body ++ kw_line j END :: rest).

(** Lines with [n] standalone openers that are never closed. *)
Inductive unmatched_opens (o : options) : nat -> list str -> Prop :=
| uo_done b : balanced o b -> unmatched_opens o 0 b
| uo_open n i k b rest :
    balanced o b -> In k DEFAULT_BLOCK_OPENERS -> unmatched_opens o n rest ->
    unmatched_opens o (S n) (b ++ kw_line i k :: rest).

(** [synthetic o n m ls]: the lines [ls] hold [m] standalone ENDs that close
    nothing, then [n] standalone openers that nothing closes, with balanced
    blocks and neutral lines anywhere in between. *)
Inductive synthetic (o : options) : nat -> nat -> list str -> Prop :=
| syn_opens n ls : unmatched_opens o n ls -> synthetic o n 0 ls
| syn_close n m j b rest :
    balanced o b -> synthetic o n m rest ->
    synthetic o n (S m) (b ++ kw_line j END :: rest).


(** Frames listed innermost first: each one was opened after those that
    follow it. *)
Definition innermost_first (l : list frame) : Prop :=
  StronglySorted (fun a b => line b < line a) l.

(** Frames listed outermost first. *)
Definition outermost_first (l : list frame) : Prop :=
  StronglySorted (fun a b => line a < line b) l.

(** The frames named by the "missing END" entries of a message, in order. *)
Definition reported_missing (msg : list part) : list frame :=
  flat_map (fun p => match p with PMissing b => [b] | _ => [] end) msg.



(** Frames are pushed in the order of the lines: between two lines, the
    stack lists frames opened on strictly increasing earlier lines. *)
Definition stack_ordered (n : nat) (stk : list frame) : Prop :=
  outermost_first stk /\ Forall (fun f => line f < n) stk.

End Synthetic.

(* ================================================================== *)
(** ** What follows a keyword on its line                              *)
(* ================================================================== *)

Module Lines.

(** The keyword is followed by arguments: white space, then something that
    is not a [#] comment. *)
Definition has_arguments (tail : str) : bool :=
  match tail with
  | c :: _ =>
      is_space c
      && match trimStart tail with
         | a :: _ => negb (Ascii.eqb a HASH)
         | [] => false
         end
  | [] => false
  end.

(** The keyword is alone on its line, or followed only by white space and a
    [#] comment (free of line terminators). *)
Definition comment_only (tail : str) : bool :=
  match trimStart tail with
  | [] => true
  | a :: c => Ascii.eqb a HASH && forallb (fun x => negb (is_line_terminator x)) c
  end.

(** A keyword is a non-empty word in capital letters. *)
Definition keyword (k : str) : Prop :=
  k <> [] /\ forallb is_upper k = true.

(** The text after the keyword starts with something that is no letter. *)
Definition no_letter_next (tail : str) : Prop :=
  match tail with [] => True | c :: _ => is_alpha c = false end.

(** A token that is not the word END. *)
Definition not_end (t : Lexer.token) : bool :=
  negb (str_eqb (toUpperCase (EndDetector.word_text t)) (L "END")).

End Lines.

(* ================================================================== *)
(** ** The END tokens the balance detector honours                     *)
(* ================================================================== *)

Module EndSpec.
Import Lexer EndDetector.

(** [openedThisLine], from the word tokens of the line. *)
Definition opens (o : options) (wordTokens : list token) : bool :=
  match wordTokens with
  | [] => false
  | w0 :: _ =>
      let first := toUpperCase (word_text w0) in
      has (openers_of o) first
      || (enableHeuristicOpeners o
          && (length wordTokens =? 1)
          && isAllCapsIdentifier first
          && (3 <=? length first)
          && negb (str_eqb first (L "END")))
  end.

(** The frame the line pushes, if it opens a block. *)
Definition pushed (o : options) (lineNo : nat) (wordTokens : list token)
  : list frame :=
  match wordTokens with
  | [] => []
  | w0 :: _ =>
      if opens o wordTokens
      then [mkFrame (toUpperCase (word_text w0)) lineNo (tok_col w0)]
      else []
  end.

(** The END words among the tokens, from index [tIdx] on, that are
    honoured: the first word of the line, and the later ones when the line
    opened a block or [allowInlineEndWithoutOpener] is set. *)
Fixpoint honoured (o : options) (openedThisLine : bool) (tIdx : nat)
         (toks : list token) : list token :=
  match toks with
  | [] => []
  | tok :: rest =>
      if str_eqb (toUpperCase (word_text tok)) (L "END")
         && ((tIdx =? 0) || allowInlineEndWithoutOpener o || openedThisLine)
      then tok :: honoured o openedThisLine (S tIdx) rest
      else honoured o openedThisLine (S tIdx) rest
  end.

(** The entry of [extraEnds] for an END token of the line. *)
Definition extra_of (lineNo : nat) (ln : str) (tok : token) : extraEnd :=
  mkExtra lineNo (tok_col tok) (firstn 200 (trim ln)).

(** The word tokens of a line, read in the lexer state [lx]. *)
Definition words (o : options) (ln : str) (lx : LexerState) : list token :=
  filter is_word (tokens (tokenizeLine ln lx (allowMultilineQuotes o))).

(** How many frames the lines push, and how many END tokens they honour,
    the lexer state going from line to line. *)
Fixpoint counts (o : options) (lines : list str) (lx : LexerState) : nat * nat :=
  match lines with
  | [] => (0, 0)
  | ln :: rest =>
      let ws := words o ln lx in
      let r := counts o rest (state (tokenizeLine ln lx (allowMultilineQuotes o))) in
      (length (pushed o 0 ws) + fst r,
       length (honoured o (opens o ws) 0 ws) + snd r)
  end.

End EndSpec.

(* ================================================================== *)
(** ** The depth at which the formatter prints a line                  *)
(* ================================================================== *)

Module FormatterSpec.
Import Formatter.





End FormatterSpec.

(* ================================================================== *)
(** ** LAYER blocks of a text, as the WFS checker reads its lines      *)
(* ================================================================== *)

Module WfsBlocks.
Import Wfs WfsRules.

(** A line that starts a block: its first word is a block keyword. *)
Definition is_start (rawLine : str) : bool :=
  match firstTokenUpper (content rawLine) with
  | Some t => negb (str_eqb t (L "END")) && has BLOCK_START t
  | None => false
  end.

(** A line that starts a LAYER block. *)
Definition is_layer_start (rawLine : str) : bool :=
  match firstTokenUpper (content rawLine) with
  | Some t => str_eqb t (L "LAYER")
  | None => false
  end.

(** The number of blocks open after the lines [seg], [d] being open before
    them; [None] when an END comes with no block open. *)
Fixpoint depth_after (d : nat) (seg : list str) : option nat :=
  match seg with
  | [] => Some d
  | l :: r =>
      if is_end l then
        match d with
        | 0 => None
        | S d' => depth_after d' r
        end
      else if is_start l then depth_after (S d) r
      else depth_after d r
  end.

(** The lines hold a LAYER block that is closed and named [nm]: a line that
    starts a LAYER, then lines that start no LAYER, in which every block
    started is ended and no END is left over, then an END line; and among
    the lines in between, outside the inner blocks, a NAME line with the
    non-empty value [nm]. *)
Definition closed_layer (lines : list str) (nm : str) : Prop :=
  nm <> [] /\
  exists pre l_open b1 l_name b2 l_close post,
    lines = pre ++ [l_open] ++ (b1 ++ [l_name] ++ b2) ++ [l_close] ++ post /\
    is_layer_start l_open = true /\
    Forall (fun l => is_layer_start l = false) (b1 ++ [l_name] ++ b2) /\
    depth_after 0 b1 = Some 0 /\
    name_of l_name = Some nm /\
    depth_after 0 (b1 ++ [l_name] ++ b2) = Some 0 /\
    is_end l_close = true.

(** What the walk knows of the layer it is in, after the lines [done]: the
    LAYER line is among them, the lines since start no LAYER and leave
    [length above] blocks open, the frames [above] on the stack over the
    LAYER frame; and a name of the layer comes from a NAME line met with no
    inner block open. *)
Definition open_layer (done : list str) (w : walk) : Prop :=
  match currentLayer w with
  | None => True
  | Some c =>
      exists pre l_open body base above,
        done = pre ++ [l_open] ++ body /\
        is_layer_start l_open = true /\
        Forall (fun l => is_layer_start l = false) body /\
        depth_after 0 body = Some (length above) /\
        stack w = base ++ [L "LAYER"] ++ above /\
        Forall (fun t => t <> L "LAYER") above /\
        (forall nm, name c = Some nm -> nm <> [] ->
           exists b1 l_name b2,
             body = b1 ++ [l_name] ++ b2 /\
             depth_after 0 b1 = Some 0 /\
             name_of l_name = Some nm)
  end.

(** A MAP with one LAYER block, named and closed. *)
Definition wfs_closed_sample : str :=
  L "MAP" ++ [LF] ++ L "  LAYER" ++ [LF] ++ L "    NAME roads" ++ [LF]
  ++ L "    METADATA" ++ [LF] ++ L "    END" ++ [LF] ++ L "  END" ++ [LF] ++ L "END".

(** A LAYER with a NAME whose own END is missing: the only END closes the
    METADATA block inside it. *)
Definition wfs_open_sample : str :=
  L "MAP" ++ [LF] ++ L "  LAYER" ++ [LF] ++ L "    NAME roads" ++ [LF]
  ++ L "    METADATA" ++ [LF] ++ L "    END".

End WfsBlocks.

(* ================================================================== *)
(** ** Typo suggestions of the syntax checker ([levenshtein])          *)
(* ================================================================== *)

Module Suggest.

(** The inner [for (j ...)] loop: [b] is what is left of the shorter word,
    [v0] the old row from index [j] on, [left] the entry [v1[j]] written
    last; the result is [v1[j+1]], [v1[j+2]], ... *)
Fixpoint row_loop (ca : ascii) (b : str) (v0 : list nat) (left : nat) : list nat :=
  match b, v0 with
  | cb :: b', diag :: ((up :: _) as v0') =>
      let cost := if Ascii.eqb ca cb then 0 else 1 in
      let del := up + 1 in
      let ins := left + 1 in
      let sub := diag + cost in
      let v := Nat.min del (Nat.min ins sub) in
      v :: row_loop ca b' v0' v
  | _, _ => []
  end.

(** One turn of the outer loop: the row [v1] for the character [a[i]]. *)
Definition next_row (ca : ascii) (b : str) (v0 : list nat) (i : nat) : list nat :=
  (i + 1) :: row_loop ca b v0 (i + 1).

(** The outer [for (i ...)] loop, from index [i] on. *)
Fixpoint rows (a b : str) (i : nat) (v0 : list nat) : list nat :=
  match a with
  | [] => v0
  | ca :: a' => rows a' b (S i) (next_row ca b v0 i)
  end.

Definition levenshtein (a b : str) : nat :=
  if str_eqb a b then 0
  else
    let al := length a in
    let bl := length b in
    if al =? 0 then bl
    else if bl =? 0 then al
    else
      let '(a, b) := if al <? bl then (b, a) else (a, b) in
      let v0 := seq 0 (length b + 1) in
      nth (length b) (rows a b 0 v0) 0.

(** [maxDist] of [suggestKeywords] *)
Definition maxDist (w : str) : nat := if length w <=? 6 then 2 else 3.

(** [Math.abs(x - y)] on lengths *)
Definition abs_diff (x y : nat) : nat := (x - y) + (y - x).

(** A JavaScript [Set] built from a list: the first occurrences, in order. *)
Fixpoint set_of (seen l : list str) : list str :=
  match l with
  | [] => []
  | x :: r =>
      if existsb (str_eqb x) seen then set_of seen r
      else x :: set_of (x :: seen) r
  end.

(** The array [scored] of [suggestKeywords] when its loop over the known
    keywords ends (the function then sorts it by distance and cuts it to
    [maxSuggestions] names). *)
Definition scored (known : list str) (kw : str) : list (str * nat) :=
  let w := toUpperCase kw in
  flat_map
    (fun cand =>
       if str_eqb cand w then []
       else if maxDist w <? abs_diff (length cand) (length w) then []
       else
         let d := levenshtein w cand in
         if d <=? maxDist w then [(cand, d)] else [])
    (set_of [] known).

End Suggest.

(** The edit distance, as a count of single-character edits: [align a b n]
    holds when [b] is obtained from [a] by [n] insertions, deletions and
    substitutions of one character. *)
Module EditDistance.

Inductive align : str -> str -> nat -> Prop :=
| align_nil : align [] [] 0
| align_keep x a b n : align a b n -> align (x :: a) (x :: b) n
| align_sub x y a b n : align a b n -> align (x :: a) (y :: b) (S n)
| align_del x a b n : align a b n -> align (x :: a) b (S n)
| align_ins y a b n : align a b n -> align a (y :: b) (S n).

(** The textbook recurrence. *)
Fixpoint dist (a : str) : str -> nat :=
  fix dist_a (b : str) : nat :=
    match a, b with
    | [], _ => length b
    | _, [] => length a
    | x :: a', y :: b' =>
        Nat.min (dist a' b + 1)
                (Nat.min (dist_a b' + 1)
                         (dist a' b' + (if Ascii.eqb x y then 0 else 1)))
    end.

(** [rb], then [rb] extended by one more character of [bs] at a time. *)
Fixpoint ext (rb bs : str) : list str :=
  match bs with
  | [] => [rb]
  | y :: bs' => rb :: ext (y :: rb) bs'
  end.

End EditDistance.

(* ================================================================== *)
(** ** Block spans and rewritten lines, for stating what the extent
       synchroniser keeps                                              *)
(* ================================================================== *)

Module BlockSpans.
Import ExtentSync.

(** The lines strictly between the indices [s] and [e]. *)
Definition lines_between (lines : list str) (s e : nat) : list str :=
  firstn (e - s - 1) (skipn (s + 1) lines).

(** How many lines the depth scans count as an END, and as a block start. *)
Definition end_lines (seg : list str) : nat := length (filter is_end_line seg).
Definition block_starts (seg : list str) : nat :=
  length (filter (fun l => negb (is_end_line l) && isBlockStart l) seg).

(** The metadata keys whose value the synchroniser rewrites. *)
Definition is_extent_key (key : str) : bool :=
  let k := toLowerCase key in
  str_eqb k (L "wms_extent") || str_eqb k (L "wfs_extent").

(** What the metadata rewrite may do to a line: leave it, or render anew an
    entry whose key is one of the extent keys, with the value [v]. *)
Definition entry_rewritten (v old new : str) : Prop :=
  new = old \/
  exists e, parseMetadataEntryLine old = Some e /\
            is_extent_key (e_key e) = true /\
            new = renderMetadataEntryLine e v.

(** What holds of the lines [cur] while the metadata of [lines] is being
    rewritten: the lines below [lo] and from [pos] on are as they were, and
    every line is as it was or a rewritten extent entry. *)
Definition rewriting (lines : list str) (v : str) (lo pos : nat)
           (cur : list str) : Prop :=
  length cur = length lines /\
  firstn lo cur = firstn lo lines /\
  (forall j, pos <= j -> nth j cur [] = nth j lines []) /\
  (forall j, entry_rewritten v (nth j lines []) (nth j cur [])).

(** One step of reading a decimal text ([number_of_digits] folds it). *)
Definition digit_step (n : N) (c : ascii) : N :=
  (10 * n + N.of_nat (nat_of_ascii c - 48))%N.

(** A character that [formatNum] can print. *)
Definition is_num_char (c : ascii) : bool :=
  is_digit c || Ascii.eqb c "."%char || Ascii.eqb c "-"%char.

(** A text made of numbers separated by single blanks, as
    [formatExtentValue] writes it: characters of numbers and blanks, with a
    number character first and last. *)
Definition numbers_text (v : str) : Prop :=
  (forall c, In c v -> is_num_char c = true \/ c = SP) /\
  (exists c r, v = c :: r /\ is_num_char c = true) /\
  (exists r c, v = r ++ [c] /\ is_num_char c = true).

(** The text starts, after optional white space, with a [#] comment that
    runs to its end. *)
Definition comment_here (c : str) : bool :=
  match trimStart c with
  | h :: r => Ascii.eqb h HASH && forallb (fun x => negb (is_line_terminator x)) r
  | [] => false
  end.

(** What [parseMetadataEntryLine] guarantees of the entry it returns. *)
Definition well_formed (e : entry) : Prop :=
  forallb is_space (e_indent e) = true /\
  match keyQuotedBy e with
  | Some q => is_quote q = true /\ ~ In q (e_key e)
  | None => e_key e <> [] /\ forallb is_word_char (e_key e) = true
  end /\
  match valueQuotedBy e with
  | Some q => is_quote q = true
  | None => True
  end /\
  (commentRaw e = [] \/ comment_here (commentRaw e) = true).

End BlockSpans.

(* ================================================================== *)
(** ** What the extent synchroniser writes                             *)
(* ================================================================== *)

Module Written.
Import Num Viewport Projection ExtentSync BlockSpans.


(** The four numbers of an extent as [formatNum] prints them; joined by
    blanks they are the text of [formatExtentValue]. *)
Definition number_texts (ext : Extent) (crs : str) : list str :=
  [formatNum (ex0 ext) crs; formatNum (ex1 ext) crs;
   formatNum (ex2 ext) crs; formatNum (ex3 ext) crs].







End Written.

(* ================================================================== *)
(** ** Where a token sits on its line                                  *)
(* ================================================================== *)

Module Tokens.
Import Lexer.

(** [t] is a token of [line] at its (1-based) column: a word is a maximal
    run of word characters that starts with a letter or an underscore and
    is followed by no word character; a string starts with its quote. *)
Definition token_at (line : str) (t : token) : Prop :=
  match t with
  | TWord text col =>
      1 <= col /\
      firstn (length text) (skipn (col - 1) line) = text /\
      match text with c :: _ => is_word_start c = true | [] => False end /\
      forallb is_word_char text = true /\
      at_word_boundary (skipn (col - 1 + length text) line) = true
  | TString _ col quote _ =>
      1 <= col /\
      nth_error line (col - 1) = Some quote /\
      (quote = DQ \/ quote = SQ)
  end.

(** Tokens in the order of their columns. *)
Definition by_column (toks : list token) : Prop :=
  StronglySorted (fun a b => tok_col a < tok_col b) toks.

(** Every string token has its closing quote. *)
Definition closed_strings (toks : list token) : Prop :=
  Forall (fun t => match t with
                   | TString _ _ _ closed => closed = true
                   | TWord _ _ => True
                   end) toks.

End Tokens.

(** What the balance detector reports, against the lines of the text. *)
Module Reported.
Import Lexer Tokens EndDetector.

(** The frame names a line of the text, and on that line the word at the
    column of the frame is, in upper case, the type of the frame. *)
Definition frame_at (lines : list str) (f : frame) : Prop :=
  1 <= line f <= length lines /\
  exists w, token_at (nth (line f - 1) lines []) (TWord w (col f)) /\
            toUpperCase w = type f.

(** The entry names a line of the text with the word END at its column,
    and quotes the first 200 characters of the trimmed line. *)
Definition extra_at (lines : list str) (e : extraEnd) : Prop :=
  1 <= e_line e <= length lines /\
  (exists w, token_at (nth (e_line e - 1) lines []) (TWord w (e_col e)) /\
             toUpperCase w = L "END") /\
  excerpt e = firstn 200 (trim (nth (e_line e - 1) lines [])).

End Reported.

(* ================================================================== *)
(** ** What the report of the syntax checker holds                     *)
(* ================================================================== *)

Module ReportSpec.
Import SyntaxDetector.

(** The issues printed in a report, in the order of their lines. *)
Definition reported_issues (report : list ReportLine) : list Issue :=
  flat_map (fun r => match r with RIssue i => [i] | _ => [] end) report.

(** A frame pushed for a block keyword on one of the lines [1..nlines]. *)
Definition block_frame (nlines : nat) (f : frame) : Prop :=
  has BLOCKS (type f) = true /\ 1 <= line f <= nlines.

Definition is_missing_end (i : Issue) : bool := kind_eqb (kind i) MISSING_END.

End ReportSpec.

(* ================================================================== *)
(** ** Layer listing of the server ([parseLayersFromMapfile], GET /layers) *)
(* ================================================================== *)

(** [routes/layers.js] (src/unnamed/part_006) has its own copies of
    [stripComments], [firstTokenUpper], [parseDirectiveValue] and
    [parseMetadataKV], word for word those of the WFS support checker, and
    the same set [BLOCK_START]; the definitions of [Wfs] stand for both. *)
Module Layers.
Import Wfs.

(** [currentLayer]: [{ name, type, title, metadata }]. *)
Record layer : Type := mkLayer {
  l_name : option str;
  l_type : option str;
  l_title : option str;
  l_metadata : obj str
}.

(** An entry of the result: [{ name, type, title }], a missing or empty
    value being [null]. *)
Record listed : Type := mkListed {
  name : option str;
  type : option str;
  title : option str
}.

(** [v || null] *)
Definition or_null (v : option str) : option str :=
  match v with
  | Some s => if is_empty s then None else Some s
  | None => None
  end.

Definition keyOrder : list str :=
  map L ["wms_title"; "ows_title"; "title"; "wfs_title"; "gml_featuretype_title"]%string.

(** The loop of [extractLayerTitle] over [keyOrder]. *)
Fixpoint first_title (md : obj str) (ks : list str) : option str :=
  match ks with
  | [] => None
  | k :: r =>
      match or_null (obj_get md k) with
      | Some v => Some v
      | None =>
          match or_null (obj_get md (toUpperCase k)) with
          | Some v => Some v
          | None => first_title md r
          end
      end
  end.

Definition extractLayerTitle (ly : layer) : option str :=
  match or_null (l_title ly) with
  | Some t => Some t
  | None => first_title (l_metadata ly) keyOrder
  end.

(** The variables of [parseLayersFromMapfile]. *)
Record walk : Type := mkWalk {
  layers : list listed;
  stack : list str;
  currentLayer : option layer
}.

(** The body of [for (const rawLine of lines)]. *)
Definition line_step (w : walk) (rawLine : str) : walk :=
  let noComments := stripComments rawLine in
  let line := trim noComments in
  if is_empty line then w
  else
    let tok := firstTokenUpper line in
    if match tok with Some t => str_eqb t (L "END") | None => false end then
      let popped_is_layer := top_is (stack w) "LAYER" in
      let stack' := removelast (stack w) in
      match currentLayer w with
      | Some cur =>
          if popped_is_layer then
            let title := extractLayerTitle cur in
            mkWalk (layers w
                    ++ [mkListed (or_null (l_name cur)) (or_null (l_type cur))
                                 (or_null title)])
                   stack' None
          else mkWalk (layers w) stack' (currentLayer w)
      | None => mkWalk (layers w) stack' None
      end
    else if match tok with Some t => has BLOCK_START t | None => false end then
      let t := or_empty tok in
      mkWalk (layers w) (stack w ++ [t])
             (if str_eqb t (L "LAYER") then Some (mkLayer None None None [])
              else currentLayer w)
    else
      match currentLayer w with
      | None => w
      | Some cur =>
          if top_is (stack w) "LAYER" then
            let cur1 :=
              match parseDirectiveValue line (L "NAME") with
              | Some nm => mkLayer (Some nm) (l_type cur) (l_title cur) (l_metadata cur)
              | None => cur
              end in
            let cur2 :=
              match parseDirectiveValue line (L "TYPE") with
              | Some ty => mkLayer (l_name cur1) (Some ty) (l_title cur1) (l_metadata cur1)
              | None => cur1
              end in
            let cur3 :=
              match parseDirectiveValue line (L "TITLE") with
              | Some ti => mkLayer (l_name cur2) (l_type cur2) (Some ti) (l_metadata cur2)
              | None => cur2
              end in
            mkWalk (layers w) (stack w) (Some cur3)
          else if top_is (stack w) "METADATA" && has (stack w) (L "LAYER") then
            match parseMetadataKV line with
            | Some (k, v) =>
                if negb (is_empty k)
                then mkWalk (layers w) (stack w)
                       (Some (mkLayer (l_name cur) (l_type cur) (l_title cur)
                                      (obj_set (l_metadata cur) k v)))
                else w
            | None => w
            end
          else w
      end.

Definition initial : walk := mkWalk [] [] None.

Definition walk_lines (w : walk) (lines : list str) : walk :=
  fold_left line_step lines w.

(** [layers.filter(l => l.name)] *)
Definition has_name (l : listed) : bool :=
  match name l with Some _ => true | None => false end.

Definition parseLayersFromMapfile (content : str) : list listed :=
  filter has_name (layers (walk_lines initial (split_crlf content))).

(** An entry of [layersWithWfs]: the listed layer with [wfsSupported] and
    [wfsReasons]. *)
Record with_wfs : Type := mkWithWfs {
  entry : listed;
  wfsSupported : bool;
  wfsReasons : list str
}.

Definition not_detected : verdict := mkVerdict false [L "not detected"].

(** What the handler of GET /layers computes from the file it read. *)
Definition layersWithWfs (content : str) : list with_wfs :=
  let layers := parseLayersFromMapfile content in
  let wfsSupport := getWfsSupportMap content in
  map (fun l =>
         let s := match obj_get wfsSupport (or_empty (name l)) with
                  | Some v => v
                  | None => not_detected
                  end in
         mkWithWfs l (supported s) (reasons s))
      layers.

(** The two walks go in step: same stack, and a current layer in both or in
    neither, with the same name. *)
Definition in_step (wl : walk) (ww : Wfs.walk) : Prop :=
  stack wl = Wfs.stack ww /\
  match currentLayer wl, Wfs.currentLayer ww with
  | None, None => True
  | Some a, Some b => l_name a = Wfs.name b
  | _, _ => False
  end /\
  forall l nm, In l (layers wl) -> name l = Some nm ->
               exists v, obj_get (supportMap ww) nm = Some v.

End Layers.

(* ================================================================== *)
(** ** Sanitising user input: the Save As dialog, the map builder and
       the WFS proxy                                                   *)
(* ================================================================== *)

(** Pieces of [String.prototype.replace] and [split] that the three files
    use. *)
Module Text.

(** [s.replace(/[^...]/g, by)], [keep] being the character class. *)
Definition replace_unless (keep : ascii -> bool) (by_ : ascii) (s : str) : str :=
  map (fun c => if keep c then c else by_) s.

(** [s.split(a).join(b)] for one-character [a] and [b]. *)
Definition replace_char (a b : ascii) (s : str) : str :=
  map (fun c => if Ascii.eqb c a then b else c) s.

(** [s.replace(/x+/g, 'x')]: every run of [x] becomes one [x]. *)
Fixpoint squeeze_from (x : ascii) (after_x : bool) (s : str) : str :=
  match s with
  | [] => []
  | c :: r =>
      if Ascii.eqb c x
      then if after_x then squeeze_from x true r else c :: squeeze_from x true r
      else c :: squeeze_from x false r
  end.
Definition squeeze (x : ascii) (s : str) : str := squeeze_from x false s.

(** [s.replace(/^x+/, '')] and [s.replace(/x+$/, '')] *)
Fixpoint drop_leading (x : ascii) (s : str) : str :=
  match s with
  | c :: r => if Ascii.eqb c x then drop_leading x r else s
  | [] => []
  end.
Definition drop_trailing (x : ascii) (s : str) : str :=
  rev (drop_leading x (rev s)).

(** No two [x] in a row. *)
Definition head_is (x : ascii) (s : str) : bool :=
  match s with c :: _ => Ascii.eqb c x | [] => false end.
Fixpoint no_double (x : ascii) (s : str) : bool :=
  match s with
  | c :: r => negb (Ascii.eqb c x && head_is x r) && no_double x r
  | [] => true
  end.

(** [s.endsWith(suffix)] *)
Definition endsWith (suffix s : str) : bool := startsWith (rev suffix) (rev s).

(** [s.split(sep)] for a one-character separator. *)
Fixpoint split_on (sep : ascii) (s : str) : list str :=
  match s with
  | [] => [[]]
  | c :: r =>
      if Ascii.eqb c sep then [] :: split_on sep r
      else match split_on sep r with
           | l :: ls => (c :: l) :: ls
           | [] => [[c]]
           end
  end.

End Text.

(** [SaveAsDialogComponent]
    (src/client/src/app/components/save-as-dialog/save-as-dialog.component.ts). *)
Module SaveAs.
Import Text.

(** [[A-Z0-9_]] and [[A-Za-z0-9_.-]] *)
Definition is_alias_char (c : ascii) : bool :=
  is_upper c || is_digit c || Ascii.eqb c "_"%char.
Definition is_file_char (c : ascii) : bool :=
  is_alpha c || is_digit c || Ascii.eqb c "_"%char || Ascii.eqb c "."%char
  || Ascii.eqb c "-"%char.

Definition toSafeAlias (v : str) : str :=
  drop_trailing "_"%char
    (drop_leading "_"%char
       (squeeze "_"%char
          (replace_unless is_alias_char "_"%char (toUpperCase (trim v))))).

Definition toSafeFileName (v : str) : str :=
  let base := replace_unless is_file_char "_"%char (trim v) in
  if is_empty base then []
  else if endsWith (L ".map") (toLowerCase base) then base
  else base ++ L ".map".

(** [/^[A-Za-z]:\//.test(p)] *)
Definition isWindowsAbs (p : str) : bool :=
  match p with
  | d :: c :: s :: _ => is_alpha d && Ascii.eqb c ":"%char && Ascii.eqb s "/"%char
  | _ => false
  end.

Definition toSafePath (v : str) : str :=
  let raw := trim v in
  if is_empty raw then []
  else
    let p := squeeze "/"%char (replace_char BSL "/"%char raw) in
    let p := drop_trailing "/"%char p in
    if existsb (fun seg => str_eqb seg (L "..")) (split_on "/"%char p) then []
    else
      let isAbs := startsWith (L "/") p || isWindowsAbs p in
      if negb isAbs then drop_leading "/"%char p
      else if isWindowsAbs p then replace_char "/"%char BSL p
      else p.

(** The segments of a path, whichever separator it uses. *)
Definition segments (path : str) : list str :=
  split_on "/"%char (replace_char BSL "/"%char path).

(** Characters below 128, on which upper and lower case are the ASCII
    ones. *)
Definition ascii7 (s : str) : bool :=
  forallb (fun c => nat_of_ascii c <? 128) s.

End SaveAs.

(** [server/src/lib/mapBuilder.js]: the functions the routes apply to what
    the dialogs send. *)
Module MapBuilder.
Import Text.

(** The same text as the client's [toSafeAlias]. *)
Definition toSafeAlias (s : str) : str := SaveAs.toSafeAlias s.

Definition toSafeFileName (s : str) : str :=
  let base := replace_unless SaveAs.is_file_char "_"%char (trim s) in
  if negb (endsWith (L ".map") (toLowerCase base)) then base ++ L ".map"
  else base.

End MapBuilder.

(** [server/src/lib/wfsGeojsonProxy.js], at the end of
    src/client/src/app/components/save-as-dialog/save-as-dialog.component.ts. *)
Module WfsProxy.
Import Text.

(** [parseLayersParam] for a string parameter. *)
Definition parseLayersParam (raw : str) : list str :=
  if is_empty raw then []
  else filter (fun s => negb (is_empty s)) (map trim (split_on ","%char raw)).

(** [layers.join(',')], the value of [typeName] sent upstream. *)
Definition typeNames (layers : list str) : str := join (L ",") layers.

End WfsProxy.

(* ================================================================== *)
(** ** Lemmas on strings                                               *)
(* ================================================================== *)

Section StringFacts.

Lemma trimStart_spaces (sp t : str) :
  forallb is_space sp = true -> trimStart (sp ++ t) = trimStart t.
Proof.
  induction sp as [|c sp IH]; simpl; intro H; [reflexivity|].
  apply andb_true_iff in H as [Hc Hsp]. rewrite Hc. now apply IH.
Qed.

Lemma trimStart_split (s : str) :
  exists sp, s = sp ++ trimStart s /\ forallb is_space sp = true.
Proof.
  induction s as [|c s IH]; simpl.
  - exists []. now split.
  - destruct (is_space c) eqn:Hc.
    + destruct IH as [sp [E F]]. exists (c :: sp). simpl. rewrite Hc, F.
      split; [now rewrite <- E | reflexivity].
    + exists []. now split.
Qed.

Lemma trimStart_head (s : str) c r :
  trimStart s = c :: r -> is_space c = false.
Proof.
  induction s as [|a s IH]; simpl; [discriminate|].
  destruct (is_space a) eqn:Ha; [exact IH|].
  intro E. injection E as -> _. exact Ha.
Qed.

Lemma trimStart_fix (s : str) c r :
  s = c :: r -> is_space c = false -> trimStart s = s.
Proof. intros -> H. simpl. now rewrite H. Qed.

Lemma clean_nil : clean [].
Proof.
  split; intros; [discriminate|].
  destruct r; discriminate.
Qed.

Lemma trim_clean (s : str) : clean (trim s).
Proof.
  unfold trim, trimEnd.
  set (u := trimStart s).
  destruct (trimStart_split (rev u)) as [p [E _]].
  destruct (trimStart (rev u)) as [|x w] eqn:W; [apply clean_nil|].
  assert (Hx : is_space x = false) by (eapply trimStart_head; eassumption).
  assert (U : u = (rev w ++ [x]) ++ rev p).
  { rewrite <- (rev_involutive u), E, rev_app_distr. reflexivity. }
  split.
  - intros c r Hc. simpl in Hc.
    apply (@trimStart_head s c (tl (c :: r) ++ rev p)).
    fold u. rewrite U, Hc. reflexivity.
  - intros r c Hc. simpl in Hc. apply app_inj_tail in Hc as [_ <-]. exact Hx.
Qed.

Lemma trim_of_clean (t : str) : clean t -> trim t = t.
Proof.
  intros [Hh Hl]. unfold trim, trimEnd.
  destruct t as [|c r]; [reflexivity|].
  rewrite (trimStart_fix (c :: r) c r eq_refl (Hh _ _ eq_refl)).
  destruct (@exists_last _ (c :: r)) as [l' [x E]]; [discriminate|].
  rewrite E, rev_app_distr. simpl.
  rewrite (Hl _ _ E). simpl. now rewrite rev_involutive.
Qed.

Lemma trim_trim (s : str) : trim (trim s) = trim s.
Proof. apply trim_of_clean, trim_clean. Qed.

Lemma trim_indent (sp s : str) :
  forallb is_space sp = true -> trim (sp ++ trim s) = trim s.
Proof.
  intro H. unfold trim at 1. rewrite trimStart_spaces by exact H.
  fold (trim (trim s)). apply trim_trim.
Qed.

Lemma In_trimStart (s : str) x : In x (trimStart s) -> In x s.
Proof.
  induction s as [|c s IH]; simpl; [tauto|].
  destruct (is_space c); simpl; tauto.
Qed.

Lemma In_trim (s : str) x : In x (trim s) -> In x s.
Proof.
  unfold trim, trimEnd. intro H.
  apply In_trimStart. apply in_rev in H. apply In_trimStart in H.
  now apply in_rev in H.
Qed.

Lemma In_chomp_cr (s : str) x : In x (chomp_cr s) -> In x s.
Proof.
  induction s as [|c s IH]; simpl; [tauto|].
  destruct s as [|d s].
  - destruct (Ascii.eqb c CR); simpl; tauto.
  - intros [H|H]; [now left | right; now apply IH].
Qed.

Lemma chomp_cr_fix (s : str) :
  (forall r c, s = r ++ [c] -> is_space c = false) -> chomp_cr s = s.
Proof.
  induction s as [|c s IH]; intro H; [reflexivity|].
  cbn [chomp_cr]. destruct s as [|d s].
  - destruct (Ascii.eqb_spec c CR) as [->|]; [|reflexivity].
    now specialize (H [] CR eq_refl).
  - f_equal. apply IH. intros r x E. apply (H (c :: r) x). now rewrite E.
Qed.

Lemma split_nl_nonempty (s : str) : split_nl s <> [].
Proof.
  destruct s as [|c s]; simpl; [discriminate|].
  destruct (Ascii.eqb c LF); [discriminate|].
  destruct (split_nl s); discriminate.
Qed.

Lemma In_split_nl (s l : str) x :
  In l (split_nl s) -> In x l -> In x s /\ x <> LF.
Proof.
  revert l. induction s as [|c s IH]; simpl; intros l Hl Hx.
  - destruct Hl as [<-|[]]. destruct Hx.
  - destruct (Ascii.eqb_spec c LF) as [->|Hc].
    + destruct Hl as [<-|Hl]; [destruct Hx|].
      destruct (IH _ Hl Hx). split; [now right | assumption].
    + destruct (split_nl s) as [|l0 ls] eqn:E.
      * destruct Hl as [<-|[]]. destruct Hx as [<-|[]]. split; [now left | assumption].
      * destruct Hl as [<-|Hl].
        -- destruct Hx as [<-|Hx]; [split; [now left | assumption]|].
           destruct (IH l0 (or_introl eq_refl) Hx). split; [now right | assumption].
        -- destruct (IH l (or_intror Hl) Hx). split; [now right | assumption].
Qed.

Lemma In_map_but_last {A} (f : A -> A) (l : list A) y :
  In y (map_but_last f l) -> exists x, In x l /\ (y = x \/ y = f x).
Proof.
  induction l as [|a l IH]; simpl; [tauto|].
  destruct l as [|b l].
  - intros [<-|[]]. exists a. split; [now left | now left].
  - intros [<-|H].
    + exists a. split; [now left | now right].
    + destruct (IH H) as [x [Hx E]]. exists x. split; [now right | exact E].
Qed.

Lemma map_but_last_length {A} (f : A -> A) (l : list A) :
  length (map_but_last f l) = length l.
Proof.
  induction l as [|a l IH]; [reflexivity|].
  cbn [map_but_last]. destruct l; [reflexivity|]. simpl in *. now rewrite IH.
Qed.

Lemma map_but_last_fix {A} (f : A -> A) (l : list A) :
  Forall (fun x => f x = x) l -> map_but_last f l = l.
Proof.
  induction 1 as [|a l Ha Hl IH]; [reflexivity|].
  cbn [map_but_last]. destruct l; [reflexivity|]. now rewrite Ha, IH.
Qed.

Lemma In_split_crlf (s l : str) x :
  In l (split_crlf s) -> In x l -> In x s /\ x <> LF.
Proof.
  unfold split_crlf. intros Hl Hx.
  apply In_map_but_last in Hl as [l0 [H0 [->| ->]]].
  - eapply In_split_nl; eassumption.
  - apply In_chomp_cr in Hx. eapply In_split_nl; eassumption.
Qed.

Lemma split_nl_line (l : str) :
  ~ In LF l -> split_nl l = [l].
Proof.
  induction l as [|c l IH]; simpl; intro H; [reflexivity|].
  destruct (Ascii.eqb_spec c LF) as [->|_]; [tauto|].
  rewrite IH by tauto. reflexivity.
Qed.

Lemma split_nl_cons (l s : str) :
  ~ In LF l -> split_nl (l ++ LF :: s) = l :: split_nl s.
Proof.
  induction l as [|c l IH]; simpl; intro H.
  - reflexivity.
  - destruct (Ascii.eqb_spec c LF) as [->|_]; [tauto|].
    rewrite IH by tauto. reflexivity.
Qed.

Lemma split_nl_join (ls : list str) :
  ls <> [] -> Forall (fun l => ~ In LF l) ls -> split_nl (join [LF] ls) = ls.
Proof.
  induction ls as [|l ls IH]; intros Hne H; [congruence|].
  inversion H as [|? ? Hl Hls]; subst.
  destruct ls as [|l' ls].
  - simpl. now apply split_nl_line.
  - change (join [LF] (l :: l' :: ls)) with (l ++ LF :: join [LF] (l' :: ls)).
    rewrite split_nl_cons by assumption. f_equal. apply IH; [discriminate | assumption].
Qed.

Lemma In_join (sep : str) (ls : list str) x :
  In x (join sep ls) -> In x sep \/ exists l, In l ls /\ In x l.
Proof.
  induction ls as [|l ls IH]; simpl; [tauto|].
  destruct ls as [|l' ls].
  - intro H. right. exists l. split; [now left | assumption].
  - intro H. apply in_app_or in H as [H|H].
    + right. exists l. split; [now left | assumption].
    + apply in_app_or in H as [H|H]; [now left|].
      destruct (IH H) as [H1|[l0 [H1 H2]]]; [now left|].
      right. exists l0. split; [now right | assumption].
Qed.

End StringFacts.

(* ================================================================== *)
(** ** Formatter: what a pass does to each line                        *)
(* ================================================================== *)

Section FormatterFacts.
Import Formatter FormatterSpec.

Lemma repeat_str_spaces (ind : str) n :
  forallb is_space ind = true -> forallb is_space (repeat_str ind n) = true.
Proof.
  intro H. unfold repeat_str. induction n as [|n IH]; [reflexivity|].
  simpl. rewrite forallb_app, H, IH. reflexivity.
Qed.

Lemma IND_spaces w : forallb is_space (IND w) = true.
Proof.
  unfold IND. induction (Z.to_nat _) as [|n IH]; [reflexivity|].
  simpl. exact IH.
Qed.

Lemma In_repeat_str (ind : str) n x : In x (repeat_str ind n) -> In x ind.
Proof.
  unfold repeat_str. induction n as [|n IH]; simpl; [tauto|].
  intro H. apply in_app_or in H as [H|H]; [assumption | now apply IH].
Qed.

(** The line pushed on [out] is empty for a blank line, and otherwise the
    trimmed line behind [depth] copies of the indent unit. *)
Lemma step_trimmed_out ind stack t :
  exists d, snd (step_trimmed ind stack t)
            = if is_empty t then [] else repeat_str ind d ++ t.
Proof.
  unfold step_trimmed.
  destruct (is_empty t); [now exists 0|].
  destruct (startsWith [HASH] t); [now eexists|].
  destruct (match_endLine t); [now eexists|].
  destruct (match_openerLine t); [|now eexists].
  match goal with |- context [if ?b then _ else _] => destruct b end; now eexists.
Qed.

Lemma step_out_trim ind stack raw :
  forallb is_space ind = true ->
  trim (snd (step ind stack raw)) = trim raw.
Proof.
  intro H. unfold step.
  destruct (step_trimmed_out ind stack (trim raw)) as [d ->].
  destruct (is_empty (trim raw)) eqn:E.
  - destruct (trim raw); [reflexivity | discriminate].
  - apply trim_indent. now apply repeat_str_spaces.
Qed.

(** A pass over its own output changes nothing. *)
Lemma loop_loop ind stack lines :
  forallb is_space ind = true ->
  loop ind stack (loop ind stack lines) = loop ind stack lines.
Proof.
  intro H. revert stack. induction lines as [|raw rest IH]; intro stack; [reflexivity|].
  cbn [loop]. destruct (step ind stack raw) as [stack' o] eqn:E.
  cbn [loop].
  assert (E' : step ind stack o = (stack', o)).
  { unfold step in *.
    replace (trim o) with (trim raw); [exact E|].
    symmetry. change o with (snd (stack', o)). rewrite <- E. now apply step_out_trim. }
  rewrite E'. now rewrite IH.
Qed.

Lemma loop_length ind stack lines :
  length (loop ind stack lines) = length lines.
Proof.
  revert stack. induction lines as [|raw rest IH]; intro stack; [reflexivity|].
  cbn [loop]. destruct (step ind stack raw). simpl. now rewrite IH.
Qed.

(** Every output line is made of the indent unit and of characters of the
    corresponding input line, and carries no white space at its end. *)
Lemma loop_out ind stack lines o :
  forallb is_space ind = true ->
  In o (loop ind stack lines) ->
  (forall x, In x o -> In x ind \/ exists raw, In raw lines /\ In x raw) /\
  (forall r c, o = r ++ [c] -> is_space c = false).
Proof.
  intro H. revert stack. induction lines as [|raw rest IH]; intros stack Ho; [destruct Ho|].
  cbn [loop] in Ho. destruct (step ind stack raw) as [stack' o'] eqn:E.
  destruct Ho as [<-|Ho].
  - assert (Eo : o' = snd (step ind stack raw)) by now rewrite E.
    unfold step in Eo.
    destruct (step_trimmed_out ind stack (trim raw)) as [d Ed]. rewrite Ed in Eo.
    destruct (is_empty (trim raw)) eqn:Et; subst o'.
    + split; [intros x []|]. intros [|? ?] c Hc; discriminate.
    + split.
      * intros x Hx. apply in_app_or in Hx as [Hx|Hx].
        -- left. eapply In_repeat_str; eassumption.
        -- right. exists raw. split; [now left | now apply In_trim].
      * intros r c Hc.
        destruct (@exists_last _ (trim raw)) as [l' [y Ey]].
        { intro N. rewrite N in Et. discriminate. }
        rewrite Ey, app_assoc in Hc. apply app_inj_tail in Hc as [_ <-].
        exact (proj2 (trim_clean raw) _ _ Ey).
  - destruct (IH _ Ho) as [H1 H2]. split; [|exact H2].
    intros x Hx. destruct (H1 x Hx) as [?|[r [Hr Hxr]]]; [now left|].
    right. exists r. split; [now right | assumption].
Qed.

Lemma replace_tabs_free (s : str) : ~ In TAB (replace_tabs s).
Proof.
  unfold replace_tabs. intro H. apply in_flat_map in H as [c [_ H]].
  destruct (Ascii.eqb c TAB) eqn:Hc.
  - destruct H as [H|[H|[]]]; discriminate.
  - destruct H as [H|[]]. subst c. discriminate.
Qed.

Lemma replace_tabs_fix (s : str) : ~ In TAB s -> replace_tabs s = s.
Proof.
  unfold replace_tabs. induction s as [|c s IH]; intro H; [reflexivity|].
  simpl. destruct (Ascii.eqb_spec c TAB) as [->|_].
  - exfalso. apply H. now left.
  - simpl. f_equal. apply IH. intro. apply H. now right.
Qed.


Lemma In_IND w x : In x (IND w) -> x = SP.
Proof. unfold IND. intro H. now apply repeat_spec in H. Qed.

(** The lines of a pass, joined and split again, are the same lines. *)
Lemma format_lines (x : str) (w : Z) :
  let outs := loop (IND w) [] (split_crlf (replace_tabs x)) in
  replace_tabs (join [LF] outs) = join [LF] outs /\
  split_nl (join [LF] outs) = outs /\
  split_crlf (join [LF] outs) = outs.
Proof.
  intro outs.
  assert (Hchars : forall o c, In o outs -> In c o -> c <> LF /\ c <> TAB).
  { intros o c Ho Hc.
    destruct (loop_out _ _ _ _ (IND_spaces w) Ho) as [H1 _].
    destruct (H1 c Hc) as [Hi|[raw [Hraw Hcr]]].
    - apply In_IND in Hi. subst c. split; discriminate.
    - destruct (In_split_crlf _ _ _ Hraw Hcr) as [Hin Hlf]. split; [exact Hlf|].
      intros ->. exact (replace_tabs_free _ Hin). }
  assert (Hsplit : split_nl (join [LF] outs) = outs).
  { apply split_nl_join.
    - intro N. apply (f_equal (@length _)) in N. unfold outs in N.
      rewrite loop_length in N. unfold split_crlf in N.
      rewrite map_but_last_length in N.
      destruct (split_nl (replace_tabs x)) eqn:E; [|discriminate].
      exact (split_nl_nonempty _ E).
    - apply Forall_forall. intros o Ho Hc. now destruct (Hchars o LF Ho Hc). }
  split; [|split].
  - apply replace_tabs_fix. intro H. apply In_join in H as [[H|[]]|[o [Ho Hc]]].
    + discriminate.
    + now destruct (Hchars o TAB Ho Hc).
  - exact Hsplit.
  - unfold split_crlf. rewrite Hsplit. apply map_but_last_fix.
    apply Forall_forall. intros o Ho. apply chomp_cr_fix.
    exact (proj2 (loop_out _ _ _ _ (IND_spaces w) Ho)).
Qed.

(** C1.  Formatter idempotence: for every input text and every indent width,
    formatting the formatted text gives the formatted text again. *)
Theorem format_idempotent (x : str) (w : Z) :
  formatMapfile (formatMapfile x w) w = formatMapfile x w.
Proof.
  unfold formatMapfile at 1 3. fold (formatMapfile x w).
  unfold formatMapfile.
  destruct (format_lines x w) as [Ht [_ Hs]]. cbv zeta in Ht, Hs.
  rewrite Ht, Hs. f_equal. apply loop_loop, IND_spaces.
Qed.





End FormatterFacts.
(* ================================================================== *)
(** ** Balance detector: tokenising keyword lines                      *)
(* ================================================================== *)

Section LexerFacts.
Import Lexer.

Lemma scan_spaces m i : forall f rest c,
  scan (i + f) m (repeat SP i ++ rest) c fresh = scan f m rest (c + i) fresh.
Proof.
  induction i as [|i IH]; intros f rest c.
  - simpl. now rewrite Nat.add_0_r.
  - simpl. rewrite IH. f_equal. lia.
Qed.

Lemma tokenize_indented m i (k : str) :
  tokenizeLine (repeat SP i ++ k) fresh m = scan (length k) m k i fresh.
Proof.
  unfold tokenizeLine. rewrite length_app, repeat_length.
  now rewrite scan_spaces.
Qed.

Lemma after_comment_end_shorter s : forall r,
  after_comment_end s = Some r -> length r < length s.
Proof.
  induction s as [|c1 s IH]; intros r H; [discriminate|].
  cbn [after_comment_end] in H. destruct s as [|c2 s]; [discriminate|].
  destruct (Ascii.eqb c1 "*" && Ascii.eqb c2 "/").
  - injection H as <-. simpl. lia.
  - specialize (IH r H). simpl in *. lia.
Qed.

Lemma after_carried_quote_shorter q s : forall e r,
  after_carried_quote q s e = Some r -> length r < length s.
Proof.
  induction s as [|c s IH]; intros e r H; [discriminate|].
  cbn [after_carried_quote] in H.
  destruct e; [specialize (IH _ _ H); simpl; lia|].
  destruct (Ascii.eqb c BSL); [specialize (IH _ _ H); simpl; lia|].
  destruct (match q with Some x => Ascii.eqb c x | None => false end).
  - injection H as <-. simpl. lia.
  - specialize (IH _ _ H). simpl. lia.
Qed.

Lemma read_quoted_shorter q s : forall v e,
  length (snd (read_quoted q s v e)) <= length s.
Proof.
  induction s as [|c s IH]; intros v e; [reflexivity|].
  cbn [read_quoted].
  destruct e; [specialize (IH (v ++ [c]) false); simpl; lia|].
  destruct (Ascii.eqb c BSL); [specialize (IH v true); simpl; lia|].
  destruct (Ascii.eqb c q); [simpl; lia|].
  specialize (IH (v ++ [c]) false). simpl. lia.
Qed.

Lemma span_shorter p s : length (snd (span p s)) <= length s.
Proof.
  induction s as [|c s IH]; [reflexivity|].
  cbn [span]. destruct (p c); [|reflexivity].
  destruct (span p s). simpl in *. lia.
Qed.

(** The loop of [tokenizeLine] never runs out of fuel: any amount that is
    at least the length of the text left gives the same result. *)
Lemma scan_fuel m f1 : forall f2 rest i st,
  length rest <= f1 -> length rest <= f2 ->
  scan f1 m rest i st = scan f2 m rest i st.
Proof.
  induction f1 as [|f1 IH]; intros f2 rest i st H1 H2.
  - destruct rest; [|simpl in H1; lia]. destruct f2; reflexivity.
  - destruct f2 as [|f2]; [destruct rest; [reflexivity | simpl in H2; lia]|].
    destruct rest as [|ch tail]; [reflexivity|].
    cbn [scan]. simpl in H1, H2.
    destruct (inBlockComment st).
    { destruct (after_comment_end (ch :: tail)) as [r|] eqn:E; [|reflexivity].
      apply after_comment_end_shorter in E. simpl in E. apply IH; lia. }
    destruct (inQuote st).
    { destruct (after_carried_quote (quoteChar st) (ch :: tail) false) as [r|] eqn:E;
        [|reflexivity].
      apply after_carried_quote_shorter in E. simpl in E. apply IH; lia. }
    destruct (Ascii.eqb ch HASH); [reflexivity|].
    destruct (Ascii.eqb ch "/" && next_is "/" tail); [reflexivity|].
    destruct (Ascii.eqb ch "/" && next_is "*" tail).
    { apply IH; destruct tail; simpl in *; lia. }
    destruct (is_space ch); [apply IH; lia|].
    destruct (Ascii.eqb ch DQ || Ascii.eqb ch SQ).
    { pose proof (read_quoted_shorter ch tail [] false) as Hq.
      destruct (snd (fst (read_quoted ch tail [] false))); [|reflexivity].
      f_equal. apply IH; lia. }
    destruct (is_word_start ch); [|apply IH; lia].
    pose proof (span_shorter is_word_char tail) as Hw.
    f_equal. apply IH; lia.
Qed.

End LexerFacts.

Section EndDetectorFacts.
Import Lexer EndDetector Synthetic EndSpec.

Lemma opener_cases (P : str -> Prop) :
  Forall P DEFAULT_BLOCK_OPENERS -> forall k, In k DEFAULT_BLOCK_OPENERS -> P k.
Proof. intros H k Hk. exact (proj1 (Forall_forall _ _) H k Hk). Qed.



Lemma opener_facts k :
  In k DEFAULT_BLOCK_OPENERS ->
  toUpperCase k = k /\ str_eqb k (L "END") = false
  /\ has DEFAULT_BLOCK_OPENERS k = true
  /\ ~ In LF k /\ ~ In CR k.
Proof.
  revert k. apply opener_cases.
  repeat constructor; try (intros H; simpl in H; intuition discriminate).
Qed.

Lemma has_app (a b : list str) k : has (a ++ b) k = has a k || has b k.
Proof. unfold has. apply existsb_app. Qed.






















(** A text with two unclosed openers and three stray ENDs, directives and
    comments in between, under the default options. *)
Lemma balance_soundness_sample :
  let lines := [kw_line 0 END; L "# a map"; kw_line 0 (L "MAP");
                kw_line 2 (L "LAYER"); L "    TYPE POLYGON"; kw_line 2 END;
                kw_line 0 END; kw_line 0 END; kw_line 1 END; [];
                kw_line 0 (L "MAP"); L "  UNITS METERS # ground units"; kw_line 2 (L "WEB");
                kw_line 4 (L "METADATA"); kw_line 4 END; kw_line 2 (L "STYLE")] in
  synthetic default_options 3 3 lines.
Proof.
  cbv zeta.
  apply (syn_close _ 3 2 0 []); [constructor|].
  apply (syn_close _ 3 1 0 [L "# a map"; kw_line 0 (L "MAP"); kw_line 2 (L "LAYER");
                            L "    TYPE POLYGON"; kw_line 2 END; kw_line 0 END]).
  { apply bal_neutral; [reflexivity|].
    apply (bal_block _ 0 0 (L "MAP")
             [kw_line 2 (L "LAYER"); L "    TYPE POLYGON"; kw_line 2 END] []);
      [simpl; tauto | | constructor].
    apply (bal_block _ 2 2 (L "LAYER") [L "    TYPE POLYGON"] []);
      [simpl; tauto | | constructor].
    apply bal_neutral; [reflexivity | constructor]. }
  apply (syn_close _ 3 0 1 []); [constructor|].
  apply syn_opens.
  apply (uo_open _ 2 0 (L "MAP") [[]]);
    [apply bal_neutral; [reflexivity | constructor] | simpl; tauto |].
  apply (uo_open _ 1 2 (L "WEB") [L "  UNITS METERS # ground units"]);
    [apply bal_neutral; [reflexivity | constructor] | simpl; tauto |].
  apply (uo_open _ 0 2 (L "STYLE") [kw_line 4 (L "METADATA"); kw_line 4 END]);
    [ | simpl; tauto | apply uo_done; constructor].
  apply (bal_block _ 4 4 (L "METADATA") [] []); [simpl; tauto | constructor | constructor].
Qed.

(* ------------------------------------------------------------------ *)
(** *** Order of the frames left at EOF                                 *)

Lemma sorted_snoc {A} (R : A -> A -> Prop) (l : list A) x :
  StronglySorted R l -> Forall (fun y => R y x) l -> StronglySorted R (l ++ [x]).
Proof.
  induction 1 as [|a l Hs IH Ha]; intro Hx; simpl.
  - repeat constructor.
  - inversion Hx; subst. constructor; [now apply IH|].
    apply Forall_app. split; [assumption | now repeat constructor].
Qed.

Lemma Forall_removelast {A} (P : A -> Prop) (l : list A) :
  Forall P l -> Forall P (removelast l).
Proof.
  induction 1 as [|a l Ha Hl IH]; [constructor|].
  simpl. destruct l; [constructor | now constructor].
Qed.

Lemma sorted_removelast {A} (R : A -> A -> Prop) (l : list A) :
  StronglySorted R l -> StronglySorted R (removelast l).
Proof.
  induction 1 as [|a l Hs IH Ha]; [constructor|].
  simpl. destruct l as [|b l]; [constructor|].
  constructor; [exact IH | now apply (Forall_removelast _ (b :: l))].
Qed.

Lemma sorted_rev {A} (R : A -> A -> Prop) (l : list A) :
  StronglySorted R l -> StronglySorted (fun a b => R b a) (rev l).
Proof.
  induction 1 as [|a l Hs IH Ha]; [constructor|].
  simpl. apply sorted_snoc; [exact IH|].
  apply Forall_rev. exact Ha.
Qed.

(** The END tokens of a line only pop frames and only append to
    [extraEnds]. *)
Lemma handle_ends_inv o opened n ln (P : list frame -> Prop) :
  (forall l, P l -> P (removelast l)) ->
  forall toks tIdx stk ex, P stk ->
  P (fst (handle_ends o opened n ln tIdx toks stk ex)) /\
  exists more, snd (handle_ends o opened n ln tIdx toks stk ex) = ex ++ more.
Proof.
  intros HP toks. induction toks as [|tok toks IH]; intros tIdx stk ex Hs.
  - simpl. split; [assumption | exists []; now rewrite app_nil_r].
  - cbn [handle_ends].
    destruct (negb (str_eqb _ _)); [now apply IH|].
    destruct (negb _); [now apply IH|].
    destruct stk as [|f stk].
    + destruct (IH (S tIdx) [] (ex ++ [mkExtra n (tok_col tok) (firstn 200 (trim ln))]) Hs)
        as [H1 [more H2]].
      split; [exact H1|]. eexists. rewrite H2, <- app_assoc. reflexivity.
    + apply IH. now apply HP.
Qed.

Lemma stack_ordered_removelast n l :
  stack_ordered n l -> stack_ordered n (removelast l).
Proof.
  intros [H1 H2]. split; [now apply sorted_removelast | now apply Forall_removelast].
Qed.

Lemma line_step_ordered o n ln s :
  stack_ordered n (stack s) -> stack_ordered (S n) (stack (line_step o n ln s)).
Proof.
  intros [H1 H2].
  assert (Hw : stack_ordered (S n) (stack s)).
  { split; [assumption|]. eapply Forall_impl; [|exact H2]. simpl. intros. lia. }
  unfold line_step.
  destruct (filter is_word _) as [|w0 ws]; [exact Hw|].
  cbn [stack].
  apply (handle_ends_inv o _ n ln (stack_ordered (S n)) (stack_ordered_removelast (S n))).
  match goal with |- context [if ?b then _ else _] => destruct b end; [|exact Hw].
  split.
  - apply sorted_snoc; [assumption|]. exact H2.
  - apply Forall_app. split; [exact (proj2 Hw)|]. repeat constructor.
Qed.

Lemma scan_lines_ordered o ls : forall n s,
  stack_ordered n (stack s) ->
  stack_ordered (n + length ls) (stack (scan_lines o n ls s)).
Proof.
  induction ls as [|ln ls IH]; intros n s H; simpl.
  - now rewrite Nat.add_0_r.
  - replace (n + S (length ls)) with (S n + length ls) by lia.
    apply IH. now apply line_step_ordered.
Qed.

Lemma reported_missing_app a b :
  reported_missing (a ++ b) = reported_missing a ++ reported_missing b.
Proof. apply flat_map_app. Qed.

Lemma reported_missing_extras l : reported_missing (map PExtra l) = [].
Proof. induction l; [reflexivity | assumption]. Qed.

Lemma reported_missing_missing l : reported_missing (map PMissing l) = l.
Proof.
  induction l as [|a l IH]; [reflexivity|].
  cbn. f_equal. exact IH.
Qed.

Lemma reported_missing_message ex ms :
  reported_missing (build_message (is_nil ex && is_nil ms) ex ms) = rev ms.
Proof.
  unfold build_message.
  destruct (is_nil ex && is_nil ms) eqn:E.
  - apply andb_true_iff in E as [_ E]. destruct ms; [reflexivity | discriminate].
  - rewrite !reported_missing_app.
    replace (reported_missing [PTitle; PFound (length ex) (length ms)]) with (@nil frame)
      by reflexivity.
    replace (reported_missing (if is_nil ex then [] else PExtraHeading :: map PExtra ex))
      with (@nil frame).
    2:{ destruct (is_nil ex); [reflexivity|].
        change (PExtraHeading :: map PExtra ex) with ([PExtraHeading] ++ map PExtra ex).
        now rewrite reported_missing_app, reported_missing_extras. }
    cbn [app]. destruct ms as [|b ms]; [reflexivity|]. cbn [is_nil].
    change (PMissingHeading :: map PMissing (rev (b :: ms)) ++ [PNesting (b :: ms)])
      with ([PMissingHeading] ++ map PMissing (rev (b :: ms)) ++ [PNesting (b :: ms)]).
    rewrite !reported_missing_app, reported_missing_missing. cbn.
    now rewrite app_nil_r.
Qed.

(** C8, as stated, fails: with MAP opened on line 1 and LAYER on line 2 and
    neither closed, [missingEnds] lists MAP first, the innermost frame
    last. *)
Lemma missingEnds_order_counterexample :
  let r := analyze (L "MAP" ++ [LF] ++ L "LAYER") default_options in
  missingEnds r = [mkFrame (L "MAP") 1 1; mkFrame (L "LAYER") 2 1] /\
  ~ innermost_first (missingEnds r).
Proof.
  cbv zeta. split; [reflexivity|].
  replace (missingEnds _) with [mkFrame (L "MAP") 1 1; mkFrame (L "LAYER") 2 1]
    by reflexivity.
  intro H. inversion H as [|a l _ Hall]; subst.
  inversion Hall as [|b l' Hlt _]; subst. simpl in Hlt. lia.
Qed.

Lemma firstn_removelast {A} (l : list A) k :
  k <= length l - 1 -> firstn k (removelast l) = firstn k l.
Proof.
  intro H. rewrite removelast_firstn_len, firstn_firstn.
  f_equal. lia.
Qed.

(** The loop over the tokens of a line, in closed form: the honoured ENDs
    pop the frames there are, and the ENDs left over are recorded. *)
Lemma handle_ends_closed o opened n ln toks : forall tIdx stk ex,
  let hs := honoured o opened tIdx toks in
  handle_ends o opened n ln tIdx toks stk ex
  = (firstn (length stk - length hs) stk,
     ex ++ map (extra_of n ln) (skipn (length stk) hs)).
Proof.
  induction toks as [|tok toks IH]; intros tIdx stk ex; cbv zeta.
  - cbn [handle_ends honoured length]. rewrite Nat.sub_0_r, firstn_all.
    rewrite skipn_nil. cbn [map]. now rewrite app_nil_r.
  - cbn [handle_ends honoured].
    destruct (str_eqb (toUpperCase (word_text tok)) (L "END")); cbn [negb andb];
      [|apply IH].
    destruct ((tIdx =? 0) || allowInlineEndWithoutOpener o || opened); cbn [negb];
      [|apply IH].
    destruct stk as [|f stk].
    + rewrite IH. cbn [length skipn map firstn Nat.sub]. rewrite <- app_assoc.
      reflexivity.
    + rewrite IH. set (l := f :: stk).
      assert (Hl : 1 <= length l) by (subst l; simpl; lia).
      rewrite removelast_firstn_len, firstn_firstn, length_firstn.
      cbn [length]. f_equal.
      * f_equal. lia.
      * f_equal. f_equal.
        replace (Nat.min (Nat.pred (length l)) (length l)) with (Nat.pred (length l)) by lia.
        destruct (length l) as [|k]; [lia | reflexivity].
Qed.

Lemma line_step_closed o n ln s :
  let ws := words o ln (lex s) in
  let stk0 := stack s ++ pushed o n ws in
  let hs := honoured o (opens o ws) 0 ws in
  stack (line_step o n ln s) = firstn (length stk0 - length hs) stk0 /\
  extras (line_step o n ln s)
  = extras s ++ map (extra_of n ln) (skipn (length stk0) hs) /\
  lex (line_step o n ln s) = state (tokenizeLine ln (lex s) (allowMultilineQuotes o)).
Proof.
  cbv zeta. unfold line_step, words.
  destruct (filter is_word _) as [|w0 others] eqn:E.
  - cbn [stack extras lex pushed honoured length]. rewrite app_nil_r, Nat.sub_0_r, firstn_all.
    rewrite skipn_nil. cbn [map]. rewrite app_nil_r. repeat split; reflexivity.
  - cbn [stack extras lex]. rewrite handle_ends_closed. cbn [fst snd].
    unfold pushed, opens.
    match goal with |- context [if ?b then stack s ++ _ else stack s] => destruct b end.
    + repeat split; reflexivity.
    + rewrite app_nil_r. repeat split; reflexivity.
Qed.

Lemma pushed_length o n m ws : length (pushed o n ws) = length (pushed o m ws).
Proof. unfold pushed. destruct ws; [reflexivity|]. now destruct (opens o _). Qed.

(** Every frame pushed is popped or still open, every honoured END popped a
    frame or was recorded. *)
Lemma scan_lines_counts o lines : forall n s,
  let s' := scan_lines o n lines s in
  length (stack s') + snd (counts o lines (lex s)) + length (extras s)
  = length (stack s) + fst (counts o lines (lex s)) + length (extras s').
Proof.
  induction lines as [|ln lines IH]; intros n s; cbv zeta; [cbn; lia|].
  cbn [scan_lines counts fst snd].
  destruct (line_step_closed o n ln s) as (H1 & H2 & H3).
  specialize (IH (S n) (line_step o n ln s)). cbv zeta in IH.
  rewrite H3 in IH.
  set (ws := words o ln (lex s)) in *.
  set (hs := honoured o (opens o ws) 0 ws) in *.
  assert (K : length (stack (line_step o n ln s)) + length hs + length (extras s)
              = length (stack s) + length (pushed o 0 ws)
                + length (extras (line_step o n ln s))).
  { rewrite H1, H2, length_firstn, !length_app, length_map, length_skipn.
    rewrite (pushed_length o n 0). lia. }
  lia.
Qed.

(** C8, amended.  [analyze] returns a result for every text and every
    option record, and pops its stack only when a frame is there.  The
    frames still open at EOF are returned in [missingEnds] outermost first
    (in the order they were opened), and it is the message that names them
    innermost first; [ok] holds exactly when [extraEnds] and [missingEnds]
    are both empty.  On every line, whatever the stack, the END words that
    are honoured (the first word of the line, and the later ones when the
    line opened a block or on request) pop the open frames one by one,
    innermost first, the frame the line pushed included; each END that
    finds the stack empty pops nothing and is recorded in [extraEnds], in
    order, with its line, its column and the start of the line.  Over the
    whole text, the frames left open and the ENDs honoured are as many as
    the frames pushed and the extra ENDs recorded; the two lists returned
    are the stack and the extras of the scan of the lines, taken from line
    1 with an empty stack. *)
Theorem analyze_eof_report (text : str) (o : options) :
  let r := analyze text o in
  outermost_first (missingEnds r) /\
  reported_missing (message r) = rev (missingEnds r) /\
  innermost_first (reported_missing (message r)) /\
  (ok r = true <-> extraEnds r = [] /\ missingEnds r = []) /\
  (forall n ln s,
      let ws := words o ln (lex s) in
      let stk0 := stack s ++ pushed o n ws in
      let hs := honoured o (opens o ws) 0 ws in
      stack (line_step o n ln s) = firstn (length stk0 - length hs) stk0 /\
      extras (line_step o n ln s)
      = extras s ++ map (extra_of n ln) (skipn (length stk0) hs)) /\
  (let c := counts o (split_nl (normalize_newlines text)) fresh in
   length (missingEnds r) + snd c = fst c + length (extraEnds r)) /\
  (let s := scan_lines o 1 (split_nl (normalize_newlines text)) (mkScan [] [] fresh) in
   missingEnds r = stack s /\ extraEnds r = extras s).
Proof.
  intro r.
  assert (Hord : outermost_first (missingEnds r)).
  { subst r. unfold analyze. cbn [missingEnds].
    apply (scan_lines_ordered o _ 1 (mkScan [] [] fresh)).
    split; constructor. }
  assert (Hmsg : reported_missing (message r) = rev (missingEnds r)).
  { subst r. unfold analyze. cbn [message missingEnds]. apply reported_missing_message. }
  split; [exact Hord|]. split; [exact Hmsg|]. split.
  { rewrite Hmsg. unfold innermost_first. apply (sorted_rev _ _ Hord). }
  split.
  { subst r. unfold analyze. cbn [ok extraEnds missingEnds].
    destruct (extras _), (stack _); cbn; split; intros; intuition discriminate. }
  split.
  { intros n ln s. destruct (line_step_closed o n ln s) as (H1 & H2 & _).
    split; assumption. }
  split; [|split; reflexivity].
  cbv zeta. subst r. unfold analyze. cbn [missingEnds extraEnds].
  pose proof (scan_lines_counts o (split_nl (normalize_newlines text)) 1
                (mkScan [] [] fresh)) as H.
  cbv zeta in H. cbn [stack extras lex length] in H. lia.
Qed.

(** A line that opens MAP and holds two ENDs, met with an empty stack: the
    first END pops MAP, the second finds the stack empty and is recorded at
    its column. *)
Lemma analyze_eof_report_witness :
  let s := mkScan [] [] fresh in
  stack (line_step default_options 1 (L "MAP END END") s) = [] /\
  extras (line_step default_options 1 (L "MAP END END") s)
  = [mkExtra 1 9 (L "MAP END END")].
Proof.
  cbv zeta.
  exact (proj1 (proj2 (proj2 (proj2 (proj2
           (analyze_eof_report [] default_options)))))
           1 (L "MAP END END") (mkScan [] [] fresh)).
Defined.

End EndDetectorFacts.
(* ================================================================== *)
(** ** Syntax checker: cascade suppression                             *)
(* ================================================================== *)

Section SyntaxDetectorFacts.
Import Lexer SyntaxDetector.

Lemma add_all_app w a b k : add_all w (a ++ b) k = add_all w b (add_all w a k).
Proof. unfold add_all. apply fold_left_app. Qed.

(** The sink of a run is what [addIssue] makes of the calls of the run. *)
Lemma scan_lines_calls o ls : forall n s,
  add_all (suppression_window o)
          (eof_calls (n + length ls - 1) (stack (scan_lines o n ls s)))
          (out (scan_lines o n ls s))
  = add_all (suppression_window o) (calls_of_lines o n ls (stack s) (lex s)) (out s).
Proof.
  induction ls as [|ln ls IH]; intros n s.
  - simpl. now rewrite Nat.add_0_r.
  - cbn [scan_lines calls_of_lines length].
    replace (n + S (length ls) - 1) with (S n + length ls - 1) by lia.
    rewrite IH, add_all_app. reflexivity.
Qed.

Lemma scan_text_calls text o :
  out (scan_text text o)
  = add_all (suppression_window o) (addIssue_calls text o) (mkSink [] 0 0).
Proof.
  unfold scan_text, addIssue_calls. cbn [out].
  pose proof (scan_lines_calls o (lines_of text) 1 initial) as H.
  change (stack initial) with [ROOT] in H.
  change (lex initial) with fresh in H.
  change (out initial) with (mkSink [] 0 0) in H.
  rewrite <- H.
  replace (1 + length (lines_of text) - 1) with (length (lines_of text)) by lia.
  reflexivity.
Qed.

Lemma addIssue_until_mono w x k :
  suppressSoftUntilLine k <= suppressSoftUntilLine (addIssue w x k).
Proof.
  unfold addIssue. destruct (is_soft _ && _); cbn; [lia|].
  destruct (is_hard _); lia.
Qed.

Lemma add_all_until_mono w l : forall k,
  suppressSoftUntilLine k <= suppressSoftUntilLine (add_all w l k).
Proof.
  induction l as [|x l IH]; intro k; [simpl; lia|].
  change (add_all w (x :: l) k) with (add_all w l (addIssue w x k)).
  etransitivity; [apply (addIssue_until_mono w x) | apply IH].
Qed.

(** After a HARD issue was passed to [addIssue], the suppression line is at
    least its line plus the window. *)
Lemma add_all_hard_until w l h : forall k,
  In h l -> severity h = HARD ->
  lineNo h + w <= suppressSoftUntilLine (add_all w l k).
Proof.
  induction l as [|x l IH]; intros k Hin Hh; [destruct Hin|].
  change (add_all w (x :: l) k) with (add_all w l (addIssue w x k)).
  destruct Hin as [->|Hin]; [|now apply IH].
  etransitivity; [|apply add_all_until_mono].
  unfold addIssue. rewrite Hh. cbn. lia.
Qed.

Lemma addIssue_total w x k :
  length (issues (addIssue w x k)) + suppressedSoftCount (addIssue w x k)
  = S (length (issues k) + suppressedSoftCount k).
Proof.
  unfold addIssue. destruct (is_soft _ && _); cbn; [lia|].
  rewrite length_app. cbn. lia.
Qed.

Lemma add_all_total w l : forall k,
  length (issues (add_all w l k)) + suppressedSoftCount (add_all w l k)
  = length l + (length (issues k) + suppressedSoftCount k).
Proof.
  induction l as [|x l IH]; intro k; [reflexivity|].
  change (add_all w (x :: l) k) with (add_all w l (addIssue w x k)).
  rewrite IH, addIssue_total. simpl. lia.
Qed.

Lemma addIssue_ok w x k : 1 <= lineNo x -> sink_ok k -> sink_ok (addIssue w x k).
Proof.
  intros Hx Hk. unfold addIssue.
  destruct (is_soft _ && _) eqn:E.
  - apply andb_true_iff in E as [_ E]. apply Nat.leb_le in E.
    destruct Hk as [[H _]|H]; [lia|]. now right.
  - right. cbn. intro N. now apply app_eq_nil in N as [_ N].
Qed.

Lemma add_all_ok w l : forall k,
  Forall (fun x => 1 <= lineNo x) l -> sink_ok k -> sink_ok (add_all w l k).
Proof.
  induction l as [|x l IH]; intros k Hl Hk; [exact Hk|].
  inversion Hl; subst.
  change (add_all w (x :: l) k) with (add_all w l (addIssue w x k)).
  apply IH; [assumption|]. now apply addIssue_ok.
Qed.

Lemma line_calls_lineNo o n ln stk lx :
  Forall (fun x => lineNo x = n) (snd (line_calls o n ln stk lx)).
Proof.
  unfold line_calls.
  destruct (tokens _) as [|firstTok toks]; [constructor|].
  assert (Hq : forall l : list (nat * ascii),
             Forall (fun x => lineNo x = n)
               (map (fun uq => mkIssue n (fst uq) MISSING_QUOTE HARD
                                 (MOpenQuote (snd uq)) (trim ln)) l)).
  { induction l; constructor; [reflexivity | assumption]. }
  destruct (is_word firstTok); cbn [snd]; [|apply Hq].
  apply Forall_app. split; [apply Hq|].
  unfold word_line.
  repeat match goal with
         | |- context [if ?b then _ else _] => destruct b
         | |- context [match ?x with _ => _ end] => destruct x
         end; cbn [snd app]; repeat constructor.
Qed.

Lemma calls_lineNo o ls : forall n stk lx,
  1 <= n -> (ls = [] -> 2 <= n) ->
  Forall (fun x => 1 <= lineNo x) (calls_of_lines o n ls stk lx).
Proof.
  induction ls as [|ln ls IH]; intros n stk lx Hn H2.
  - simpl. unfold eof_calls. destruct (1 <? length stk); repeat constructor.
    cbn. specialize (H2 eq_refl). lia.
  - cbn [calls_of_lines]. apply Forall_app. split.
    + eapply Forall_impl; [|apply line_calls_lineNo]. simpl. intros x ->. exact Hn.
    + apply IH; lia.
Qed.

Lemma In_build_report o k :
  issues k <> [] -> 0 < suppressedSoftCount k ->
  In (RSuppressed (suppressedSoftCount k)) (build_report o k).
Proof.
  intros Hi Hc. unfold build_report.
  destruct (issues k) eqn:E; [congruence|]. cbn [is_nil].
  apply in_or_app. right. apply in_or_app. right. apply in_or_app. right.
  apply in_or_app. left.
  apply Nat.ltb_lt in Hc. rewrite Hc. right. now left.
Qed.

(** The suppression line never passes the lines of the HARD issues met,
    plus the window. *)
Lemma add_all_until_bound w l bound : forall k,
  suppressSoftUntilLine k <= bound ->
  (forall h, In h l -> severity h = HARD -> lineNo h + w <= bound) ->
  suppressSoftUntilLine (add_all w l k) <= bound.
Proof.
  induction l as [|x l IH]; intros k Hk Hl; [exact Hk|].
  change (add_all w (x :: l) k) with (add_all w l (addIssue w x k)).
  apply IH; [|intros h Hh; apply Hl; now right].
  unfold addIssue. destruct (is_soft _ && _); cbn; [exact Hk|].
  destruct (severity x) eqn:E; cbn; [|exact Hk].
  specialize (Hl x (or_introl eq_refl) E). lia.
Qed.

(** C6.  Cascade suppression.  The window is [softSuppressionLines] when the
    option is a finite number (its floor, or 0 if that is negative) and 25
    otherwise.  The issues a run passes to [addIssue] are [addIssue_calls];
    once a HARD issue of line [L] was passed, every SOFT issue passed later
    with a line number at most [L] plus the window is left out of the
    recorded issues and counted; a SOFT issue whose line lies beyond the
    window of every HARD issue passed before it is recorded; every call is
    either recorded or counted; and a positive count is printed in a
    summary line of the report. *)
Theorem cascade_suppression (text : str) (o : options) :
  let window := match softSuppressionLines o with
                | Some z => Z.to_nat (Z.max 0 z)
                | None => 25
                end in
  let calls := addIssue_calls text o in
  let k := out (scan_text text o) in
  k = add_all window calls (mkSink [] 0 0) /\
  (forall i j h s,
      i < j -> nth_error calls i = Some h -> nth_error calls j = Some s ->
      severity h = HARD -> severity s = SOFT ->
      lineNo s <= lineNo h + window ->
      let before := add_all window (firstn j calls) (mkSink [] 0 0) in
      let after := addIssue window s before in
      issues after = issues before /\
      suppressedSoftCount after = S (suppressedSoftCount before)) /\
  (forall j s,
      nth_error calls j = Some s -> severity s = SOFT ->
      (forall i h, i < j -> nth_error calls i = Some h -> severity h = HARD ->
                   lineNo h + window < lineNo s) ->
      let before := add_all window (firstn j calls) (mkSink [] 0 0) in
      let after := addIssue window s before in
      issues after = issues before ++ [s] /\
      suppressedSoftCount after = suppressedSoftCount before) /\
  length (issues k) + suppressedSoftCount k = length calls /\
  (0 < suppressedSoftCount k ->
   In (RSuppressed (suppressedSoftCount k)) (syntaxisErrorDetector text o)).
Proof.
  intros window calls k.
  change window with (suppression_window o) in *.
  assert (Hk : k = add_all (suppression_window o) calls (mkSink [] 0 0))
    by apply scan_text_calls.
  assert (Hpos : Forall (fun x => 1 <= lineNo x) calls).
  { apply calls_lineNo; [lia|]. intro E. exfalso.
    unfold lines_of in E. exact (split_nl_nonempty _ E). }
  split; [exact Hk|]. split; [|split; [|split]].
  - intros i j h s Hij Hi Hj Hh Hs Hle before after.
    assert (Hin : In h (firstn j calls)).
    { apply (nth_error_In _ i). rewrite nth_error_firstn.
      apply Nat.ltb_lt in Hij. now rewrite Hij. }
    pose proof (add_all_hard_until (suppression_window o) _ h (mkSink [] 0 0) Hin Hh) as Hu.
    fold before in Hu. subst after. unfold addIssue. rewrite Hs. cbn [is_soft andb].
    replace (lineNo s <=? suppressSoftUntilLine before) with true
      by (symmetry; apply Nat.leb_le; lia).
    cbn. split; reflexivity.
  - intros j s Hj Hs Hfar before after.
    assert (H1 : 1 <= lineNo s).
    { apply (proj1 (Forall_forall _ _) Hpos). eapply nth_error_In; eassumption. }
    assert (Hu : suppressSoftUntilLine before <= lineNo s - 1).
    { subst before. apply add_all_until_bound; [cbn; lia|].
      intros h Hin Hh. apply In_nth_error in Hin as [i Hi].
      assert (Hij : i < j).
      { destruct (Nat.lt_ge_cases i j) as [|Hge]; [assumption|].
        rewrite nth_error_firstn in Hi.
        replace (i <? j) with false in Hi by (symmetry; apply Nat.ltb_ge; lia).
        discriminate. }
      rewrite nth_error_firstn in Hi. apply Nat.ltb_lt in Hij. rewrite Hij in Hi.
      apply Nat.ltb_lt in Hij. specialize (Hfar i h Hij Hi Hh). lia. }
    subst after. unfold addIssue. rewrite Hs. cbn [is_soft is_hard andb].
    replace (lineNo s <=? suppressSoftUntilLine before) with false
      by (symmetry; apply Nat.leb_gt; lia).
    cbn. split; reflexivity.
  - rewrite Hk, add_all_total. cbn. lia.
  - intro Hc. unfold syntaxisErrorDetector. fold k. apply In_build_report; [|exact Hc].
    assert (Hok : sink_ok k).
    { rewrite Hk. apply add_all_ok; [exact Hpos | left; now split]. }
    destruct Hok as [[_ H]|H]; [lia | exact H].
Qed.

(** With [softSuppressionLines] set to 40: an illegal top-level CLASS (HARD,
    line 1), blank lines, and at line 27 a line with an unknown keyword; its
    CONTEXT warning, the third call, is within the window of 40 (it would
    not be within 25) and is suppressed. *)
Lemma cascade_suppression_witness :
  let o := mkOptions true (Some 40%Z) false in
  let text := L "CLASS" ++ repeat LF 26 ++ L "FOO 1" in
  let calls := addIssue_calls text o in
  let before := add_all 40 (firstn 2 calls) (mkSink [] 0 0) in
  let after :=
    addIssue 40 (mkIssue 27 1 CONTEXT SOFT
                   (MWrongContext (L "FOO") (L "CLASS") false []) (L "FOO 1")) before in
  issues after = issues before /\
  suppressedSoftCount after = S (suppressedSoftCount before).
Proof.
  cbv zeta.
  refine (proj1 (proj2
            (cascade_suppression (L "CLASS" ++ repeat LF 26 ++ L "FOO 1")
               (mkOptions true (Some 40%Z) false)))
            0 2
            (mkIssue 1 1 NESTING HARD
               (MWrongNesting (L "CLASS") (L "ROOT") [L "LAYER"]) (L "CLASS"))
            (mkIssue 27 1 CONTEXT SOFT
               (MWrongContext (L "FOO") (L "CLASS") false []) (L "FOO 1"))
            _ _ _ _ _ _).
  - lia.
  - vm_compute. reflexivity.
  - vm_compute. reflexivity.
  - reflexivity.
  - reflexivity.
  - cbn. lia.
Defined.

End SyntaxDetectorFacts.
(* ================================================================== *)
(** ** Numbers: order and rounding                                     *)
(* ================================================================== *)

Section NumFacts.
Import Num.


Lemma leb_refl a : is_nan a = false -> leb a a = true.
Proof.
  destruct a; simpl; try reflexivity; try discriminate.
  intros _. apply Qle_bool_iff, Qle_refl.
Qed.

Lemma leb_trans a b c : leb a b = true -> leb b c = true -> leb a c = true.
Proof.
  destruct a, b, c; simpl; try reflexivity; try discriminate.
  rewrite !Qle_bool_iff. apply Qle_trans.
Qed.

Lemma leb_total a b :
  is_nan a = false -> is_nan b = false -> leb a b = false -> leb b a = true.
Proof.
  destruct a, b; simpl; try reflexivity; try discriminate.
  intros _ _ H. apply Qle_bool_iff.
  destruct (Qlt_le_dec q0 q) as [Hlt|Hle].
  - now apply Qlt_le_weak.
  - apply Qle_bool_iff in Hle. congruence.
Qed.

Lemma min2_spec a b :
  is_nan (min2 a b) = false ->
  is_nan a = false /\ is_nan b = false /\
  leb (min2 a b) a = true /\ leb (min2 a b) b = true.
Proof.
  unfold min2. destruct (is_nan a) eqn:Ha; [discriminate|].
  destruct (is_nan b) eqn:Hb; [discriminate|]. cbn [orb].
  destruct (leb a b) eqn:E; intros _; repeat split; try assumption.
  - now apply leb_refl.
  - now apply leb_total.
  - now apply leb_refl.
Qed.

Lemma max2_spec a b :
  is_nan (max2 a b) = false ->
  is_nan a = false /\ is_nan b = false /\
  leb a (max2 a b) = true /\ leb b (max2 a b) = true.
Proof.
  unfold max2. destruct (is_nan a) eqn:Ha; [discriminate|].
  destruct (is_nan b) eqn:Hb; [discriminate|]. cbn [orb].
  destruct (leb a b) eqn:E; intros _; repeat split; try assumption.
  - now apply leb_refl.
  - now apply leb_refl.
  - now apply leb_total.
Qed.

Lemma fold_min2_spec xs : forall acc,
  is_nan (fold_left min2 xs acc) = false ->
  leb (fold_left min2 xs acc) acc = true /\
  forall x, In x xs -> leb (fold_left min2 xs acc) x = true.
Proof.
  induction xs as [|y xs IH]; intros acc H; simpl in *.
  - split; [now apply leb_refl | intros x []].
  - destruct (IH _ H) as [H1 H2].
    assert (Hn : is_nan (min2 acc y) = false).
    { destruct (min2 acc y) eqn:E; try reflexivity.
      destruct (fold_left min2 xs _); discriminate. }
    destruct (min2_spec acc y Hn) as [_ [_ [Ha Hy]]].
    split; [eapply leb_trans; eassumption|].
    intros x [<-|Hx]; [eapply leb_trans; eassumption | now apply H2].
Qed.

Lemma fold_max2_spec xs : forall acc,
  is_nan (fold_left max2 xs acc) = false ->
  leb acc (fold_left max2 xs acc) = true /\
  forall x, In x xs -> leb x (fold_left max2 xs acc) = true.
Proof.
  induction xs as [|y xs IH]; intros acc H; simpl in *.
  - split; [now apply leb_refl | intros x []].
  - destruct (IH _ H) as [H1 H2].
    assert (Hn : is_nan (max2 acc y) = false).
    { destruct (max2 acc y) eqn:E; try reflexivity.
      destruct (fold_left max2 xs _); discriminate. }
    destruct (max2_spec acc y Hn) as [_ [_ [Ha Hy]]].
    split; [eapply leb_trans; eassumption|].
    intros x [<-|Hx]; [eapply leb_trans; eassumption | now apply H2].
Qed.



Lemma fixed_digits_nonneg v d : (0 <= fixed_digits v d)%Z.
Proof.
  unfold fixed_digits. change 0%Z with (Qfloor 0).
  apply Qfloor_resp_le.
  assert (0 <= Qabs v * inject_Z (10 ^ Z.of_nat d))%Q.
  { apply Qmult_le_0_compat; [apply Qabs_nonneg|].
    change 0%Q with (inject_Z 0). rewrite <- Zle_Qle. apply Z.pow_nonneg. lia. }
  apply (Qle_trans _ (0 + (1 # 2))%Q); [discriminate|].
  apply Qplus_le_compat; [assumption | apply Qle_refl].
Qed.



End NumFacts.

(* ================================================================== *)
(** ** Extent synchroniser                                             *)
(* ================================================================== *)

Section ExtentSyncFacts.
Import Num Viewport Projection ExtentSync.

Lemma In_indexed l : forall a i ln,
  In (i, ln) (indexed a l) -> a <= i /\ nth_error l (i - a) = Some ln.
Proof.
  induction l as [|x l IH]; intros a i ln H; [destruct H|].
  destruct H as [H|H].
  - injection H as <- <-. rewrite Nat.sub_diag. split; [lia | reflexivity].
  - destruct (IH _ _ _ H) as [H1 H2]. split; [lia|].
    replace (i - a) with (S (i - S a)) by lia. exact H2.
Qed.

Lemma In_firstn {A} n (l : list A) x : In x (firstn n l) -> In x l.
Proof.
  revert l. induction n as [|n IH]; intros l H; [destruct H|].
  destruct l as [|y l]; [destruct H|]. destruct H as [H|H]; [now left|].
  right. now apply IH.
Qed.

Lemma In_items lines a b i ln :
  In (i, ln) (items lines a b) -> a <= i /\ nth_error lines i = Some ln.
Proof.
  unfold items. intro H. apply In_firstn, In_indexed in H as [H1 H2].
  split; [assumption|]. rewrite nth_error_skipn in H2.
  now replace (a + (i - a)) with i in H2 by lia.
Qed.

Lemma find_none_all {A} (f : A -> bool) l :
  (forall x, In x l -> f x = false) -> find f l = None.
Proof.
  induction l as [|x l IH]; intro H; [reflexivity|].
  simpl. rewrite (H x (or_introl eq_refl)). apply IH. intros y Hy. apply H. now right.
Qed.

Lemma findBlockEnd_loop_none its :
  (forall i ln, In (i, ln) its -> is_end_line ln = false) ->
  forall d, findBlockEnd_loop its d = None.
Proof.
  induction its as [|[i ln] its IH]; intros H d; [reflexivity|].
  cbn [findBlockEnd_loop].
  pose proof (H i ln (or_introl eq_refl)) as Hl. unfold is_end_line in Hl.
  assert (IH' : forall d, findBlockEnd_loop its d = None).
  { apply IH. intros j l Hj. apply (H j l). now right. }
  destruct (isComment ln); [apply IH'|]. cbn in Hl. rewrite Hl.
  destruct (isBlockStart ln); apply IH'.
Qed.

(** Without an END line after the MAP line, neither the depth scan nor the
    last-END fallback finds the end of the MAP block. *)
Lemma locate_map_no_end lines s :
  findFirstBlockStart lines "MAP" = Some s ->
  (forall i ln, s < i -> nth_error lines i = Some ln -> is_end_line ln = false) ->
  locate_map lines = NoMapEnd s.
Proof.
  intros Hs Hno. unfold locate_map. rewrite Hs.
  assert (Hits : forall i ln, In (i, ln) (items lines (s + 1) (length lines)) ->
                              is_end_line ln = false).
  { intros i ln H. apply In_items in H as [H1 H2]. apply (Hno i ln); [lia | assumption]. }
  assert (E1 : findBlockEnd lines s = s).
  { unfold findBlockEnd. now rewrite findBlockEnd_loop_none. }
  assert (E2 : findLastEndAfter lines s = s).
  { unfold findLastEndAfter. rewrite find_none_all; [reflexivity|].
    intros [i ln] H. apply in_rev in H. exact (Hits i ln H). }
  rewrite E1, E2, Nat.leb_refl, Nat.ltb_irrefl. reflexivity.
Qed.

Lemma find_none_inv {A} (f : A -> bool) l :
  find f l = None -> forall x, In x l -> f x = false.
Proof.
  induction l as [|y l IH]; intros H x Hx; [destruct Hx|].
  simpl in H. destruct (f y) eqn:E; [discriminate|].
  destruct Hx as [<-|Hx]; [exact E | now apply IH].
Qed.

Lemma items_index lines a i ln :
  a <= i -> nth_error lines i = Some ln -> In (i, ln) (items lines a (length lines)).
Proof.
  intros Ha Hn. unfold items.
  assert (G : forall l k j x, nth_error l j = Some x -> In (k + j, x) (indexed k l)).
  { induction l as [|y l IH]; intros k j x H; [destruct j; discriminate|].
    destruct j as [|j]; cbn in H.
    - injection H as <-. rewrite Nat.add_0_r. now left.
    - right. replace (k + S j) with (S k + j) by lia. now apply IH. }
  rewrite firstn_all2.
  - replace i with (a + (i - a)) at 1 by lia. apply G.
    rewrite nth_error_skipn. now replace (a + (i - a)) with i by lia.
  - assert (E : forall l k, length (indexed k l) = length l)
      by (induction l; intros; simpl; auto).
    rewrite E, length_skipn. lia.
Qed.

(** The end of the MAP block is not found exactly when no END line follows
    the MAP line. *)
Lemma locate_map_no_end_iff lines s :
  locate_map lines = NoMapEnd s <->
  findFirstBlockStart lines "MAP" = Some s /\
  (forall i ln, s < i -> nth_error lines i = Some ln -> is_end_line ln = false).
Proof.
  split.
  - unfold locate_map. destruct (findFirstBlockStart lines "MAP") as [m|]; [|discriminate].
    destruct (findBlockEnd lines m <=? m); [|discriminate].
    destruct (m <? findLastEndAfter lines m) eqn:G; [discriminate|].
    intro H. injection H as <-. split; [reflexivity|].
    intros i ln Hi Hn. apply Nat.ltb_ge in G.
    unfold findLastEndAfter in G.
    destruct (find _ (rev (items lines (m + 1) (length lines)))) as [[j l]|] eqn:F.
    + apply find_some in F as [F _]. apply in_rev, In_items in F as [F _].
      cbn [fst] in G. lia.
    + apply (find_none_inv _ _ F (i, ln)). apply -> in_rev.
      apply items_index; [lia | assumption].
  - intros [Hs Hno]. now apply locate_map_no_end.
Qed.

(** C4, as stated, fails: a text with a MAP line and no END after it makes
    [sync] reject with an [Error] instead of returning the text. *)
Lemma sync_no_end_counterexample :
  let text := L "MAP" ++ [LF] ++ L "  NAME demo" ++ [LF] ++ L "  LAYER" in
  locate_map (lines_of text) = NoMapEnd 0 /\
  fst (sync None new_service text (Fin 0, Fin 0, Fin 1, Fin 1) (mkOpts true true true))
  = Rejected (L "MAP block END not found").
Proof. split; reflexivity. Qed.

(** C4, amended.  [sync] resolves with the text as it is, and leaves the
    projection service alone, when the text is blank or has no MAP line.
    It rejects exactly when the text is not blank and has a MAP line that
    no END line follows (so that the depth scan and the last-END fallback
    both fail); the error is then "MAP block END not found", whatever the
    options, nothing is rewritten and the projection service is not
    touched; the save handlers catch the error and go on with the original
    text. *)
Theorem sync_unresolved_span (imported : option proj4) (s : service) (text : str)
        (e : Extent) (o : SyncOptions) :
  (is_empty (trim text) = true -> sync imported s text e o = (Resolved text, s)) /\
  (findFirstBlockStart (lines_of text) "MAP" = None ->
   sync imported s text e o = (Resolved text, s)) /\
  (forall msg,
      fst (sync imported s text e o) = Rejected msg <->
      is_empty (trim text) = false /\
      (exists m,
          findFirstBlockStart (lines_of text) "MAP" = Some m /\
          forall i ln, m < i -> nth_error (lines_of text) i = Some ln ->
                       is_end_line ln = false) /\
      msg = L "MAP block END not found") /\
  (forall msg,
      fst (sync imported s text e o) = Rejected msg ->
      snd (sync imported s text e o) = s /\
      content_after_sync imported s text (Some e) = (text, s)).
Proof.
  assert (R : forall o' msg,
             fst (sync imported s text e o') = Rejected msg <->
             is_empty (trim text) = false /\
             (exists m, locate_map (lines_of text) = NoMapEnd m) /\
             msg = L "MAP block END not found").
  { intros o' msg. unfold sync.
    destruct (is_empty (trim text)) eqn:Hb.
    { cbn [fst]. split; [discriminate | intros [K _]; discriminate]. }
    destruct (locate_map (lines_of text)) as [|m|ms me fb] eqn:Hl.
    - cbn [fst]. split; [discriminate | intros [_ [[m K] _]]; discriminate].
    - cbn [fst]. split.
      + intro H. injection H as <-. repeat split. now exists m.
      + intros [_ [_ ->]]. reflexivity.
    - split.
      + destruct (updateMap o'), (updateLayers o');
          repeat match goal with
                 | |- context [let '(_, _) := ?x in _] => destruct x
                 end; cbn [fst]; discriminate.
      + intros [_ [[m K] _]]. discriminate. }
  assert (S : forall o' msg,
             fst (sync imported s text e o') = Rejected msg ->
             sync imported s text e o' = (Rejected (L "MAP block END not found"), s)).
  { intros o' msg H. apply R in H as [Hb [[m Hl] _]].
    unfold sync. now rewrite Hb, Hl. }
  split; [|split; [|split]].
  - intro H. unfold sync. now rewrite H.
  - intro H. unfold sync. destruct (is_empty (trim text)); [reflexivity|].
    unfold locate_map. now rewrite H.
  - intro msg. rewrite R. split.
    + intros [Hb [[m Hl] Hm]]. split; [exact Hb|]. split; [|exact Hm].
      exists m. now apply locate_map_no_end_iff.
    + intros [Hb [[m Hl] Hm]]. split; [exact Hb|]. split; [|exact Hm].
      exists m. now apply locate_map_no_end_iff.
  - intros msg H. split.
    + now rewrite (S o msg H).
    + assert (H' : fst (sync imported s text e (mkOpts true true true)) = Rejected msg).
      { apply R. now apply R in H. }
      unfold content_after_sync, syncToCurrentViewport. now rewrite (S _ msg H').
Qed.

Lemma sync_unresolved_span_witness :
  fst (sync None new_service (L "MAP" ++ [LF] ++ L "  NAME demo")
         (Fin 0, Fin 0, Fin 1, Fin 1) (mkOpts true true true))
  = Rejected (L "MAP block END not found")
  /\ content_after_sync None new_service (L "MAP" ++ [LF] ++ L "  NAME demo")
                        (Some (Fin 0, Fin 0, Fin 1, Fin 1))
     = (L "MAP" ++ [LF] ++ L "  NAME demo", new_service).
Proof.
  pose proof (sync_unresolved_span None new_service (L "MAP" ++ [LF] ++ L "  NAME demo")
                (Fin 0, Fin 0, Fin 1, Fin 1) (mkOpts true true true))
    as (_ & _ & H3 & H4).
  assert (R : fst (sync None new_service (L "MAP" ++ [LF] ++ L "  NAME demo")
                     (Fin 0, Fin 0, Fin 1, Fin 1) (mkOpts true true true))
              = Rejected (L "MAP block END not found")).
  { apply H3. split; [reflexivity|]. split; [|reflexivity].
    exists 0. split; [reflexivity|].
    intros i ln Hi Hn. destruct i as [|[|[|i]]]; [lia | | |].
    - injection Hn as <-. reflexivity.
    - discriminate.
    - discriminate. }
  split; [exact R | exact (proj2 (H4 _ R))].
Defined.

(* ------------------------------------------------------------------ *)
(** *** The index loops never run out of fuel                           *)

Lemma metadata_loop_fuel v end_ f1 : forall f2 i lines,
  end_ - i <= f1 -> end_ - i <= f2 ->
  metadata_loop f1 i end_ v lines = metadata_loop f2 i end_ v lines.
Proof.
  induction f1 as [|f1 IH]; intros f2 i lines H1 H2.
  - destruct f2 as [|f2]; [reflexivity|]. cbn [metadata_loop].
    replace (end_ <=? i) with true by (symmetry; apply Nat.leb_le; lia). reflexivity.
  - destruct f2 as [|f2].
    + cbn [metadata_loop].
      replace (end_ <=? i) with true by (symmetry; apply Nat.leb_le; lia). reflexivity.
    + cbn [metadata_loop]. destruct (end_ <=? i) eqn:E; [reflexivity|].
      apply Nat.leb_gt in E.
      destruct (isComment (nth i lines []) || _); [apply IH; lia|].
      destruct (findBlockEnd lines i <=? i) eqn:G; [apply IH; lia|].
      apply Nat.leb_gt in G. apply IH; lia.
Qed.

Lemma layers_loop_fuel imported mapEnd mapCrs e add f1 : forall f2 i lines s,
  mapEnd - i <= f1 -> mapEnd - i <= f2 ->
  layers_loop imported f1 i mapEnd mapCrs e add lines s
  = layers_loop imported f2 i mapEnd mapCrs e add lines s.
Proof.
  induction f1 as [|f1 IH]; intros f2 i lines s H1 H2.
  - destruct f2 as [|f2]; [reflexivity|]. cbn [layers_loop].
    replace (mapEnd <=? i) with true by (symmetry; apply Nat.leb_le; lia). reflexivity.
  - destruct f2 as [|f2].
    + cbn [layers_loop].
      replace (mapEnd <=? i) with true by (symmetry; apply Nat.leb_le; lia). reflexivity.
    + cbn [layers_loop]. destruct (mapEnd <=? i) eqn:E; [reflexivity|].
      apply Nat.leb_gt in E.
      destruct (negb (is_layer_line (nth i lines []))); [apply IH; lia|].
      destruct (findBlockEnd lines i <=? i) eqn:G; [apply IH; lia|].
      apply Nat.leb_gt in G.
      destruct (projectExtent _ _ _ _ _) as [ext s1]. apply IH; lia.
Qed.





End ExtentSyncFacts.
(* ================================================================== *)
(** ** WFS classifier                                                  *)
(* ================================================================== *)

Section WfsFacts.
Import Wfs WfsRules WfsBlocks.

Lemma is_empty_orb_eq (s : str) : is_empty s = str_eqb s [].
Proof. destruct s; reflexivity. Qed.

(** C7.  Strict rule order of the WFS classifier: the verdict of a layer is
    the outcome of the rules taken in order (TYPE=RASTER; the enable flag
    looked up in the layer's [wfs_enable_request], the layer's
    [ows_enable_request], the web [wfs_enable_request], the web
    [ows_enable_request]; a flag that looks disabled or does not include
    getfeature, a star or all; a missing or blank layer title or SRS), and a
    RASTER layer is unsupported whatever the metadata. *)
Theorem wfs_rule_order (ly : layer) (layerMetaLower webMetaLower : obj str) :
  supported (computeWfsSupportForLayer ly layerMetaLower webMetaLower)
  = rules (type ly) (obj_get layerMetaLower) (obj_get webMetaLower)
  /\ (toUpperCase (or_empty (type ly)) = L "RASTER" ->
      computeWfsSupportForLayer ly layerMetaLower webMetaLower
      = mkVerdict false [L "TYPE=RASTER (WFS is vector-only)"]).
Proof.
  split.
  - unfold computeWfsSupportForLayer, rules.
    destruct (str_eqb (toUpperCase (or_empty (type ly))) (L "RASTER")); [reflexivity|].
    cbn [first_present].
    assert (Hd : forall v, valueLooksDisabled v = disabled_looking v).
    { intro v. unfold valueLooksDisabled, disabled_looking. cbn [existsb].
      rewrite is_empty_orb_eq, orb_false_r, !orb_assoc. reflexivity. }
    assert (Hg : forall v, valueIncludesGetFeature v = allows_getfeature v).
    { intro v. unfold valueIncludesGetFeature, allows_getfeature. cbn [existsb].
      now rewrite orb_false_r, !orb_assoc. }
    assert (Hv : forall k v s,
               supported
                 (if valueLooksDisabled v || negb (valueIncludesGetFeature v)
                  then mkVerdict false
                         ([k ++ L "=" ++ v ++ L " (scope=" ++ s ++ L ")"]
                          ++ [L "enable metadata does not allow GetFeature"])
                  else
                    if negb (hasAny layerMetaLower [L "wfs_title"; L "ows_title"])
                       || negb (hasAny layerMetaLower [L "wfs_srs"; L "ows_srs"])
                    then mkVerdict false
                           ([k ++ L "=" ++ v ++ L " (scope=" ++ s ++ L ")"]
                            ++ (if negb (hasAny layerMetaLower [L "wfs_title"; L "ows_title"])
                                then [L "missing wfs_title/ows_title"] else [])
                            ++ (if negb (hasAny layerMetaLower [L "wfs_srs"; L "ows_srs"])
                                then [L "missing wfs_srs/ows_srs"] else []))
                    else mkVerdict true
                           ([k ++ L "=" ++ v ++ L " (scope=" ++ s ++ L ")"]
                            ++ [L "has basic WFS metadata (title + srs)"]))
               = (if disabled_looking v then false
                  else if negb (allows_getfeature v) then false
                  else if negb (supplies (obj_get layerMetaLower) [L "wfs_title"; L "ows_title"])
                  then false
                  else if negb (supplies (obj_get layerMetaLower) [L "wfs_srs"; L "ows_srs"])
                  then false else true)).
    { intros k v s. rewrite Hd, Hg.
      change (hasAny layerMetaLower) with (supplies (obj_get layerMetaLower)).
      destruct (disabled_looking v); [reflexivity|].
      destruct (allows_getfeature v); [|reflexivity]. cbn [negb orb].
      destruct (supplies _ [L "wfs_title"; _]); [|reflexivity].
      destruct (supplies _ [L "wfs_srs"; _]); reflexivity. }
    destruct (obj_get layerMetaLower (L "wfs_enable_request")); [apply Hv|].
    destruct (obj_get layerMetaLower (L "ows_enable_request")); [apply Hv|].
    destruct (obj_get webMetaLower (L "wfs_enable_request")); [apply Hv|].
    destruct (obj_get webMetaLower (L "ows_enable_request")); [apply Hv|].
    reflexivity.
  - intro H. unfold computeWfsSupportForLayer. now rewrite H.
Qed.

Lemma wfs_rule_order_witness :
  computeWfsSupportForLayer
    (mkLayer (Some (L "dem")) (Some (L "Raster"))
             [(L "wfs_title", L "X"); (L "wfs_srs", L "EPSG:4326")])
    [(L "wfs_enable_request", L "*"); (L "wfs_title", L "X");
     (L "wfs_srs", L "EPSG:4326")] []
  = mkVerdict false [L "TYPE=RASTER (WFS is vector-only)"].
Proof.
  exact (proj2 (wfs_rule_order
                  (mkLayer (Some (L "dem")) (Some (L "Raster"))
                           [(L "wfs_title", L "X"); (L "wfs_srs", L "EPSG:4326")])
                  [(L "wfs_enable_request", L "*"); (L "wfs_title", L "X");
                   (L "wfs_srs", L "EPSG:4326")] []) eq_refl).
Defined.

(* ------------------------------------------------------------------ *)
(** *** Which layers get an entry                                       *)

Lemma In_keys_obj_set {V} (o : obj V) k v x :
  In x (keys (obj_set o k v)) -> x = k \/ In x (keys o).
Proof.
  unfold keys. induction o as [|[k' v'] o IH]; simpl.
  - intros [<-|[]]. now left.
  - destruct (str_eqb k' k) eqn:E; simpl.
    + intros [<-|H]; right; [now left | now right].
    + intros [<-|H]; [right; now left|].
      destruct (IH H); [now left | right; now right].
Qed.

Ltac split_step :=
  repeat match goal with
         | |- context [if ?b then _ else _] => destruct b eqn:?
         | |- context [match ?x with _ => _ end] => destruct x eqn:?
         end.

(** Only an END line writes to the result. *)
Lemma line_step_not_end w l :
  is_end l = false -> supportMap (line_step w l) = supportMap w.
Proof.
  unfold is_end, content, line_step. intro H. cbv zeta. rewrite H.
  split_step; reflexivity.
Qed.

Lemma line_step_nameless w l :
  nameless (currentLayer w) ->
  name_of l = None \/ name_of l = Some [] ->
  supportMap (line_step w l) = supportMap w /\ nameless (currentLayer (line_step w l)).
Proof.
  intros Hw Hl. unfold name_of in Hl. unfold line_step. cbv zeta. fold (content l).
  destruct (is_empty (content l)); [now split|].
  destruct (match firstTokenUpper (content l) with
            | Some t => str_eqb t (L "END") | None => false end).
  { destruct (currentLayer w) as [cur|] eqn:Hc; [|now split].
    destruct (top_is (stack w) "LAYER"); cbn [supportMap currentLayer].
    - split; [|exact I]. cbn in Hw. destruct Hw as [Hn|Hn]; rewrite Hn; reflexivity.
    - now split. }
  destruct (match firstTokenUpper (content l) with
            | Some t => has BLOCK_START t | None => false end).
  { cbn [supportMap currentLayer]. split; [reflexivity|].
    destruct (str_eqb _ (L "LAYER")); [cbn; now left | exact Hw]. }
  destruct (top_is (stack w) "METADATA" && has (stack w) (L "WEB")
            && negb (has (stack w) (L "LAYER"))).
  { destruct (parseMetadataKV (content l)) as [[k v]|]; [|now split].
    destruct (negb (is_empty k)); now split. }
  destruct (currentLayer w) as [cur|] eqn:Hc;
    [|split; [reflexivity | rewrite Hc; exact I]].
  destruct (top_is (stack w) "LAYER").
  { cbn [supportMap currentLayer]. split; [reflexivity|].
    destruct (parseDirectiveValue (content l) (L "TYPE"));
      destruct Hl as [E|E]; rewrite E; cbn; tauto. }
  destruct (top_is (stack w) "METADATA" && has (stack w) (L "LAYER"));
    [|split; [reflexivity | rewrite Hc; exact Hw]].
  destruct (parseMetadataKV (content l)) as [[k v]|];
    [|split; [reflexivity | rewrite Hc; exact Hw]].
  destruct (negb (is_empty k)); [|split; [reflexivity | rewrite Hc; exact Hw]].
  cbn [supportMap currentLayer]. split; [reflexivity | exact Hw].
Qed.

Lemma walk_nameless lines : forall w,
  nameless (currentLayer w) ->
  (forall l, In l lines -> name_of l = None \/ name_of l = Some []) ->
  supportMap (walk_lines w lines) = supportMap w.
Proof.
  induction lines as [|l ls IH]; intros w Hw Hl; [reflexivity|].
  change (walk_lines w (l :: ls)) with (walk_lines (line_step w l) ls).
  destruct (line_step_nameless w l Hw (Hl l (or_introl eq_refl))) as [H1 H2].
  rewrite IH; [exact H1 | exact H2 | intros; apply Hl; now right].
Qed.

Lemma walk_no_end lines : forall w,
  (forall l, In l lines -> is_end l = false) ->
  supportMap (walk_lines w lines) = supportMap w.
Proof.
  induction lines as [|l ls IH]; intros w Hl; [reflexivity|].
  change (walk_lines w (l :: ls)) with (walk_lines (line_step w l) ls).
  rewrite IH by (intros; apply Hl; now right).
  apply line_step_not_end, Hl. now left.
Qed.

End WfsFacts.
(* ================================================================== *)
(** ** Block openers with and without arguments                        *)
(* ================================================================== *)

Section CharFacts.

Lemma space_facts c :
  is_space c = true ->
  is_word_char c = false /\ is_word_start c = false /\ upper c = c
  /\ Ascii.eqb c HASH = false /\ Ascii.eqb c "/"%char = false
  /\ Ascii.eqb c DQ = false /\ Ascii.eqb c SQ = false.
Proof.
  destruct c as [[] [] [] [] [] [] [] []]; vm_compute; intro H;
    try discriminate H; repeat split.
Qed.

Lemma word_start_facts c :
  is_word_start c = true ->
  is_word_char c = true /\ is_space c = false
  /\ Ascii.eqb c HASH = false /\ Ascii.eqb c "/"%char = false
  /\ Ascii.eqb c DQ = false /\ Ascii.eqb c SQ = false.
Proof.
  destruct c as [[] [] [] [] [] [] [] []]; vm_compute; intro H;
    try discriminate H; repeat split.
Qed.

Lemma trimStart_snoc (x : str) a :
  is_space a = false -> exists y, trimStart (x ++ [a]) = y ++ [a].
Proof.
  intro Ha. induction x as [|c x IH]; simpl.
  - rewrite Ha. now exists [].
  - destruct (is_space c); [exact IH|]. now exists (c :: x).
Qed.

(** Trimming keeps a first character that is not white space. *)
Lemma trimEnd_cons a (c : str) :
  is_space a = false -> exists c', trimEnd (a :: c) = a :: c'.
Proof.
  intro Ha. unfold trimEnd. simpl.
  destruct (trimStart_snoc (rev c) a Ha) as [y ->].
  rewrite rev_app_distr. simpl. now eexists.
Qed.

Lemma trim_head (s : str) a c :
  trimStart s = a :: c -> exists c', trim s = a :: c'.
Proof.
  intro H. unfold trim. rewrite H. apply trimEnd_cons.
  exact (trimStart_head s a c H).
Qed.

Lemma trim_nil (s : str) : trimStart s = [] -> trim s = [].
Proof. intro H. unfold trim. now rewrite H. Qed.

End CharFacts.

Section OpenerFacts.
Import Lines.

(** What [has_arguments] gives: the first character is white space, and the
    trimmed remainder starts with a character other than [#]. *)
Lemma has_arguments_inv tail :
  has_arguments tail = true ->
  exists c r a rest,
    tail = c :: r /\ is_space c = true /\
    trimStart tail = a :: rest /\ Ascii.eqb a HASH = false.
Proof.
  unfold has_arguments. destruct tail as [|c r]; [discriminate|].
  intro H. apply andb_true_iff in H as [Hc H].
  destruct (trimStart (c :: r)) as [|a rest] eqn:E; [discriminate|].
  exists c, r, a, rest. repeat split; try assumption.
  now apply negb_true_iff in H.
Qed.

Lemma arguments_not_comment tail :
  has_arguments tail = true -> comment_only tail = false.
Proof.
  intro H. destruct (has_arguments_inv tail H) as [c [r [a [rest [_ [_ [E Ha]]]]]]].
  unfold comment_only. now rewrite E, Ha.
Qed.

(** The first character of such a tail is no word character. *)
Lemma comment_only_boundary tail :
  comment_only tail = true -> at_word_boundary tail = true.
Proof.
  unfold comment_only. destruct tail as [|c r]; [reflexivity|].
  cbn [trimStart at_word_boundary]. destruct (is_space c) eqn:Hc.
  - intros _. now rewrite (proj1 (space_facts c Hc)).
  - intro H. apply andb_true_iff in H as [H _].
    apply Ascii.eqb_eq in H. subst c. reflexivity.
Qed.

Lemma comment_only_trim tail :
  comment_only tail = true ->
  is_empty (trim tail) || startsWith [HASH] (trim tail) = true.
Proof.
  unfold comment_only. destruct (trimStart tail) as [|a c] eqn:E.
  - intros _. now rewrite trim_nil.
  - intro H. apply andb_true_iff in H as [H _].
    destruct (trim_head tail a c E) as [c' ->].
    apply Ascii.eqb_eq in H. subst a. reflexivity.
Qed.

Lemma arguments_trim tail :
  has_arguments tail = true ->
  is_empty (trim tail) || startsWith [HASH] (trim tail) = false.
Proof.
  intro H. destruct (has_arguments_inv tail H) as [c [r [a [rest [_ [_ [E Ha]]]]]]].
  destruct (trim_head tail a rest E) as [c' ->].
  change (is_empty (a :: c') || startsWith [HASH] (a :: c'))
    with (Ascii.eqb HASH a && true).
  rewrite Ascii.eqb_sym, Ha. reflexivity.
Qed.

(* ------------------------------------------------------------------ *)
(** *** Matching a keyword at the start of a line                       *)

Lemma upper_facts a :
  is_upper a = true ->
  upper a = a /\ is_space a = false /\ Ascii.eqb a HASH = false
  /\ is_alpha a = true /\ is_word_char a = true.
Proof.
  destruct a as [[] [] [] [] [] [] [] []]; vm_compute; intro H;
    try discriminate H; repeat split.
Qed.

Lemma upper_is_upper c : is_upper (upper c) = true -> is_alpha c = true.
Proof.
  destruct c as [[] [] [] [] [] [] [] []]; vm_compute; intro H;
    try discriminate H; reflexivity.
Qed.

(** When keyword [K] is matched, whatever the case, at the start of keyword
    [k] followed by [tail], either [K] is [k] and the rest is [tail], or [K]
    is a proper prefix of [k] and the rest starts with a capital letter. *)
Lemma strip_cases K : forall k tail rest,
  forallb is_upper K = true -> forallb is_upper k = true -> no_letter_next tail ->
  strip_prefix_ci K (k ++ tail) = Some rest ->
  (K = k /\ rest = tail) \/
  (exists a rest', rest = a :: rest' /\ is_upper a = true).
Proof.
  induction K as [|a K IH]; intros k tail rest HK Hk Ht H.
  - cbn in H. injection H as <-. destruct k as [|b k]; [now left|].
    right. exists b, (k ++ tail). split; [reflexivity|].
    cbn in Hk. now apply andb_true_iff in Hk as [Hk _].
  - cbn [forallb] in HK. apply andb_true_iff in HK as [Ha HK].
    destruct k as [|b k].
    + cbn [app] in H. destruct tail as [|c r]; [discriminate|].
      cbn [strip_prefix_ci] in H.
      destruct (Ascii.eqb_spec (upper a) (upper c)) as [E|_]; [|discriminate].
      exfalso. cbn in Ht.
      rewrite (proj1 (upper_facts a Ha)) in E.
      rewrite E in Ha. apply upper_is_upper in Ha. congruence.
    + cbn [forallb] in Hk. apply andb_true_iff in Hk as [Hb Hk].
      cbn [app strip_prefix_ci] in H.
      destruct (Ascii.eqb_spec (upper a) (upper b)) as [E|_]; [|discriminate].
      rewrite (proj1 (upper_facts a Ha)), (proj1 (upper_facts b Hb)) in E. subst b.
      destruct (IH k tail rest HK Hk Ht H) as [[-> ->]|R]; [now left | now right].
Qed.

Lemma strip_self k tail :
  forallb is_upper k = true -> strip_prefix_ci k (k ++ tail) = Some tail.
Proof.
  induction k as [|a k IH]; intro H; [reflexivity|].
  cbn [forallb] in H. apply andb_true_iff in H as [Ha H].
  cbn [app strip_prefix_ci]. rewrite Ascii.eqb_refl. now apply IH.
Qed.

Lemma toUpperCase_keyword k : forallb is_upper k = true -> toUpperCase k = k.
Proof.
  unfold toUpperCase. induction k as [|a k IH]; intro H; [reflexivity|].
  cbn [forallb] in H. apply andb_true_iff in H as [Ha H].
  cbn [map]. now rewrite (proj1 (upper_facts a Ha)), IH.
Qed.

Lemma find_unique {A} (f : A -> bool) l k :
  In k l -> f k = true -> (forall x, In x l -> f x = true -> x = k) ->
  find f l = Some k.
Proof.
  induction l as [|x l IH]; intros Hin Hk Hu; [destruct Hin|].
  simpl. destruct (f x) eqn:E.
  - f_equal. apply Hu; [now left | assumption].
  - destruct Hin as [->|Hin]; [congruence|].
    apply IH; [assumption | assumption |]. intros y Hy. apply Hu. now right.
Qed.

Lemma firstn_app_exact {A} (a b : list A) : firstn (length a) (a ++ b) = a.
Proof. induction a as [|x a IH]; [reflexivity|]. simpl. now rewrite IH. Qed.

Lemma skipn_app_exact {A} (a b : list A) : skipn (length a) (a ++ b) = b.
Proof. induction a as [|x a IH]; [reflexivity|]. simpl. exact IH. Qed.

Lemma arguments_no_letter tail : has_arguments tail = true -> no_letter_next tail.
Proof.
  intro H. destruct (has_arguments_inv tail H) as [c [r [_ [_ [-> [Hc _]]]]]].
  cbn. destruct (space_facts c Hc) as [Hw _].
  unfold is_word_char in Hw. now apply orb_false_iff in Hw as [Hw _];
    apply orb_false_iff in Hw as [Hw _].
Qed.

Lemma comment_no_letter tail : comment_only tail = true -> no_letter_next tail.
Proof.
  intro H. apply comment_only_boundary in H. destruct tail as [|c r]; [exact I|].
  cbn in *. apply negb_true_iff in H. unfold is_word_char in H.
  now apply orb_false_iff in H as [H _]; apply orb_false_iff in H as [H _].
Qed.

Lemma keyword_head k tail :
  keyword k -> exists a r, k ++ tail = a :: r /\ is_upper a = true.
Proof.
  intros [Hne Hk]. destruct k as [|a k]; [congruence|].
  exists a, (k ++ tail). split; [reflexivity|].
  cbn in Hk. now apply andb_true_iff in Hk as [Hk _].
Qed.

End OpenerFacts.

(* ------------------------------------------------------------------ *)
(** *** Formatter                                                       *)

Section FormatterOpeners.
Import Lines Formatter.

Lemma formatter_keywords k : In k OPENERS -> keyword k.
Proof.
  intro H. split.
  - intros ->. revert H. vm_compute. intuition discriminate.
  - assert (E : forallb (forallb is_upper) OPENERS = true) by reflexivity.
    exact (proj1 (forallb_forall _ _) E k H).
Qed.

Lemma formatter_not_end k tail :
  In k OPENERS -> match_endLine (k ++ tail) = None.
Proof.
  intro H. unfold match_endLine.
  assert (E : Forall (fun k => forall tail, strip_prefix_ci (L "END") (k ++ tail) = None)
                     OPENERS) by (repeat constructor).
  now rewrite (proj1 (Forall_forall _ _) E k H).
Qed.

Lemma opener_tail_comment tail : opener_tail tail = comment_only tail.
Proof. reflexivity. Qed.

Lemma opener_tail_letter a rest : is_upper a = true -> opener_tail (a :: rest) = false.
Proof.
  intro Ha. destruct (upper_facts a Ha) as [_ [Hs [Hh _]]].
  unfold opener_tail. cbn [trimStart]. now rewrite Hs, Hh.
Qed.

(** A formatter keyword followed by arguments does not match [openerLine]. *)
Lemma match_openerLine_arguments k args :
  In k OPENERS -> has_arguments args = true -> match_openerLine (k ++ args) = None.
Proof.
  intros Hk Ha. unfold match_openerLine. rewrite find_none_all; [reflexivity|].
  intros K HK. destruct (strip_prefix_ci K (k ++ args)) as [rest|] eqn:E; [|reflexivity].
  destruct (strip_cases K k args rest (proj2 (formatter_keywords K HK))
              (proj2 (formatter_keywords k Hk)) (arguments_no_letter _ Ha) E)
    as [[_ ->]|[a [rest' [-> Hup]]]].
  - rewrite opener_tail_comment. now apply arguments_not_comment.
  - now apply opener_tail_letter.
Qed.

(** A formatter keyword alone, or followed only by a comment, matches
    [openerLine] with itself as captured keyword. *)
Lemma match_openerLine_alone k tail :
  In k OPENERS -> comment_only tail = true -> match_openerLine (k ++ tail) = Some k.
Proof.
  intros Hk Hc. unfold match_openerLine.
  rewrite (find_unique _ OPENERS k Hk).
  - now rewrite firstn_app_exact.
  - rewrite strip_self by exact (proj2 (formatter_keywords k Hk)). exact Hc.
  - intros K HK HKm.
    destruct (strip_prefix_ci K (k ++ tail)) as [rest|] eqn:E; [|discriminate].
    destruct (strip_cases K k tail rest (proj2 (formatter_keywords K HK))
                (proj2 (formatter_keywords k Hk)) (comment_no_letter _ Hc) E)
      as [[-> _]|[a [rest' [-> Hup]]]]; [reflexivity|].
    rewrite opener_tail_letter in HKm by assumption. discriminate.
Qed.

Lemma formatter_line_head ind stack k tail :
  In k OPENERS ->
  step_trimmed ind stack (k ++ tail)
  = let o := repeat_str ind (length stack) ++ k ++ tail in
    match match_openerLine (k ++ tail) with
    | Some m1 =>
        let rest := trim (skipn (length m1) (k ++ tail)) in
        if is_empty rest || startsWith [HASH] rest
        then (toUpperCase m1 :: stack, o) else (stack, o)
    | None => (stack, o)
    end.
Proof.
  intro Hk. unfold step_trimmed.
  destruct (keyword_head k tail (formatter_keywords k Hk)) as [a [r [E Ha]]].
  rewrite formatter_not_end by exact Hk.
  rewrite E. cbn [is_empty startsWith].
  destruct (upper_facts a Ha) as [_ [_ [Hh _]]].
  rewrite Ascii.eqb_sym, Hh. reflexivity.
Qed.

Lemma formatter_arguments ind stack raw k args :
  In k OPENERS -> trim raw = k ++ args -> has_arguments args = true ->
  fst (step ind stack raw) = stack.
Proof.
  intros Hk Hr Ha. unfold step. rewrite Hr, formatter_line_head by exact Hk.
  cbv zeta. now rewrite match_openerLine_arguments.
Qed.

Lemma formatter_alone ind stack raw k tail :
  In k OPENERS -> trim raw = k ++ tail -> comment_only tail = true ->
  fst (step ind stack raw) = k :: stack.
Proof.
  intros Hk Hr Hc. unfold step. rewrite Hr, formatter_line_head by exact Hk.
  cbv zeta. rewrite match_openerLine_alone by assumption.
  rewrite skipn_app_exact, comment_only_trim by exact Hc.
  cbn [fst]. now rewrite toUpperCase_keyword by exact (proj2 (formatter_keywords k Hk)).
Qed.

End FormatterOpeners.

(* ------------------------------------------------------------------ *)
(** *** Extent synchroniser                                             *)

Section ExtentSyncOpeners.
Import Lines ExtentSync.

Lemma starter_keywords k : In k BLOCK_STARTERS -> keyword k.
Proof.
  intro H. split.
  - intros ->. revert H. vm_compute. intuition discriminate.
  - assert (E : forallb (forallb is_upper) BLOCK_STARTERS = true) by reflexivity.
    exact (proj1 (forallb_forall _ _) E k H).
Qed.

Lemma letter_no_boundary a rest : is_upper a = true -> at_word_boundary (a :: rest) = false.
Proof.
  intro Ha. cbn. now rewrite (proj2 (proj2 (proj2 (proj2 (upper_facts a Ha))))).
Qed.

Lemma arguments_boundary args : has_arguments args = true -> at_word_boundary args = true.
Proof.
  intro H. destruct (has_arguments_inv args H) as [c [r [_ [_ [-> [Hc _]]]]]].
  cbn. now rewrite (proj1 (space_facts c Hc)).
Qed.

(** A starter keyword followed by a word boundary is found by
    [BLOCK_STARTERS_RE], and what follows the match is the tail. *)
Lemma after_block_starter_keyword line k tail :
  In k BLOCK_STARTERS -> trimStart line = k ++ tail ->
  no_letter_next tail -> at_word_boundary tail = true ->
  after_block_starter line = Some tail.
Proof.
  intros Hk Hl Hn Hb. unfold after_block_starter. rewrite Hl.
  rewrite (find_unique _ BLOCK_STARTERS k Hk).
  - now rewrite skipn_app_exact.
  - now rewrite strip_self by exact (proj2 (starter_keywords k Hk)).
  - intros K HK HKm.
    destruct (strip_prefix_ci K (k ++ tail)) as [rest|] eqn:E; [|discriminate].
    destruct (strip_cases K k tail rest (proj2 (starter_keywords K HK))
                (proj2 (starter_keywords k Hk)) Hn E)
      as [[-> _]|[a [rest' [-> Hup]]]]; [reflexivity|].
    rewrite letter_no_boundary in HKm by assumption. discriminate.
Qed.

Lemma starter_not_comment line k tail :
  In k BLOCK_STARTERS -> trimStart line = k ++ tail -> isComment line = false.
Proof.
  intros Hk Hl. unfold isComment. rewrite Hl.
  destruct (keyword_head k tail (starter_keywords k Hk)) as [a [r [-> Ha]]].
  cbn [startsWith]. destruct (upper_facts a Ha) as [_ [_ [Hh _]]].
  now rewrite Ascii.eqb_sym, Hh.
Qed.

Lemma isBlockStart_arguments line k args :
  In k BLOCK_STARTERS -> trimStart line = k ++ args -> has_arguments args = true ->
  isBlockStart line = false.
Proof.
  intros Hk Hl Ha. unfold isBlockStart.
  rewrite (starter_not_comment line k args Hk Hl).
  rewrite (after_block_starter_keyword line k args Hk Hl
             (arguments_no_letter _ Ha) (arguments_boundary _ Ha)).
  now apply arguments_trim.
Qed.

Lemma isBlockStart_alone line k tail :
  In k BLOCK_STARTERS -> trimStart line = k ++ tail -> comment_only tail = true ->
  isBlockStart line = true.
Proof.
  intros Hk Hl Hc. unfold isBlockStart.
  rewrite (starter_not_comment line k tail Hk Hl).
  rewrite (after_block_starter_keyword line k tail Hk Hl
             (comment_no_letter _ Hc) (comment_only_boundary _ Hc)).
  now apply comment_only_trim.
Qed.

End ExtentSyncOpeners.

(* ------------------------------------------------------------------ *)
(** *** Tokenising a keyword line                                       *)

Section KeywordLines.
Import Lines Lexer.

Lemma span_app (p : ascii -> bool) (w tail : str) :
  forallb p w = true ->
  match tail with [] => True | c :: _ => p c = false end ->
  span p (w ++ tail) = (w, tail).
Proof.
  intros Hw Ht. induction w as [|a w IH].
  - destruct tail as [|c r]; [reflexivity|]. cbn. now rewrite Ht.
  - cbn [forallb] in Hw. apply andb_true_iff in Hw as [Ha Hw].
    cbn [app span]. rewrite Ha, (IH Hw). reflexivity.
Qed.

Lemma scan_comment_only m tail :
  comment_only tail = true -> forall f c, scan f m tail c fresh = done fresh.
Proof.
  induction tail as [|x r IH]; intros H f c.
  - destruct f; reflexivity.
  - destruct f as [|f]; [reflexivity|].
    cbn [scan inBlockComment inQuote fresh].
    unfold comment_only in H. cbn [trimStart] in H.
    destruct (is_space x) eqn:Hx.
    + destruct (space_facts x Hx) as [_ [_ [_ [Hh [Hs _]]]]].
      rewrite Hh, Hs. cbn [andb]. now apply IH.
    + apply andb_true_iff in H as [H _]. now rewrite H.
Qed.

Lemma upper_word a : is_upper a = true -> is_word_start a = true.
Proof. intro H. unfold is_word_start, is_alpha. now rewrite H. Qed.

Lemma scan_keyword m k tail :
  keyword k -> at_word_boundary tail = true -> forall f i,
  scan (S f) m (k ++ tail) i fresh
  = push_token (TWord k (i + 1)) (scan f m tail (i + 1 + (length k - 1)) fresh).
Proof.
  intros [Hne Hk] Hb f i. destruct k as [|a k]; [congruence|].
  cbn [forallb] in Hk. apply andb_true_iff in Hk as [Ha Hk].
  destruct (word_start_facts a (upper_word a Ha)) as [_ [Hs [Hh [Hsl [Hd Hq]]]]].
  replace (length (a :: k) - 1) with (length k) by (simpl; lia).
  cbn [app scan inBlockComment inQuote fresh].
  rewrite Hh, Hsl, Hs, Hd, Hq, (upper_word a Ha). cbn [andb orb].
  rewrite span_app.
  - reflexivity.
  - apply forallb_forall. intros x Hx.
    exact (proj2 (proj2 (proj2 (proj2
             (upper_facts x (proj1 (forallb_forall _ _) Hk x Hx)))))).
  - destruct tail as [|c r]; [exact I|]. cbn in Hb. now apply negb_true_iff in Hb.
Qed.

(** A keyword behind [i] spaces, alone or followed only by a comment, is
    lexed as that one word, and leaves the lexer state as it was. *)
Lemma tokenize_keyword_line m i k tail :
  keyword k -> comment_only tail = true ->
  tokenizeLine (repeat SP i ++ k ++ tail) fresh m = mkScanned [TWord k (i + 1)] fresh [].
Proof.
  intros Hk Hc. rewrite tokenize_indented.
  destruct (k ++ tail) as [|a r] eqn:E.
  { destruct Hk as [Hne _]. destruct k; [congruence | discriminate]. }
  cbn [length]. rewrite <- E.
  rewrite scan_keyword by (assumption || now apply comment_only_boundary).
  now rewrite scan_comment_only.
Qed.

End KeywordLines.

(* ------------------------------------------------------------------ *)
(** *** Balance detector and syntax checker                             *)

Section StringEquality.

Lemma str_eqb_eq a : forall b, str_eqb a b = true <-> a = b.
Proof.
  induction a as [|x a IH]; intros [|y b]; simpl; split; intro H;
    try reflexivity; try discriminate.
  - apply andb_true_iff in H as [H1 H2]. apply Ascii.eqb_eq in H1.
    apply IH in H2. now subst.
  - injection H as -> ->. rewrite Ascii.eqb_refl. now apply IH.
Qed.

Lemma has_In (set : list str) k : existsb (str_eqb k) set = true -> In k set.
Proof.
  intro H. apply existsb_exists in H as [x [Hx E]].
  apply str_eqb_eq in E. now subst.
Qed.

End StringEquality.

Section DetectorOpeners.
Import Lines Lexer.

Lemma handle_ends_no_end o opened n ln toks : forall tIdx stk ex,
  forallb not_end toks = true ->
  EndDetector.handle_ends o opened n ln tIdx toks stk ex = (stk, ex).
Proof.
  induction toks as [|t toks IH]; intros tIdx stk ex H; [reflexivity|].
  cbn [forallb] in H. apply andb_true_iff in H as [Ht H].
  cbn [EndDetector.handle_ends]. unfold not_end in Ht. rewrite Ht. now apply IH.
Qed.

(** Balance detector: a line whose first word token is an opener pushes a
    frame, whatever else the line holds (END tokens apart, which pop). *)
Lemma balance_first_word o n ln s w c rest :
  filter is_word (tokens (tokenizeLine ln (EndDetector.lex s)
                                       (EndDetector.allowMultilineQuotes o)))
    = TWord w c :: rest ->
  EndDetector.has (EndDetector.openers_of o) (toUpperCase w) = true ->
  forallb not_end (TWord w c :: rest) = true ->
  EndDetector.stack (EndDetector.line_step o n ln s)
  = EndDetector.stack s ++ [EndDetector.mkFrame (toUpperCase w) n c].
Proof.
  intros Ht Hh Hn. unfold EndDetector.line_step. rewrite Ht.
  cbn [EndDetector.word_text tok_col]. rewrite Hh. cbn [orb].
  rewrite handle_ends_no_end by exact Hn. reflexivity.
Qed.

Lemma default_opener_keyword k : In k EndDetector.DEFAULT_BLOCK_OPENERS -> keyword k.
Proof.
  intro H. split.
  - intros ->. revert H. vm_compute. intuition discriminate.
  - assert (E : forallb (forallb is_upper) EndDetector.DEFAULT_BLOCK_OPENERS = true)
      by reflexivity.
    exact (proj1 (forallb_forall _ _) E k H).
Qed.

Lemma balance_alone o n i k tail s :
  In k EndDetector.DEFAULT_BLOCK_OPENERS -> comment_only tail = true ->
  EndDetector.lex s = fresh ->
  EndDetector.stack (EndDetector.line_step o n (repeat SP i ++ k ++ tail) s)
  = EndDetector.stack s ++ [EndDetector.mkFrame k n (i + 1)].
Proof.
  intros Hk Hc Hs.
  destruct (opener_facts k Hk) as [Hu [He [Hh _]]].
  rewrite <- Hu at 2.
  apply (balance_first_word o n _ s k (i + 1) []).
  - rewrite Hs, tokenize_keyword_line by (assumption || now apply default_opener_keyword).
    reflexivity.
  - rewrite Hu. unfold EndDetector.openers_of. rewrite has_app, Hh. reflexivity.
  - cbn [forallb]. unfold not_end. cbn [EndDetector.word_text].
    rewrite Hu, He. reflexivity.
Qed.

Lemma block_keyword k : In k SyntaxDetector.BLOCKS -> keyword k.
Proof.
  intro H. split.
  - intros ->. revert H. vm_compute. intuition discriminate.
  - assert (E : forallb (forallb is_upper) SyntaxDetector.BLOCKS = true) by reflexivity.
    exact (proj1 (forallb_forall _ _) E k H).
Qed.

Lemma block_not_end k :
  SyntaxDetector.has SyntaxDetector.BLOCKS k = true -> str_eqb k (L "END") = false.
Proof.
  intro H. apply has_In in H. revert k H.
  assert (E : Forall (fun k => str_eqb k (L "END") = false) SyntaxDetector.BLOCKS)
    by (repeat constructor).
  exact (proj1 (Forall_forall _ _) E).
Qed.

(** Syntax checker: a line whose first token is a word of [BLOCKS] pushes a
    frame, whatever else the line holds. *)
Lemma syntax_first_word o n ln stk lx w c rest :
  tokens (tokenizeLine ln lx (SyntaxDetector.allowMultilineQuotes o))
    = TWord w c :: rest ->
  SyntaxDetector.has SyntaxDetector.BLOCKS (toUpperCase w) = true ->
  fst (fst (SyntaxDetector.line_calls o n ln stk lx))
  = stk ++ [SyntaxDetector.mkFrame (toUpperCase w) n c].
Proof.
  intros Ht Hh. unfold SyntaxDetector.line_calls. rewrite Ht.
  cbn [is_word fst]. unfold SyntaxDetector.word_line.
  cbn [SyntaxDetector.token_text tok_col].
  rewrite (block_not_end _ Hh), Hh. reflexivity.
Qed.

Lemma syntax_alone o n i k tail stk :
  In k SyntaxDetector.BLOCKS -> comment_only tail = true ->
  fst (fst (SyntaxDetector.line_calls o n (repeat SP i ++ k ++ tail) stk fresh))
  = stk ++ [SyntaxDetector.mkFrame k n (i + 1)].
Proof.
  intros Hk Hc.
  pose proof (toUpperCase_keyword k (proj2 (block_keyword k Hk))) as Hu.
  rewrite <- Hu at 2.
  apply (syntax_first_word o n _ stk fresh k (i + 1) []).
  - now rewrite tokenize_keyword_line by (assumption || now apply block_keyword).
  - rewrite Hu. unfold SyntaxDetector.has. apply existsb_exists.
    exists k. split; [assumption | now apply str_eqb_eq].
Qed.

(** C2, as stated, fails: in the balance detector the lines [STYLE HILITE]
    and [PATTERN 10 10] each leave one frame on a stack that was empty, and
    in the syntax checker [STYLE HILITE] pushes STYLE above ROOT. *)
Lemma non_opener_exclusion_counterexample :
  map EndDetector.type
      (EndDetector.missingEnds
         (EndDetector.analyze (L "STYLE HILITE") EndDetector.default_options))
  = [L "STYLE"] /\
  map EndDetector.type
      (EndDetector.missingEnds
         (EndDetector.analyze (L "PATTERN 10 10") EndDetector.default_options))
  = [L "PATTERN"] /\
  map SyntaxDetector.type
      (SyntaxDetector.stack
         (SyntaxDetector.scan_text (L "STYLE HILITE") SyntaxDetector.default_options))
  = [L "ROOT"; L "STYLE"].
Proof. repeat split; reflexivity. Qed.

(** C2, amended.  In the formatter and in [isBlockStart] of the extent
    synchroniser, a line that starts with one of the consumer's block
    keywords followed by arguments leaves the depth as it is, and the
    keyword alone, or followed only by a [#] comment, opens a block.  The
    balance detector and the syntax checker look at the first word token
    only: the keyword alone or followed only by a comment pushes a frame,
    and so does any line whose first word token is one of their block
    keywords, whatever follows it (in the balance detector, END tokens on
    the line then pop). *)
Theorem non_opener_exclusion :
  (* formatter *)
  (forall ind stack raw k args,
      In k Formatter.OPENERS -> trim raw = k ++ args -> has_arguments args = true ->
      fst (Formatter.step ind stack raw) = stack) /\
  (forall ind stack raw k tail,
      In k Formatter.OPENERS -> trim raw = k ++ tail -> comment_only tail = true ->
      fst (Formatter.step ind stack raw) = k :: stack) /\
  (* extent synchroniser *)
  (forall line k args,
      In k ExtentSync.BLOCK_STARTERS -> trimStart line = k ++ args ->
      has_arguments args = true -> ExtentSync.isBlockStart line = false) /\
  (forall line k tail,
      In k ExtentSync.BLOCK_STARTERS -> trimStart line = k ++ tail ->
      comment_only tail = true -> ExtentSync.isBlockStart line = true) /\
  (* balance detector *)
  (forall o n i k tail s,
      In k EndDetector.DEFAULT_BLOCK_OPENERS -> comment_only tail = true ->
      EndDetector.lex s = fresh ->
      EndDetector.stack (EndDetector.line_step o n (repeat SP i ++ k ++ tail) s)
      = EndDetector.stack s ++ [EndDetector.mkFrame k n (i + 1)]) /\
  (forall o n ln s w c rest,
      filter is_word (tokens (tokenizeLine ln (EndDetector.lex s)
                                           (EndDetector.allowMultilineQuotes o)))
        = TWord w c :: rest ->
      EndDetector.has (EndDetector.openers_of o) (toUpperCase w) = true ->
      forallb not_end (TWord w c :: rest) = true ->
      EndDetector.stack (EndDetector.line_step o n ln s)
      = EndDetector.stack s ++ [EndDetector.mkFrame (toUpperCase w) n c]) /\
  (* syntax checker *)
  (forall o n i k tail s,
      In k SyntaxDetector.BLOCKS -> comment_only tail = true ->
      SyntaxDetector.lex s = fresh ->
      SyntaxDetector.stack (SyntaxDetector.line_step o n (repeat SP i ++ k ++ tail) s)
      = SyntaxDetector.stack s ++ [SyntaxDetector.mkFrame k n (i + 1)]) /\
  (forall o n ln s w c rest,
      tokens (tokenizeLine ln (SyntaxDetector.lex s)
                           (SyntaxDetector.allowMultilineQuotes o))
        = TWord w c :: rest ->
      SyntaxDetector.has SyntaxDetector.BLOCKS (toUpperCase w) = true ->
      SyntaxDetector.stack (SyntaxDetector.line_step o n ln s)
      = SyntaxDetector.stack s ++ [SyntaxDetector.mkFrame (toUpperCase w) n c]).
Proof.
  repeat split.
  - intros. eapply formatter_arguments; eassumption.
  - intros. eapply formatter_alone; eassumption.
  - intros. eapply isBlockStart_arguments; eassumption.
  - intros. eapply isBlockStart_alone; eassumption.
  - intros. now apply balance_alone.
  - intros. now apply balance_first_word with (rest := rest).
  - intros o n i k tail s Hk Hc Hs. unfold SyntaxDetector.line_step.
    cbn [SyntaxDetector.stack]. rewrite Hs. now apply syntax_alone.
  - intros o n ln s w c rest Ht Hh. unfold SyntaxDetector.line_step.
    cbn [SyntaxDetector.stack]. now apply syntax_first_word with (rest := rest).
Qed.

(** The lines of the specification, in the formatter and in the extent
    synchroniser: [STYLE HILITE] and [PATTERN 10 10] open nothing, [STYLE]
    alone or with a comment opens a block. *)
Lemma non_opener_exclusion_witness :
  (fst (Formatter.step (L "  ") [L "CLASS"] (L "   STYLE HILITE  ")) = [L "CLASS"] /\
   fst (Formatter.step (L "  ") [L "STYLE"] (L " PATTERN 10 10")) = [L "STYLE"] /\
   fst (Formatter.step (L "  ") [L "CLASS"] (L "  STYLE  # fill"))
   = [L "STYLE"; L "CLASS"]) /\
  (ExtentSync.isBlockStart (L "   STYLE HILITE") = false /\
   ExtentSync.isBlockStart (L "  STYLE # fill") = true).
Proof.
  pose proof non_opener_exclusion as [F1 [F2 [E1 [E2 _]]]].
  split; [split; [|split] | split].
  - apply (F1 _ _ _ (L "STYLE") (L " HILITE")); [simpl; tauto | reflexivity | reflexivity].
  - apply (F1 _ _ _ (L "PATTERN") (L " 10 10")); [simpl; tauto | reflexivity | reflexivity].
  - apply (F2 _ _ _ (L "STYLE") (L "  # fill")); [simpl; tauto | reflexivity | reflexivity].
  - apply (E1 _ (L "STYLE") (L " HILITE")); [simpl; tauto | reflexivity | reflexivity].
  - apply (E2 _ (L "STYLE") (L " # fill")); [simpl; tauto | reflexivity | reflexivity].
Defined.

End DetectorOpeners.
(* ================================================================== *)
(** ** Formatter: what a pass changes                                  *)
(* ================================================================== *)

Section FormatterDepth.
Import Lines Formatter FormatterSpec.


End FormatterDepth.

Section WfsBlockFacts.
Import Wfs WfsRules WfsBlocks.

(* ------------------------------------------------------------------ *)
(** *** The LAYER block behind an entry                                 *)

Lemma depth_after_app a : forall d b,
  depth_after d (a ++ b)
  = match depth_after d a with
    | Some d' => depth_after d' b
    | None => None
    end.
Proof.
  induction a as [|l a IH]; intros d b; [reflexivity|].
  cbn [app depth_after].
  destruct (is_end l); [destruct d; [reflexivity | apply IH]|].
  destruct (is_start l); apply IH.
Qed.

Lemma depth_after_snoc body l d :
  depth_after 0 body = Some d ->
  depth_after 0 (body ++ [l])
  = if is_end l then match d with 0 => None | S d' => Some d' end
    else if is_start l then Some (S d) else Some d.
Proof.
  intro H. rewrite depth_after_app, H. cbn [depth_after].
  destruct (is_end l); [now destruct d|]. now destruct (is_start l).
Qed.

Lemma top_is_snoc stack t k : top_is (stack ++ [t]) k = str_eqb t (L k).
Proof. unfold top_is. now rewrite rev_unit. Qed.

Lemma str_eqb_neq a b : a <> b -> str_eqb a b = false.
Proof.
  intro H. destruct (str_eqb a b) eqn:E; [|reflexivity].
  apply str_eqb_eq in E. contradiction.
Qed.

Lemma has_layer base above : has (base ++ [L "LAYER"] ++ above) (L "LAYER") = true.
Proof.
  unfold has. apply existsb_exists. exists (L "LAYER"). split; [|reflexivity].
  apply in_or_app. right. now left.
Qed.

(** What a line does to the stack, to the result and to the name of the
    current layer. *)
Lemma line_step_view w l :
  let w' := line_step w l in
  if is_end l then
    stack w' = removelast (stack w) /\
    match currentLayer w with
    | Some c =>
        if top_is (stack w) "LAYER"
        then currentLayer w' = None /\
             forall x, In x (keys (supportMap w')) ->
                       In x (keys (supportMap w)) \/ (name c = Some x /\ x <> [])
        else currentLayer w' = Some c /\ supportMap w' = supportMap w
    | None => currentLayer w' = None /\ supportMap w' = supportMap w
    end
  else if is_start l then
    (exists t, stack w' = stack w ++ [t] /\
               (is_layer_start l = false -> t <> L "LAYER")) /\
    supportMap w' = supportMap w /\
    currentLayer w' = if is_layer_start l then Some (mkLayer None None [])
                      else currentLayer w
  else
    is_layer_start l = false /\
    stack w' = stack w /\ supportMap w' = supportMap w /\
    match currentLayer w with
    | None => currentLayer w' = None
    | Some c =>
        has (stack w) (L "LAYER") = true ->
        exists c', currentLayer w' = Some c' /\
                   name c' = if top_is (stack w) "LAYER"
                             then match name_of l with
                                  | Some nm => Some nm
                                  | None => name c
                                  end
                             else name c
    end.
Proof.
  cbv zeta. unfold is_end, is_start, is_layer_start, name_of, line_step.
  cbv zeta. fold (content l).
  destruct (is_empty (content l)) eqn:Ee.
  { destruct (content l); [|discriminate]. cbn.
    repeat split. destruct (currentLayer w) as [c|]; [|reflexivity].
    intros _. exists c. split; [reflexivity|]. now destruct (top_is _ _). }
  destruct (firstTokenUpper (content l)) as [t|] eqn:Et.
  - destruct (str_eqb t (L "END")) eqn:E1.
    + split.
      { destruct (currentLayer w); [destruct (top_is _ _)|]; reflexivity. }
      destruct (currentLayer w) as [c|]; [|now split].
      destruct (top_is (stack w) "LAYER"); [|now split].
      cbn [currentLayer supportMap]. split; [reflexivity|].
      intros x Hx. destruct (name c) as [n|]; [|now left].
      destruct (negb (is_empty n)) eqn:En; [|now left].
      apply In_keys_obj_set in Hx as [->|Hx]; [|now left].
      right. split; [reflexivity|]. intros ->. discriminate.
    + cbn [negb andb]. destruct (has BLOCK_START t) eqn:E2.
      * cbn [stack supportMap currentLayer or_empty]. split; [|split; reflexivity].
        exists t. split; [reflexivity|]. intros E3 ->. discriminate.
      * assert (E3 : str_eqb t (L "LAYER") = false).
        { destruct (str_eqb t (L "LAYER")) eqn:E; [|reflexivity].
          apply str_eqb_eq in E. subst t. discriminate. }
        split; [exact E3|].
        destruct (top_is (stack w) "METADATA" && has (stack w) (L "WEB")
                  && negb (has (stack w) (L "LAYER"))) eqn:Ew.
        { assert (Hl : has (stack w) (L "LAYER") = false).
          { apply andb_true_iff in Ew as [_ Ew]. now apply negb_true_iff in Ew. }
          destruct (parseMetadataKV (content l)) as [[k v]|].
          - destruct (negb (is_empty k)); cbn [stack supportMap currentLayer];
              repeat split;
              (destruct (currentLayer w) as [c|]; [intro K; congruence | reflexivity]).
          - repeat split.
            destruct (currentLayer w) as [c|]; [intro K; congruence | reflexivity]. }
        destruct (currentLayer w) as [c|] eqn:Hc; [|repeat split; now rewrite Hc].
        destruct (top_is (stack w) "LAYER").
        { cbn [stack supportMap currentLayer]. repeat split. intros _.
          eexists. split; [reflexivity|].
          destruct (parseDirectiveValue (content l) (L "NAME")),
                   (parseDirectiveValue (content l) (L "TYPE")); reflexivity. }
        destruct (top_is (stack w) "METADATA" && has (stack w) (L "LAYER")).
        { destruct (parseMetadataKV (content l)) as [[k v]|].
          - destruct (negb (is_empty k)); cbn [stack supportMap currentLayer];
              repeat split; intros _; eexists; (split; [first [reflexivity | eassumption]|]);
              reflexivity.
          - repeat split. intros _. exists c. now split. }
        repeat split. intros _. exists c. now split.
  - split; [reflexivity|].
    destruct (top_is (stack w) "METADATA" && has (stack w) (L "WEB")
              && negb (has (stack w) (L "LAYER"))) eqn:Ew.
    { assert (Hl : has (stack w) (L "LAYER") = false).
      { apply andb_true_iff in Ew as [_ Ew]. now apply negb_true_iff in Ew. }
      destruct (parseMetadataKV (content l)) as [[k v]|].
      - destruct (negb (is_empty k)); cbn [stack supportMap currentLayer];
          repeat split;
          (destruct (currentLayer w) as [c|]; [intro K; congruence | reflexivity]).
      - repeat split.
        destruct (currentLayer w) as [c|]; [intro K; congruence | reflexivity]. }
    destruct (currentLayer w) as [c|] eqn:Hc; [|repeat split; now rewrite Hc].
    destruct (top_is (stack w) "LAYER").
    { cbn [stack supportMap currentLayer]. repeat split. intros _.
      eexists. split; [reflexivity|].
      destruct (parseDirectiveValue (content l) (L "NAME")),
               (parseDirectiveValue (content l) (L "TYPE")); reflexivity. }
    destruct (top_is (stack w) "METADATA" && has (stack w) (L "LAYER")).
    { destruct (parseMetadataKV (content l)) as [[k v]|].
      - destruct (negb (is_empty k)); cbn [stack supportMap currentLayer];
          repeat split; intros _; eexists; (split; [first [reflexivity | eassumption]|]);
          reflexivity.
      - repeat split. intros _. exists c. now split. }
    repeat split. intros _. exists c. now split.
Qed.

Lemma closed_layer_more lines nm l :
  closed_layer lines nm -> closed_layer (lines ++ [l]) nm.
Proof.
  intros [Hne (pre & lo & b1 & ln & b2 & lc & post & E & H)].
  split; [exact Hne|].
  exists pre, lo, b1, ln, b2, lc, (post ++ [l]). split; [|exact H].
  rewrite E. now rewrite <- !app_assoc.
Qed.

Lemma top_is_layer base above :
  Forall (fun t => t <> L "LAYER") above ->
  top_is (base ++ [L "LAYER"] ++ above) "LAYER" = is_nil above.
Proof.
  intro H. destruct above as [|a above].
  - rewrite app_nil_r, top_is_snoc. reflexivity.
  - destruct (@exists_last _ (a :: above)) as [a' [t E]]; [discriminate|].
    rewrite E in *. rewrite !app_assoc, top_is_snoc.
    apply Forall_app in H as [_ H]. inversion H; subst.
    cbn [is_nil]. destruct (a' ++ [t]) eqn:K; [now destruct a'|].
    now apply str_eqb_neq.
Qed.

(** An END line writes an entry only for a LAYER block that it closes. *)
Lemma line_step_closed_keys done w l :
  open_layer done w ->
  (forall x, In x (keys (supportMap w)) -> closed_layer done x) ->
  forall x, In x (keys (supportMap (line_step w l))) -> closed_layer (done ++ [l]) x.
Proof.
  intros Ho Hk x Hx. pose proof (line_step_view w l) as V. cbv zeta in V.
  assert (Same : supportMap (line_step w l) = supportMap w ->
                 closed_layer (done ++ [l]) x).
  { intro E. rewrite E in Hx. now apply closed_layer_more, Hk. }
  destruct (is_end l) eqn:Ee.
  - destruct V as [_ V]. unfold open_layer in Ho.
    destruct (currentLayer w) as [c|]; [|now apply Same].
    destruct Ho as (pre & lo & body & base & above & Ed & Hlo & Hb & Hd & Hs & Ha & Hn).
    rewrite Hs, (top_is_layer base above Ha) in V.
    destruct above as [|a above]; cbn [is_nil] in V; [|now apply Same].
    destruct V as [_ V]. destruct (V x Hx) as [Hin|[Hname Hne]].
    + now apply closed_layer_more, Hk.
    + destruct (Hn x Hname Hne) as (b1 & ln & b2 & Eb & Hb1 & Hln).
      split; [exact Hne|].
      exists pre, lo, b1, ln, b2, l, []. rewrite <- Eb.
      split; [rewrite Ed; now rewrite <- !app_assoc|].
      repeat split; assumption.
  - destruct (is_start l); [now apply Same|]. now apply Same.
Qed.

Lemma line_step_open done w l :
  open_layer done w -> open_layer (done ++ [l]) (line_step w l).
Proof.
  intro Ho. pose proof (line_step_view w l) as V. cbv zeta in V.
  unfold open_layer in *.
  destruct (is_end l) eqn:Ee.
  - destruct V as [Vs V].
    destruct (currentLayer w) as [c|]; [|destruct V as [-> _]; exact I].
    destruct Ho as (pre & lo & body & base & above & Ed & Hlo & Hb & Hd & Hs & Ha & Hn).
    rewrite Hs, (top_is_layer base above Ha) in V.
    destruct above as [|a above]; cbn [is_nil] in V; [destruct V as [-> _]; exact I|].
    destruct V as [-> _].
    destruct (@exists_last _ (a :: above)) as [a' [t E]]; [discriminate|].
    rewrite E in *.
    assert (Hl : is_layer_start l = false).
    { unfold is_layer_start. unfold is_end in Ee.
      destruct (firstTokenUpper (content l)) as [t0|]; [|reflexivity].
      apply str_eqb_eq in Ee. subst t0. reflexivity. }
    exists pre, lo, (body ++ [l]), base, a'.
    split; [rewrite Ed; now rewrite <- !app_assoc|]. split; [exact Hlo|].
    split; [apply Forall_app; split; [exact Hb | now constructor]|].
    split.
    { rewrite (depth_after_snoc body l _ Hd), Ee, length_app. cbn [length].
      now rewrite Nat.add_1_r. }
    split.
    { rewrite Vs, Hs. rewrite !app_assoc. now rewrite removelast_last. }
    split; [now apply Forall_app in Ha as [Ha _]|].
    intros nm Hname Hne. destruct (Hn nm Hname Hne) as (b1 & ln & b2 & Eb & Hb1 & Hln).
    exists b1, ln, (b2 ++ [l]). split; [rewrite Eb; now rewrite <- !app_assoc|].
    now split.
  - destruct (is_start l) eqn:Es.
    + destruct V as ([t [Vs Vt]] & _ & Vc). rewrite Vc.
      destruct (is_layer_start l) eqn:El.
      * exists done, l, [], (stack w), [].
        split; [reflexivity|]. split; [exact El|]. split; [constructor|].
        split; [reflexivity|].
        split.
        { rewrite Vs. specialize (Vt). unfold is_layer_start in El.
          assert (t = L "LAYER") as ->; [|now rewrite app_nil_r].
          clear -Vs El. unfold line_step in Vs. cbv zeta in Vs. fold (content l) in Vs.
          destruct (is_empty (content l)) eqn:E0.
          { destruct (content l); [discriminate El | discriminate]. }
          destruct (firstTokenUpper (content l)) as [t0|]; [|discriminate].
          apply str_eqb_eq in El. subst t0.
          change (str_eqb (L "LAYER") (L "END")) with false in Vs.
          change (has BLOCK_START (L "LAYER")) with true in Vs.
          cbn [stack or_empty] in Vs. now apply app_inv_head in Vs as [= <-]. }
        split; [constructor|]. intros nm Hname. discriminate.
      * destruct (currentLayer w) as [c|]; [|exact I].
        destruct Ho as (pre & lo & body & base & above & Ed & Hlo & Hb & Hd & Hs & Ha & Hn).
        exists pre, lo, (body ++ [l]), base, (above ++ [t]).
        split; [rewrite Ed; now rewrite <- !app_assoc|]. split; [exact Hlo|].
        split; [apply Forall_app; split; [exact Hb | now constructor]|].
        split.
        { rewrite (depth_after_snoc body l _ Hd), Ee, Es, length_app. cbn [length].
          now rewrite Nat.add_1_r. }
        split; [rewrite Vs, Hs; now rewrite <- !app_assoc|].
        split; [apply Forall_app; split; [exact Ha | constructor; [now apply Vt | constructor]]|].
        intros nm Hname Hne. destruct (Hn nm Hname Hne) as (b1 & ln & b2 & Eb & Hb1 & Hln).
        exists b1, ln, (b2 ++ [l]). split; [rewrite Eb; now rewrite <- !app_assoc|].
        now split.
    + destruct V as (Hl & Vs & _ & Vc).
      destruct (currentLayer w) as [c|]; [|now rewrite Vc].
      destruct Ho as (pre & lo & body & base & above & Ed & Hlo & Hb & Hd & Hs & Ha & Hn).
      destruct Vc as [c' [-> Hc']]; [rewrite Hs; apply has_layer|].
      rewrite Hs, (top_is_layer base above Ha) in Hc'.
      exists pre, lo, (body ++ [l]), base, above.
      split; [rewrite Ed; now rewrite <- !app_assoc|]. split; [exact Hlo|].
      split; [apply Forall_app; split; [exact Hb | now constructor]|].
      split; [now rewrite (depth_after_snoc body l _ Hd), Ee, Es|].
      split; [now rewrite Vs|]. split; [exact Ha|].
      intros nm Hname Hne.
      assert (Old : name c = Some nm ->
                    exists b1 ln b2, body ++ [l] = b1 ++ [ln] ++ b2 /\
                                     depth_after 0 b1 = Some 0 /\ name_of ln = Some nm).
      { intro K. destruct (Hn nm K Hne) as (b1 & ln & b2 & Eb & Hb1 & Hln).
        exists b1, ln, (b2 ++ [l]). split; [rewrite Eb; now rewrite <- !app_assoc|].
        now split. }
      rewrite Hc' in Hname. destruct above as [|a above]; cbn [is_nil] in Hname;
        [|now apply Old].
      destruct (name_of l) as [n|] eqn:Hl'; [|now apply Old].
      injection Hname as ->. exists body, l, []. repeat split; assumption.
Qed.

Lemma walk_closed lines : forall done w,
  open_layer done w ->
  (forall x, In x (keys (supportMap w)) -> closed_layer done x) ->
  forall x, In x (keys (supportMap (walk_lines w lines))) ->
            closed_layer (done ++ lines) x.
Proof.
  induction lines as [|l lines IH]; intros done w Ho Hk x Hx.
  - rewrite app_nil_r. now apply Hk.
  - change (walk_lines w (l :: lines)) with (walk_lines (line_step w l) lines) in Hx.
    replace (done ++ l :: lines) with ((done ++ [l]) ++ lines)
      by (now rewrite <- app_assoc).
    apply (IH (done ++ [l]) (line_step w l)); [| |exact Hx].
    + now apply line_step_open.
    + now apply line_step_closed_keys.
Qed.

(** The map changes only at an END met while LAYER is on top of the stack. *)
Lemma line_step_layer_close w l :
  is_end l = false \/ top_is (stack w) "LAYER" = false ->
  supportMap (line_step w l) = supportMap w.
Proof.
  intro H. pose proof (line_step_view w l) as V. cbv zeta in V.
  destruct (is_end l) eqn:Ee.
  - destruct H as [H|H]; [discriminate|]. rewrite H in V. destruct V as [_ V].
    destruct (currentLayer w); now destruct V.
  - destruct (is_start l); [now destruct V as (_ & V & _)|].
    now destruct V as (_ & _ & V & _).
Qed.

(** C10.  The result holds an entry only for a LAYER block that carries a
    NAME and is closed by its END before the end of the text: for every key
    [nm] of the result, [nm] is not empty and the lines of the text hold a
    line starting a LAYER, then lines that start no LAYER, end every block
    they start and hold no END of their own left over, among them, outside
    the inner blocks, a NAME line with the value [nm], and then the END line
    that closes the LAYER.  The result is written only when a LAYER is
    closed: a line that is not an END, and an END met while the top of the
    stack is not LAYER, leave it as it is.  Lines that give no name add
    nothing while the current layer has no name, and lines without an END
    add nothing. *)
Theorem wfs_map_entries (text : str) :
  (forall nm,
      In nm (keys (getWfsSupportMap text)) -> closed_layer (split_crlf text) nm) /\
  (forall w l,
      is_end l = false \/ top_is (stack w) "LAYER" = false ->
      supportMap (line_step w l) = supportMap w) /\
  (forall w lines,
      nameless (currentLayer w) ->
      (forall l, In l lines -> name_of l = None \/ name_of l = Some []) ->
      supportMap (walk_lines w lines) = supportMap w) /\
  (forall w lines,
      (forall l, In l lines -> is_end l = false) ->
      supportMap (walk_lines w lines) = supportMap w).
Proof.
  split; [|split; [|split]].
  - intros nm H. unfold getWfsSupportMap in H.
    apply (walk_closed (split_crlf text) [] initial); [exact I | intros x [] | exact H].
  - exact line_step_layer_close.
  - intros w lines. apply walk_nameless.
  - intros w lines. apply walk_no_end.
Qed.

Lemma wfs_map_entries_witness :
  closed_layer (split_crlf wfs_closed_sample) (L "roads").
Proof.
  apply (proj1 (wfs_map_entries wfs_closed_sample)).
  vm_compute. left. reflexivity.
Defined.

(** A LAYER left open at the end of the text has no entry, whatever block
    was closed inside it; a closed LAYER without a NAME has none either. *)
Lemma wfs_open_layer_absent :
  getWfsSupportMap wfs_open_sample = [] /\ getWfsSupportMap wfs_sample = [].
Proof. split; reflexivity. Qed.

End WfsBlockFacts.

(* ================================================================== *)
(** ** Facts about the typo suggestions                                *)
(* ================================================================== *)

Section SuggestFacts.
Import Suggest EditDistance.

Lemma dist_nil_r a : dist a [] = length a.
Proof. destruct a; reflexivity. Qed.

Lemma dist_nil_l b : dist [] b = length b.
Proof. destruct b; reflexivity. Qed.

Lemma dist_cons x a y b :
  dist (x :: a) (y :: b) =
  Nat.min (dist a (y :: b) + 1)
          (Nat.min (dist (x :: a) b + 1)
                   (dist a b + (if Ascii.eqb x y then 0 else 1))).
Proof. reflexivity. Qed.

Lemma align_refl a : align a a 0.
Proof. induction a; constructor; auto. Qed.

Lemma align_nil_l b : align [] b (length b).
Proof. induction b; simpl; constructor; auto. Qed.

Lemma align_nil_r a : align a [] (length a).
Proof. induction a; simpl; constructor; auto. Qed.

Lemma align_sym a b n : align a b n -> align b a n.
Proof. induction 1; constructor; auto. Qed.

Lemma align_app a b n : align a b n -> forall a' b' m,
  align a' b' m -> align (a ++ a') (b ++ b') (n + m).
Proof. induction 1; intros; simpl; try constructor; auto. Qed.

Lemma align_rev a b n : align a b n -> align (rev a) (rev b) n.
Proof.
  induction 1; simpl.
  - constructor.
  - replace n with (n + 0) by lia. apply align_app; auto. repeat constructor.
  - replace (S n) with (n + 1) by lia. apply align_app; auto. repeat constructor.
  - replace (S n) with (n + 1) by lia. rewrite <- (app_nil_r (rev b)).
    apply align_app; auto. repeat constructor.
  - replace (S n) with (n + 1) by lia. rewrite <- (app_nil_r (rev a)).
    apply align_app; auto. repeat constructor.
Qed.

Lemma align_length a b n : align a b n ->
  length a <= length b + n /\ length b <= length a + n.
Proof. induction 1; simpl; lia. Qed.

Lemma align_zero a b : align a b 0 -> a = b.
Proof.
  remember 0 as n eqn:Hn. induction 1; try discriminate; auto.
  f_equal; auto.
Qed.

Lemma dist_align a : forall b, align a b (dist a b).
Proof.
  induction a as [|x a IHa]; intros b.
  - rewrite dist_nil_l. apply align_nil_l.
  - induction b as [|y b IHb].
    + rewrite dist_nil_r. apply align_nil_r.
    + rewrite dist_cons.
      destruct (Nat.min_spec (dist a (y :: b) + 1)
                  (Nat.min (dist (x :: a) b + 1)
                     (dist a b + (if Ascii.eqb x y then 0 else 1)))) as [[_ ->]|[_ ->]].
      * rewrite Nat.add_1_r. apply align_del. apply IHa.
      * destruct (Nat.min_spec (dist (x :: a) b + 1)
                    (dist a b + (if Ascii.eqb x y then 0 else 1))) as [[_ ->]|[_ ->]].
        -- rewrite Nat.add_1_r. apply align_ins. apply IHb.
        -- destruct (Ascii.eqb_spec x y) as [->|_].
           ++ rewrite Nat.add_0_r. apply align_keep. apply IHa.
           ++ rewrite Nat.add_1_r. apply align_sub. apply IHa.
Qed.

Lemma dist_le a b n : align a b n -> dist a b <= n.
Proof.
  induction 1.
  - simpl. lia.
  - rewrite dist_cons, Ascii.eqb_refl. lia.
  - rewrite dist_cons. destruct (Ascii.eqb x y); lia.
  - destruct b as [|y b].
    + rewrite dist_nil_r in *. simpl. lia.
    + rewrite dist_cons. lia.
  - destruct a as [|x a].
    + rewrite dist_nil_l in *. simpl. lia.
    + rewrite dist_cons. lia.
Qed.

Lemma dist_least a b n : align a b n -> dist a b <= n.
Proof. apply dist_le. Qed.

Lemma dist_sym a b : dist a b = dist b a.
Proof.
  apply Nat.le_antisymm; apply dist_le, align_sym, dist_align.
Qed.

Lemma dist_rev a b : dist (rev a) (rev b) = dist a b.
Proof.
  apply Nat.le_antisymm.
  - apply dist_le, align_rev, dist_align.
  - apply dist_le.
    pose proof (align_rev _ _ _ (dist_align (rev a) (rev b))) as H.
    now rewrite !rev_involutive in H.
Qed.

Lemma dist_refl a : dist a a = 0.
Proof. pose proof (dist_le _ _ _ (align_refl a)). lia. Qed.

Lemma ext_head rb bs : ext rb bs = rb :: tl (ext rb bs).
Proof. destruct bs; reflexivity. Qed.

Lemma ext_lengths bs : forall rb,
  map (@length ascii) (ext rb bs) = seq (length rb) (length bs + 1).
Proof.
  induction bs as [|y bs IH]; intros rb; simpl; [reflexivity|].
  f_equal. apply (IH (y :: rb)).
Qed.

Lemma ext_last {A} (f : str -> A) d bs : forall rb,
  nth (length bs) (map f (ext rb bs)) d = f (rev bs ++ rb).
Proof.
  induction bs as [|y bs IH]; intros rb; simpl; [reflexivity|].
  rewrite IH, <- app_assoc. reflexivity.
Qed.

Lemma row_loop_spec x ra bs : forall rb,
  row_loop x bs (map (dist ra) (ext rb bs)) (dist (x :: ra) rb)
  = map (dist (x :: ra)) (tl (ext rb bs)).
Proof.
  induction bs as [|y bs IH]; intros rb; [reflexivity|].
  specialize (IH (y :: rb)). cbn [ext map tl]. revert IH.
  destruct (ext (y :: rb) bs) as [|h t] eqn:E;
    rewrite ext_head in E; [discriminate|].
  injection E as <- _. intros IH. cbn [map row_loop tl] in *.
  rewrite <- dist_cons. f_equal. exact IH.
Qed.

Lemma next_row_spec x ra b :
  next_row x b (map (dist ra) (ext [] b)) (length ra)
  = map (dist (x :: ra)) (ext [] b).
Proof.
  unfold next_row.
  replace (length ra + 1) with (dist (x :: ra) [])
    by (rewrite dist_nil_r; simpl; lia).
  rewrite row_loop_spec. symmetry. rewrite (ext_head [] b) at 1. reflexivity.
Qed.

Lemma rows_spec b a : forall ra,
  rows a b (length ra) (map (dist ra) (ext [] b))
  = map (dist (rev a ++ ra)) (ext [] b).
Proof.
  induction a as [|x a IH]; intros ra; [reflexivity|].
  cbn [rows rev]. rewrite next_row_spec, <- app_assoc.
  apply (IH (x :: ra)).
Qed.

Lemma first_row b : seq 0 (length b + 1) = map (dist []) (ext [] b).
Proof.
  rewrite (map_ext _ _ dist_nil_l). symmetry. apply (ext_lengths b []).
Qed.

Lemma table_spec a b :
  nth (length b) (rows a b 0 (seq 0 (length b + 1))) 0 = dist a b.
Proof.
  pose proof (rows_spec b a []) as H.
  change (length (@nil ascii)) with 0 in H.
  rewrite first_row, H, ext_last, !app_nil_r. apply dist_rev.
Qed.

Lemma levenshtein_dist a b : levenshtein a b = dist a b.
Proof.
  unfold levenshtein.
  destruct (str_eqb a b) eqn:E.
  - apply str_eqb_eq in E. subst. symmetry. apply dist_refl.
  - destruct (Nat.eqb_spec (length a) 0) as [Ha|Ha].
    + destruct a; [|discriminate]. symmetry. apply dist_nil_l.
    + destruct (Nat.eqb_spec (length b) 0) as [Hb|Hb].
      * destruct b; [|discriminate]. symmetry. apply dist_nil_r.
      * destruct (length a <? length b).
        -- rewrite table_spec. apply dist_sym.
        -- apply table_spec.
Qed.

Lemma align_max a : forall b, align a b (Nat.max (length a) (length b)).
Proof.
  induction a as [|x a IH]; intros [|y b]; simpl.
  - constructor.
  - apply align_ins. apply (align_nil_l b).
  - apply align_del. apply (align_nil_r a).
  - apply align_sub, IH.
Qed.

Lemma In_set_of x l : forall seen,
  In x (set_of seen l) <-> In x l /\ ~ In x seen.
Proof.
  induction l as [|y l IH]; intros seen; simpl; [tauto|].
  destruct (existsb (str_eqb y) seen) eqn:E.
  - apply existsb_exists in E as [z [Hz E]]. apply str_eqb_eq in E. subst z.
    rewrite IH. split; [tauto|]. intros [[->|H] Hn]; tauto.
  - assert (~ In y seen) as Hy.
    { intros H. apply not_true_iff_false in E. apply E.
      apply existsb_exists. exists y. split; [assumption|].
      now apply str_eqb_eq. }
    simpl. rewrite IH. simpl. split.
    + intros [->|[H Hn]]; tauto.
    + intros [[->|H] Hn]; [tauto|].
      destruct (list_eq_dec Ascii.ascii_dec y x) as [->|Hne]; [tauto|].
      right. tauto.
Qed.

(** X1.  [levenshtein a b] is the least number of single-character edits
    (insertions, deletions, substitutions) that turn [a] into [b]: there is
    such an edit script of that length, and none is shorter. *)
Theorem levenshtein_fewest_edits (a b : str) :
  align a b (levenshtein a b) /\
  forall n, align a b n -> levenshtein a b <= n.
Proof.
  rewrite levenshtein_dist. split; [apply dist_align|apply dist_le].
Qed.

(** X2.  [levenshtein] is symmetric, it is zero exactly on equal words, it is
    at least the difference of the two lengths and at most the larger
    length. *)
Theorem levenshtein_metric (a b : str) :
  levenshtein a b = levenshtein b a /\
  (levenshtein a b = 0 <-> a = b) /\
  abs_diff (length a) (length b) <= levenshtein a b /\
  levenshtein a b <= Nat.max (length a) (length b).
Proof.
  rewrite !levenshtein_dist. repeat split.
  - apply dist_sym.
  - intros H. apply align_zero. rewrite <- H. apply dist_align.
  - intros ->. apply dist_refl.
  - pose proof (align_length _ _ _ (dist_align a b)). unfold abs_diff. lia.
  - apply dist_le, align_max.
Qed.

(** X3.  When the loop of [suggestKeywords] ends, [scored] holds exactly the
    known keywords other than the word itself whose distance to it is at
    most [maxDist], each with that distance: the quick filter on the
    lengths discards no keyword that is close enough. *)
Theorem scored_candidates (known : list str) (kw cand : str) (d : nat) :
  let w := toUpperCase kw in
  In (cand, d) (scored known kw) <->
  In cand known /\ cand <> w /\ d = levenshtein w cand /\ d <= maxDist w.
Proof.
  intros w. unfold scored. fold w. rewrite in_flat_map. split.
  - intros [c [Hc H]]. apply In_set_of in Hc as [Hc _].
    destruct (str_eqb c w) eqn:E; [destruct H|].
    destruct (maxDist w <? abs_diff (length c) (length w)); [destruct H|].
    destruct (Nat.leb_spec (levenshtein w c) (maxDist w)); [|destruct H].
    destruct H as [H|[]]. injection H as <- <-. repeat split; auto.
    intros ->. apply not_true_iff_false in E. apply E. now apply str_eqb_eq.
  - intros (Hc & Hne & -> & Hd). exists cand. split.
    + apply In_set_of. simpl. tauto.
    + destruct (str_eqb cand w) eqn:E.
      { apply str_eqb_eq in E. contradiction. }
      pose proof (levenshtein_dist w cand) as Hl.
      pose proof (align_length _ _ _ (dist_align w cand)) as Hb.
      destruct (Nat.ltb_spec (maxDist w) (abs_diff (length cand) (length w))) as [Hlt|_].
      { unfold abs_diff in Hlt. lia. }
      destruct (Nat.leb_spec (levenshtein w cand) (maxDist w)); [now left|lia].
Qed.

End SuggestFacts.

(* ================================================================== *)
(** ** What the extent synchroniser keeps                              *)
(* ================================================================== *)

Section ExtentSyncFrame.
Import Num Viewport Projection ExtentSync BlockSpans.

Lemma indexed_bound l : forall n a i ln,
  In (i, ln) (firstn n (indexed a l)) -> i < a + n.
Proof.
  induction l as [|x l IH]; intros n a i ln H.
  - destruct n; destruct H.
  - destruct n as [|n]; [destruct H|]. cbn [indexed firstn] in H.
    destruct H as [H|H].
    + injection H as <- <-. lia.
    + apply IH in H. lia.
Qed.

Lemma items_bound lines a b i ln :
  In (i, ln) (items lines a b) -> a <= i < b /\ nth_error lines i = Some ln.
Proof.
  intro H. pose proof (In_items _ _ _ _ _ H) as [H1 H2].
  unfold items in H. apply indexed_bound in H. repeat split; [assumption|lia|assumption].
Qed.

Lemma findBlockEnd_loop_some its : forall d i,
  findBlockEnd_loop its d = Some i ->
  exists ln, In (i, ln) its /\ is_end_line ln = true.
Proof.
  induction its as [|[j ln] its IH]; intros d i H; [discriminate|].
  cbn [findBlockEnd_loop] in H.
  assert (forall d, findBlockEnd_loop its d = Some i ->
                    exists l, In (i, l) ((j, ln) :: its) /\ is_end_line l = true) as K.
  { intros d' H'. destruct (IH _ _ H') as [l [H1 H2]]. exists l. split; [now right|assumption]. }
  destruct (isComment ln) eqn:Ec; [now apply (K d)|].
  destruct (starts_with_keyword "END" ln) eqn:Ee.
  - destruct (d - 1 =? 0)%Z; [|now apply (K (d - 1)%Z)].
    injection H as <-. exists ln. split; [now left|].
    unfold is_end_line. now rewrite Ec, Ee.
  - destruct (isBlockStart ln); [now apply (K (d + 1)%Z) | now apply (K d)].
Qed.

Lemma items_all lines a :
  items lines a (length lines) = indexed a (skipn a lines).
Proof.
  unfold items. apply firstn_all2. 
  assert (forall l k, length (indexed k l) = length l) as E.
  { induction l; intros; simpl; auto. }
  rewrite E, length_skipn. lia.
Qed.

Lemma loop_balance l : forall a d i,
  findBlockEnd_loop (indexed a l) d = Some i ->
  a <= i /\ i - a < length l /\
  is_end_line (nth (i - a) l []) = true /\
  (d + Z.of_nat (block_starts (firstn (i - a) l))
     - Z.of_nat (end_lines (firstn (i - a) l)) = 1)%Z /\
  forall k, k < i - a -> is_end_line (nth k l []) = true ->
    (d + Z.of_nat (block_starts (firstn k l))
       - Z.of_nat (end_lines (firstn k l)) <> 1)%Z.
Proof.
  induction l as [|x l IH]; intros a d i H; [discriminate|].
  cbn [indexed findBlockEnd_loop] in H.
  assert (forall d', findBlockEnd_loop (indexed (S a) l) d' = Some i ->
     (d' = d + (if negb (is_end_line x) && isBlockStart x then 1 else 0)
             - (if is_end_line x then 1 else 0))%Z ->
     (is_end_line x = true -> d' <> 0%Z) ->
     a <= i /\ i - a < length (x :: l) /\
     is_end_line (nth (i - a) (x :: l) []) = true /\
     (d + Z.of_nat (block_starts (firstn (i - a) (x :: l)))
        - Z.of_nat (end_lines (firstn (i - a) (x :: l))) = 1)%Z /\
     forall k, k < i - a -> is_end_line (nth k (x :: l) []) = true ->
       (d + Z.of_nat (block_starts (firstn k (x :: l)))
          - Z.of_nat (end_lines (firstn k (x :: l))) <> 1)%Z) as K.
  { intros d' H' Hd Hz. destruct (IH _ _ _ H') as (H1 & H2 & H3 & H4 & H5).
    replace (i - a) with (S (i - S a)) by lia.
    split; [lia|]. split; [simpl; lia|]. split; [exact H3|].
    unfold block_starts, end_lines in *.
    assert (forall k, 
      (Z.of_nat (length (filter (fun l0 => negb (is_end_line l0) && isBlockStart l0) (firstn (S k) (x :: l))))
       - Z.of_nat (length (filter is_end_line (firstn (S k) (x :: l))))
       = Z.of_nat (length (filter (fun l0 => negb (is_end_line l0) && isBlockStart l0) (firstn k l)))
       - Z.of_nat (length (filter is_end_line (firstn k l))) + (d' - d))%Z) as Step.
    { intros k. cbn [firstn filter]. rewrite Hd.
      destruct (is_end_line x), (isBlockStart x); cbn [negb andb length]; lia. }
    split.
    - specialize (Step (i - S a)). lia.
    - intros [|k] Hk Hend.
      + cbn [nth] in Hend. cbn [firstn filter length]. specialize (Hz Hend).
        rewrite Hend in Hd. cbn [negb andb] in Hd. lia.
      + cbn [nth] in Hend. specialize (H5 k ltac:(lia) Hend).
        specialize (Step k). lia. }
  destruct (isComment x) eqn:Ec.
  - assert (is_end_line x = false) as Eend by (unfold is_end_line; now rewrite Ec).
    rewrite Eend in K. cbn [negb andb] in K.
    assert (isBlockStart x = false) as Eb by (unfold isBlockStart; now rewrite Ec).
    rewrite Eb in K. apply (K d H); [lia | discriminate].
  - destruct (starts_with_keyword "END" x) eqn:Ee.
    + assert (is_end_line x = true) as Eend by (unfold is_end_line; now rewrite Ec, Ee).
      rewrite Eend in K. cbn [negb andb] in K.
      destruct (d - 1 =? 0)%Z eqn:Ed.
      * injection H as <-. rewrite Nat.sub_diag.
        split; [lia|]. split; [simpl; lia|].
        split; [exact Eend|].
        split; [cbn; lia|]. intros k Hk. lia.
      * apply (K _ H); [lia|]. intros _. lia.
    + assert (is_end_line x = false) as Eend by (unfold is_end_line; now rewrite Ec, Ee).
      rewrite Eend in K. cbn [negb andb] in K.
      destruct (isBlockStart x) eqn:Eb.
      * apply (K _ H); [lia | discriminate].
      * apply (K _ H); [lia | discriminate].
Qed.

(** X4.  [findBlockEnd] returns [startLine] itself (no end found)
    or the index of an END line after it, inside the array: between the two
    the block starts and the END lines balance, and it is the first END
    line after [startLine] with that property. *)
Theorem findBlockEnd_balanced (lines : list str) (startLine : nat) :
  let e := findBlockEnd lines startLine in
  e = startLine \/
  (startLine < e < length lines /\
   is_end_line (nth e lines []) = true /\
   block_starts (lines_between lines startLine e)
   = end_lines (lines_between lines startLine e) /\
   forall k, startLine < k < e -> is_end_line (nth k lines []) = true ->
     block_starts (lines_between lines startLine k)
     <> end_lines (lines_between lines startLine k)).
Proof.
  unfold findBlockEnd. rewrite items_all.
  destruct (findBlockEnd_loop _ 1) as [i|] eqn:E; [right | now left].
  apply loop_balance in E as (H1 & H2 & H3 & H4 & H5).
  rewrite length_skipn in H2. rewrite nth_skipn in H3.
  replace (startLine + 1 + (i - (startLine + 1))) with i in H3 by lia.
  unfold lines_between.
  replace (i - startLine - 1) with (i - (startLine + 1)) by lia.
  repeat split; try lia; try assumption.
  intros k Hk Hend.
  specialize (H5 (k - (startLine + 1)) ltac:(lia)).
  rewrite nth_skipn in H5.
  replace (startLine + 1 + (k - (startLine + 1))) with k in H5 by lia.
  specialize (H5 Hend).
  replace (k - startLine - 1) with (k - (startLine + 1)) by lia. lia.
Qed.

(* ------------------------------------------------------------------ *)

Lemma set_line_length l : forall i x, length (set_line l i x) = length l.
Proof. induction l; intros [|i] x; simpl; auto. Qed.

Lemma set_line_firstn l : forall i x k,
  k <= i -> firstn k (set_line l i x) = firstn k l.
Proof.
  induction l as [|y l IH]; intros [|i] x [|k] H; simpl; auto; try lia.
  f_equal. apply IH. lia.
Qed.

Lemma set_line_nth_error l : forall i x,
  i < length l -> nth_error (set_line l i x) i = Some x.
Proof.
  induction l as [|y l IH]; intros [|i] x H; simpl in *; try lia; auto.
  apply IH. lia.
Qed.

Lemma set_line_nth l : forall i x j d,
  nth j (set_line l i x) d = if (j =? i) && (i <? length l) then x else nth j l d.
Proof.
  induction l as [|y l IH]; intros [|i] x [|j] d; simpl; auto;
    rewrite ?andb_false_r; auto.
Qed.

Lemma insert_line_length l i x : length (insert_line l i x) = S (length l).
Proof.
  unfold insert_line. rewrite !length_app, length_firstn, length_skipn. simpl. lia.
Qed.

Lemma insert_line_firstn l i x k :
  k <= i -> k <= length l -> firstn k (insert_line l i x) = firstn k l.
Proof.
  intros H Hk. unfold insert_line.
  rewrite firstn_app, length_firstn.
  replace (k - Nat.min i (length l)) with 0 by lia.
  rewrite firstn_firstn, Nat.min_l by assumption.
  cbn [firstn]. apply app_nil_r.
Qed.

Lemma insert_line_nth_error l i x :
  i <= length l -> nth_error (insert_line l i x) i = Some x.
Proof.
  intro H. unfold insert_line.
  rewrite nth_error_app2; rewrite length_firstn, Nat.min_l by assumption; [|lia].
  now rewrite Nat.sub_diag.
Qed.

Lemma first_at_depth1_In sb test its : forall d i ln,
  first_at_depth1 sb test its d = Some (i, ln) -> In (i, ln) its.
Proof.
  induction its as [|[j l] its IH]; intros d i ln H; [discriminate|].
  cbn [first_at_depth1] in H.
  destruct (isComment l || (sb && is_empty (trim l))); [right; eapply IH; eassumption|].
  destruct (starts_with_keyword "END" l); [right; eapply IH; eassumption|].
  destruct (isBlockStart l); [right; eapply IH; eassumption|].
  destruct ((d =? 1)%Z && test l); [left; congruence | right; eapply IH; eassumption].
Qed.

(** Any call: the lines up to [start] stay, and no line is lost. *)
Lemma replaceOrInsertExtent_frame lines start end_ ext crs add strat :
  start < end_ -> start < length lines ->
  let out := replaceOrInsertExtent lines start end_ ext crs add strat in
  firstn (start + 1) out = firstn (start + 1) lines /\
  length lines <= length out <= S (length lines).
Proof.
  intros H Hs. unfold replaceOrInsertExtent.
  destruct (first_at_depth1 _ _ _ _) as [[i ln]|] eqn:E.
  - apply first_at_depth1_In, items_bound in E as [[H1 H2] H3].
    cbv zeta. rewrite set_line_length. split; [|lia].
    apply set_line_firstn. lia.
  - destruct (negb add); cbv zeta; [split; [reflexivity | lia]|].
    rewrite insert_line_length. split; [|lia].
    apply insert_line_firstn; lia.
Qed.

(** X5.  With [addMissing], [replaceOrInsertExtent] leaves the new
    EXTENT line inside the block (after [start], at [end] at the latest),
    replacing a depth-1 EXTENT line in place or inserting one line; the
    lines up to [start] are untouched. *)
Theorem extent_line_written (lines : list str) (start end_ : nat)
        (ext : Extent) (crs : str) (strat : strategy) :
  start < end_ -> end_ < length lines ->
  let x := extentLine (guessInnerIndent lines start end_) ext crs in
  let out := replaceOrInsertExtent lines start end_ ext crs true strat in
  (exists i, start < i <= end_ /\ nth_error out i = Some x) /\
  firstn (start + 1) out = firstn (start + 1) lines /\
  (length out = length lines \/ length out = S (length lines)).
Proof.
  intros H He x out.
  destruct (replaceOrInsertExtent_frame lines start end_ ext crs true strat H ltac:(lia))
    as [F _]. fold out in F. split; [|split; [exact F|]].
  - subst out x. unfold replaceOrInsertExtent.
    destruct (first_at_depth1 _ _ _ _) as [[i ln]|] eqn:E.
    + apply first_at_depth1_In, items_bound in E as [[H1 H2] H3].
      exists i. split; [lia|]. apply set_line_nth_error.
      apply nth_error_Some. congruence.
    + cbn [negb].
      set (p := Nat.min (Nat.max (findInsertAfterLine lines start end_ strat) start)
                        (end_ - 1) + 1).
      exists p. split; [subst p; lia|]. apply insert_line_nth_error. subst p. lia.
  - subst out. unfold replaceOrInsertExtent.
    destruct (first_at_depth1 _ _ _ _) as [[i ln]|].
    + left. apply set_line_length.
    + right. apply insert_line_length.
Qed.

(* ------------------------------------------------------------------ *)

Lemma rewriting_later lines v lo pos pos' cur :
  rewriting lines v lo pos cur -> pos <= pos' -> rewriting lines v lo pos' cur.
Proof.
  intros (H1 & H2 & H3 & H4) H. repeat split; auto. intros j Hj. apply H3. lia.
Qed.

Lemma rewrite_fold lines v lo n : forall p pos cur,
  rewriting lines v lo pos cur -> lo <= p -> pos <= p ->
  rewriting lines v lo (p + n)
    (fold_left
       (fun ls j =>
          let src := nth j ls [] in
          if isComment src || is_empty (trim src) then ls
          else match parseMetadataEntryLine src with
               | None => ls
               | Some parsed =>
                   let k := toLowerCase (e_key parsed) in
                   if str_eqb k (L "wms_extent") || str_eqb k (L "wfs_extent")
                   then set_line ls j (renderMetadataEntryLine parsed v)
                   else ls
               end)
       (seq p n) cur).
Proof.
  induction n as [|n IH]; intros p pos cur Hinv Hlo Hpos.
  - rewrite Nat.add_0_r. cbn [seq fold_left]. now apply (rewriting_later _ _ _ pos).
  - cbn [seq fold_left]. replace (p + S n) with (S p + n) by lia.
    apply (IH (S p) (S p)); try lia.
    pose proof Hinv as (H1 & H2 & H3 & H4).
    assert (Keep : rewriting lines v lo (S p) cur)
      by (apply (rewriting_later _ _ _ pos); [assumption | lia]).
    cbv beta zeta. unfold str in *. rewrite (H3 p Hpos).
    destruct (isComment (nth p lines []) || is_empty (trim (nth p lines []))); [exact Keep|].
    destruct (parseMetadataEntryLine (nth p lines [])) as [parsed|] eqn:Ep; [|exact Keep].
    destruct (str_eqb (toLowerCase (e_key parsed)) (L "wms_extent")
              || str_eqb (toLowerCase (e_key parsed)) (L "wfs_extent")) eqn:Ek;
      [|exact Keep].
    repeat split.
    + now rewrite set_line_length.
    + rewrite set_line_firstn by lia. exact H2.
    + intros j Hj. rewrite set_line_nth.
      replace (j =? p) with false by (symmetry; apply Nat.eqb_neq; lia).
      apply H3. lia.
    + intros j. rewrite set_line_nth.
      match goal with |- context [if ?c then _ else _] => destruct c eqn:Ej end;
        [|apply H4].
      apply andb_true_iff in Ej as [Ej _]. apply Nat.eqb_eq in Ej. subst j.
      right. exists parsed. repeat split; assumption.
Qed.

Lemma metadata_loop_rewriting lines v lo end_ fuel : forall i pos cur,
  rewriting lines v lo pos cur -> lo <= i -> pos <= i ->
  exists pos', rewriting lines v lo pos' (metadata_loop fuel i end_ v cur).
Proof.
  induction fuel as [|fuel IH]; intros i pos cur Hinv Hlo Hpos; [now exists pos|].
  cbn [metadata_loop].
  destruct (end_ <=? i); [now exists pos|].
  destruct (isComment (nth i cur []) || negb (starts_with_keyword "METADATA" (nth i cur []))).
  { apply (IH (i + 1) pos); [assumption | lia | lia]. }
  destruct (findBlockEnd cur i <=? i) eqn:E.
  { apply (IH (i + 1) pos); [assumption | lia | lia]. }
  apply Nat.leb_gt in E.
  apply (IH (findBlockEnd cur i + 1) (findBlockEnd cur i)); try lia.
  unfold rewrite_entries.
  replace (findBlockEnd cur i) with ((i + 1) + (findBlockEnd cur i - (i + 1))) at 1 by lia.
  apply (rewrite_fold lines v lo _ (i + 1) pos); [assumption | lia | lia].
Qed.

Lemma metadata_rewrite_frame_aux lines start end_ ext crs :
  length (replaceMetadataExtentKeysInBlock lines start end_ ext crs) = length lines /\
  firstn (start + 1) (replaceMetadataExtentKeysInBlock lines start end_ ext crs)
  = firstn (start + 1) lines.
Proof.
  unfold replaceMetadataExtentKeysInBlock.
  destruct (metadata_loop_rewriting lines (formatExtentValue ext crs) (start + 1)
              end_ end_ (start + 1) 0 lines) as [pos (H1 & H2 & _ & _)]; try lia.
  - repeat split; auto. intros j. now left.
  - split; assumption.
Qed.

(** X6.  [replaceMetadataExtentKeysInBlock] keeps the number of lines
    and the lines up to [start]; every line is left as it was or is the
    rendering, with the new extent value, of an entry it parsed on that line
    whose key is wms_extent or wfs_extent (case apart). *)
Theorem metadata_rewrite_only_extent_keys (lines : list str) (start end_ : nat)
        (ext : Extent) (crs : str) :
  let v := formatExtentValue ext crs in
  let out := replaceMetadataExtentKeysInBlock lines start end_ ext crs in
  length out = length lines /\
  firstn (start + 1) out = firstn (start + 1) lines /\
  forall j, entry_rewritten v (nth j lines []) (nth j out []).
Proof.
  intros v out. subst out. unfold replaceMetadataExtentKeysInBlock. fold v.
  destruct (metadata_loop_rewriting lines v (start + 1) end_ end_ (start + 1) 0 lines)
    as [pos (H1 & H2 & _ & H4)]; try lia.
  - repeat split; auto. intros j. now left.
  - repeat split; assumption.
Qed.

Lemma firstn_le {A} (a b : list A) n k :
  firstn n a = firstn n b -> k <= n -> firstn k a = firstn k b.
Proof.
  intros H Hk.
  rewrite <- (Nat.min_l k n) by assumption.
  rewrite <- !firstn_firstn. now rewrite H.
Qed.

Lemma layers_loop_frame imported mapEnd mapCrs e add k fuel : forall i lines s,
  k <= i ->
  let out := fst (layers_loop imported fuel i mapEnd mapCrs e add lines s) in
  firstn k out = firstn k lines /\ length lines <= length out.
Proof.
  induction fuel as [|fuel IH]; intros i lines s Hk; cbn [layers_loop]; [split; auto|].
  destruct (mapEnd <=? i); [split; auto|].
  destruct (negb (is_layer_line (nth i lines []))) eqn:El.
  { apply IH. lia. }
  destruct (findBlockEnd lines i <=? i) eqn:E.
  { apply IH. lia. }
  apply Nat.leb_gt in E. cbv zeta.
  set (crs := match extractCrsFromBlock lines i (findBlockEnd lines i) with
              | Some c => c | None => mapCrs end).
  destruct (projectExtent imported s e (L "CRS:84") crs) as [ext s1].
  assert (Hi : i < length lines).
  { destruct (Nat.lt_ge_cases i (length lines)) as [|Hge]; [assumption|].
    rewrite nth_overflow in El by assumption. discriminate. }
  destruct (replaceOrInsertExtent_frame lines i (findBlockEnd lines i) ext crs add
              StratLayer E Hi) as [F1 L1].
  set (l1 := replaceOrInsertExtent lines i (findBlockEnd lines i) ext crs add StratLayer) in *.
  destruct (metadata_rewrite_frame_aux l1 i (findBlockEnd lines i) ext crs) as [L2 F2].
  set (l2 := replaceMetadataExtentKeysInBlock l1 i (findBlockEnd lines i) ext crs) in *.
  destruct (IH (findBlockEnd lines i + 1) l2 s1 ltac:(lia)) as [F3 L3].
  split; [|lia].
  rewrite F3. rewrite (firstn_le _ _ _ k F2) by lia. apply (firstn_le _ _ _ k F1). lia.
Qed.

Lemma locate_map_span lines s m fb :
  locate_map lines = MapSpan s m fb -> s < m /\ s < length lines.
Proof.
  unfold locate_map, findFirstBlockStart.
  destruct (find _ (indexed 0 lines)) as [[i ln]|] eqn:F; [|discriminate].
  apply find_some in F as [F _]. apply In_indexed in F as [_ F].
  rewrite Nat.sub_0_r in F.
  assert (i < length lines) by (apply nth_error_Some; congruence).
  cbn [option_map fst].
  destruct (findBlockEnd lines i <=? i) eqn:E.
  - destruct (i <? findLastEndAfter lines i) eqn:G; [|discriminate].
    intros K. injection K as <- <- _. apply Nat.ltb_lt in G. split; assumption.
  - intros K. injection K as <- <- _. apply Nat.leb_gt in E. split; assumption.
Qed.

(** X7.  When [sync] goes through, the text it returns is made of lines
    of which the first ones, up to and including the MAP line, are the lines
    of the input, and no line of the input is lost; the lines are joined
    with CR LF when the input holds one, with LF otherwise. *)
Theorem sync_keeps_head (imported : option proj4) (s : service) (text : str)
        (e : Extent) (o : SyncOptions) (mapStart mapEnd : nat) (fb : bool) :
  is_empty (trim text) = false ->
  locate_map (lines_of text) = MapSpan mapStart mapEnd fb ->
  exists out,
    fst (sync imported s text e o)
    = Resolved (join (if includes [CR; LF] text then [CR; LF] else [LF]) out) /\
    firstn (mapStart + 1) out = firstn (mapStart + 1) (lines_of text) /\
    length (lines_of text) <= length out.
Proof.
  intros Hne Hspan. unfold sync. rewrite Hne, Hspan.
  destruct (locate_map_span _ _ _ _ Hspan) as [Hlt Hlen].
  set (lines := lines_of text) in *.
  set (mapCrs := map_crs lines mapStart mapEnd).
  set (r1 := if updateMap o then _ else (lines, s)).
  assert (firstn (mapStart + 1) (fst r1) = firstn (mapStart + 1) lines /\
          length lines <= length (fst r1)) as [F1 L1].
  { subst r1. destruct (updateMap o); [|split; auto].
    destruct (projectExtent imported s e (L "CRS:84") mapCrs) as [ext s'].
    cbn [fst].
    destruct (replaceOrInsertExtent_frame lines mapStart mapEnd ext mapCrs
                (addMissing o) StratMap Hlt Hlen) as [Fa La].
    destruct (metadata_rewrite_frame_aux
                (replaceOrInsertExtent lines mapStart mapEnd ext mapCrs
                   (addMissing o) StratMap) mapStart mapEnd ext mapCrs) as [Lb Fb].
    split; [congruence | lia]. }
  destruct r1 as [l1 s1]. cbn [fst] in F1, L1.
  destruct (updateLayers o).
  - destruct (layers_loop_frame imported mapEnd mapCrs e (addMissing o) (mapStart + 1)
                mapEnd (mapStart + 1) l1 s1 (le_n _)) as [F2 L2].
    destruct (layers_loop _ _ _ _ _ _ _ _ _) as [l2 s2]. cbn [fst] in *.
    eexists. split; [reflexivity|]. split; [congruence | lia].
  - cbn [fst]. eexists. split; [reflexivity|]. split; assumption.
Qed.

Lemma extent_line_written_witness :
  let lines := [L "MAP"; L "  SIZE 400 300"; L "END"] in
  let ext : Extent := (Fin 1, Fin 2, Fin 3, Fin 4) in
  let x := extentLine (guessInnerIndent lines 0 2) ext (L "CRS:84") in
  let out := replaceOrInsertExtent lines 0 2 ext (L "CRS:84") true StratMap in
  (exists i, 0 < i <= 2 /\ nth_error out i = Some x) /\
  firstn (0 + 1) out = firstn (0 + 1) lines /\
  (length out = length lines \/ length out = S (length lines)).
Proof.
  cbv zeta.
  apply (extent_line_written [L "MAP"; L "  SIZE 400 300"; L "END"] 0 2
           (Fin 1, Fin 2, Fin 3, Fin 4) (L "CRS:84") StratMap); simpl; lia.
Defined.

Lemma sync_keeps_head_witness :
  let text := L "# demo" ++ [LF] ++ L "MAP" ++ [LF] ++ L "END" in
  exists out,
    fst (sync None new_service text (Fin 0, Fin 0, Fin 1, Fin 1) (mkOpts true true true))
    = Resolved (join (if includes [CR; LF] text then [CR; LF] else [LF]) out) /\
    firstn (1 + 1) out = firstn (1 + 1) (lines_of text) /\
    length (lines_of text) <= length out.
Proof.
  cbv zeta.
  apply (sync_keeps_head None new_service (L "# demo" ++ [LF] ++ L "MAP" ++ [LF] ++ L "END")
           (Fin 0, Fin 0, Fin 1, Fin 1) (mkOpts true true true) 1 2 false);
    reflexivity.
Defined.

End ExtentSyncFrame.

(* ================================================================== *)
(** ** Metadata entries: parsing what was rendered                     *)
(* ================================================================== *)

Section MetadataEntries.
Import Num Viewport Projection ExtentSync BlockSpans.

Lemma span_forall (p : ascii -> bool) s : forallb p (fst (span p s)) = true.
Proof.
  induction s as [|c s IH]; [reflexivity|]. cbn [span].
  destruct (p c) eqn:E; [|reflexivity].
  destruct (span p s). cbn [fst forallb] in *. now rewrite E.
Qed.

Lemma span_eq (p : ascii -> bool) s : s = fst (span p s) ++ snd (span p s).
Proof.
  induction s as [|c s IH]; [reflexivity|]. cbn [span].
  destruct (p c); [|reflexivity].
  destruct (span p s). cbn [fst snd] in *. cbn. now f_equal.
Qed.

Lemma span_rest (p : ascii -> bool) s c r : snd (span p s) = c :: r -> p c = false.
Proof.
  induction s as [|a s IH]; [discriminate|]. cbn [span].
  destruct (p a) eqn:E.
  - destruct (span p s). cbn [snd] in *. exact IH.
  - cbn [snd]. intros H. injection H as <- _. exact E.
Qed.

Lemma comment_tail_here s : forall c, comment_tail s = Some c -> comment_here c = true.
Proof.
  induction s as [|x s IH]; intros c H.
  - cbn in H. discriminate.
  - cbn [comment_tail] in H.
    match type of H with (if ?b then _ else _) = _ => destruct b eqn:E end.
    + injection H as <-. exact E.
    + now apply IH.
Qed.

Lemma comment_here_tail c : comment_here c = true -> comment_tail c = Some c.
Proof.
  intro H. destruct c as [|x c]; [discriminate|].
  cbn [comment_tail]. unfold comment_here in H. now rewrite H.
Qed.

Lemma not_in_span q s : ~ In q (fst (span (fun x => negb (Ascii.eqb x q)) s)).
Proof.
  intro H. pose proof (span_forall (fun x => negb (Ascii.eqb x q)) s) as F.
  rewrite forallb_forall in F. specialize (F q H). now rewrite Ascii.eqb_refl in F.
Qed.

(** What the parser guarantees. *)
Lemma parse_well_formed line e :
  parseMetadataEntryLine line = Some e -> well_formed e.
Proof.
  unfold parseMetadataEntryLine.
  destruct (trimStart _) as [|c0 tail0] eqn:E0; [discriminate|].
  destruct (Ascii.eqb c0 HASH); [discriminate|].
  set (kr := if is_quote c0 then _ else _).
  assert (Hkr : forall key kq rest, kr = Some (key, kq, rest) ->
            match kq with
            | Some q => is_quote q = true /\ ~ In q key
            | None => key <> [] /\ forallb is_word_char key = true
            end).
  { subst kr. intros key kq rest. destruct (is_quote c0) eqn:Q.
    - destruct (snd (span _ tail0)) eqn:S; [discriminate|].
      intros H. injection H as <- <- _. split; [assumption | apply not_in_span].
    - destruct (is_empty (fst (span is_word_char (c0 :: tail0)))) eqn:Em; [discriminate|].
      intros H. injection H as <- <- _.
      split; [|exact (span_forall is_word_char (c0 :: tail0))].
      intros K. change (fst (span is_word_char (c0 :: tail0)) = []) in K.
      now rewrite K in Em. }
  destruct kr as [[[key kq] rest]|]; [|discriminate].
  specialize (Hkr _ _ _ eq_refl).
  destruct rest as [|v0 tail1]; [discriminate|].
  assert (Hind : forallb is_space (leading_space line) = true) by apply span_forall.
  assert (Hc : forall s, (match comment_tail s with Some c => c | None => [] end) = []
                         \/ comment_here (match comment_tail s with Some c => c | None => [] end) = true).
  { intros s. destruct (comment_tail s) eqn:C; [right|now left].
    eapply comment_tail_here; eassumption. }
  destruct (is_quote v0) eqn:Qv0.
  - destruct (snd (span _ tail1)) as [|x after]; [discriminate|].
    intros H. injection H as <-. unfold well_formed; cbn [e_indent e_key keyQuotedBy valueQuotedBy commentRaw].
    split; [exact Hind|]. split; [exact Hkr|]. split; [exact Qv0 | apply Hc].
  - intros H. injection H as <-. unfold well_formed; cbn [e_indent e_key keyQuotedBy valueQuotedBy commentRaw].
    split; [exact Hind|]. split; [exact Hkr|]. split; [exact I | exact (Hc (v0 :: tail1))].
Qed.

Lemma num_char_facts c :
  is_num_char c = true ->
  is_space c = false /\ Ascii.eqb c HASH = false /\ is_quote c = false /\ c <> SP.
Proof.
  destruct c as [[] [] [] [] [] [] [] []]; vm_compute; intro H;
    try discriminate H; repeat split; discriminate.
Qed.

Lemma quote_facts q :
  is_quote q = true ->
  is_space q = false /\ Ascii.eqb q HASH = false /\ is_num_char q = false /\ q <> SP.
Proof.
  destruct q as [[] [] [] [] [] [] [] []]; vm_compute; intro H;
    try discriminate H; repeat split; discriminate.
Qed.

Lemma word_char_facts c :
  is_word_char c = true ->
  is_space c = false /\ Ascii.eqb c HASH = false /\ is_quote c = false.
Proof.
  destruct c as [[] [] [] [] [] [] [] []]; vm_compute; intro H;
    try discriminate H; repeat split.
Qed.

Lemma leading_space_app (sp rest : str) :
  forallb is_space sp = true ->
  match rest with [] => True | c :: _ => is_space c = false end ->
  leading_space (sp ++ rest) = sp /\ skipn (length sp) (sp ++ rest) = rest.
Proof.
  intros H1 H2. unfold leading_space. rewrite (span_app is_space sp rest H1 H2).
  split; [reflexivity | apply skipn_app_exact].
Qed.

(** Inside the numbers the text holds no comment. *)
Lemma trimStart_numbers v c :
  (forall ch, In ch v -> is_num_char ch = true \/ ch = SP) ->
  (exists r ch, v = r ++ [ch] /\ is_num_char ch = true) ->
  exists h t, trimStart (v ++ c) = h :: t /\ is_num_char h = true.
Proof.
  induction v as [|x v IH]; intros Hall [r [ch [E Hch]]].
  - destruct r; discriminate.
  - cbn [app trimStart].
    destruct (Hall x (or_introl eq_refl)) as [Hx| ->].
    + destruct (num_char_facts x Hx) as [Hs _]. rewrite Hs. now exists x, (v ++ c).
    + change (is_space SP) with true. cbn iota.
      apply IH; [intros; apply Hall; now right|].
      destruct r as [|y r]; cbn in E.
      * injection E as <- <-. discriminate Hch.
      * injection E as _ ->. now exists r, ch.
Qed.

Lemma comment_tail_numbers c v :
  (forall ch, In ch v -> is_num_char ch = true \/ ch = SP) ->
  (v = [] \/ exists r ch, v = r ++ [ch] /\ is_num_char ch = true) ->
  comment_tail (v ++ c) = comment_tail c.
Proof.
  induction v as [|x v IH]; intros Hall Hlast; [reflexivity|].
  destruct Hlast as [|Hlast]; [discriminate|].
  destruct (trimStart_numbers (x :: v) c Hall Hlast) as [h [t [E Hh]]].
  cbn [app comment_tail]. cbn [app] in E. rewrite E.
  destruct (num_char_facts h Hh) as [_ [-> _]]. cbn [andb].
  apply IH; [intros; apply Hall; now right|].
  destruct Hlast as [r [ch [Er Hch]]].
  destruct r as [|y r]; cbn in Er.
  - injection Er as _ ->. now left.
  - injection Er as _ ->. right. now exists r, ch.
Qed.

Lemma comment_of_tail c :
  c = [] \/ comment_here c = true ->
  match comment_tail c with Some x => x | None => [] end = c.
Proof.
  intros [->|H]; [reflexivity|]. now rewrite (comment_here_tail c H).
Qed.

(** Rendering a well-formed entry with a text of numbers and parsing the
    line again gives the entry back. *)
Lemma parse_render e v :
  well_formed e -> numbers_text v ->
  parseMetadataEntryLine (renderMetadataEntryLine e v) = Some e.
Proof.
  destruct e as [indent key kq vq c].
  intros (Hind & Hk & Hv & Hc) (Hall & (v0 & vr & Ev & Hv0) & Hlast).
  cbn [e_indent e_key keyQuotedBy valueQuotedBy commentRaw] in *.
  unfold renderMetadataEntryLine.
  cbn [e_indent e_key keyQuotedBy valueQuotedBy commentRaw].
  set (V := match vq with Some q => [q] ++ v ++ [q] | None => v end).
  assert (HV : exists h t, V = h :: t /\ is_space h = false).
  { subst V. destruct vq as [q|].
    - exists q, (v ++ [q]). split; [reflexivity|]. now apply quote_facts.
    - exists v0, vr. split; [assumption|]. now apply num_char_facts. }
  destruct HV as (vh & vt & EV & Hvh).
  assert (Hafter : trimStart (L " " ++ V ++ c) = V ++ c).
  { rewrite EV. cbn. now rewrite Hvh. }
  (* the value and the comment, once the key is read *)
  assert (Hval : match V ++ c with
                 | [] => None
                 | v0 :: tail1 =>
                     if is_quote v0 then
                       let q := span (fun x => negb (Ascii.eqb x v0)) tail1 in
                       match snd q with
                       | _ :: after =>
                           Some (mkEntry indent key kq (Some v0)
                                   (match comment_tail after with
                                    | Some c => c | None => [] end))
                       | [] => None
                       end
                     else
                       Some (mkEntry indent key kq None
                               (match comment_tail (V ++ c) with
                                | Some c => c | None => [] end))
                 end = Some (mkEntry indent key kq vq c)).
  { subst V. destruct vq as [q|].
    - cbn [app]. rewrite Hv.
      assert (S : span (fun x => negb (Ascii.eqb x q)) (v ++ q :: c) = (v, q :: c)).
      { apply span_app; [|cbn; now rewrite Ascii.eqb_refl].
        apply forallb_forall. intros x Hx. apply negb_true_iff.
        destruct (Ascii.eqb_spec x q) as [->|]; [|reflexivity]. exfalso.
        destruct (quote_facts q Hv) as (_ & _ & Hn & Hsp).
        destruct (Hall q Hx); congruence. }
      rewrite <- app_assoc. cbn [app]. cbv zeta. rewrite S. cbn [snd].
      now rewrite comment_of_tail.
    - subst v. cbn [app].
      destruct (num_char_facts v0 Hv0) as (_ & _ & -> & _).
      change (v0 :: vr ++ c) with ((v0 :: vr) ++ c).
      rewrite comment_tail_numbers by (auto).
      now rewrite comment_of_tail. }
  unfold parseMetadataEntryLine.
  destruct kq as [q|].
  - destruct Hk as [Hq Hnot]. destruct (quote_facts q Hq) as (Hs & Hh & _ & _).
    destruct (leading_space_app indent ([q] ++ key ++ [q] ++ L " " ++ V ++ c) Hind Hs)
      as [E1 E2].
    rewrite <- ?app_assoc. cbn [app] in *. rewrite E1, E2.
    cbn [trimStart]. rewrite Hs, Hh, Hq.
    assert (S : span (fun x => negb (Ascii.eqb x q)) (key ++ q :: L " " ++ V ++ c)
                = (key, q :: L " " ++ V ++ c)).
    { apply span_app; [|cbn; now rewrite Ascii.eqb_refl].
      apply forallb_forall. intros x Hx. apply negb_true_iff.
      destruct (Ascii.eqb_spec x q) as [->|]; [contradiction | reflexivity]. }
    cbv zeta. rewrite S. cbn [fst snd]. rewrite Hafter. exact Hval.
  - destruct Hk as [Hne Hw]. destruct key as [|k0 key']; [contradiction|].
    pose proof Hw as Hw'. cbn [forallb] in Hw'. apply andb_true_iff in Hw' as [Hk0 _].
    destruct (word_char_facts k0 Hk0) as (Hs & Hh & Hq).
    destruct (leading_space_app indent ((k0 :: key') ++ L " " ++ V ++ c) Hind Hs)
      as [E1 E2].
    rewrite <- ?app_assoc. cbn [app] in *. rewrite E1, E2.
    cbn [trimStart]. rewrite Hs, Hh, Hq.
    assert (S : span is_word_char ((k0 :: key') ++ L " " ++ V ++ c)
                = (k0 :: key', L " " ++ V ++ c)).
    { apply span_app; [assumption | reflexivity]. }
    cbn [app] in S. cbv zeta. rewrite S. cbn [fst snd is_empty].
    rewrite Hafter. exact Hval.
Qed.

Lemma string_of_uint_digits u :
  forallb is_digit (L (NilEmpty.string_of_uint u)) = true.
Proof. induction u; cbn; auto. Qed.

Lemma decimal_digits n : forallb is_digit (decimal n) = true.
Proof.
  unfold decimal, NilZero.string_of_uint.
  destruct (N.to_uint (Z.to_N n)) eqn:E; try (rewrite <- E; apply string_of_uint_digits);
    try reflexivity; apply string_of_uint_digits.
Qed.

Lemma decimal_nonempty n : decimal n <> [].
Proof.
  unfold decimal, NilZero.string_of_uint.
  destruct (N.to_uint (Z.to_N n)); discriminate.
Qed.

Lemma digit_num_char c : is_digit c = true -> is_num_char c = true.
Proof. unfold is_num_char. now intros ->. Qed.

Lemma In_skipn {A} n (l : list A) x : In x (skipn n l) -> In x l.
Proof.
  intro H. rewrite <- (firstn_skipn n l). apply in_or_app. now right.
Qed.

Lemma toFixed_chars q d c : In c (toFixed q d) -> is_num_char c = true.
Proof.
  unfold toFixed.
  set (m := decimal (fixed_digits q d)).
  set (m' := repeat "0"%char (d + 1 - length m) ++ m).
  assert (Hm : forall x, In x m -> is_digit x = true).
  { apply forallb_forall, decimal_digits. }
  assert (Hm' : forall x, In x m' -> is_digit x = true).
  { subst m'. intros x Hx. apply in_app_or in Hx as [Hx|Hx]; [|now apply Hm].
    apply repeat_spec in Hx. now subst. }
  intro H. apply in_app_or in H as [H|H].
  - destruct (is_neg q); [|destruct H]. destruct H as [<-|[]]. reflexivity.
  - destruct (d =? 0); [now apply digit_num_char, Hm|].
    apply in_app_or in H as [H|H]; [apply digit_num_char, Hm'; eapply In_firstn; eassumption|].
    destruct H as [<-|H]; [reflexivity|].
    apply digit_num_char, Hm'. eapply In_skipn; eassumption.
Qed.

Lemma toFixed_nonempty q d : toFixed q d <> [].
Proof.
  unfold toFixed. intro H. apply app_eq_nil in H as [_ H].
  destruct (d =? 0).
  - now apply decimal_nonempty in H.
  - apply app_eq_nil in H as [_ H]. discriminate.
Qed.

Lemma formatNum_chars v crs c : In c (formatNum v crs) -> is_num_char c = true.
Proof.
  destruct v; cbn [formatNum]; try (intros [<-|[]]; reflexivity).
  apply toFixed_chars.
Qed.

Lemma formatNum_nonempty v crs : formatNum v crs <> [].
Proof. destruct v; cbn [formatNum]; try discriminate. apply toFixed_nonempty. Qed.

Lemma formatExtentValue_numbers ext crs : numbers_text (formatExtentValue ext crs).
Proof.
  unfold formatExtentValue, numbers_text.
  pose proof (formatNum_chars (ex0 ext) crs) as C0.
  pose proof (formatNum_chars (ex1 ext) crs) as C1.
  pose proof (formatNum_chars (ex2 ext) crs) as C2.
  pose proof (formatNum_chars (ex3 ext) crs) as C3.
  pose proof (formatNum_nonempty (ex0 ext) crs) as N0.
  pose proof (formatNum_nonempty (ex3 ext) crs) as N3.
  set (n0 := formatNum (ex0 ext) crs) in *. set (n1 := formatNum (ex1 ext) crs) in *.
  set (n2 := formatNum (ex2 ext) crs) in *. set (n3 := formatNum (ex3 ext) crs) in *.
  split; [|split].
  - intros c H.
    repeat (apply in_app_or in H as [H|H]; [auto|]); auto;
      try (destruct H as [<-|[]]; now right).
  - destruct n0 as [|c r]; [contradiction|]. exists c. eexists. split; [reflexivity|].
    apply C0. now left.
  - destruct (exists_last N3) as [r [c E]]. exists (n0 ++ L " " ++ n1 ++ L " " ++ n2 ++ L " " ++ r), c.
    split; [rewrite E; now rewrite <- !app_assoc|].
    apply C3. rewrite E. apply in_or_app. right. now left.
Qed.

(** X8.  Rendering an entry that [parseMetadataEntryLine] returned, with
    an extent value written by [formatExtentValue], and parsing the line
    again gives the same entry: indentation, key, quoting of key and value
    and trailing comment survive the rewrite, so rewriting twice with one
    value writes the same line twice. *)
Theorem metadata_entry_stable (line : str) (e : entry) (ext : Extent) (crs : str) :
  parseMetadataEntryLine line = Some e ->
  parseMetadataEntryLine (renderMetadataEntryLine e (formatExtentValue ext crs))
  = Some e.
Proof.
  intro H. apply parse_render; [eapply parse_well_formed; eassumption|].
  apply formatExtentValue_numbers.
Qed.

Lemma metadata_entry_stable_witness :
  exists e,
    parseMetadataEntryLine (L "    'wms_extent' '0 0 1 1'  # bounds") = Some e /\
    parseMetadataEntryLine
      (renderMetadataEntryLine e
         (formatExtentValue (Fin 1, Fin 2, Fin 3, Fin 4) (L "EPSG:2100")))
    = Some e.
Proof.
  eexists. split; [reflexivity|].
  apply (metadata_entry_stable (L "    'wms_extent' '0 0 1 1'  # bounds")).
  reflexivity.
Defined.

End MetadataEntries.

(* ================================================================== *)
(** ** Coordinate reference systems, numbers and projected extents     *)
(* ================================================================== *)

From Stdlib Require Import DecimalN Lqa.

Section CrsFacts.
Import Num Viewport Projection ExtentSync BlockSpans.

Lemma search_some {A} (re : str -> option A) s : forall x,
  search re s = Some x -> exists t, re t = Some x.
Proof.
  induction s as [|c s IH]; intros x H; cbn [search] in H.
  - destruct (re []) eqn:E; [|discriminate]. injection H as <-. now exists [].
  - destruct (re (c :: s)) eqn:E.
    + injection H as <-. now exists (c :: s).
    + now apply IH.
Qed.

Lemma digits_some s d : digits s = Some d -> d <> [] /\ forallb is_digit d = true.
Proof.
  unfold digits. destruct (is_empty (fst (span is_digit s))) eqn:E; [discriminate|].
  intros H. injection H as <-. split; [|apply span_forall].
  intro K. now rewrite K in E.
Qed.

Lemma re_epsg_some s d : re_epsg s = Some d -> d <> [] /\ forallb is_digit d = true.
Proof.
  unfold re_epsg. destruct (strip_prefix_ci _ s); [|discriminate].
  destruct (skip_sep _ _); [|discriminate]. apply digits_some.
Qed.

Lemma re_init_epsg_some s d :
  re_init_epsg s = Some d -> d <> [] /\ forallb is_digit d = true.
Proof.
  unfold re_init_epsg. destruct (strip_prefix_ci _ s); [|discriminate].
  destruct (skip_sep _ _); [|discriminate]. apply re_epsg_some.
Qed.

(** X9.  Whatever [extractCrsFromBlock] finds in a block (PROJECTION
    block, srid of a connection string, wfs_srs or wms_srs metadata), the
    CRS it returns is the text EPSG: followed by a non-empty run of decimal
    digits, as long as a srid of the block stays below 2^53, where
    JavaScript numbers are exact. *)
Theorem extractCrsFromBlock_epsg (lines : list str) (start end_ : nat) (crs : str) :
  (forall d, search_srid false (slice_join lines start end_) = Some d ->
             (number_of_digits d < 2 ^ 53)%N) ->
  extractCrsFromBlock lines start end_ = Some crs ->
  exists code, crs = L "EPSG:" ++ code /\ code <> [] /\ forallb is_digit code = true.
Proof.
  intros _. unfold extractCrsFromBlock.
  destruct (extractEpsgFromProjection lines start end_) as [proj|] eqn:P.
  - intros H. injection H as <-. unfold extractEpsgFromProjection in P.
    destruct (find _ _) as [[ps pl]|]; [|discriminate].
    destruct (search re_epsg _) as [d|] eqn:S1.
    + injection P as <-. apply search_some in S1 as [t S1]. exists d.
      split; [reflexivity | eapply re_epsg_some; eassumption].
    + destruct (search re_init_epsg _) as [d|] eqn:S2; [|discriminate].
      injection P as <-. apply search_some in S2 as [t S2]. exists d.
      split; [reflexivity | eapply re_init_epsg_some; eassumption].
  - assert (M : forall key m, extractEpsgFromMetadata lines start end_ key = Some m ->
                exists code, m = L "EPSG:" ++ code /\ code <> []
                             /\ forallb is_digit code = true).
    { intros key m. unfold extractEpsgFromMetadata.
      destruct (search (re_meta key) _); [|discriminate].
      destruct (search re_epsg _) as [d|] eqn:S1; [|discriminate].
      intros H. injection H as <-. apply search_some in S1 as [t S1]. exists d.
      split; [reflexivity | eapply re_epsg_some; eassumption]. }
    assert (M2 : match extractEpsgFromMetadata lines start end_ "wfs_srs" with
                 | Some m => Some m
                 | None => extractEpsgFromMetadata lines start end_ "wms_srs"
                 end = Some crs ->
                 exists code, crs = L "EPSG:" ++ code /\ code <> []
                              /\ forallb is_digit code = true).
    { destruct (extractEpsgFromMetadata lines start end_ "wfs_srs") eqn:E1.
      - intros H. injection H as <-. eapply M; eassumption.
      - apply M. }
    destruct (extractSrid lines start end_) as [[|n]|]; try exact M2.
    intros H. injection H as <-. exists (decimal (Z.pos n)).
    split; [reflexivity|]. split; [apply decimal_nonempty | apply decimal_digits].
Qed.

Lemma extractCrsFromBlock_epsg_witness :
  exists code,
    L "EPSG:2100" = L "EPSG:" ++ code /\ code <> [] /\ forallb is_digit code = true.
Proof.
  apply (extractCrsFromBlock_epsg
           [L "LAYER"; L "  DATA 'geom from roads using srid=2100'"; L "END"] 0 2).
  - intros d H. vm_compute in H. injection H as <-. reflexivity.
  - reflexivity.
Defined.

End CrsFacts.

Section NumberTexts.
Import Num Viewport Projection ExtentSync BlockSpans.

Lemma number_of_digits_fold d : number_of_digits d = fold_left digit_step d 0%N.
Proof. reflexivity. Qed.

Lemma of_uint_acc_fold u : forall acc,
  fold_left digit_step (L (NilEmpty.string_of_uint u)) (N.pos acc)
  = N.pos (Pos.of_uint_acc u acc).
Proof.
  induction u; intros acc; cbn [NilEmpty.string_of_uint L list_ascii_of_string fold_left Pos.of_uint_acc];
    try reflexivity;
    match goal with
    | |- fold_left _ _ ?a = N.pos (Pos.of_uint_acc _ ?b) =>
        replace a with (N.pos b) by (unfold digit_step; simpl (N.of_nat _); lia)
    end; apply IHu.
Qed.

Lemma of_uint_fold u :
  fold_left digit_step (L (NilEmpty.string_of_uint u)) 0%N = N.of_uint u.
Proof.
  unfold N.of_uint.
  induction u; cbn [NilEmpty.string_of_uint L list_ascii_of_string fold_left Pos.of_uint];
    try reflexivity;
    try (match goal with
         | |- fold_left _ _ ?a = N.pos (Pos.of_uint_acc _ ?b) =>
             replace a with (N.pos b) by (unfold digit_step; simpl (N.of_nat _); lia)
         end; apply of_uint_acc_fold).
  replace (digit_step 0 "0") with 0%N by reflexivity. exact IHu.
Qed.

(** Reading the decimal text of a number gives the number back. *)
Lemma nilzero_fold u :
  fold_left digit_step (L (NilZero.string_of_uint u)) 0%N = N.of_uint u.
Proof. destruct u; try reflexivity; apply of_uint_fold. Qed.

Lemma number_of_decimal n : (0 <= n)%Z -> Z.of_N (number_of_digits (decimal n)) = n.
Proof.
  intro H. rewrite number_of_digits_fold. unfold decimal.
  rewrite nilzero_fold, DecimalN.Unsigned.of_to. lia.
Qed.

Lemma number_of_zeros k : forall d acc,
  fold_left digit_step (repeat "0"%char k ++ d) acc
  = fold_left digit_step d (acc * 10 ^ N.of_nat k)%N.
Proof.
  induction k as [|k IH]; intros d acc.
  - cbn [repeat app]. f_equal. change (N.of_nat 0) with 0%N.
    rewrite N.pow_0_r. lia.
  - cbn [repeat app fold_left]. rewrite IH. f_equal. unfold digit_step.
    replace (N.of_nat (S k)) with (N.succ (N.of_nat k)) by lia.
    rewrite N.pow_succ_r'. change (N.of_nat (nat_of_ascii "0" - 48)) with 0%N. lia.
Qed.

Lemma number_of_padded k d : number_of_digits (repeat "0"%char k ++ d) = number_of_digits d.
Proof. rewrite !number_of_digits_fold, number_of_zeros. reflexivity. Qed.

Lemma formatNum_digits_cases crs : formatNum_digits crs = 6 \/ formatNum_digits crs = 3.
Proof. unfold formatNum_digits. destruct (_ || _); auto. Qed.

Lemma half_unit (x : Q) :
  (Qabs (inject_Z (Qfloor (x + (1 # 2))) - x) <= 1 # 2)%Q.
Proof.
  pose proof (Qfloor_le (x + (1 # 2))) as H1.
  pose proof (Qlt_floor (x + (1 # 2))) as H2.
  rewrite inject_Z_plus in H2. change (inject_Z 1) with 1%Q in H2.
  apply Qabs_Qle_condition. split; lra.
Qed.

(** X10.  For a finite number below 10^21 in size, [formatNum] writes a
    minus sign if the number is negative, at least one digit, a point and
    exactly 6 (degrees) or 3 decimals; read as a number, the digits are
    within half a unit of the last decimal of the size of the number. *)
Theorem formatNum_rounds (q : Q) (crs : str) :
  (Qabs q < inject_Z (10 ^ 21))%Q ->
  exists int frac,
    formatNum (Fin q) crs
    = (if is_neg q then ["-"%char] else []) ++ int ++ ["."%char] ++ frac /\
    int <> [] /\ forallb is_digit int = true /\ forallb is_digit frac = true /\
    length frac = formatNum_digits crs /\
    (Qabs (inject_Z (Z.of_N (number_of_digits (int ++ frac)))
           - Qabs q * inject_Z (10 ^ Z.of_nat (formatNum_digits crs))) <= 1 # 2)%Q.
Proof.
  intros _. cbn [formatNum]. unfold toFixed.
  set (d := formatNum_digits crs).
  assert (Hd : 1 <= d) by (destruct (formatNum_digits_cases crs); subst d; lia).
  replace (d =? 0) with false by (symmetry; apply Nat.eqb_neq; lia).
  set (m := decimal (fixed_digits q d)).
  set (m' := repeat "0"%char (d + 1 - length m) ++ m).
  assert (Hlen : d + 1 <= length m').
  { subst m'. rewrite length_app, repeat_length. lia. }
  assert (Hdig : forall x, In x m' -> is_digit x = true).
  { subst m'. intros x Hx. apply in_app_or in Hx as [Hx|Hx].
    - apply repeat_spec in Hx. now subst.
    - revert x Hx. apply forallb_forall. subst m. 
      unfold decimal, NilZero.string_of_uint.
      assert (forall u, forallb is_digit (L (NilEmpty.string_of_uint u)) = true) as D
        by (induction u; cbn; auto).
      destruct (N.to_uint _); try apply D. reflexivity. }
  exists (firstn (length m' - d) m'), (skipn (length m' - d) m').
  split; [reflexivity|]. split.
  { intro H. apply (f_equal (@length ascii)) in H. rewrite length_firstn in H.
    cbn [length] in H. lia. }
  split. { apply forallb_forall. intros x Hx. apply Hdig. eapply In_firstn; eassumption. }
  split. { apply forallb_forall. intros x Hx. apply Hdig. eapply In_skipn; eassumption. }
  split. { rewrite length_skipn. lia. }
  rewrite firstn_skipn. subst m'. rewrite number_of_padded. subst m.
  rewrite number_of_decimal by apply fixed_digits_nonneg.
  unfold fixed_digits. apply half_unit.
Qed.

Lemma formatNum_rounds_witness :
  exists int frac,
    formatNum (Fin (-(5 # 4))) (L "EPSG:2100")
    = (if is_neg (-(5 # 4)) then ["-"%char] else []) ++ int ++ ["."%char] ++ frac /\
    int <> [] /\ forallb is_digit int = true /\ forallb is_digit frac = true /\
    length frac = formatNum_digits (L "EPSG:2100") /\
    (Qabs (inject_Z (Z.of_N (number_of_digits (int ++ frac)))
           - Qabs (-(5 # 4)) * inject_Z (10 ^ Z.of_nat (formatNum_digits (L "EPSG:2100"))))
     <= 1 # 2)%Q.
Proof.
  apply (formatNum_rounds (-(5 # 4)) (L "EPSG:2100")). reflexivity.
Defined.

End NumberTexts.

Section ProjectionFacts.
Import Num Viewport Projection ExtentSync.

Lemma finite_not_nan v : isFinite v = true -> is_nan v = false.
Proof. destruct v; try discriminate; reflexivity. Qed.

Lemma upper_idem c : upper (upper c) = upper c.
Proof. destruct c as [[] [] [] [] [] [] [] []]; reflexivity. Qed.

Lemma toUpperCase_idem s : toUpperCase (toUpperCase s) = toUpperCase s.
Proof. unfold toUpperCase. rewrite map_map. apply map_ext, upper_idem. Qed.

Lemma projectPoint_upper imported s from to xy :
  projectPoint imported s (toUpperCase from) (toUpperCase to) xy
  = projectPoint imported s from to xy.
Proof. unfold projectPoint. now rewrite !toUpperCase_idem. Qed.

Lemma awaiting_import_settled s : settled s = true -> awaiting_import s = s.
Proof.
  unfold settled, awaiting_import. destruct s as [[p|] t]; cbn; [reflexivity|].
  now intros ->.
Qed.

Lemma projectPoint_settled imported s from to xy :
  settled s = true -> snd (projectPoint imported s from to xy) = s.
Proof.
  unfold projectPoint, ensureProj4, settled.
  destruct (_ || _); [reflexivity|].
  destruct s as [[p|] t]; cbn; [reflexivity|]. now intros ->.
Qed.

(** X11.  On a projection service that has been through
    [ensureProj4] before (the library is loaded, or could not be), when
    source and target CRS differ and the result is finite, the extent
    returned by [projectExtent] encloses the image of each of the four
    corners of the input extent under [projectPoint], and the service is
    left as it was. *)
Theorem projectExtent_encloses (imported : option proj4) (s : service) (e : Extent)
        (fromCrs toCrs : str) (cx cy : num) :
  settled s = true ->
  (is_empty (toUpperCase fromCrs) || is_empty (toUpperCase toCrs)
   || str_eqb (toUpperCase fromCrs) (toUpperCase toCrs)) = false ->
  finite_extent (fst (projectExtent imported s e fromCrs toCrs)) = true ->
  In cx [ex0 e; ex2 e] -> In cy [ex1 e; ex3 e] ->
  let out := fst (projectExtent imported s e fromCrs toCrs) in
  let pt := fst (projectPoint imported s fromCrs toCrs (cx, cy)) in
  leb (ex0 out) (fst pt) = true /\ leb (fst pt) (ex2 out) = true /\
  leb (ex1 out) (snd pt) = true /\ leb (snd pt) (ex3 out) = true /\
  snd (projectExtent imported s e fromCrs toCrs) = s.
Proof.
  intros Hs Hg Hf Hx Hy out pt. subst out. unfold projectExtent in *. rewrite Hg in *.
  cbv zeta in *. rewrite (awaiting_import_settled s Hs) in *.
  cbn [fst snd map] in *.
  set (pp := fun c => fst (projectPoint imported s (toUpperCase fromCrs)
                                        (toUpperCase toCrs) c)) in *.
  set (pts := [pp (ex0 e, ex1 e); pp (ex0 e, ex3 e); pp (ex2 e, ex1 e); pp (ex2 e, ex3 e)]).
  assert (Hin : In pt pts).
  { subst pt pts pp. cbv beta. rewrite !projectPoint_upper.
    destruct Hx as [<-|[<-|[]]], Hy as [<-|[<-|[]]]; simpl; auto. }
  unfold finite_extent, ex0, ex1, ex2, ex3 in Hf. cbn [fst snd] in Hf.
  rewrite !andb_true_iff in Hf. destruct Hf as [[[F0 F1] F2] F3].
  apply finite_not_nan in F0, F1, F2, F3.
  unfold ex0, ex1, ex2, ex3. cbn [fst snd].
  change (Math_min (fst (pp (fst (fst (fst e)), snd (fst (fst e)))) :: _))
    with (Math_min (map fst pts)) in *.
  unfold Math_min, Math_max in *.
  destruct (fold_min2_spec (map fst pts) _ F0) as [_ M0].
  destruct (fold_min2_spec (map snd pts) _ F1) as [_ M1].
  destruct (fold_max2_spec (map fst pts) _ F2) as [_ M2].
  destruct (fold_max2_spec (map snd pts) _ F3) as [_ M3].
  split; [apply M0; now apply in_map|].
  split; [apply M2; now apply in_map|].
  split; [apply M1; now apply in_map|].
  split; [apply M3; now apply in_map|].
  now apply projectPoint_settled.
Qed.

Lemma projectExtent_encloses_witness :
  let box : proj4 := fun _ _ xy => Some (snd xy, fst xy) in
  let s := mkService (Some box) true in
  let e : Extent := (Fin 3, Fin 1, Fin 2, Fin 5) in
  let out := fst (projectExtent None s e (L "CRS:84") (L "EPSG:2100")) in
  let pt := fst (projectPoint None s (L "CRS:84") (L "EPSG:2100") (Fin 3, Fin 5)) in
  leb (ex0 out) (fst pt) = true /\ leb (fst pt) (ex2 out) = true /\
  leb (ex1 out) (snd pt) = true /\ leb (snd pt) (ex3 out) = true /\
  snd (projectExtent None s e (L "CRS:84") (L "EPSG:2100")) = s.
Proof.
  cbv zeta.
  apply (projectExtent_encloses None
           (mkService (Some (fun _ _ xy => Some (snd xy, fst xy))) true)
           (Fin 3, Fin 1, Fin 2, Fin 5) (L "CRS:84") (L "EPSG:2100") (Fin 3) (Fin 5));
    [reflexivity | reflexivity | reflexivity | now left | right; now left].
Defined.

(** The first call on a new service: only the first corner goes through
    proj4, the three other calls return their corners as they are, and the
    extent does not enclose the image of the corner [(3, 5)]. *)
Lemma projectExtent_first_call :
  let box : proj4 := fun _ _ xy => Some (snd xy, fst xy) in
  let e : Extent := (Fin 3, Fin 1, Fin 2, Fin 5) in
  projectExtent (Some box) new_service e (L "CRS:84") (L "EPSG:2100")
  = ((Fin 1, Fin 1, Fin 3, Fin 5), mkService (Some box) true) /\
  fst (projectPoint (Some box) new_service (L "CRS:84") (L "EPSG:2100") (Fin 3, Fin 5))
  = (Fin 5, Fin 3).
Proof. split; reflexivity. Qed.

End ProjectionFacts.

(* ================================================================== *)
(** ** Extent synchroniser: the lines written from the viewport        *)
(* ================================================================== *)

Section WrittenFacts.
Import Num Viewport Projection ExtentSync BlockSpans Written.

Lemma formatExtentValue_join ext crs :
  formatExtentValue ext crs = join (L " ") (number_texts ext crs).
Proof. reflexivity. Qed.













(* ------------------------------------------------------------------ *)
(** *** The CRS of a block                                              *)





(* ------------------------------------------------------------------ *)
(** *** Where the lines of the result come from                         *)









End WrittenFacts.

(* ================================================================== *)
(** ** Tokens and the positions the balance detector reports           *)
(* ================================================================== *)

Section TokenFacts.
Import Lexer Tokens.

Lemma after_comment_end_suffix s : forall r,
  after_comment_end s = Some r -> exists mid, s = mid ++ r /\ 2 <= length mid.
Proof.
  induction s as [|c1 s IH]; intros r H; [discriminate|].
  cbn [after_comment_end] in H. destruct s as [|c2 r2]; [discriminate|].
  destruct (Ascii.eqb c1 "*" && Ascii.eqb c2 "/").
  - injection H as <-. exists [c1; c2]. split; [reflexivity | simpl; lia].
  - destruct (IH _ H) as [mid [E L]]. exists (c1 :: mid). rewrite E.
    split; [reflexivity | simpl; lia].
Qed.

Lemma after_carried_quote_suffix q s : forall e r,
  after_carried_quote q s e = Some r -> exists mid, s = mid ++ r /\ 1 <= length mid.
Proof.
  induction s as [|c s IH]; intros e r H; [discriminate|].
  cbn [after_carried_quote] in H.
  assert (K : forall e', after_carried_quote q s e' = Some r ->
                         exists mid, c :: s = mid ++ r /\ 1 <= length mid).
  { intros e' H'. destruct (IH _ _ H') as [mid [E L]]. exists (c :: mid).
    rewrite E. split; [reflexivity | simpl; lia]. }
  destruct e; [now apply (K false)|].
  destruct (Ascii.eqb c BSL); [now apply (K true)|].
  destruct (match q with Some q0 => Ascii.eqb c q0 | None => false end);
    [|now apply (K false)].
  injection H as <-. exists [c]. split; [reflexivity | simpl; lia].
Qed.

Lemma read_quoted_suffix q s : forall v e v' cl r,
  read_quoted q s v e = (v', cl, r) -> exists mid, s = mid ++ r.
Proof.
  induction s as [|c s IH]; intros v e v' cl r H.
  - cbn in H. injection H as _ _ <-. now exists [].
  - cbn [read_quoted] in H.
    assert (K : forall v0 e0, read_quoted q s v0 e0 = (v', cl, r) ->
                              exists mid, c :: s = mid ++ r).
    { intros v0 e0 H'. destruct (IH _ _ _ _ _ H') as [mid E]. exists (c :: mid).
      now rewrite E. }
    destruct e; [now apply (K (v ++ [c]) false)|].
    destruct (Ascii.eqb c BSL); [now apply (K v true)|].
    destruct (Ascii.eqb c q); [|now apply (K (v ++ [c]) false)].
    injection H as _ _ <-. now exists [c].
Qed.

Lemma token_at_col line t : token_at line t -> 1 <= tok_col t.
Proof. destruct t; cbn; tauto. Qed.

(** The tokens read from [rest], the part of the line after [pre]. *)
Lemma scan_tokens m fuel : forall rest i st pre,
  i = length pre ->
  Forall (fun t => i < tok_col t /\ token_at (pre ++ rest) t)
         (tokens (scan fuel m rest i st)) /\
  by_column (tokens (scan fuel m rest i st)).
Proof.
  induction fuel as [|fuel IH]; intros rest i st pre Hi;
    [split; constructor|].
  cbn [scan]. destruct rest as [|ch tail]; [split; constructor|].
  (* moving on to a later part of the line *)
  assert (Next : forall mid rest' i' st',
             ch :: tail = mid ++ rest' -> i' = i + length mid -> 
             Forall (fun t => i < tok_col t /\ token_at (pre ++ ch :: tail) t)
                    (tokens (scan fuel m rest' i' st')) /\
             by_column (tokens (scan fuel m rest' i' st')) /\
             Forall (fun t => i + length mid < tok_col t)
                    (tokens (scan fuel m rest' i' st'))).
  { intros mid rest' i' st' E Ei.
    destruct (IH rest' i' st' (pre ++ mid)) as [F S].
    { rewrite length_app. lia. }
    rewrite <- app_assoc, <- E in F. split; [|split; [exact S|]].
    - eapply Forall_impl; [|exact F]. cbv beta. intros t [H1 H2]. split; [lia | exact H2].
    - eapply Forall_impl; [|exact F]. cbv beta. intros t [H1 _]. lia. }
  destruct (inBlockComment st).
  { destruct (after_comment_end (ch :: tail)) as [rest'|] eqn:E; [|split; constructor].
    destruct (after_comment_end_suffix _ _ E) as [mid [Em Lm]].
    destruct (Next mid rest' (i + (length (ch :: tail) - length rest'))
                   (mkState false (inQuote st) (quoteChar st)) Em) as [F [S _]].
    { rewrite Em, length_app. lia. }
    split; [exact F | exact S]. }
  destruct (inQuote st).
  { destruct (after_carried_quote (quoteChar st) (ch :: tail) false) as [rest'|] eqn:E;
      [|split; constructor].
    destruct (after_carried_quote_suffix _ _ _ _ E) as [mid [Em Lm]].
    destruct (Next mid rest' (i + (length (ch :: tail) - length rest'))
                   (mkState false false None) Em) as [F [S _]].
    { rewrite Em, length_app. lia. }
    split; [exact F | exact S]. }
  destruct (Ascii.eqb ch HASH); [split; constructor|].
  destruct (Ascii.eqb ch "/" && next_is "/" tail); [split; constructor|].
  destruct (Ascii.eqb ch "/" && next_is "*" tail) eqn:Ec.
  { apply andb_true_iff in Ec as [_ Ec]. destruct tail as [|c2 t2]; [discriminate|].
    destruct (Next [ch; c2] t2 (i + 2) (mkState true false (quoteChar st)) eq_refl) as [F [S _]].
    { simpl. lia. }
    split; [exact F | exact S]. }
  destruct (is_space ch).
  { destruct (Next [ch] tail (i + 1) st eq_refl) as [F [S _]]; [simpl; lia|].
    split; [exact F | exact S]. }
  destruct (Ascii.eqb ch DQ || Ascii.eqb ch SQ) eqn:Eq.
  { cbv zeta.
    destruct (read_quoted ch tail [] false) as [[val closed] rest'] eqn:R.
    cbn [fst snd].
    destruct (read_quoted_suffix _ _ _ _ _ _ _ R) as [mid Em].
    assert (Tok : i < i + 1 /\ token_at (pre ++ ch :: tail) (TString val (i + 1) ch closed)).
    { split; [lia|]. cbn [token_at]. split; [lia|]. split.
      - replace (i + 1 - 1) with (length pre + 0) by lia.
        now rewrite nth_error_app2, Nat.add_comm, Nat.add_sub by lia.
      - apply orb_true_iff in Eq as [Eq|Eq]; apply Ascii.eqb_eq in Eq; auto. }
    destruct closed.
    - destruct (Next (ch :: mid) rest' (i + (length (ch :: tail) - length rest')) st)
        as [F [S G]].
      { now rewrite Em. }
      { rewrite Em. cbn [length]. rewrite length_app. lia. }
      cbn [push_token tokens]. split.
      + constructor; [exact Tok | exact F].
      + constructor; [exact S|].
        eapply Forall_impl; [|exact G]. cbv beta. intros t Ht.
        cbn [tok_col length] in *. lia.
    - destruct m; cbn [push_token push_unclosed done tokens]; split;
        solve [constructor; [exact Tok | constructor] | constructor; constructor]. }
  destruct (is_word_start ch) eqn:Ew.
  { cbv zeta. pose proof (span_eq is_word_char tail) as Es.
    destruct (span is_word_char tail) as [w rest'] eqn:Sp. cbn [fst snd] in *.
    destruct (Next (ch :: w) rest' (i + 1 + length w) st) as [F [S G]].
    { now rewrite Es. }
    { simpl. lia. }
    cbn [push_token tokens]. split.
    - constructor; [|exact F]. split; [cbn; lia|]. cbn [token_at].
      split; [lia|]. split.
      { replace (i + 1 - 1) with (length pre) by lia.
        rewrite skipn_app_exact, Es.
        change (ch :: w ++ rest') with ((ch :: w) ++ rest').
        apply firstn_app_exact. }
      split; [exact Ew|]. split.
      { cbn [forallb]. destruct (word_start_facts ch Ew) as [-> _]. cbn [andb].
        pose proof (span_forall is_word_char tail) as Fw. now rewrite Sp in Fw. }
      replace (i + 1 - 1 + length (ch :: w)) with (length (pre ++ ch :: w))
        by (rewrite length_app; simpl; lia).
      rewrite Es. change (pre ++ ch :: w ++ rest') with (pre ++ (ch :: w) ++ rest').
      rewrite app_assoc, skipn_app_exact.
      unfold at_word_boundary. destruct rest' as [|c r]; [reflexivity|].
      pose proof (span_rest is_word_char tail c r) as Hr. rewrite Sp in Hr.
      now rewrite (Hr eq_refl).
    - constructor; [exact S|].
      eapply Forall_impl; [|exact G]. cbv beta. intros t Ht.
      cbn [tok_col length] in *. lia. }
  destruct (Next [ch] tail (i + 1) st eq_refl) as [F [S _]]; [simpl; lia|].
  split; [exact F | exact S].
Qed.

Lemma tokenize_token_at line st m :
  Forall (token_at line) (tokens (tokenizeLine line st m)).
Proof.
  unfold tokenizeLine.
  destruct (scan_tokens m (length line) line 0 st [] eq_refl) as [F _].
  eapply Forall_impl; [|exact F]. cbv beta. now intros t [_ H].
Qed.

(** X12.  Every token of [tokenizeLine] sits on the line at its
    1-based column: a word token is the maximal run of word characters
    found there, starting with a letter or underscore; a string token
    starts there with its quote; and the tokens come in the order of their
    columns. *)
Theorem tokenizeLine_columns (line : str) (st : LexerState) (m : bool) :
  let r := tokenizeLine line st m in
  Forall (token_at line) (tokens r) /\ by_column (tokens r).
Proof.
  intro r. subst r. unfold tokenizeLine.
  destruct (scan_tokens m (length line) line 0 st [] eq_refl) as [F S].
  split; [|exact S]. eapply Forall_impl; [|exact F]. cbv beta. now intros t [_ H].
Qed.

Lemma scan_unclosed m fuel : forall rest i st,
  let r := scan fuel m rest i st in
  (closed_strings (tokens r) /\ unclosedQuotes r = [] /\
   (inQuote st = false -> inQuote (state r) = false)) \/
  (exists pre v c q,
      tokens r = pre ++ [TString v c q false] /\ closed_strings pre /\
      unclosedQuotes r = [(c, q)] /\ inQuote (state r) = m).
Proof.
  induction fuel as [|fuel IH]; intros rest i st; cbn [scan].
  { left. repeat split; auto. constructor. }
  destruct rest as [|ch tail]; [left; repeat split; auto; constructor|].
  assert (Done : forall s, (inQuote st = false -> inQuote s = false) ->
     (closed_strings (tokens (done s)) /\ unclosedQuotes (done s) = [] /\
      (inQuote st = false -> inQuote (state (done s)) = false)) \/
     (exists pre v c q,
        tokens (done s) = pre ++ [TString v c q false] /\ closed_strings pre /\
        unclosedQuotes (done s) = [(c, q)] /\ inQuote (state (done s)) = m)).
  { intros s Hs. left. repeat split; auto. constructor. }
  assert (Next : forall rest' i' st', (inQuote st = false -> inQuote st' = false) ->
     (closed_strings (tokens (scan fuel m rest' i' st')) /\
      unclosedQuotes (scan fuel m rest' i' st') = [] /\
      (inQuote st = false -> inQuote (state (scan fuel m rest' i' st')) = false)) \/
     (exists pre v c q,
        tokens (scan fuel m rest' i' st') = pre ++ [TString v c q false] /\
        closed_strings pre /\
        unclosedQuotes (scan fuel m rest' i' st') = [(c, q)] /\
        inQuote (state (scan fuel m rest' i' st')) = m)).
  { intros rest' i' st' Hs. destruct (IH rest' i' st') as [(H1 & H2 & H3)|H].
    - left. repeat split; auto.
    - now right. }
  assert (Push : forall t rest' i' st',
     match t with TString _ _ _ cl => cl = true | TWord _ _ => True end ->
     (inQuote st = false -> inQuote st' = false) ->
     (closed_strings (tokens (push_token t (scan fuel m rest' i' st'))) /\
      unclosedQuotes (push_token t (scan fuel m rest' i' st')) = [] /\
      (inQuote st = false ->
       inQuote (state (push_token t (scan fuel m rest' i' st'))) = false)) \/
     (exists pre v c q,
        tokens (push_token t (scan fuel m rest' i' st')) = pre ++ [TString v c q false] /\
        closed_strings pre /\
        unclosedQuotes (push_token t (scan fuel m rest' i' st')) = [(c, q)] /\
        inQuote (state (push_token t (scan fuel m rest' i' st'))) = m)).
  { intros t rest' i' st' Ht Hs. cbn [push_token tokens unclosedQuotes state].
    destruct (Next rest' i' st' Hs) as [(H1 & H2 & H3)|(pre & v & c & q & H1 & H2 & H3 & H4)].
    - left. repeat split; auto. constructor; assumption.
    - right. exists (t :: pre), v, c, q. rewrite H1. repeat split; auto.
      constructor; assumption. }
  destruct (inBlockComment st) eqn:Eb.
  { destruct (after_comment_end (ch :: tail)); [|now apply Done].
    apply Next. auto. }
  destruct (inQuote st) eqn:Eq.
  { destruct (after_carried_quote (quoteChar st) (ch :: tail) false);
      [|apply Done; discriminate].
    apply Next. auto. }
  destruct (Ascii.eqb ch HASH); [apply Done; now rewrite Eq|].
  destruct (Ascii.eqb ch "/" && next_is "/" tail); [apply Done; now rewrite Eq|].
  destruct (Ascii.eqb ch "/" && next_is "*" tail); [apply Next; auto|].
  destruct (is_space ch); [apply Next; now rewrite Eq|].
  destruct (Ascii.eqb ch DQ || Ascii.eqb ch SQ).
  { cbv zeta. destruct (read_quoted ch tail [] false) as [[val closed] rest'].
    cbn [fst snd]. destruct closed.
    - apply Push; [reflexivity | now rewrite Eq].
    - right. exists [], val, (i + 1), ch.
      destruct m; cbn; repeat split; auto; try constructor. }
  destruct (is_word_start ch).
  { cbv zeta. apply Push; [exact I | now rewrite Eq]. }
  apply Next. now rewrite Eq.
Qed.

(** X13.  Either every string token of the line is closed and no
    unclosed quote is reported, the line then leaving the lexer outside a
    string if it found it so; or the last token of the line, and only that
    one, is an unclosed string, it is the one reported in [unclosedQuotes],
    and the lexer stays inside the string exactly when
    [allowMultilineQuotes] is set. *)
Theorem unclosed_quote_ends_line (line : str) (st : LexerState) (m : bool) :
  let r := tokenizeLine line st m in
  (closed_strings (tokens r) /\ unclosedQuotes r = [] /\
   (inQuote st = false -> inQuote (state r) = false)) \/
  (exists pre v c q,
      tokens r = pre ++ [TString v c q false] /\ closed_strings pre /\
      unclosedQuotes r = [(c, q)] /\ inQuote (state r) = m).
Proof. apply scan_unclosed. Qed.

End TokenFacts.

Section ReportedFacts.
Import Lexer Tokens EndDetector Reported.

Lemma handle_ends_extras o opened n ln (Q : extraEnd -> Prop) :
  forall toks,
  (forall tok, In tok toks -> toUpperCase (word_text tok) = L "END" ->
               Q (mkExtra n (tok_col tok) (firstn 200 (trim ln)))) ->
  forall tIdx stk ex, Forall Q ex ->
  Forall Q (snd (handle_ends o opened n ln tIdx toks stk ex)).
Proof.
  induction toks as [|tok toks IH]; intros Htok tIdx stk ex Hex; [exact Hex|].
  cbn [handle_ends].
  assert (IH' : forall tIdx stk ex, Forall Q ex ->
                Forall Q (snd (handle_ends o opened n ln tIdx toks stk ex))).
  { apply IH. intros t Ht. apply Htok. now right. }
  destruct (str_eqb (toUpperCase (word_text tok)) (L "END")) eqn:E; cbn [negb];
    [|now apply IH'].
  destruct (negb _); [now apply IH'|].
  destruct stk as [|f stk]; [|now apply IH'].
  apply IH'. apply Forall_app. split; [assumption|]. constructor; [|constructor].
  apply Htok; [now left|]. now apply str_eqb_eq.
Qed.

Lemma filter_word_at ln toks t :
  Forall (token_at ln) toks -> In t (filter is_word toks) ->
  exists w, t = TWord w (tok_col t) /\ token_at ln (TWord w (tok_col t)).
Proof.
  intros F H. apply filter_In in H as [H1 H2].
  rewrite Forall_forall in F. specialize (F t H1).
  destruct t as [|w c]; [discriminate|]. exists w. now split.
Qed.

Lemma line_step_reported o lines n ln s :
  nth_error lines (n - 1) = Some ln -> 1 <= n ->
  Forall (frame_at lines) (stack s) -> Forall (extra_at lines) (extras s) ->
  Forall (frame_at lines) (stack (line_step o n ln s)) /\
  Forall (extra_at lines) (extras (line_step o n ln s)).
Proof.
  intros Hln Hn Hs He. unfold line_step.
  pose proof (tokenize_token_at ln (lex s) (allowMultilineQuotes o)) as Ft.
  set (out := tokenizeLine ln (lex s) (allowMultilineQuotes o)) in *.
  assert (Hnth : nth (n - 1) lines [] = ln) by now apply nth_error_nth.
  assert (Hlen : n <= length lines).
  { assert (n - 1 < length lines) by (apply nth_error_Some; congruence). lia. }
  destruct (filter is_word (tokens out)) as [|w0 ws] eqn:Ew; [split; assumption|].
  cbn [stack extras]. split.
  - apply (handle_ends_inv o _ n ln (Forall (frame_at lines))
             (Forall_removelast (frame_at lines))).
    match goal with |- context [if ?b then _ else _] => destruct b end; [|exact Hs].
    apply Forall_app. split; [exact Hs|]. constructor; [|constructor].
    destruct (filter_word_at ln (tokens out) w0 Ft) as [w [E W]].
    { rewrite Ew. now left. }
    split; [cbn; lia|]. cbn [line col type]. rewrite Hnth. exists w.
    split; [exact W|]. rewrite E. reflexivity.
  - apply handle_ends_extras; [|exact He].
    intros tok Hin Hend.
    destruct (filter_word_at ln (tokens out) tok Ft) as [w [E W]].
    { now rewrite Ew. }
    split; [cbn; lia|]. cbn [e_line e_col excerpt]. rewrite Hnth.
    split; [|reflexivity]. exists w. split; [exact W|]. rewrite E in Hend. exact Hend.
Qed.

Lemma scan_lines_reported o lines rest : forall n s,
  1 <= n -> skipn (n - 1) lines = rest ->
  Forall (frame_at lines) (stack s) -> Forall (extra_at lines) (extras s) ->
  Forall (frame_at lines) (stack (scan_lines o n rest s)) /\
  Forall (extra_at lines) (extras (scan_lines o n rest s)).
Proof.
  induction rest as [|ln rest IH]; intros n s Hn Hsk Hs He; [now split|].
  cbn [scan_lines].
  assert (Hln : nth_error lines (n - 1) = Some ln).
  { rewrite <- (Nat.add_0_r (n - 1)), <- nth_error_skipn, Hsk. reflexivity. }
  destruct (line_step_reported o lines n ln s Hln Hn Hs He) as [Hs' He'].
  apply IH; try assumption; try lia.
  replace (S n - 1) with (S (n - 1)) by lia.
  rewrite <- (Nat.add_1_l (n - 1)), <- skipn_skipn, Hsk. reflexivity.
Qed.

(** X14.  Every frame of [missingEnds] and every entry of [extraEnds]
    names a line of the (newline-normalised) text and the column of a word
    on it: the word is, in upper case, the type of the frame, respectively
    END, and the excerpt of an extra END is the start of that line,
    trimmed. *)
Theorem analyze_reports_positions (text : str) (o : options) :
  let lines := split_nl (normalize_newlines text) in
  let r := analyze text o in
  Forall (frame_at lines) (missingEnds r) /\
  Forall (extra_at lines) (extraEnds r).
Proof.
  intros lines r. subst r. unfold analyze. cbn [missingEnds extraEnds]. fold lines.
  apply scan_lines_reported; constructor.
Qed.

End ReportedFacts.

(* ================================================================== *)
(** ** Syntax checker: the end of the text and the report *)
(* ================================================================== *)

From Stdlib Require Import Permutation.

Section ReportFacts.
Import Lexer SyntaxDetector ReportSpec.

Lemma addIssue_forall (P : Issue -> Prop) w x k :
  P x -> Forall P (issues k) -> Forall P (issues (addIssue w x k)).
Proof.
  intros Hx Hk. unfold addIssue.
  destruct (is_soft (severity x) && _); cbn [issues]; [assumption|].
  apply Forall_app. split; [assumption | now constructor].
Qed.

Lemma add_all_forall (P : Issue -> Prop) w calls : forall k,
  Forall P calls -> Forall P (issues k) -> Forall P (issues (add_all w calls k)).
Proof.
  induction calls as [|x calls IH]; intros k Hc Hk; [exact Hk|].
  inversion Hc; subst. unfold add_all in *. cbn [fold_left].
  apply IH; [assumption|]. now apply addIssue_forall.
Qed.

Lemma word_line_kinds n raw toks t stk :
  Forall (fun i => is_missing_end i = false) (snd (word_line n raw toks t stk)).
Proof.
  unfold word_line.
  destruct (str_eqb _ (L "END")).
  { destruct (length stk <=? 1); cbn [snd]; repeat constructor. }
  destruct (has BLOCKS _).
  { cbn [snd]. apply Forall_app. split.
    - destruct (negb _); repeat constructor.
    - destruct (first_tokens _); [destruct (negb _)|]; repeat constructor. }
  destruct (str_eqb _ (L "METADATA")).
  { destruct toks as [|k [|v r]]; cbn [snd]; try constructor.
    destruct (_ || _); cbn [snd]; repeat constructor. }
  destruct (str_eqb _ (L "PROJECTION")); [constructor|].
  cbn [snd]. apply Forall_app. split.
  - destruct (first_tokens _); [destruct (_ && _)|]; repeat constructor.
  - destruct (_ && _); repeat constructor.
Qed.

Lemma line_calls_kinds o n raw stk lx :
  Forall (fun i => is_missing_end i = false) (snd (line_calls o n raw stk lx)).
Proof.
  unfold line_calls. destruct (tokens _) as [|t ts]; [constructor|].
  assert (Q : forall l : list (nat * ascii),
             Forall (fun i => is_missing_end i = false)
               (map (fun uq => mkIssue n (fst uq) MISSING_QUOTE HARD
                                 (MOpenQuote (snd uq)) (trim raw)) l)).
  { induction l; constructor; auto. }
  destruct (is_word t); cbn [snd]; [|apply Q].
  apply Forall_app. split; [apply Q | apply word_line_kinds].
Qed.

Lemma word_line_stack N n raw toks t open :
  1 <= n <= N -> Forall (block_frame N) open ->
  exists open', fst (word_line n raw toks t (ROOT :: open)) = ROOT :: open' /\
                Forall (block_frame N) open'.
Proof.
  intros Hn H. unfold word_line.
  destruct (str_eqb _ (L "END")).
  { destruct (length (ROOT :: open) <=? 1) eqn:E; cbn [fst]; [now exists open|].
    destruct open as [|f open]; [discriminate|].
    exists (removelast (f :: open)). split; [reflexivity|].
    now apply Forall_removelast. }
  destruct (has BLOCKS _) eqn:B.
  { cbn [fst]. eexists. split; [reflexivity|].
    apply Forall_app. split; [assumption|]. constructor; [|constructor].
    split; [exact B | exact Hn]. }
  destruct (str_eqb _ (L "METADATA")).
  { destruct toks as [|k [|v r]]; cbn [fst]; try (now exists open).
    destruct (_ || _); cbn [fst]; now exists open. }
  destruct (str_eqb _ (L "PROJECTION")); cbn [fst]; now exists open.
Qed.

Lemma line_step_stack o N n raw s open :
  1 <= n <= N -> stack s = ROOT :: open -> Forall (block_frame N) open ->
  Forall (fun i => is_missing_end i = false) (issues (out s)) ->
  exists open', stack (line_step o n raw s) = ROOT :: open' /\
                Forall (block_frame N) open' /\
                Forall (fun i => is_missing_end i = false)
                       (issues (out (line_step o n raw s))).
Proof.
  intros Hn Hs Ho Hi. unfold line_step. cbn [stack out].
  assert (K : Forall (fun i => is_missing_end i = false)
                (issues (add_all (suppression_window o)
                           (snd (line_calls o n raw (stack s) (lex s))) (out s)))).
  { apply add_all_forall; [apply line_calls_kinds | exact Hi]. }
  unfold line_calls in *. rewrite Hs in *.
  destruct (tokens _) as [|t ts]; cbn [fst snd] in *; [now exists open|].
  destruct (is_word t); cbn [fst snd] in *; [|now exists open].
  destruct (word_line_stack N n raw (t :: ts) t open Hn Ho) as [open' [E F]].
  exists open'. repeat split; assumption.
Qed.

Lemma scan_lines_stack o N rest : forall n s open,
  1 <= n -> n + length rest <= N + 1 ->
  stack s = ROOT :: open -> Forall (block_frame N) open ->
  Forall (fun i => is_missing_end i = false) (issues (out s)) ->
  exists open', stack (scan_lines o n rest s) = ROOT :: open' /\
                Forall (block_frame N) open' /\
                Forall (fun i => is_missing_end i = false)
                       (issues (out (scan_lines o n rest s))).
Proof.
  induction rest as [|ln rest IH]; intros n s open Hn HN Hs Ho Hi.
  - exists open. repeat split; assumption.
  - cbn [scan_lines]. cbn [length] in HN.
    destruct (line_step_stack o N n ln s open ltac:(lia) Hs Ho Hi) as (open' & E & F & G).
    apply (IH (S n) _ open'); try assumption; lia.
Qed.

Lemma filter_none {A} (f : A -> bool) l :
  Forall (fun x => f x = false) l -> filter f l = [].
Proof.
  induction 1 as [|x l Hx Hl IH]; [reflexivity|]. cbn. now rewrite Hx.
Qed.

(** X15.  When the scan of the syntax checker ends, its stack is the ROOT
    frame below the frames still open, each pushed for a block keyword on
    a line of the text; a MISSING_END issue is recorded exactly when such a
    frame is left, and then only one: HARD, at the last line, column 0,
    naming the open frames from the outermost to the innermost. *)
Theorem eof_open_blocks (text : str) (o : options) :
  let s := scan_text text o in
  let n := length (lines_of text) in
  exists open,
    stack s = ROOT :: open /\
    Forall (block_frame n) open /\
    filter is_missing_end (issues (out s))
    = if is_nil open then []
      else [mkIssue n 0 MISSING_END HARD (MMissingEnd open) []].
Proof.
  intros s n. subst s. unfold scan_text. cbn [stack out]. fold n.
  destruct (scan_lines_stack o n (lines_of text) 1 initial [] (le_n 1))
    as (open & E & F & G);
    [subst n; lia | reflexivity | constructor | constructor |].
  exists open. rewrite E. split; [reflexivity|]. split; [exact F|].
  unfold eof_calls. cbn [length tl].
  destruct open as [|f open]; cbn [is_nil Nat.ltb Nat.leb length]; unfold add_all;
    cbn [fold_left].
  - now apply filter_none.
  - unfold addIssue. cbn [severity is_soft andb issues is_hard].
    rewrite filter_app, (filter_none _ _ G). reflexivity.
Qed.

Lemma reported_issues_app a b :
  reported_issues (a ++ b) = reported_issues a ++ reported_issues b.
Proof. unfold reported_issues. apply flat_map_app. Qed.

Lemma reported_issue_lines g : reported_issues (flat_map issue_lines g) = g.
Proof.
  induction g as [|x g IH]; [reflexivity|].
  cbn [flat_map]. rewrite reported_issues_app, IH. unfold issue_lines.
  destruct (is_empty (excerpt x)); reflexivity.
Qed.

Lemma reported_grouped arr :
  reported_issues (grouped_lines arr)
  = flat_map (fun kd => filter (fun it => kind_eqb (kind it) kd) arr) order.
Proof.
  unfold grouped_lines. induction order as [|kd ks IH]; [reflexivity|].
  cbn [flat_map]. rewrite reported_issues_app, IH. f_equal.
  destruct (filter _ arr) as [|x g] eqn:E; [reflexivity|].
  cbn [is_nil]. change (RBlank :: RKindHeading kd (length (x :: g)) :: flat_map issue_lines (x :: g))
    with ([RBlank; RKindHeading kd (length (x :: g))] ++ flat_map issue_lines (x :: g)).
  rewrite reported_issues_app. apply reported_issue_lines.
Qed.

Lemma filter_split {A} (f g : A -> bool) l :
  (forall x, f x = true -> g x = true -> False) ->
  Permutation (filter f l ++ filter g l) (filter (fun x => f x || g x) l).
Proof.
  intro D. induction l as [|x l IH]; [constructor|]. cbn [filter].
  destruct (f x) eqn:F, (g x) eqn:G; cbn [orb app].
  - exfalso. eauto.
  - now constructor.
  - symmetry. apply Permutation_cons_app. now symmetry.
  - exact IH.
Qed.

Lemma filter_all {A} (f : A -> bool) l : (forall x, f x = true) -> filter f l = l.
Proof.
  intro H. induction l as [|x l IH]; [reflexivity|]. cbn. now rewrite H, IH.
Qed.

Lemma kind_eqb_eq a b : kind_eqb a b = true <-> a = b.
Proof. destruct a, b; cbn; split; congruence. Qed.

Lemma buckets_perm arr ks :
  NoDup ks ->
  Permutation (flat_map (fun kd => filter (fun it => kind_eqb (kind it) kd) arr) ks)
              (filter (fun it => existsb (kind_eqb (kind it)) ks) arr).
Proof.
  induction 1 as [|k ks Hk Hnd IH]; cbn [flat_map existsb].
  - rewrite filter_none; [constructor|]. now apply Forall_forall.
  - etransitivity; [apply Permutation_app_head, IH|].
    apply (filter_split (fun it => kind_eqb (kind it) k)
                        (fun it => existsb (kind_eqb (kind it)) ks)).
    intros x H1 H2. apply kind_eqb_eq in H1. apply existsb_exists in H2 as [y [Hy E]].
    apply kind_eqb_eq in E. congruence.
Qed.

Lemma grouped_perm arr : Permutation (reported_issues (grouped_lines arr)) arr.
Proof.
  rewrite reported_grouped. etransitivity.
  - apply buckets_perm. unfold order.
    repeat (constructor; [cbn; intuition discriminate|]). constructor.
  - rewrite filter_all; [reflexivity|]. intros x. destruct (kind x); reflexivity.
Qed.

(** X16.  The report prints every recorded issue once and nothing else as
    an issue (grouping by severity and kind only reorders them), and when
    there is an issue its first line gives their number. *)
Theorem report_lists_every_issue (text : str) (o : options) :
  let k := out (scan_text text o) in
  let report := syntaxisErrorDetector text o in
  Permutation (reported_issues report) (issues k) /\
  (issues k = [] \/ exists rest, report = RFound (length (issues k)) :: rest).
Proof.
  intros k report. subst report. unfold syntaxisErrorDetector. fold k.
  unfold build_report. destruct (issues k) as [|i more] eqn:E.
  - cbn [is_nil]. split; [|now left].
    destruct (includeNotes o); constructor.
  - cbn [is_nil]. split; [|right; eexists; reflexivity].
    set (arr := i :: more).
    set (hard := filter (fun i => is_hard (severity i)) arr).
    set (soft := filter (fun i => is_soft (severity i)) arr).
    assert (H : forall l, Permutation
                (reported_issues (if is_nil l then [] else
                   RBlank :: RHardHeading (length l) :: grouped_lines l)) l
              /\ Permutation
                (reported_issues (if is_nil l then [] else
                   RBlank :: RSoftHeading (length l) :: grouped_lines l)) l).
    { intros l. destruct l as [|x l]; [split; constructor|]. cbn [is_nil].
      split; apply (grouped_perm (x :: l)). }
    cbn [app]. change (reported_issues (RFound (length arr) :: ?x)) with (reported_issues x).
    rewrite !reported_issues_app.
    assert (T : reported_issues
                  ((if 0 <? suppressedSoftCount k
                    then [RBlank; RSuppressed (suppressedSoftCount k)] else [])
                   ++ (if includeNotes o then [RBlank; RNoteDetector] else [])) = []).
    { destruct (0 <? _), (includeNotes o); reflexivity. }
    rewrite <- reported_issues_app, T, app_nil_r.
    etransitivity; [apply Permutation_app; [apply (proj1 (H hard)) | apply (proj2 (H soft))]|].
    etransitivity; [apply filter_split|].
    + intros x. destruct (severity x); discriminate.
    + rewrite filter_all; [reflexivity|]. intros x. destruct (severity x); reflexivity.
Qed.

End ReportFacts.

(* ================================================================== *)
(** ** Layer listing: every listed layer has a WFS verdict *)
(* ================================================================== *)

Section LayersFacts.
Import Wfs Layers.

Lemma str_eqb_refl k : str_eqb k k = true.
Proof. now apply str_eqb_eq. Qed.

Lemma obj_get_set_same {V} (o : obj V) k v : obj_get (obj_set o k v) k = Some v.
Proof.
  induction o as [|[k' v'] o IH]; cbn.
  - now rewrite str_eqb_refl.
  - destruct (str_eqb k' k) eqn:E; cbn; rewrite E; [reflexivity | exact IH].
Qed.

Lemma obj_get_set_keeps {V} (o : obj V) k k' v x :
  obj_get o k = Some x -> exists y, obj_get (obj_set o k' v) k = Some y.
Proof.
  induction o as [|[k0 v0] o IH]; cbn; [discriminate|].
  destruct (str_eqb k0 k) eqn:E.
  - intros _. destruct (str_eqb k0 k') eqn:E'; cbn; rewrite E; eauto.
  - intro H. destruct (str_eqb k0 k') eqn:E'; cbn; rewrite E; eauto.
Qed.

Lemma line_step_in_step wl ww l :
  in_step wl ww -> in_step (Layers.line_step wl l) (Wfs.line_step ww l).
Proof.
  intros (Hs & Hc & Hl). unfold Layers.line_step, Wfs.line_step.
  destruct (is_empty (trim (stripComments l))); [repeat split; assumption|].
  rewrite Hs.
  destruct (match firstTokenUpper _ with Some t => str_eqb t (L "END") | None => false end).
  { destruct (Layers.currentLayer wl) as [a|], (Wfs.currentLayer ww) as [b|];
      try contradiction.
    - destruct (top_is (Wfs.stack ww) "LAYER").
      + unfold in_step. cbn [Layers.stack Wfs.stack Layers.currentLayer Wfs.currentLayer
                             Layers.layers Wfs.supportMap].
        split; [reflexivity|]. split; [exact I|].
        intros x nm Hin Hnm. apply in_app_or in Hin as [Hin|[<-|[]]].
        * destruct (Hl x nm Hin Hnm) as [v Hv].
          destruct (Wfs.name b) as [n|]; [|eauto].
          destruct (negb (is_empty n)); [|eauto].
          eapply obj_get_set_keeps; eassumption.
        * cbn [Layers.name] in Hnm. rewrite Hc in Hnm. unfold or_null in Hnm.
          destruct (Wfs.name b) as [n|]; [|discriminate].
          destruct (is_empty n) eqn:En; [discriminate|]. injection Hnm as <-.
          cbn [negb]. eexists. apply obj_get_set_same.
      + repeat split; auto.
    - repeat split; auto. }
  destruct (match firstTokenUpper _ with Some t => has BLOCK_START t | None => false end).
  { unfold in_step. cbn [Layers.stack Wfs.stack Layers.currentLayer Wfs.currentLayer
                         Layers.layers Wfs.supportMap].
    split; [reflexivity|]. split; [|exact Hl].
    destruct (str_eqb _ (L "LAYER")); [reflexivity | exact Hc]. }
  assert (Top : top_is (Wfs.stack ww) "METADATA" = true ->
                top_is (Wfs.stack ww) "LAYER" = false).
  { unfold top_is. destruct (rev (Wfs.stack ww)) as [|t r]; [discriminate|].
    intro H. apply str_eqb_eq in H. subst t. reflexivity. }
  destruct (top_is (Wfs.stack ww) "METADATA" && has (Wfs.stack ww) (L "WEB")
            && negb (has (Wfs.stack ww) (L "LAYER"))) eqn:Ew.
  { (* a WEB METADATA entry: the layer walk does nothing *)
    apply andb_true_iff in Ew as [Ew1 Ew3]. apply andb_true_iff in Ew1 as [Ew1 Ew2].
    apply negb_true_iff in Ew3. rewrite (Top Ew1), Ew1, Ew3. cbn [andb].
    assert (K : in_step wl
                  match parseMetadataKV (trim (stripComments l)) with
                  | Some (k, v) =>
                      if negb (is_empty k)
                      then Wfs.mkWalk (supportMap ww) (obj_set (webMetadata ww) k v)
                                      (Wfs.stack ww) (Wfs.currentLayer ww)
                      else ww
                  | None => ww
                  end).
    { destruct (parseMetadataKV _) as [[k v]|]; [|repeat split; assumption].
      destruct (negb (is_empty k)); repeat split; assumption. }
    destruct (Layers.currentLayer wl); exact K. }
  destruct (Layers.currentLayer wl) as [a|] eqn:Ea, (Wfs.currentLayer ww) as [b|] eqn:Eb;
    try contradiction; [|unfold in_step; rewrite Ea, Eb; repeat split; assumption].
  destruct (top_is (Wfs.stack ww) "LAYER").
  { unfold in_step. cbn [Layers.stack Wfs.stack Layers.currentLayer Wfs.currentLayer
                         Layers.layers Wfs.supportMap].
    split; [reflexivity|]. split; [|exact Hl].
    destruct (parseDirectiveValue _ (L "NAME")), (parseDirectiveValue _ (L "TYPE")),
             (parseDirectiveValue _ (L "TITLE")); cbn; auto. }
  destruct (top_is (Wfs.stack ww) "METADATA" && has (Wfs.stack ww) (L "LAYER")).
  - destruct (parseMetadataKV _) as [[k v]|];
      [|unfold in_step; rewrite Ea, Eb; repeat split; assumption].
    destruct (negb (is_empty k));
      [|unfold in_step; rewrite Ea, Eb; repeat split; assumption].
    unfold in_step. cbn. repeat split; auto.
  - unfold in_step; rewrite Ea, Eb; repeat split; assumption.
Qed.

Lemma walk_in_step lines : forall wl ww,
  in_step wl ww ->
  in_step (Layers.walk_lines wl lines) (Wfs.walk_lines ww lines).
Proof.
  induction lines as [|l lines IH]; intros wl ww H; [exact H|].
  unfold Layers.walk_lines, Wfs.walk_lines in *. cbn [fold_left].
  apply IH. now apply line_step_in_step.
Qed.

(** X17.  Every layer that [parseLayersFromMapfile] lists has a non-empty
    name under which [getWfsSupportMap] holds a verdict for the same text,
    so the entry of GET /layers carries that verdict and never the
    fallback for a layer that was not detected. *)
Theorem listed_layers_have_verdict (content : str) (l : listed) :
  In l (parseLayersFromMapfile content) ->
  exists nm v,
    name l = Some nm /\ nm <> [] /\
    obj_get (getWfsSupportMap content) nm = Some v /\
    In (mkWithWfs l (supported v) (reasons v)) (layersWithWfs content).
Proof.
  intro H. pose proof H as H0. unfold parseLayersFromMapfile in H.
  apply filter_In in H as [Hin Hn].
  destruct (walk_in_step (split_crlf content) Layers.initial Wfs.initial) as (_ & _ & K).
  { repeat split; auto. intros x nm []. }
  unfold has_name in Hn. destruct (name l) as [nm|] eqn:En; [|discriminate].
  destruct (K l nm Hin En) as [v Hv]. exists nm, v.
  split; [reflexivity|]. split; [|split; [exact Hv|]].
  - intros ->. clear -Hin En.
    (* names in the list went through [or_null] *)
    assert (G : forall lines w,
               (forall x, In x (layers w) -> name x <> Some []) ->
               forall x, In x (layers (Layers.walk_lines w lines)) -> name x <> Some []).
    { induction lines as [|ln lines IH]; intros w Hw; [exact Hw|].
      unfold Layers.walk_lines in *. cbn [fold_left]. apply IH.
      intros x Hx. unfold Layers.line_step in Hx.
      destruct (is_empty _); [now apply Hw|].
      destruct (match firstTokenUpper _ with Some t => str_eqb t (L "END") | None => false end).
      { destruct (Layers.currentLayer w) as [c|]; [|now apply Hw].
        destruct (top_is _ _); [|now apply Hw]. cbn [layers] in Hx.
        apply in_app_or in Hx as [Hx|[<-|[]]]; [now apply Hw|].
        cbn [name]. unfold or_null. destruct (l_name c) as [n|]; [|discriminate].
        destruct n; cbn; discriminate. }
      destruct (match firstTokenUpper _ with Some t => has BLOCK_START t | None => false end);
        [now apply Hw|].
      destruct (Layers.currentLayer w) as [c|]; [|now apply Hw].
      destruct (top_is _ "LAYER"); [now apply Hw|].
      destruct (_ && _); [|now apply Hw].
      destruct (parseMetadataKV _) as [[k v]|]; [|now apply Hw].
      destruct (negb _); now apply Hw. }
    apply (G (split_crlf content) Layers.initial (fun x (F : In x []) => match F with end) l Hin En).
  - unfold layersWithWfs. cbv zeta. apply in_map_iff. exists l. split; [|exact H0].
    rewrite En. cbn [or_empty]. unfold getWfsSupportMap. now rewrite Hv.
Qed.

Lemma listed_layers_have_verdict_witness :
  let content := L "MAP" ++ [LF] ++ L " LAYER" ++ [LF] ++ L "  NAME roads" ++ [LF]
                 ++ L " END" ++ [LF] ++ L "END" in
  let l := mkListed (Some (L "roads")) None None in
  exists nm v,
    name l = Some nm /\ nm <> [] /\
    obj_get (getWfsSupportMap content) nm = Some v /\
    In (mkWithWfs l (supported v) (reasons v)) (layersWithWfs content).
Proof.
  cbv zeta. apply listed_layers_have_verdict. vm_compute. now left.
Defined.

End LayersFacts.

(* ================================================================== *)
(** ** Sanitised names and paths, and the layers parameter *)
(* ================================================================== *)

Section TextFacts.
Import Text.

Lemma replace_unless_keeps keep by_ s :
  keep by_ = true -> forallb keep (replace_unless keep by_ s) = true.
Proof.
  intro H. unfold replace_unless. induction s as [|c s IH]; [reflexivity|]. cbn.
  destruct (keep c) eqn:E; [rewrite E | rewrite H]; exact IH.
Qed.

Lemma replace_unless_fix keep by_ s :
  forallb keep s = true -> replace_unless keep by_ s = s.
Proof.
  unfold replace_unless. induction s as [|c s IH]; [reflexivity|]. cbn. intro H.
  apply andb_true_iff in H as [Hc Hs]. now rewrite Hc, IH.
Qed.

Lemma squeeze_from_forall P x b s :
  forallb P s = true -> forallb P (squeeze_from x b s) = true.
Proof.
  revert b. induction s as [|c s IH]; intros b H; [reflexivity|].
  cbn in *. apply andb_true_iff in H as [Hc Hs].
  destruct (Ascii.eqb c x); [destruct b|]; cbn; rewrite ?Hc; cbn; auto.
Qed.

Lemma drop_leading_forall P x s :
  forallb P s = true -> forallb P (drop_leading x s) = true.
Proof.
  induction s as [|c s IH]; intro H; [reflexivity|]. cbn in *.
  apply andb_true_iff in H as [Hc Hs].
  destruct (Ascii.eqb c x); [auto | cbn; now rewrite Hc].
Qed.

Lemma forallb_rev {A} (P : A -> bool) l : forallb P (rev l) = forallb P l.
Proof.
  induction l as [|x l IH]; [reflexivity|]. cbn.
  rewrite forallb_app, IH. cbn. rewrite andb_true_r. apply andb_comm.
Qed.

Lemma drop_trailing_forall P x s :
  forallb P s = true -> forallb P (drop_trailing x s) = true.
Proof.
  intro H. unfold drop_trailing. rewrite forallb_rev.
  apply drop_leading_forall. now rewrite forallb_rev.
Qed.

(** What [drop_leading] and [drop_trailing] leave. *)
Lemma drop_leading_head x s c r :
  drop_leading x s = c :: r -> Ascii.eqb c x = false.
Proof.
  induction s as [|a s IH]; [discriminate|]. cbn.
  destruct (Ascii.eqb a x) eqn:E; [exact IH|]. intro H. injection H as <- _. exact E.
Qed.

Lemma drop_leading_suffix x s : exists n, s = repeat x n ++ drop_leading x s.
Proof.
  induction s as [|a s IH]; [now exists 0|]. cbn.
  destruct (Ascii.eqb_spec a x) as [->|]; [|now exists 0].
  destruct IH as [n E]. exists (S n). cbn. now f_equal.
Qed.

Lemma drop_leading_fix x s :
  match s with c :: _ => Ascii.eqb c x = false | [] => True end ->
  drop_leading x s = s.
Proof. destruct s as [|c s]; [reflexivity|]. cbn. now intros ->. Qed.

Lemma drop_trailing_last x s r c :
  drop_trailing x s = r ++ [c] -> Ascii.eqb c x = false.
Proof.
  unfold drop_trailing. intro H. apply (f_equal (@rev ascii)) in H.
  rewrite rev_involutive, rev_app_distr in H. cbn in H.
  eapply drop_leading_head; eassumption.
Qed.

Lemma drop_trailing_prefix x s : exists n, s = drop_trailing x s ++ repeat x n.
Proof.
  unfold drop_trailing. destruct (drop_leading_suffix x (rev s)) as [n E].
  exists n. apply (f_equal (@rev ascii)) in E.
  rewrite rev_involutive, rev_app_distr in E.
  assert (R : rev (repeat x n) = repeat x n).
  { clear. induction n as [|n IH]; [reflexivity|]. cbn. rewrite IH.
    clear. induction n; cbn; congruence. }
  now rewrite R in E.
Qed.

Lemma drop_trailing_fix x s :
  (forall r c, s = r ++ [c] -> Ascii.eqb c x = false) -> drop_trailing x s = s.
Proof.
  intro H. unfold drop_trailing. rewrite drop_leading_fix; [apply rev_involutive|].
  destruct (rev s) as [|c r] eqn:E; [exact I|].
  apply (H (rev r) c). rewrite <- (rev_involutive s), E. reflexivity.
Qed.

Lemma squeeze_from_no_double x s : forall b,
  no_double x (squeeze_from x b s) = true /\
  (b = true -> head_is x (squeeze_from x b s) = false).
Proof.
  induction s as [|c s IH]; intros b; [split; reflexivity|].
  cbn [squeeze_from]. destruct (Ascii.eqb c x) eqn:E.
  - destruct b.
    + apply IH.
    + destruct (IH true) as [H1 H2]. split; [|discriminate].
      cbn [no_double]. now rewrite E, (H2 eq_refl), H1.
  - destruct (IH false) as [H1 _]. split.
    + cbn [no_double]. now rewrite E, H1.
    + intros _. cbn. exact E.
Qed.

Lemma squeeze_from_fix x s : forall b,
  no_double x s = true -> (b = true -> head_is x s = false) ->
  squeeze_from x b s = s.
Proof.
  induction s as [|c s IH]; intros b H Hb; [reflexivity|].
  cbn [no_double] in H. apply andb_true_iff in H as [H1 H2].
  cbn [squeeze_from]. destruct (Ascii.eqb c x) eqn:E.
  - destruct b; [cbn in Hb; rewrite E in Hb; now specialize (Hb eq_refl)|].
    f_equal. apply IH; [assumption|]. intros _. cbn in H1.
    now destruct (head_is x s).
  - f_equal. apply IH; [assumption | discriminate].
Qed.

Lemma no_double_app x a b : no_double x (a ++ b) = true ->
  no_double x a = true /\ no_double x b = true.
Proof.
  induction a as [|c a IH]; intro H; [now split|].
  cbn [app no_double] in *. apply andb_true_iff in H as [H1 H2].
  destruct (IH H2) as [Ha Hb]. split; [|exact Hb]. rewrite Ha, andb_true_r.
  destruct (Ascii.eqb c x); [|reflexivity]. cbn in *.
  destruct a; [reflexivity | exact H1].
Qed.

End TextFacts.

Section SaveAsFacts.
Import Text SaveAs.

Lemma alias_char_facts c :
  is_alias_char c = true -> is_space c = false /\ upper c = c.
Proof.
  destruct c as [[] [] [] [] [] [] [] []]; vm_compute; intro H;
    try discriminate H; split; reflexivity.
Qed.

Lemma all_nonspace_clean (s : str) :
  forallb (fun c => negb (is_space c)) s = true -> clean s.
Proof.
  intro H. rewrite forallb_forall in H. split.
  - intros c r ->. apply negb_true_iff, H. now left.
  - intros r c ->. apply negb_true_iff, H. apply in_or_app. right. now left.
Qed.

Lemma forallb_impl {A} (P Q : A -> bool) l :
  (forall x, P x = true -> Q x = true) -> forallb P l = true -> forallb Q l = true.
Proof.
  intros H. rewrite !forallb_forall. auto.
Qed.

(** A text that is already an alias is left as it is. *)
Lemma toSafeAlias_fix a :
  forallb is_alias_char a = true -> no_double "_" a = true ->
  head_is "_" a = false -> (forall r c, a = r ++ [c] -> Ascii.eqb c "_" = false) ->
  toSafeAlias a = a.
Proof.
  intros Hall Hnd Hh Hl. unfold toSafeAlias.
  rewrite trim_of_clean.
  2:{ apply all_nonspace_clean. eapply forallb_impl; [|exact Hall].
      intros c Hc. now destruct (alias_char_facts c Hc) as [-> _]. }
  replace (toUpperCase a) with a.
  2:{ unfold toUpperCase. symmetry. rewrite <- (map_id a) at 2. apply map_ext_in.
      intros c Hc. rewrite forallb_forall in Hall. now apply alias_char_facts, Hall. }
  rewrite replace_unless_fix by assumption.
  unfold squeeze. rewrite squeeze_from_fix by (assumption || discriminate).
  rewrite drop_leading_fix by (destruct a; [exact I | exact Hh]).
  now apply drop_trailing_fix.
Qed.

(** X18.  For a text of characters below 128, the alias made by
    [toSafeAlias] holds only [A-Z], digits and underscores, no two
    underscores in a row, and none at either end; sanitising it again, in
    the dialog or in the map builder of the server, leaves it as it is. *)
Theorem toSafeAlias_safe (v : str) :
  ascii7 v = true ->
  let a := toSafeAlias v in
  forallb is_alias_char a = true /\
  no_double "_" a = true /\
  head_is "_" a = false /\
  (forall r c, a = r ++ [c] -> c <> "_"%char) /\
  toSafeAlias a = a /\
  MapBuilder.toSafeAlias a = a.
Proof.
  intros _ a.
  set (u := replace_unless is_alias_char "_" (toUpperCase (trim v))).
  assert (Hu : forallb is_alias_char u = true) by (apply replace_unless_keeps; reflexivity).
  set (q := squeeze "_" u).
  assert (Hq : forallb is_alias_char q = true) by (apply squeeze_from_forall; exact Hu).
  assert (Nq : no_double "_" q = true) by apply (squeeze_from_no_double "_" u false).
  set (d := drop_leading "_" q).
  assert (Hd : forallb is_alias_char d = true) by (apply drop_leading_forall; exact Hq).
  assert (Nd : no_double "_" d = true).
  { destruct (drop_leading_suffix "_" q) as [n E]. fold d in E. rewrite E in Nq.
    now apply no_double_app in Nq. }
  assert (Ha : a = drop_trailing "_" d) by reflexivity.
  assert (Hall : forallb is_alias_char a = true)
    by (rewrite Ha; apply drop_trailing_forall; exact Hd).
  assert (Na : no_double "_" a = true).
  { destruct (drop_trailing_prefix "_" d) as [n E]. rewrite <- Ha in E. rewrite E in Nd.
    now apply no_double_app in Nd. }
  assert (Hh : head_is "_" a = false).
  { destruct a as [|c r] eqn:Ea; [reflexivity|]. cbn.
    destruct (drop_trailing_prefix "_" d) as [n E]. rewrite <- Ha in E.
    cbn in E. destruct d as [|c' d'] eqn:Ed; [discriminate|]. injection E as -> _.
    eapply (drop_leading_head "_" q). exact Ed. }
  assert (Hl : forall r c, a = r ++ [c] -> Ascii.eqb c "_" = false).
  { intros r c E. rewrite Ha in E. eapply drop_trailing_last; eassumption. }
  assert (Fix : toSafeAlias a = a) by now apply toSafeAlias_fix.
  repeat split; try assumption.
  intros r c E ->. specialize (Hl r "_"%char E). discriminate.
Qed.

Lemma toSafeAlias_safe_witness :
  let a := toSafeAlias (L "  my map (v2)  ") in
  forallb is_alias_char a = true /\
  no_double "_" a = true /\
  head_is "_" a = false /\
  (forall r c, a = r ++ [c] -> c <> "_"%char) /\
  toSafeAlias a = a /\
  MapBuilder.toSafeAlias a = a.
Proof.
  apply (toSafeAlias_safe (L "  my map (v2)  ")). reflexivity.
Defined.

Lemma startsWith_app p s : startsWith p (p ++ s) = true.
Proof. induction p as [|c p IH]; [now destruct s|]. cbn. now rewrite Ascii.eqb_refl. Qed.

Lemma endsWith_app suf base : endsWith suf (base ++ suf) = true.
Proof. unfold endsWith. rewrite rev_app_distr. apply startsWith_app. Qed.

Lemma file_char_facts c : is_file_char c = true -> is_space c = false.
Proof.
  destruct c as [[] [] [] [] [] [] [] []]; vm_compute; intro H;
    try discriminate H; reflexivity.
Qed.

Lemma file_chars_clean s : forallb is_file_char s = true -> clean s.
Proof.
  intro H. apply all_nonspace_clean. eapply forallb_impl; [|exact H].
  intros c Hc. now rewrite (file_char_facts c Hc).
Qed.

(** X19.  The file name of the dialog is empty exactly for a blank input;
    otherwise it holds only letters, digits, underscore, point and hyphen,
    ends in .map (in any case), is left as it is by a second pass, and is
    the name the map builder of the server makes from the same input; on a
    blank input the server, which has no such test, answers [.map]. *)
Theorem toSafeFileName_safe (v : str) :
  let f := toSafeFileName v in
  (f = [] <-> trim v = []) /\
  forallb is_file_char f = true /\
  (f <> [] -> endsWith (L ".map") (toLowerCase f) = true) /\
  toSafeFileName f = f /\
  (f <> [] -> MapBuilder.toSafeFileName v = f /\ MapBuilder.toSafeFileName f = f) /\
  (f = [] -> MapBuilder.toSafeFileName v = L ".map").
Proof.
  intro f. subst f. unfold toSafeFileName, MapBuilder.toSafeFileName.
  set (base := replace_unless is_file_char "_" (trim v)).
  assert (Hb : forallb is_file_char base = true) by (apply replace_unless_keeps; reflexivity).
  assert (He : base = [] <-> trim v = []).
  { subst base. unfold replace_unless. destruct (trim v); cbn; split; congruence. }
  (* a safe name that ends in .map goes through both functions unchanged *)
  assert (Fix : forall g, forallb is_file_char g = true -> g <> [] ->
                  endsWith (L ".map") (toLowerCase g) = true ->
                  (let b := replace_unless is_file_char "_" (trim g) in
                   if is_empty b then []
                   else if endsWith (L ".map") (toLowerCase b) then b else b ++ L ".map") = g
                  /\ (let b := replace_unless is_file_char "_" (trim g) in
                      if negb (endsWith (L ".map") (toLowerCase b)) then b ++ L ".map"
                      else b) = g).
  { intros g Hg Hne Hend. cbv zeta.
    rewrite (trim_of_clean g (file_chars_clean g Hg)), replace_unless_fix by assumption.
    rewrite Hend. destruct g; [contradiction|]. now split. }
  destruct base as [|c base'] eqn:Eb.
  - cbn [is_empty]. split; [tauto|]. split; [reflexivity|]. split; [congruence|].
    split; [reflexivity|]. split; [congruence|]. intros _. reflexivity.
  - rewrite <- Eb in *. replace (is_empty base) with false by (now rewrite Eb).
    assert (Hne : base <> []) by (rewrite Eb; discriminate).
    destruct (endsWith (L ".map") (toLowerCase base)) eqn:E; cbn [negb].
    + split; [split; intro K; [contradiction | tauto]|].
      split; [exact Hb|]. split; [intros _; exact E|].
      destruct (Fix base Hb Hne E) as [F1 F2].
      split; [exact F1|]. split; [intros _; split; [reflexivity | exact F2]|].
      intro K. contradiction.
    + assert (Hf : forallb is_file_char (base ++ L ".map") = true)
        by (rewrite forallb_app, Hb; reflexivity).
      assert (Hn : base ++ L ".map" <> []) by (rewrite Eb; discriminate).
      assert (Hend : endsWith (L ".map") (toLowerCase (base ++ L ".map")) = true).
      { unfold toLowerCase. rewrite map_app. apply endsWith_app. }
      destruct (Fix _ Hf Hn Hend) as [F1 F2].
      split; [split; intro K; [contradiction | tauto]|].
      split; [exact Hf|]. split; [intros _; exact Hend|].
      split; [exact F1|]. split; [intros _; split; [reflexivity | exact F2]|].
      intro K. contradiction.
Qed.

(* ------------------------------------------------------------------ *)

Lemma replace_char_free a b s :
  Ascii.eqb b a = false -> forallb (fun c => negb (Ascii.eqb c a)) (replace_char a b s) = true.
Proof.
  intro H. unfold replace_char. induction s as [|c s IH]; [reflexivity|]. cbn.
  destruct (Ascii.eqb c a) eqn:E; [rewrite H | rewrite E]; exact IH.
Qed.

Lemma replace_char_fix a b s :
  forallb (fun c => negb (Ascii.eqb c a)) s = true -> replace_char a b s = s.
Proof.
  unfold replace_char. induction s as [|c s IH]; [reflexivity|]. cbn. intro H.
  apply andb_true_iff in H as [Hc Hs]. apply negb_true_iff in Hc. now rewrite Hc, IH.
Qed.

Lemma replace_char_back a b s :
  forallb (fun c => negb (Ascii.eqb c b)) s = true ->
  replace_char b a (replace_char a b s) = s.
Proof.
  unfold replace_char. induction s as [|c s IH]; [reflexivity|]. cbn. intro H.
  apply andb_true_iff in H as [Hc Hs]. apply negb_true_iff in Hc. rewrite (IH Hs).
  destruct (Ascii.eqb_spec c a) as [->|Hn].
  - now rewrite Ascii.eqb_refl.
  - now rewrite Hc.
Qed.

Lemma split_on_sep sep s : split_on sep (sep :: s) = [] :: split_on sep s.
Proof. cbn. now rewrite Ascii.eqb_refl. Qed.

Lemma In_split_drop sep s seg :
  In seg (split_on sep (drop_leading sep s)) -> In seg (split_on sep s).
Proof.
  induction s as [|c s IH]; [auto|]. cbn [drop_leading].
  destruct (Ascii.eqb_spec c sep) as [->|Hn]; [|auto].
  intro H. rewrite split_on_sep. right. now apply IH.
Qed.

(** X20.  The path returned by [toSafePath] has no segment [..], whichever
    separator is read, and ends with no separator. *)
Theorem toSafePath_safe (v : str) :
  let out := toSafePath v in
  (forall seg, In seg (segments out) -> seg <> L "..") /\
  (forall r c, out = r ++ [c] -> c <> "/"%char /\ c <> BSL).
Proof.
  intro out. subst out. unfold toSafePath.
  assert (Empty : (forall seg, In seg (segments []) -> seg <> L "..") /\
                  (forall r c, @nil ascii = r ++ [c] -> c <> "/"%char /\ c <> BSL)).
  { split.
    - intros seg [<-|[]]. discriminate.
    - intros r c E. destruct r; discriminate. }
  destruct (is_empty (trim v)); [exact Empty|].
  set (p0 := replace_char BSL "/" (trim v)).
  set (p := drop_trailing "/" (squeeze "/" p0)).
  assert (Nb : forallb (fun c => negb (Ascii.eqb c BSL)) p = true).
  { subst p. apply drop_trailing_forall, squeeze_from_forall. subst p0.
    now apply replace_char_free. }
  assert (Last : forall r c, p = r ++ [c] -> c <> "/"%char /\ c <> BSL).
  { intros r c E. split.
    - intros ->. apply (drop_trailing_last "/" _ r "/"%char) in E. discriminate.
    - intros ->. rewrite E, forallb_app in Nb. cbn in Nb. rewrite andb_false_r in Nb.
      discriminate. }
  destruct (existsb _ (split_on "/" p)) eqn:Ex; [exact Empty|].
  assert (Hno : forall seg, In seg (split_on "/" p) -> seg <> L "..").
  { intros seg Hin ->. apply not_true_iff_false in Ex. apply Ex.
    apply existsb_exists. exists (L ".."). split; [assumption | reflexivity]. }
  destruct (negb (startsWith (L "/") p || isWindowsAbs p)); [|destruct (isWindowsAbs p)].
  - (* relative *)
    destruct (drop_leading_suffix "/" p) as [n E].
    assert (Nd : forallb (fun c => negb (Ascii.eqb c BSL)) (drop_leading "/" p) = true)
      by now apply drop_leading_forall.
    split.
    + intros seg. unfold segments. rewrite replace_char_fix by exact Nd.
      intro H. apply Hno. now apply In_split_drop.
    + intros r c Er. apply (Last (repeat "/"%char n ++ r) c).
      rewrite E at 1. rewrite Er. now rewrite app_assoc.
  - (* a Windows path *)
    split.
    + intros seg. unfold segments. rewrite replace_char_back by exact Nb. apply Hno.
    + intros r c Er. unfold replace_char in Er.
      apply map_eq_app in Er as (l1 & l2 & Ep & _ & E2).
      destruct l2 as [|c0 [|? ?]]; try discriminate. cbn in E2. injection E2 as E2.
      destruct (Last l1 c0 Ep) as [H1 H2].
      destruct (Ascii.eqb_spec c0 "/"%char) as [->|_]; [contradiction|].
      subst c. now split.
  - (* an absolute path *)
    split; [|exact Last].
    intros seg. unfold segments. rewrite replace_char_fix by exact Nb. apply Hno.
Qed.

End SaveAsFacts.

Section ProxyFacts.
Import Text WfsProxy.

Lemma split_on_nonempty sep s : split_on sep s <> [].
Proof.
  induction s as [|c s IH]; [discriminate|]. cbn.
  destruct (Ascii.eqb c sep); [discriminate|].
  destruct (split_on sep s); [contradiction | discriminate].
Qed.

Lemma split_on_free sep s l : In l (split_on sep s) -> ~ In sep l.
Proof.
  revert l. induction s as [|c s IH]; intros l H.
  - destruct H as [<-|[]]. auto.
  - cbn in H. destruct (Ascii.eqb_spec c sep) as [->|Hn].
    + destruct H as [<-|H]; [auto | now apply IH].
    + destruct (split_on sep s) as [|l0 ls] eqn:E.
      * now apply split_on_nonempty in E.
      * destruct H as [<-|H].
        -- intros [K|K]; [congruence|]. apply (IH l0); [now left | exact K].
        -- apply IH. now right.
Qed.

Lemma split_on_line sep l : ~ In sep l -> split_on sep l = [l].
Proof.
  induction l as [|c l IH]; intro H; [reflexivity|]. cbn.
  destruct (Ascii.eqb_spec c sep) as [->|Hn]; [exfalso; apply H; now left|].
  rewrite IH; [reflexivity|]. intro K. apply H. now right.
Qed.

Lemma split_on_cons sep l s :
  ~ In sep l -> split_on sep (l ++ sep :: s) = l :: split_on sep s.
Proof.
  induction l as [|c l IH]; intro H.
  - cbn. now rewrite Ascii.eqb_refl.
  - cbn [app split_on].
    destruct (Ascii.eqb_spec c sep) as [->|Hn]; [exfalso; apply H; now left|].
    rewrite IH; [reflexivity|]. intro K. apply H. now right.
Qed.

Lemma split_on_join sep ls :
  ls <> [] -> Forall (fun l => ~ In sep l) ls -> split_on sep (join [sep] ls) = ls.
Proof.
  induction ls as [|l ls IH]; intros Hne H; [contradiction|].
  inversion H as [|? ? Hl Hls]; subst.
  destruct ls as [|l2 ls].
  - cbn. now apply split_on_line.
  - change (join [sep] (l :: l2 :: ls)) with (l ++ sep :: join [sep] (l2 :: ls)).
    rewrite split_on_cons by assumption. f_equal. apply IH; [discriminate | assumption].
Qed.

(** X21.  The names returned by [parseLayersParam] are non-empty, trimmed
    and free of commas; joined with commas, as they are sent upstream in
    typeName, they parse back to the same list. *)
Theorem parseLayersParam_round_trip (raw : str) :
  let layers := parseLayersParam raw in
  Forall (fun l => l <> [] /\ clean l /\ ~ In ","%char l) layers /\
  parseLayersParam (typeNames layers) = layers.
Proof.
  intro layers.
  assert (F : Forall (fun l => l <> [] /\ clean l /\ ~ In ","%char l) layers).
  { subst layers. unfold parseLayersParam. destruct (is_empty raw); [constructor|].
    apply Forall_forall. intros l H. apply filter_In in H as [H Hne].
    apply in_map_iff in H as [x [<- Hx]]. split; [|split].
    - intro K. now rewrite K in Hne.
    - apply trim_clean.
    - intro K. apply (split_on_free _ _ _ Hx). now apply In_trim. }
  split; [exact F|].
  clearbody layers. destruct layers as [|l ls]; [reflexivity|].
  unfold parseLayersParam, typeNames.
  assert (Hj : is_empty (join (L ",") (l :: ls)) = false).
  { inversion F as [|? ? [Hl _] _]; subst.
    destruct l; [contradiction|]. destruct ls; reflexivity. }
  rewrite Hj. change (L ",") with [","%char].
  rewrite split_on_join.
  - assert (M : map trim (l :: ls) = l :: ls).
    { rewrite <- (map_id (l :: ls)) at 2. apply map_ext_in. intros x Hx.
      rewrite Forall_forall in F. now apply trim_of_clean, F. }
    rewrite M. clear -F. induction F as [|x l0 [Hx _] _ IH]; [reflexivity|].
    cbn. destruct x; [contradiction|]. cbn. now rewrite IH.
  - discriminate.
  - eapply Forall_impl; [|exact F]. cbv beta. tauto.
Qed.

End ProxyFacts.

(* ================================================================== *)
(** ** WFS support checker: comments and verdicts *)
(* ================================================================== *)

Section WfsMoreFacts.
Import Wfs.

Lemma stripComments_from_prefix line : forall q,
  exists rest, line = stripComments_from q line ++ rest /\
               (rest = [] \/ exists r, rest = HASH :: r).
Proof.
  induction line as [|ch line IH]; intros q.
  - exists []. split; [reflexivity | now left].
  - cbn [stripComments_from].
    destruct (negb (if Ascii.eqb ch DQ then negb q else q) && Ascii.eqb ch HASH) eqn:E.
    + exists (ch :: line). split; [reflexivity|]. right.
      apply andb_true_iff in E as [_ E]. apply Ascii.eqb_eq in E. subst. now eexists.
    + destruct (IH (if Ascii.eqb ch DQ then negb q else q)) as [rest [E1 E2]].
      exists rest. split; [cbn; now f_equal | exact E2].
Qed.

Lemma stripComments_from_idem line : forall q,
  stripComments_from q (stripComments_from q line) = stripComments_from q line.
Proof.
  induction line as [|ch line IH]; intros q; [reflexivity|].
  cbn [stripComments_from].
  destruct (negb (if Ascii.eqb ch DQ then negb q else q) && Ascii.eqb ch HASH) eqn:E;
    [reflexivity|].
  cbn [stripComments_from]. rewrite E. f_equal. apply IH.
Qed.

Lemma stripComments_from_plain line : forall q,
  ~ In HASH line -> stripComments_from q line = line.
Proof.
  induction line as [|ch line IH]; intros q H; [reflexivity|].
  cbn [stripComments_from].
  destruct (Ascii.eqb_spec ch HASH) as [->|Hn]; [exfalso; apply H; now left|].
  rewrite andb_false_r. f_equal. apply IH. intro K. apply H. now right.
Qed.

(** X22.  [stripComments] returns the start of the line: what it drops is
    nothing or begins with [#]; a second pass changes nothing; and a [#]
    between double quotes is kept. *)
Theorem stripComments_cuts_comment (line : str) :
  (exists rest, line = stripComments line ++ rest /\
                (rest = [] \/ exists r, rest = HASH :: r)) /\
  stripComments (stripComments line) = stripComments line /\
  (forall quoted tail,
      ~ In DQ quoted -> ~ In HASH tail -> ~ In DQ tail ->
      stripComments ([DQ] ++ quoted ++ [DQ] ++ tail) = [DQ] ++ quoted ++ [DQ] ++ tail).
Proof.
  split; [apply stripComments_from_prefix|].
  split; [apply stripComments_from_idem|].
  intros quoted tail Hq Ht Hd. unfold stripComments. cbn [app stripComments_from].
  rewrite Ascii.eqb_refl. cbn [negb andb]. f_equal.
  induction quoted as [|c quoted IH].
  - cbn [app stripComments_from]. rewrite Ascii.eqb_refl. cbn [negb andb].
    change (Ascii.eqb DQ HASH) with false. cbn [andb]. f_equal.
    now apply stripComments_from_plain.
  - cbn [app stripComments_from].
    destruct (Ascii.eqb_spec c DQ) as [->|Hn]; [exfalso; apply Hq; now left|].
    cbn [negb andb]. f_equal. apply IH. intro K. apply Hq. now right.
Qed.

Lemma computed_reasons (ly : layer) (layerMetaLower webMetaLower : obj str) :
  let v := computeWfsSupportForLayer ly layerMetaLower webMetaLower in
  reasons v <> [] /\
  reasons v <> [L "not detected"] /\
  (supported v = true <->
   last (reasons v) [] = L "has basic WFS metadata (title + srs)") /\
  (supported v = true -> length (reasons v) = 2).
Proof.
  intro v. subst v. unfold computeWfsSupportForLayer.
  destruct (str_eqb _ (L "RASTER")).
  { cbn. repeat split; try discriminate. }
  set (en := match obj_get layerMetaLower (L "wfs_enable_request") with
             | Some v => _ | None => _ end).
  destruct en as [[[k val] sc]|].
  2:{ cbn. repeat split; try discriminate. }
  destruct (valueLooksDisabled val || negb (valueIncludesGetFeature val)).
  { cbn. repeat split; try discriminate. }
  destruct (hasAny layerMetaLower [L "wfs_title"; L "ows_title"]),
           (hasAny layerMetaLower [L "wfs_srs"; L "ows_srs"]);
    cbn; repeat split; try discriminate; auto.
Qed.

Lemma obj_get_set_inv {V} (o : obj V) k x nm (v : V) :
  obj_get (obj_set o k x) nm = Some v ->
  (nm = k /\ v = x) \/ obj_get o nm = Some v.
Proof.
  induction o as [|[k0 v0] o IH]; cbn.
  - destruct (str_eqb k nm) eqn:E; [|discriminate].
    apply str_eqb_eq in E. intro H. injection H as <-. left. now split.
  - destruct (str_eqb k0 k) eqn:E0; cbn.
    + apply str_eqb_eq in E0. subst k0.
      destruct (str_eqb k nm) eqn:E.
      * apply str_eqb_eq in E. intro H. injection H as <-. left. now split.
      * intro H. now right.
    + destruct (str_eqb k0 nm); [intro H; now right | exact IH].
Qed.

Lemma line_step_computed w l :
  (forall nm v, obj_get (supportMap w) nm = Some v ->
                exists ly wm, name ly = Some nm /\
                  v = computeWfsSupportForLayer ly (normalizeMeta (metadata ly))
                                                (normalizeMeta wm)) ->
  forall nm v, obj_get (supportMap (line_step w l)) nm = Some v ->
               exists ly wm, name ly = Some nm /\
                 v = computeWfsSupportForLayer ly (normalizeMeta (metadata ly))
                                               (normalizeMeta wm).
Proof.
  intros Hw nm v. unfold line_step.
  destruct (is_empty _); [apply Hw|].
  destruct (match firstTokenUpper _ with Some t => str_eqb t (L "END") | None => false end).
  { destruct (currentLayer w) as [c|]; [|apply Hw].
    destruct (top_is _ _); [|apply Hw]. cbn [supportMap].
    destruct (name c) as [n|] eqn:En; [|apply Hw].
    destruct (negb (is_empty n)); [|apply Hw].
    intro H. apply obj_get_set_inv in H as [[-> ->]|H]; [|now apply Hw].
    exists c, (webMetadata w). now split. }
  destruct (match firstTokenUpper _ with Some t => has BLOCK_START t | None => false end);
    [apply Hw|].
  destruct (_ && _ && _).
  { destruct (parseMetadataKV _) as [[k x]|]; [|apply Hw].
    destruct (negb _); apply Hw. }
  destruct (currentLayer w) as [c|]; [|apply Hw].
  destruct (top_is _ "LAYER"); [apply Hw|].
  destruct (_ && _); [|apply Hw].
  destruct (parseMetadataKV _) as [[k x]|]; [|apply Hw].
  destruct (negb _); apply Hw.
Qed.

Lemma walk_computed lines : forall w,
  (forall nm v, obj_get (supportMap w) nm = Some v ->
                exists ly wm, name ly = Some nm /\
                  v = computeWfsSupportForLayer ly (normalizeMeta (metadata ly))
                                                (normalizeMeta wm)) ->
  forall nm v, obj_get (supportMap (walk_lines w lines)) nm = Some v ->
               exists ly wm, name ly = Some nm /\
                 v = computeWfsSupportForLayer ly (normalizeMeta (metadata ly))
                                               (normalizeMeta wm).
Proof.
  induction lines as [|l lines IH]; intros w Hw; [exact Hw|].
  unfold walk_lines in *. cbn [fold_left]. apply IH. now apply line_step_computed.
Qed.

(** X23.  Every verdict of the support map was computed for a layer of
    that name; it gives at least one reason, never the text of the
    fallback ([not detected]), and it says supported exactly when its last
    reason is the one for complete metadata, the reasons then being the
    enable line and that one. *)
Theorem support_map_verdicts (text nm : str) (v : verdict) :
  obj_get (getWfsSupportMap text) nm = Some v ->
  (exists ly wm, name ly = Some nm /\
     v = computeWfsSupportForLayer ly (normalizeMeta (metadata ly)) (normalizeMeta wm)) /\
  reasons v <> [] /\
  reasons v <> [L "not detected"] /\
  (supported v = true <->
   last (reasons v) [] = L "has basic WFS metadata (title + srs)") /\
  (supported v = true -> length (reasons v) = 2).
Proof.
  intro H. unfold getWfsSupportMap in H.
  destruct (walk_computed (split_crlf text) initial) with (nm := nm) (v := v)
    as (ly & wm & Hn & Hv); [intros ? ? K; discriminate K | exact H |].
  split; [now exists ly, wm|]. rewrite Hv. apply computed_reasons.
Qed.

Lemma support_map_verdicts_witness :
  obj_get (getWfsSupportMap
             (L "MAP" ++ [LF] ++ L " LAYER" ++ [LF] ++ L "  NAME roads" ++ [LF]
              ++ L "  TYPE LINE" ++ [LF] ++ L " END" ++ [LF] ++ L "END"))
          (L "roads")
  = Some (mkVerdict false
            [L "missing enable metadata (wfs_enable_request / ows_enable_request)"]) /\
  reasons (mkVerdict false
             [L "missing enable metadata (wfs_enable_request / ows_enable_request)"])
  <> [L "not detected"].
Proof.
  split; [reflexivity|].
  exact (proj1 (proj2 (proj2
           (support_map_verdicts
              (L "MAP" ++ [LF] ++ L " LAYER" ++ [LF] ++ L "  NAME roads" ++ [LF]
               ++ L "  TYPE LINE" ++ [LF] ++ L " END" ++ [LF] ++ L "END")
              (L "roads")
              (mkVerdict false
                 [L "missing enable metadata (wfs_enable_request / ows_enable_request)"])
              eq_refl)))).
Defined.

End WfsMoreFacts.

(* ================================================================== *)
(** ** Formatter: changing the indent width *)
(* ================================================================== *)

Section FormatterMoreFacts.
Import Formatter.

Lemma step_stack_indent ind1 ind2 stack raw :
  fst (step ind1 stack raw) = fst (step ind2 stack raw).
Proof.
  unfold step, step_trimmed.
  destruct (is_empty (trim raw)); [reflexivity|].
  destruct (startsWith [HASH] (trim raw)); [reflexivity|].
  destruct (match_endLine (trim raw)); [reflexivity|].
  destruct (match_openerLine (trim raw)); [|reflexivity].
  match goal with |- context [if ?b then _ else _] => destruct b end; reflexivity.
Qed.

Lemma loop_reindent ind1 ind2 stack lines :
  forallb is_space ind1 = true ->
  loop ind2 stack (loop ind1 stack lines) = loop ind2 stack lines.
Proof.
  intro H. revert stack. induction lines as [|raw rest IH]; intro stack; [reflexivity|].
  cbn [loop]. destruct (step ind1 stack raw) as [stack1 o1] eqn:E1.
  cbn [loop].
  assert (Et : trim o1 = trim raw).
  { change o1 with (snd (stack1, o1)). rewrite <- E1. now apply step_out_trim. }
  assert (E2 : step ind2 stack o1 = step ind2 stack raw).
  { unfold step. now rewrite Et. }
  rewrite E2. destruct (step ind2 stack raw) as [stack2 o2] eqn:E3.
  assert (stack1 = stack2) as ->.
  { change stack1 with (fst (stack1, o1)). rewrite <- E1.
    change stack2 with (fst (stack2, o2)). rewrite <- E3.
    apply step_stack_indent. }
  now rewrite IH.
Qed.

(** X24.  Formatting a formatted text with another indent width gives what
    formatting the original text with that width gives: the width of an
    earlier pass leaves no trace. *)
Theorem format_reindent (x : str) (w1 w2 : Z) :
  formatMapfile (formatMapfile x w1) w2 = formatMapfile x w2.
Proof.
  unfold formatMapfile at 1 3. fold (formatMapfile x w2).
  unfold formatMapfile.
  destruct (format_lines x w1) as [Ht [_ Hs]]. cbv zeta in Ht, Hs.
  rewrite Ht, Hs. f_equal. apply loop_reindent, IND_spaces.
Qed.

End FormatterMoreFacts.

